(** * Vue 3.4 reactivity core and scheduler: a shallow embedding

    The first part embeds the code: the tick scheduler of
    packages/runtime-core/src/scheduler.ts, the dependency graph of
    packages/reactivity/src (dep.ts, effect.ts, reactiveEffect.ts) with its
    triggers and effects, the computed values of computed.ts, and [traverse]
    and [doWatch] of apiWatch.ts.  Module
    variables are fields of a state record that every function takes and
    returns; JavaScript Maps are association lists in insertion order; loops
    that need not end take fuel.  The second part proves the properties of
    the specification that the code has, and shows on concrete inputs where
    the code parts from it. *)

From stdpp Require Import gmap strings list fin_maps sorting.
From Stdlib Require Import ZArith Lia.

Set Warnings "-clear-no-such-hyp".

(** * Part I: the code *)

(** * The tick scheduler (packages/runtime-core/src/scheduler.ts) *)

Module Scheduler.

(** JavaScript numbers as they occur in job ids and comparator results:
    integers, the two infinities and NaN. *)
Inductive jsnum := Num (z : Z) | PosInf | NegInf | NaN.

#[global] Instance jsnum_eq_dec : EqDecision jsnum.
Proof. solve_decision. Defined.

(** [a - b] on JavaScript numbers. *)
Definition js_sub (a b : jsnum) : jsnum :=
  match a, b with
  | NaN, _ | _, NaN => NaN
  | Num x, Num y => Num (x - y)
  | Num _, PosInf => NegInf
  | Num _, NegInf => PosInf
  | PosInf, PosInf => NaN
  | PosInf, _ => PosInf
  | NegInf, NegInf => NaN
  | NegInf, _ => NegInf
  end.

(** [a < b]; every comparison with NaN is false. *)
Definition js_lt (a b : jsnum) : bool :=
  match a, b with
  | NaN, _ | _, NaN => false
  | Num x, Num y => (x <? y)%Z
  | NegInf, NegInf => false
  | NegInf, _ => true
  | _, NegInf => false
  | PosInf, _ => false
  | Num _, PosInf => true
  end.

(** [a === b]; NaN is not equal to itself. *)
Definition js_eq (a b : jsnum) : bool :=
  match a, b with
  | Num x, Num y => (x =? y)%Z
  | PosInf, PosInf | NegInf, NegInf => true
  | _, _ => false
  end.

(** The owning component of a job, as far as the scheduler looks at it:
    [uid], and the name [getComponentName(instance.type)] reports, if any. *)
Record ComponentInternalInstance := { uid : Z; name : option string }.

(** A job is a function object carrying optional properties.  [fn] stands
    for the identity of the function object; [id] is [None] when the property
    is [undefined] or [null]; [pre] and [allowRecurse] are read for truthiness
    only; [active] keeps the three cases apart because the scheduler tests
    [job.active !== false]. *)
Record SchedulerJob := {
  fn : nat;
  id : option Z;
  pre : bool;
  active : option bool;
  allowRecurse : bool;
  i : option ComponentInternalInstance
}.

#[global] Instance ComponentInternalInstance_eq_dec :
  EqDecision ComponentInternalInstance.
Proof. solve_decision. Defined.

#[global] Instance SchedulerJob_eq_dec : EqDecision SchedulerJob.
Proof. solve_decision. Defined.

#[global] Instance SchedulerJob_countable : Countable SchedulerJob.
Proof.
  refine (inj_countable'
    (fun j => (fn j, id j, pre j, active j, allowRecurse j,
               (fun c => (uid c, name c)) <$> i j))
    (fun t => let '(f, d, p, a, r, c) := t in
       {| fn := f; id := d; pre := p; active := a; allowRecurse := r;
          i := (fun c => {| uid := c.1; name := c.2 |}) <$> c |}) _).
  intros [f d p a r [[u n]|]]; reflexivity.
Defined.

(** Modelled from the spec: the [ErrorCodes] of errorHandling.ts that the
    scheduler passes on. *)
Inductive ErrorCodes := SCHEDULER | COMPONENT_UPDATE | APP_ERROR_HANDLER.

(** What [handleError] receives from [checkRecursiveUpdates]: the
    "Maximum recursive updates exceeded" message, with the component name
    when the job has an owner whose name is known, and the error code. *)
Record ErrorRecord := {
  in_component : option string;
  code : ErrorCodes
}.

(** What invoking a job does to the scheduler: calls into its API. *)
Inductive action :=
  | QueueJob (job : SchedulerJob)
  | InvalidateJob (job : SchedulerJob)
  | QueuePostFlushCb (cb : SchedulerJob).

(** The module-level variables of scheduler.ts, with two logs added for
    observation: the jobs invoked so far and the errors handed to
    [handleError]. *)
Record State := {
  isFlushing : bool;
  isFlushPending : bool;
  queue : list SchedulerJob;
  flushIndex : nat;
  pendingPostFlushCbs : list SchedulerJob;
  activePostFlushCbs : option (list SchedulerJob);
  postFlushIndex : nat;
  currentFlushPromise : bool;
  invoked : list SchedulerJob;
  errors : list ErrorRecord
}.

Definition initial : State :=
  {| isFlushing := false; isFlushPending := false; queue := []; flushIndex := 0;
     pendingPostFlushCbs := []; activePostFlushCbs := None; postFlushIndex := 0;
     currentFlushPromise := false; invoked := []; errors := [] |}.

Definition set_isFlushing (b : bool) (s : State) : State :=
  {| isFlushing := b; isFlushPending := isFlushPending s; queue := queue s;
     flushIndex := flushIndex s; pendingPostFlushCbs := pendingPostFlushCbs s;
     activePostFlushCbs := activePostFlushCbs s; postFlushIndex := postFlushIndex s;
     currentFlushPromise := currentFlushPromise s; invoked := invoked s;
     errors := errors s |}.

Definition set_isFlushPending (b : bool) (s : State) : State :=
  {| isFlushing := isFlushing s; isFlushPending := b; queue := queue s;
     flushIndex := flushIndex s; pendingPostFlushCbs := pendingPostFlushCbs s;
     activePostFlushCbs := activePostFlushCbs s; postFlushIndex := postFlushIndex s;
     currentFlushPromise := currentFlushPromise s; invoked := invoked s;
     errors := errors s |}.

Definition set_queue (q : list SchedulerJob) (s : State) : State :=
  {| isFlushing := isFlushing s; isFlushPending := isFlushPending s; queue := q;
     flushIndex := flushIndex s; pendingPostFlushCbs := pendingPostFlushCbs s;
     activePostFlushCbs := activePostFlushCbs s; postFlushIndex := postFlushIndex s;
     currentFlushPromise := currentFlushPromise s; invoked := invoked s;
     errors := errors s |}.

Definition set_flushIndex (n : nat) (s : State) : State :=
  {| isFlushing := isFlushing s; isFlushPending := isFlushPending s; queue := queue s;
     flushIndex := n; pendingPostFlushCbs := pendingPostFlushCbs s;
     activePostFlushCbs := activePostFlushCbs s; postFlushIndex := postFlushIndex s;
     currentFlushPromise := currentFlushPromise s; invoked := invoked s;
     errors := errors s |}.

Definition set_pendingPostFlushCbs (q : list SchedulerJob) (s : State) : State :=
  {| isFlushing := isFlushing s; isFlushPending := isFlushPending s; queue := queue s;
     flushIndex := flushIndex s; pendingPostFlushCbs := q;
     activePostFlushCbs := activePostFlushCbs s; postFlushIndex := postFlushIndex s;
     currentFlushPromise := currentFlushPromise s; invoked := invoked s;
     errors := errors s |}.

Definition set_activePostFlushCbs (q : option (list SchedulerJob)) (s : State) : State :=
  {| isFlushing := isFlushing s; isFlushPending := isFlushPending s; queue := queue s;
     flushIndex := flushIndex s; pendingPostFlushCbs := pendingPostFlushCbs s;
     activePostFlushCbs := q; postFlushIndex := postFlushIndex s;
     currentFlushPromise := currentFlushPromise s; invoked := invoked s;
     errors := errors s |}.

Definition set_postFlushIndex (n : nat) (s : State) : State :=
  {| isFlushing := isFlushing s; isFlushPending := isFlushPending s; queue := queue s;
     flushIndex := flushIndex s; pendingPostFlushCbs := pendingPostFlushCbs s;
     activePostFlushCbs := activePostFlushCbs s; postFlushIndex := n;
     currentFlushPromise := currentFlushPromise s; invoked := invoked s;
     errors := errors s |}.

Definition set_currentFlushPromise (b : bool) (s : State) : State :=
  {| isFlushing := isFlushing s; isFlushPending := isFlushPending s; queue := queue s;
     flushIndex := flushIndex s; pendingPostFlushCbs := pendingPostFlushCbs s;
     activePostFlushCbs := activePostFlushCbs s; postFlushIndex := postFlushIndex s;
     currentFlushPromise := b; invoked := invoked s; errors := errors s |}.

Definition log_invoked (job : SchedulerJob) (s : State) : State :=
  {| isFlushing := isFlushing s; isFlushPending := isFlushPending s; queue := queue s;
     flushIndex := flushIndex s; pendingPostFlushCbs := pendingPostFlushCbs s;
     activePostFlushCbs := activePostFlushCbs s; postFlushIndex := postFlushIndex s;
     currentFlushPromise := currentFlushPromise s; invoked := invoked s ++ [job];
     errors := errors s |}.

(** Modelled from the spec: [handleError(err, null, type)] of
    errorHandling.ts forwards the error to the handler, and the flush goes
    on. *)
Definition handleError (e : ErrorRecord) (s : State) : State :=
  {| isFlushing := isFlushing s; isFlushPending := isFlushPending s; queue := queue s;
     flushIndex := flushIndex s; pendingPostFlushCbs := pendingPostFlushCbs s;
     activePostFlushCbs := activePostFlushCbs s; postFlushIndex := postFlushIndex s;
     currentFlushPromise := currentFlushPromise s; invoked := invoked s;
     errors := errors s ++ [e] |}.

Definition RECURSION_LIMIT : nat := 100.

Abbreviation CountMap := (gmap SchedulerJob nat).

(** [getId]: a job without id counts as [Infinity]. *)
Definition getId (job : SchedulerJob) : jsnum :=
  match id job with
  | None => PosInf
  | Some n => Num n
  end.

(** [x >>> 1] for a sum of two array indices: ToUint32, then a shift. *)
Definition ushr1 (x : nat) : nat :=
  Z.to_nat (Z.shiftr (Z.of_nat x mod 2 ^ 32) 1).

(** The test of the binary search:
    [middleJobId < id || (middleJobId === id && middleJob.pre)]. *)
Definition before_id (middleJob : SchedulerJob) (n : Z) : bool :=
  js_lt (getId middleJob) (Num n) || (js_eq (getId middleJob) (Num n) && pre middleJob).

(** The [while (start < end)] loop of [findInsertionIndex].  One unit of fuel
    per iteration; [None] when the fuel runs out or [queue[middle]] is not an
    element (reading [.id] of [undefined] throws). *)
Fixpoint findInsertionIndex_loop (fuel : nat) (q : list SchedulerJob) (n : Z)
    (start end_ : nat) : option nat :=
  if start <? end_ then
    match fuel with
    | O => None
    | S fuel' =>
        let middle := ushr1 (start + end_) in
        match q !! middle with
        | None => None
        | Some middleJob =>
            if before_id middleJob n
            then findInsertionIndex_loop fuel' q n (middle + 1) end_
            else findInsertionIndex_loop fuel' q n start middle
        end
    end
  else Some start.

Definition findInsertionIndex (s : State) (n : Z) : option nat :=
  findInsertionIndex_loop (length (queue s)) (queue s) n
    (flushIndex s + 1) (length (queue s)).

(** [queue.includes(job, fromIndex)]. *)
Definition includes (job : SchedulerJob) (q : list SchedulerJob) (fromIndex : nat) : bool :=
  bool_decide (job ∈ drop fromIndex q).

(** [queue.splice(start, 0, job)]: a start beyond the end is clamped. *)
Definition splice_insert (start : nat) (job : SchedulerJob) (q : list SchedulerJob) :
    list SchedulerJob :=
  take start q ++ job :: drop start q.

(** [queue.splice(start, 1)]. *)
Definition splice_remove (start : nat) (q : list SchedulerJob) : list SchedulerJob :=
  take start q ++ drop (S start) q.

(** [queue.indexOf(job)]: the first index holding [job], or [-1]. *)
Fixpoint indexOf (job : SchedulerJob) (q : list SchedulerJob) : Z :=
  match q with
  | [] => -1
  | x :: q' =>
      if decide (x = job) then 0
      else let r := indexOf job q' in if (r <? 0)%Z then -1 else r + 1
  end%Z.

Definition queueFlush (s : State) : State :=
  if negb (isFlushing s) && negb (isFlushPending s)
  then set_currentFlushPromise true (set_isFlushPending true s)
  else s.

Definition queueJob (job : SchedulerJob) (s : State) : option State :=
  if (length (queue s) =? 0)
     || negb (includes job (queue s)
                (if isFlushing s && allowRecurse job
                 then flushIndex s + 1 else flushIndex s))
  then
    q' ← match id job with
         | None => Some (queue s ++ [job])
         | Some n => idx ← findInsertionIndex s n;
                     Some (splice_insert idx job (queue s))
         end;
    Some (queueFlush (set_queue q' s))
  else Some s.

Definition invalidateJob (job : SchedulerJob) (s : State) : State :=
  let i := indexOf job (queue s) in
  if (Z.of_nat (flushIndex s) <? i)%Z
  then set_queue (splice_remove (Z.to_nat i) (queue s)) s
  else s.

(** [queuePostFlushCb(cb)] for a single callback. *)
Definition queuePostFlushCb (cb : SchedulerJob) (s : State) : State :=
  let s1 :=
    match activePostFlushCbs s with
    | Some act =>
        if includes cb act
             (if allowRecurse cb then postFlushIndex s + 1 else postFlushIndex s)
        then s
        else set_pendingPostFlushCbs (pendingPostFlushCbs s ++ [cb]) s
    | None => set_pendingPostFlushCbs (pendingPostFlushCbs s ++ [cb]) s
    end in
  queueFlush s1.

(** [Array.prototype.sort(comparefn)]: the sort is stable, a comparator
    result of NaN counts as [+0], and [x] goes behind [y] exactly when
    [comparefn(x, y) > 0].  Insertion from the right end keeps equal
    elements in their order. *)
Definition js_gt0 (v : jsnum) : bool := js_lt (Num 0) v.

Fixpoint sort_insert {A} (cmp : A → A → jsnum) (x : A) (l : list A) : list A :=
  match l with
  | [] => [x]
  | y :: l' => if js_gt0 (cmp x y) then y :: sort_insert cmp x l' else x :: l
  end.

Fixpoint array_sort {A} (cmp : A → A → jsnum) (l : list A) : list A :=
  match l with
  | [] => []
  | x :: l' => sort_insert cmp x (array_sort cmp l')
  end.

Definition comparator (a b : SchedulerJob) : jsnum :=
  let diff := js_sub (getId a) (getId b) in
  if js_eq diff (Num 0) then
    if pre a && negb (pre b) then Num (-1)
    else if pre b && negb (pre a) then Num 1
    else diff
  else diff.

(** [[...new Set(l)]]: first occurrences, in order. *)
Definition dedupe (l : list SchedulerJob) : list SchedulerJob :=
  reverse (remove_dups (reverse l)).

(** [checkRecursiveUpdates(seen, fn)]: the result is [true] when the limit is
    exceeded, and falsy otherwise. *)
Definition checkRecursiveUpdates (seen : CountMap) (job : SchedulerJob) (s : State) :
    bool * CountMap * State :=
  match seen !! job with
  | None => (false, <[job := 1]> seen, s)
  | Some count =>
      if RECURSION_LIMIT <? count
      then (true, seen,
            handleError {| in_component := i job ≫= name;
                           code := APP_ERROR_HANDLER |} s)
      else (false, <[job := count + 1]> seen, s)
  end.

Definition run_action (a : action) (s : State) : option State :=
  match a with
  | QueueJob job => queueJob job s
  | InvalidateJob job => Some (invalidateJob job s)
  | QueuePostFlushCb cb => Some (queuePostFlushCb cb s)
  end.

Fixpoint run_actions (l : list action) (s : State) : option State :=
  match l with
  | [] => Some s
  | a :: l' => s' ← run_action a s; run_actions l' s'
  end.

Section Flush.

(** The build flag, and what each job function does when it is called. *)
Variable __DEV__ : bool.
Variable behaviour : nat → list action.

(** Calling the job: [callWithErrorHandling(job, job.i, ...)] in the main
    queue, a plain call in the post queue. *)
Definition call (job : SchedulerJob) (s : State) : option State :=
  run_actions (behaviour (fn job)) (log_invoked job s).

(** One turn of the [for] loop of [flushJobs]: the body, then
    [flushIndex++] ([continue] reaches the increment too). *)
Definition flush_step (seen : CountMap) (s : State) : option (CountMap * State) :=
  match queue s !! flushIndex s with
  | Some job =>
      if bool_decide (active job ≠ Some false) then
        let '(over, seen1, s1) :=
          if __DEV__ then checkRecursiveUpdates seen job s
          else (false, seen, s) in
        if over
        then Some (seen1, set_flushIndex (flushIndex s1 + 1) s1)
        else
          s2 ← call job s1;
          Some (seen1, set_flushIndex (flushIndex s2 + 1) s2)
      else Some (seen, set_flushIndex (flushIndex s + 1) s)
  | None => Some (seen, set_flushIndex (flushIndex s + 1) s)
  end.

(** The [for (flushIndex = 0; flushIndex < queue.length; flushIndex++)] loop
    of [flushJobs], entered with [flushIndex] already set.  One unit of fuel
    per turn. *)
Fixpoint flush_queue (fuel : nat) (seen : CountMap) (s : State) :
    option (CountMap * State) :=
  if flushIndex s <? length (queue s) then
    match fuel with
    | O => None
    | S fuel' => '(seen', s') ← flush_step seen s; flush_queue fuel' seen' s'
    end
  else Some (seen, s).

(** The first [n] turns of that loop, whatever the loop test says. *)
Fixpoint flush_turns (n : nat) (seen : CountMap) (s : State) :
    option (CountMap * State) :=
  match n with
  | O => Some (seen, s)
  | S n' => '(seen', s') ← flush_step seen s; flush_turns n' seen' s'
  end.

(** One turn of the loop of [flushPostFlushCbs] over [activePostFlushCbs]. *)
Definition post_step (act : list SchedulerJob) (seen : CountMap) (s : State) :
    option (CountMap * State) :=
  match act !! postFlushIndex s with
  | Some cb =>
      let '(over, seen1, s1) :=
        if __DEV__ then checkRecursiveUpdates seen cb s
        else (false, seen, s) in
      if over
      then Some (seen1, set_postFlushIndex (postFlushIndex s1 + 1) s1)
      else if bool_decide (active cb ≠ Some false) then
        s2 ← call cb s1;
        Some (seen1, set_postFlushIndex (postFlushIndex s2 + 1) s2)
      else Some (seen1, set_postFlushIndex (postFlushIndex s1 + 1) s1)
  | None => None
  end.

Fixpoint flush_post (fuel : nat) (seen : CountMap) (s : State) :
    option (CountMap * State) :=
  match activePostFlushCbs s with
  | None => None
  | Some act =>
      if postFlushIndex s <? length act then
        match fuel with
        | O => None
        | S fuel' => '(seen', s') ← post_step act seen s; flush_post fuel' seen' s'
        end
      else Some (seen, s)
  end.

Definition flushPostFlushCbs (fuel : nat) (seen : option CountMap) (s : State) :
    option (option CountMap * State) :=
  if length (pendingPostFlushCbs s) =? 0 then Some (seen, s)
  else
    let deduped :=
      array_sort (fun a b => js_sub (getId a) (getId b))
        (dedupe (pendingPostFlushCbs s)) in
    let s := set_pendingPostFlushCbs [] s in
    match activePostFlushCbs s with
    | Some act => Some (seen, set_activePostFlushCbs (Some (act ++ deduped)) s)
    | None =>
        let s := set_activePostFlushCbs (Some deduped) s in
        let seen := if __DEV__ then Some (default ∅ seen) else seen in
        '(seen', s') ← flush_post fuel (default ∅ seen) (set_postFlushIndex 0 s);
        Some (if __DEV__ then Some seen' else seen,
              set_postFlushIndex 0 (set_activePostFlushCbs None s'))
    end.

(** [flushJobs(seen)].  The fuel bounds the iterations of each loop and the
    depth of the recursion at the end; [None] is a flush that has not
    finished within it. *)
Fixpoint flushJobs (fuel : nat) (seen : option CountMap) (s : State) : option State :=
  match fuel with
  | O => None
  | S fuel' =>
      let s := set_isFlushing true (set_isFlushPending false s) in
      let seen := if __DEV__ then Some (default ∅ seen) else seen in
      let s := set_queue (array_sort comparator (queue s)) s in
      '(seen1, s) ← flush_queue fuel' (default ∅ seen) (set_flushIndex 0 s);
      let seen := if __DEV__ then Some seen1 else seen in
      let s := set_queue [] (set_flushIndex 0 s) in
      '(seen, s) ← flushPostFlushCbs fuel' seen s;
      let s := set_currentFlushPromise false (set_isFlushing false s) in
      if negb (length (queue s) =? 0) || negb (length (pendingPostFlushCbs s) =? 0)
      then flushJobs fuel' seen s
      else Some s
  end.

End Flush.

(** The window of [queue] that [queueJob] searches for a duplicate starts
    here. *)
Definition dedupe_start (job : SchedulerJob) (s : State) : nat :=
  if isFlushing s && allowRecurse job then flushIndex s + 1 else flushIndex s.

(** The order the comparator induces: [a] may stand before [b]. *)
Definition job_le (a b : SchedulerJob) : Prop := js_gt0 (comparator a b) = false.

(** Ids alone, with no id as Infinity. *)
Definition id_le (a b : SchedulerJob) : Prop := js_lt (getId b) (getId a) = false.

(** Sample jobs and states. *)
Definition plain_job (f : nat) (n : option Z) (p : bool) : SchedulerJob :=
  {| fn := f; id := n; pre := p; active := None; allowRecurse := false; i := None |}.

Definition recursive_job (f : nat) (n : option Z) : SchedulerJob :=
  {| fn := f; id := n; pre := false; active := None; allowRecurse := true;
     i := Some {| uid := 1; name := Some "App" |} |}.

Definition self_queueing (job : SchedulerJob) (f : nat) : list action :=
  if decide (f = fn job) then [QueueJob job] else [].

Definition inert (f : nat) : list action := [].

(** The job function [f] queues [job]; the other functions call nothing. *)
Definition queues (f : nat) (job : SchedulerJob) (g : nat) : list action :=
  if decide (g = f) then [QueueJob job] else [].

(** A scheduler with [q] queued and a flush requested, as [queueJob] leaves
    an idle scheduler. *)
Definition flush_requested (q : list SchedulerJob) : State :=
  {| isFlushing := false; isFlushPending := true; queue := q; flushIndex := 0;
     pendingPostFlushCbs := []; activePostFlushCbs := None; postFlushIndex := 0;
     currentFlushPromise := true; invoked := []; errors := [] |}.

(** The job of a watcher with [flush: 'pre'] that may trigger itself. *)
Definition pre_recursive_job (f : nat) (n : option Z) : SchedulerJob :=
  {| fn := f; id := n; pre := true; active := None; allowRecurse := true;
     i := Some {| uid := 1; name := Some "App" |} |}.

(** A flush over the sorted queue [q] that is about to make its first
    turn. *)
Definition flush_begun (q : list SchedulerJob) : State :=
  {| isFlushing := true; isFlushPending := false; queue := q; flushIndex := 0;
     pendingPostFlushCbs := []; activePostFlushCbs := None; postFlushIndex := 0;
     currentFlushPromise := true; invoked := []; errors := [] |}.

(** Each of the job functions [fs] queues [job]. *)
Definition queued_by (fs : list nat) (job : SchedulerJob) (g : nat) : list action :=
  if bool_decide (g ∈ fs) then [QueueJob job] else [].

(** How often [job] has been invoked. *)
Definition invocations (job : SchedulerJob) (s : State) : nat :=
  length (filter (λ j, j = job) (invoked s)).

(** The seen-map of a flush that [s0] began counts the invocations since. *)
Definition counts_since (s0 : State) (seen : CountMap) (s : State) : Prop :=
  ∀ job, invocations job s = invocations job s0 + default 0 (seen !! job)
         ∧ default 0 (seen !! job) ≤ S RECURSION_LIMIT.

(** The seen-map of a flush that [s0] began bounds the invocations since:
    the map also counts a post-flush callback that is deactivated, which is
    not invoked. *)
Definition counts_within (s0 : State) (seen : CountMap) (s : State) : Prop :=
  ∀ job, invocations job s ≤ invocations job s0 + default 0 (seen !! job)
         ∧ default 0 (seen !! job) ≤ S RECURSION_LIMIT.

(** A flush over [q] while the job at index [k] runs, nothing having been
    queued since the flush began. *)
Definition flushing_at (k : nat) (q : list SchedulerJob) : State :=
  {| isFlushing := true; isFlushPending := false; queue := q; flushIndex := k;
     pendingPostFlushCbs := []; activePostFlushCbs := None; postFlushIndex := 0;
     currentFlushPromise := true; invoked := take (S k) q; errors := [] |}.

(** A flush in which [job], alone in the queue at first, has run [k] times
    and has queued itself again each time. *)
Definition self_queued (job : SchedulerJob) (k : nat) : State :=
  {| isFlushing := true; isFlushPending := false; queue := replicate (S k) job;
     flushIndex := k; pendingPostFlushCbs := []; activePostFlushCbs := None;
     postFlushIndex := 0; currentFlushPromise := true;
     invoked := replicate k job; errors := [] |}.

Definition seen_times (job : SchedulerJob) (k : nat) : CountMap :=
  match k with O => ∅ | S _ => {[ job := k ]} end.

Definition recursion_error (job : SchedulerJob) : ErrorRecord :=
  {| in_component := i job ≫= name; code := APP_ERROR_HANDLER |}.

(** The scheduler after that flush has hit the recursion limit and ended. *)
Definition after_limit (job : SchedulerJob) : State :=
  {| isFlushing := false; isFlushPending := false; queue := []; flushIndex := 0;
     pendingPostFlushCbs := []; activePostFlushCbs := None; postFlushIndex := 0;
     currentFlushPromise := false;
     invoked := replicate (S RECURSION_LIMIT) job;
     errors := [recursion_error job] |}.

(** ** The rest of the interface of scheduler.ts *)

(** [queuePostFlushCb(cb)] for an array of callbacks: they are pushed with no
    duplicate check. *)
Definition queuePostFlushCbs (cbs : list SchedulerJob) (s : State) : State :=
  queueFlush (set_pendingPostFlushCbs (pendingPostFlushCbs s ++ cbs) s).

(** The callbacks that [flushPreFlushCbs(instance)] takes out of the queue:
    those with [pre], and, when an instance is given, with its uid as id. *)
Definition pre_selected (instance : option ComponentInternalInstance)
    (cb : SchedulerJob) : bool :=
  pre cb && match instance with
            | Some inst => bool_decide (id cb = Some (uid inst))
            | None => true
            end.

Section PreFlush.

Variable __DEV__ : bool.
Variable behaviour : nat → list action.

(** One turn of the loop of [flushPreFlushCbs]: the body and [i++].  A
    callback that is run has been spliced out before, and [i--] makes the
    next turn look at the same index. *)
Definition pre_step (instance : option ComponentInternalInstance)
    (seen : CountMap) (i : nat) (s : State) : option (CountMap * nat * State) :=
  match queue s !! i with
  | Some cb =>
      if pre cb then
        if match instance with
           | Some inst => negb (bool_decide (id cb = Some (uid inst)))
           | None => false
           end
        then Some (seen, i + 1, s)
        else
          let '(over, seen1, s1) :=
            if __DEV__ then checkRecursiveUpdates seen cb s
            else (false, seen, s) in
          if over then Some (seen1, i + 1, s1)
          else
            s2 ← call behaviour cb (set_queue (splice_remove i (queue s1)) s1);
            Some (seen1, i, s2)
      else Some (seen, i + 1, s)
  | None => Some (seen, i + 1, s)
  end.

Fixpoint flush_pre (fuel : nat) (instance : option ComponentInternalInstance)
    (seen : CountMap) (i : nat) (s : State) : option (CountMap * State) :=
  if i <? length (queue s) then
    match fuel with
    | O => None
    | S fuel' =>
        '(seen', i', s') ← pre_step instance seen i s;
        flush_pre fuel' instance seen' i' s'
    end
  else Some (seen, s).

(** [flushPreFlushCbs(instance, seen, i)]; [start] is the third argument when
    the caller gives it. *)
Definition flushPreFlushCbs (fuel : nat) (instance : option ComponentInternalInstance)
    (seen : option CountMap) (start : option nat) (s : State) :
    option (CountMap * State) :=
  flush_pre fuel instance (default ∅ seen)
    (default (if isFlushing s then flushIndex s + 1 else 0) start) s.

(** What happens to the scheduler between two of its own steps: a call into
    its interface, or the microtask that [queueFlush] has scheduled, which
    calls [flushJobs].  A microtask with no flush scheduled does nothing. *)
Inductive event :=
  | Api (a : action)
  | Microtask.

Definition run_event (fuel : nat) (s : State) (ev : event) : option State :=
  match ev with
  | Api a => run_action a s
  | Microtask =>
      if isFlushPending s then flushJobs __DEV__ behaviour fuel None s else Some s
  end.

Fixpoint run_events (fuel : nat) (evs : list event) (s : State) : option State :=
  match evs with
  | [] => Some s
  | ev :: evs' => s' ← run_event fuel s ev; run_events fuel evs' s'
  end.

End PreFlush.

(** The scheduler at rest, with the two logs. *)
Definition idle_with (inv : list SchedulerJob) (errs : list ErrorRecord) : State :=
  {| isFlushing := false; isFlushPending := false; queue := []; flushIndex := 0;
     pendingPostFlushCbs := []; activePostFlushCbs := None; postFlushIndex := 0;
     currentFlushPromise := false; invoked := inv; errors := errs |}.

(** Between two events no flush is running, and jobs or callbacks wait only
    when a flush is scheduled. *)
Record at_rest (s : State) : Prop := {
  rest_not_flushing : isFlushing s = false;
  rest_flushIndex : flushIndex s = 0;
  rest_no_active : activePostFlushCbs s = None;
  rest_postFlushIndex : postFlushIndex s = 0;
  rest_promise : currentFlushPromise s = isFlushPending s;
  rest_scheduled :
    queue s ≠ [] ∨ pendingPostFlushCbs s ≠ [] → isFlushPending s = true
}.

(** A job that the walk of a flush invokes. *)
Definition runnable (job : SchedulerJob) : bool :=
  bool_decide (active job ≠ Some false).

(** How often a job stands in a list. *)
Definition occurrences_of (job : SchedulerJob) (l : list SchedulerJob) : nat :=
  length (filter (λ j, j = job) l).

(** The comparator of the sort in [flushPostFlushCbs]. *)
Definition by_id (a b : SchedulerJob) : jsnum := js_sub (getId a) (getId b).

(** The fields that a call into the interface does not write, and the two
    that it writes only when no flush is running. *)
Definition api_frame (s s' : State) : Prop :=
  isFlushing s' = isFlushing s ∧ flushIndex s' = flushIndex s
  ∧ activePostFlushCbs s' = activePostFlushCbs s ∧ postFlushIndex s' = postFlushIndex s
  ∧ (isFlushing s = true →
     isFlushPending s' = isFlushPending s ∧ currentFlushPromise s' = currentFlushPromise s).

(** While a flush runs, its walks write [flushIndex] and [postFlushIndex]
    and nothing else of the flags. *)
Definition walk_frame (s s' : State) : Prop :=
  isFlushing s' = isFlushing s ∧ activePostFlushCbs s' = activePostFlushCbs s
  ∧ (isFlushing s = true →
     isFlushPending s' = isFlushPending s ∧ currentFlushPromise s' = currentFlushPromise s).

(** The logs only grow. *)
Definition logs_grow (s s' : State) : Prop :=
  invoked s `prefix_of` invoked s' ∧ errors s `prefix_of` errors s'.

(** The state after the jobs of [l] have been invoked one after the other
    and none of them has touched the scheduler. *)
Definition log_all (l : list SchedulerJob) (s : State) : State :=
  foldl (λ s job, log_invoked job s) s l.

(** Where [flushPreFlushCbs] starts in [queue]: its third argument, and
    without one behind the job that is running, or at the front when no flush
    is running. *)
Definition pre_start (start : option nat) (s : State) : nat :=
  default (if isFlushing s then flushIndex s + 1 else 0) start.

(** ** A flush over finitely many jobs *)

(** The jobs of [J] queue jobs of [J] only. *)
Definition closed_under (behaviour : nat → list action) (J : list SchedulerJob) : Prop :=
  ∀ j a, j ∈ J → a ∈ behaviour (fn j) →
    match a with
    | QueueJob j' => j' ∈ J
    | InvalidateJob _ => True
    | QueuePostFlushCb cb => cb ∈ J
    end.

(** The largest number of calls into the scheduler that a job of [J]
    makes. *)
Definition width (behaviour : nat → list action) (J : list SchedulerJob) : nat :=
  foldr (λ j n, length (behaviour (fn j)) `max` n) 0 J.

(** The number of turns that the recursion check lets pass at most for the
    jobs of [J], and the number it has let pass. *)
Definition cap (J : list SchedulerJob) : nat :=
  S RECURSION_LIMIT * length (remove_dups J).

Definition spent (seen : CountMap) (J : list SchedulerJob) : nat :=
  sum_list ((λ j, default 0 (seen !! j)) <$> remove_dups J).

(** The entries that the calls still to come can add to the queue, or to
    the pending callbacks. *)
Definition room (behaviour : nat → list action) (J : list SchedulerJob)
    (seen : CountMap) : nat :=
  width behaviour J * (cap J - spent seen J).

(** Fuel that a flush in a development build does not use up. *)
Definition flush_fuel (behaviour : nat → list action) (J : list SchedulerJob)
    (s : State) : nat :=
  1 + length (queue s) + length (pendingPostFlushCbs s)
  + 3 * (width behaviour J * cap J).

(** What a flush over the jobs of [J] keeps: only jobs of [J] wait, the
    counts are within the limit, and the queue has room for the entries to
    come below the size at which [findInsertionIndex] goes wrong. *)
Record within_budget (behaviour : nat → list action) (J : list SchedulerJob)
    (seen : CountMap) (s : State) : Prop := {
  budget_queue : ∀ j, j ∈ queue s → j ∈ J;
  budget_pending : ∀ j, j ∈ pendingPostFlushCbs s → j ∈ J;
  budget_counts : ∀ j, default 0 (seen !! j) ≤ S RECURSION_LIMIT;
  budget_size : (Z.of_nat (length (queue s) + room behaviour J seen) < 2 ^ 31)%Z
}.

(** What a walk of a flush does to the budget: the lists grow by no more
    than the room shrinks. *)
Definition budget_kept (behaviour : nat → list action) (J : list SchedulerJob)
    (seen : CountMap) (s : State) (seen' : CountMap) (s' : State) : Prop :=
  within_budget behaviour J seen' s'
  ∧ room behaviour J seen' ≤ room behaviour J seen
  ∧ length (queue s') + room behaviour J seen' ≤ length (queue s) + room behaviour J seen
  ∧ length (pendingPostFlushCbs s') + room behaviour J seen'
    ≤ length (pendingPostFlushCbs s) + room behaviour J seen.

(** Two jobs that queue each other, the first of which also queues a
    callback for after the flush, which queues the first job again. *)
Definition ping : SchedulerJob := recursive_job 1 (Some 1%Z).
Definition pong : SchedulerJob := plain_job 2 (Some 2%Z) false.
Definition report : SchedulerJob := plain_job 3 None false.

Definition ping_pong (f : nat) : list action :=
  match f with
  | 1 => [QueueJob pong; QueuePostFlushCb report]
  | 2 => [QueueJob ping]
  | 3 => [QueueJob ping]
  | _ => []
  end.

(** A job that has been deactivated. *)
Definition stopped_job (f : nat) (n : option Z) : SchedulerJob :=
  {| fn := f; id := n; pre := false; active := Some false; allowRecurse := false;
     i := None |}.

(** A [pre] job that has been deactivated. *)
Definition stopped_pre_job (f : nat) (n : option Z) : SchedulerJob :=
  {| fn := f; id := n; pre := true; active := Some false; allowRecurse := false;
     i := None |}.

End Scheduler.

(** * The dependency graph (packages/reactivity/src: dep.ts, effect.ts,
      reactiveEffect.ts) *)

Module Reactivity.

(** Modelled from the spec: [DirtyLevels] of constants.ts, the levels in
    the order of the enum. *)
Inductive DirtyLevels :=
  | NotDirty
  | QueryingDirty
  | MaybeDirty_ComputedSideEffect
  | MaybeDirty
  | Dirty.

Definition level (d : DirtyLevels) : nat :=
  match d with
  | NotDirty => 0
  | QueryingDirty => 1
  | MaybeDirty_ComputedSideEffect => 2
  | MaybeDirty => 3
  | Dirty => 4
  end.

#[global] Instance DirtyLevels_eq_dec : EqDecision DirtyLevels.
Proof. solve_decision. Defined.

(** Objects are referred to by their identity: a number for each target,
    effect and Dep.  Property keys are strings. *)
Abbreviation target := nat.
Abbreviation key := string.

(** A Dep is a [Map<ReactiveEffect, number>] with two extra properties.
    [entries] is the Map in insertion order.  [owner] is what the cleanup
    closure [() => depsMap.delete(key)] captured: the key-map of a target
    and the key. *)
Record Dep := {
  entries : list (nat * nat);
  owner : target * key;
  dep_computed : option nat
}.

(** [Map.prototype.get], [set], [delete] and [size] on the entries. *)
Fixpoint map_get (e : nat) (m : list (nat * nat)) : option nat :=
  match m with
  | [] => None
  | (e', v) :: m' => if decide (e' = e) then Some v else map_get e m'
  end.

Fixpoint map_set (e v : nat) (m : list (nat * nat)) : list (nat * nat) :=
  match m with
  | [] => [(e, v)]
  | (e', v') :: m' =>
      if decide (e' = e) then (e, v) :: m' else (e', v') :: map_set e v m'
  end.

Fixpoint map_delete (e : nat) (m : list (nat * nat)) : list (nat * nat) :=
  match m with
  | [] => []
  | (e', v') :: m' => if decide (e' = e) then m' else (e', v') :: map_delete e m'
  end.

(** The fields of a [ReactiveEffect] object that hold data.  [deps] holds
    references to Dep objects.  [onStop] says whether a callback is attached.
    What [fn] does is given where the effect is run. *)
Record ReactiveEffect := {
  active : bool;
  deps : list nat;
  computed : option nat;
  allowRecurse : bool;
  onStop : bool;
  _dirtyLevel : DirtyLevels;
  _trackId : nat;
  _runnings : nat;
  _shouldSchedule : bool;
  _depsLength : nat
}.

(** [new ReactiveEffect(fn, trigger, scheduler)]. *)
Definition new_effect (has_onStop : bool) : ReactiveEffect :=
  {| active := true; deps := []; computed := None; allowRecurse := false;
     onStop := has_onStop; _dirtyLevel := Dirty; _trackId := 0; _runnings := 0;
     _shouldSchedule := false; _depsLength := 0 |}.

Definition set_active (b : bool) (E : ReactiveEffect) : ReactiveEffect :=
  {| active := b; deps := deps E; computed := computed E;
     allowRecurse := allowRecurse E; onStop := onStop E;
     _dirtyLevel := _dirtyLevel E; _trackId := _trackId E; _runnings := _runnings E;
     _shouldSchedule := _shouldSchedule E; _depsLength := _depsLength E |}.

Definition set_deps (l : list nat) (E : ReactiveEffect) : ReactiveEffect :=
  {| active := active E; deps := l; computed := computed E;
     allowRecurse := allowRecurse E; onStop := onStop E;
     _dirtyLevel := _dirtyLevel E; _trackId := _trackId E; _runnings := _runnings E;
     _shouldSchedule := _shouldSchedule E; _depsLength := _depsLength E |}.

Definition set_dirtyLevel (d : DirtyLevels) (E : ReactiveEffect) : ReactiveEffect :=
  {| active := active E; deps := deps E; computed := computed E;
     allowRecurse := allowRecurse E; onStop := onStop E;
     _dirtyLevel := d; _trackId := _trackId E; _runnings := _runnings E;
     _shouldSchedule := _shouldSchedule E; _depsLength := _depsLength E |}.

Definition set_trackId (n : nat) (E : ReactiveEffect) : ReactiveEffect :=
  {| active := active E; deps := deps E; computed := computed E;
     allowRecurse := allowRecurse E; onStop := onStop E;
     _dirtyLevel := _dirtyLevel E; _trackId := n; _runnings := _runnings E;
     _shouldSchedule := _shouldSchedule E; _depsLength := _depsLength E |}.

Definition set_runnings (n : nat) (E : ReactiveEffect) : ReactiveEffect :=
  {| active := active E; deps := deps E; computed := computed E;
     allowRecurse := allowRecurse E; onStop := onStop E;
     _dirtyLevel := _dirtyLevel E; _trackId := _trackId E; _runnings := n;
     _shouldSchedule := _shouldSchedule E; _depsLength := _depsLength E |}.

Definition set_shouldSchedule (b : bool) (E : ReactiveEffect) : ReactiveEffect :=
  {| active := active E; deps := deps E; computed := computed E;
     allowRecurse := allowRecurse E; onStop := onStop E;
     _dirtyLevel := _dirtyLevel E; _trackId := _trackId E; _runnings := _runnings E;
     _shouldSchedule := b; _depsLength := _depsLength E |}.

Definition set_depsLength (n : nat) (E : ReactiveEffect) : ReactiveEffect :=
  {| active := active E; deps := deps E; computed := computed E;
     allowRecurse := allowRecurse E; onStop := onStop E;
     _dirtyLevel := _dirtyLevel E; _trackId := _trackId E; _runnings := _runnings E;
     _shouldSchedule := _shouldSchedule E; _depsLength := n |}.

(** The body of the loop of [triggerEffects] for one effect of the Dep.
    [tracking] is [dep.get(effect) === effect._trackId].  The result tells
    whether [effect.trigger()] was called, and the level the effect had at
    that call. *)
Definition triggerEffects_body (dirtyLevel : DirtyLevels) (tracking : bool)
    (E : ReactiveEffect) : ReactiveEffect * option DirtyLevels :=
  let E1 :=
    if (level (_dirtyLevel E) <? level dirtyLevel) && tracking
    then set_dirtyLevel dirtyLevel
           (set_shouldSchedule
              (_shouldSchedule E || bool_decide (_dirtyLevel E = NotDirty)) E)
    else E in
  if _shouldSchedule E1 && tracking then
    (if ((_runnings E1 =? 0) || allowRecurse E1)
        && negb (bool_decide (_dirtyLevel E1 = MaybeDirty_ComputedSideEffect))
     then set_shouldSchedule false E1
     else E1,
     Some (_dirtyLevel E1))
  else (E1, None).

(** [arr[i] = x] on a JavaScript array for an index up to the length: a slot
    is overwritten, or the array grows by one.  The cursor [_depsLength]
    never exceeds [deps.length] (the invariant [graph_inv] below says so),
    so these are the only cases the code reaches. *)
Definition array_set (i : nat) (x : nat) (l : list nat) : list nat :=
  if decide (i < length l) then <[i := x]> l else l ++ [x].

(** The module-level state of effect.ts and reactiveEffect.ts, and the heap
    of effect and Dep objects.  [cleanups] and [onStops] are logs added for
    observation: the Deps whose [cleanup()] was called, and the effects whose
    [onStop()] was called, in order. *)
Record State := {
  effects : gmap nat ReactiveEffect;
  dep_heap : gmap nat Dep;
  next_dep : nat;
  targetMap : gmap target (gmap key nat);
  activeEffect : option nat;
  shouldTrack : bool;
  trackStack : list bool;
  cleanups : list nat;
  onStops : list nat
}.

Definition initial : State :=
  {| effects := ∅; dep_heap := ∅; next_dep := 0; targetMap := ∅;
     activeEffect := None; shouldTrack := true; trackStack := [];
     cleanups := []; onStops := [] |}.

Definition set_effects (m : gmap nat ReactiveEffect) (s : State) : State :=
  {| effects := m; dep_heap := dep_heap s; next_dep := next_dep s;
     targetMap := targetMap s; activeEffect := activeEffect s;
     shouldTrack := shouldTrack s; trackStack := trackStack s;
     cleanups := cleanups s; onStops := onStops s |}.

Definition set_dep_heap (m : gmap nat Dep) (s : State) : State :=
  {| effects := effects s; dep_heap := m; next_dep := next_dep s;
     targetMap := targetMap s; activeEffect := activeEffect s;
     shouldTrack := shouldTrack s; trackStack := trackStack s;
     cleanups := cleanups s; onStops := onStops s |}.

Definition set_next_dep (n : nat) (s : State) : State :=
  {| effects := effects s; dep_heap := dep_heap s; next_dep := n;
     targetMap := targetMap s; activeEffect := activeEffect s;
     shouldTrack := shouldTrack s; trackStack := trackStack s;
     cleanups := cleanups s; onStops := onStops s |}.

Definition set_targetMap (m : gmap target (gmap key nat)) (s : State) : State :=
  {| effects := effects s; dep_heap := dep_heap s; next_dep := next_dep s;
     targetMap := m; activeEffect := activeEffect s;
     shouldTrack := shouldTrack s; trackStack := trackStack s;
     cleanups := cleanups s; onStops := onStops s |}.

Definition set_activeEffect (a : option nat) (s : State) : State :=
  {| effects := effects s; dep_heap := dep_heap s; next_dep := next_dep s;
     targetMap := targetMap s; activeEffect := a;
     shouldTrack := shouldTrack s; trackStack := trackStack s;
     cleanups := cleanups s; onStops := onStops s |}.

Definition set_shouldTrack (b : bool) (s : State) : State :=
  {| effects := effects s; dep_heap := dep_heap s; next_dep := next_dep s;
     targetMap := targetMap s; activeEffect := activeEffect s;
     shouldTrack := b; trackStack := trackStack s;
     cleanups := cleanups s; onStops := onStops s |}.

Definition set_trackStack (l : list bool) (s : State) : State :=
  {| effects := effects s; dep_heap := dep_heap s; next_dep := next_dep s;
     targetMap := targetMap s; activeEffect := activeEffect s;
     shouldTrack := shouldTrack s; trackStack := l;
     cleanups := cleanups s; onStops := onStops s |}.

Definition log_cleanup (d : nat) (s : State) : State :=
  {| effects := effects s; dep_heap := dep_heap s; next_dep := next_dep s;
     targetMap := targetMap s; activeEffect := activeEffect s;
     shouldTrack := shouldTrack s; trackStack := trackStack s;
     cleanups := cleanups s ++ [d]; onStops := onStops s |}.

Definition log_onStop (e : nat) (s : State) : State :=
  {| effects := effects s; dep_heap := dep_heap s; next_dep := next_dep s;
     targetMap := targetMap s; activeEffect := activeEffect s;
     shouldTrack := shouldTrack s; trackStack := trackStack s;
     cleanups := cleanups s; onStops := onStops s ++ [e] |}.

(** Updating one object of a heap in place. *)
Definition update_effect (e : nat) (f : ReactiveEffect → ReactiveEffect) (s : State) : State :=
  set_effects (alter f e (effects s)) s.

Definition update_entries (d : nat) (f : list (nat * nat) → list (nat * nat))
    (s : State) : State :=
  set_dep_heap
    (alter (λ D, {| entries := f (entries D); owner := owner D;
                    dep_computed := dep_computed D |}) d (dep_heap s)) s.

(** [targetMap.get(target)?.get(key)], and the two writes to the key-maps. *)
Definition tm_lookup (s : State) (tk : target * key) : option nat :=
  targetMap s !! tk.1 ≫= λ depsMap, depsMap !! tk.2.

Definition tm_set (tk : target * key) (d : nat) (s : State) : State :=
  set_targetMap
    (<[tk.1 := <[tk.2 := d]> (default ∅ (targetMap s !! tk.1))]> (targetMap s)) s.

Definition tm_delete (tk : target * key) (s : State) : State :=
  set_targetMap (alter (delete tk.2) tk.1 (targetMap s)) s.

(** [dep.cleanup()] for a Dep made by [track]: [depsMap.delete(key)]. *)
Definition dep_cleanup (d : nat) (D : Dep) (s : State) : State :=
  log_cleanup d (tm_delete (owner D) s).

Definition cleanupDepEffect (d : nat) (e : nat) (s : State) : State :=
  match dep_heap s !! d, effects s !! e with
  | Some D, Some E =>
      match map_get e (entries D) with
      | Some trackId =>
          if decide (_trackId E ≠ trackId) then
            let s1 := update_entries d (map_delete e) s in
            if decide (length (map_delete e (entries D)) = 0)
            then dep_cleanup d D s1
            else s1
          else s
      | None => s
      end
  | _, _ => s
  end.

Definition preCleanupEffect (e : nat) (s : State) : State :=
  update_effect e (λ E, set_depsLength 0 (set_trackId (_trackId E + 1) E)) s.

Definition postCleanupEffect (e : nat) (s : State) : State :=
  match effects s !! e with
  | Some E =>
      if decide (_depsLength E < length (deps E)) then
        let s1 := foldl (λ s' d, cleanupDepEffect d e s') s
                    (drop (_depsLength E) (deps E)) in
        update_effect e (λ E', set_deps (take (_depsLength E') (deps E')) E') s1
      else s
  | None => s
  end.

Definition trackEffect (e : nat) (d : nat) (s : State) : State :=
  match effects s !! e, dep_heap s !! d with
  | Some E, Some D =>
      if decide (map_get e (entries D) ≠ Some (_trackId E)) then
        let s1 := update_entries d (map_set e (_trackId E)) s in
        let oldDep := deps E !! _depsLength E in
        if decide (oldDep ≠ Some d) then
          let s2 := match oldDep with
                    | Some od => cleanupDepEffect od e s1
                    | None => s1
                    end in
          update_effect e
            (λ E', set_depsLength (_depsLength E' + 1)
                     (set_deps (array_set (_depsLength E') d (deps E')) E')) s2
        else
          update_effect e (λ E', set_depsLength (_depsLength E' + 1) E') s1
      else s
  | _, _ => s
  end.

(** [createDep(cleanup)] followed by [depsMap.set(key, dep)]. *)
Definition createDep (tk : target * key) (s : State) : nat * State :=
  let d := next_dep s in
  (d, tm_set tk d
        (set_next_dep (S d)
           (set_dep_heap
              (<[d := {| entries := []; owner := tk; dep_computed := None |}]>
                 (dep_heap s)) s))).

Definition track (tk : target * key) (s : State) : State :=
  match activeEffect s with
  | Some e =>
      if shouldTrack s then
        match tm_lookup s tk with
        | Some d => trackEffect e d s
        | None => let '(d, s1) := createDep tk s in trackEffect e d s1
        end
      else s
  | None => s
  end.

(** What a call of [fn] does to the graph: the reactive properties it reads,
    in order, each read calling [track]. *)
Definition call_fn (reads : list (target * key)) (s : State) : State :=
  foldl (λ s' tk, track tk s') s reads.

(** [ReactiveEffect.prototype.run].  The [finally] block runs whether [fn]
    returns or throws, so the state after [run] is the same on both paths. *)
Definition run (e : nat) (reads : list (target * key)) (s : State) : State :=
  let s0 := update_effect e (set_dirtyLevel NotDirty) s in
  match effects s0 !! e with
  | Some E =>
      if active E then
        let lastShouldTrack := shouldTrack s0 in
        let lastEffect := activeEffect s0 in
        let s1 := set_activeEffect (Some e) (set_shouldTrack true s0) in
        let s2 := update_effect e (λ E', set_runnings (_runnings E' + 1) E') s1 in
        let s3 := preCleanupEffect e s2 in
        let s4 := call_fn reads s3 in
        let s5 := postCleanupEffect e s4 in
        let s6 := update_effect e (λ E', set_runnings (_runnings E' - 1) E') s5 in
        set_shouldTrack lastShouldTrack (set_activeEffect lastEffect s6)
      else call_fn reads s0
  | None => s0
  end.

(** [ReactiveEffect.prototype.stop]. *)
Definition stop (e : nat) (s : State) : State :=
  match effects s !! e with
  | Some E =>
      if active E then
        let s1 := preCleanupEffect e s in
        let s2 := postCleanupEffect e s1 in
        let s3 := if onStop E then log_onStop e s2 else s2 in
        update_effect e (set_active false) s3
      else s
  | None => s
  end.

(** Programs over the graph: create an effect, run one, stop one. *)
Inductive command :=
  | NewEffect (has_onStop : bool)
  | Run (e : nat) (reads : list (target * key))
  | Stop (e : nat).

Definition exec1 (s : State) (c : command) : State :=
  match c with
  | NewEffect b => set_effects (<[size (effects s) := new_effect b]> (effects s)) s
  | Run e reads => run e reads s
  | Stop e => stop e s
  end.

Definition exec (cs : list command) : State := foldl exec1 initial cs.

(** How many entries of a Dep belong to an effect. *)
Definition occurrences (e : nat) (D : Dep) : nat :=
  length (filter (λ p, p.1 = e) (entries D)).

Definition member (e : nat) (D : Dep) : Prop := e ∈ (entries D).*1.

(** The last two steps of [trackEffect], which it takes on both branches of
    [oldDep !== dep]: record the edge in the Dep, put the Dep at the cursor
    of [deps] and advance the cursor. *)
Definition link (e d : nat) (s : State) : State :=
  match effects s !! e with
  | Some E =>
      update_effect e
        (λ E', set_depsLength (_depsLength E' + 1)
                 (set_deps (array_set (_depsLength E') d (deps E')) E'))
        (update_entries d (map_set e (_trackId E)) s)
  | None => s
  end.

(** The invariant of the graph.  [pending] names a Dep that [track] has just
    created and put into its key-map, and that is still empty. *)
Record graph_inv (pending : option nat) (s : State) : Prop := {
  ok_nodup : ∀ d D, dep_heap s !! d = Some D → NoDup (entries D).*1;
  ok_edge : ∀ d D e tid,
    dep_heap s !! d = Some D → map_get e (entries D) = Some tid →
    ∃ E, effects s !! e = Some E ∧
      ((tid = _trackId E ∧ ∃ i, i < _depsLength E ∧ deps E !! i = Some d)
       ∨ (tid < _trackId E ∧ ∃ i, _depsLength E ≤ i ∧ deps E !! i = Some d));
  ok_cursor : ∀ e E, effects s !! e = Some E → _depsLength E ≤ length (deps E);
  ok_attached : ∀ tk d,
    tm_lookup s tk = Some d →
    ∃ D, dep_heap s !! d = Some D ∧ owner D = tk ∧ (entries D ≠ [] ∨ pending = Some d);
  ok_nonempty : ∀ d D,
    dep_heap s !! d = Some D → entries D ≠ [] → tm_lookup s (owner D) = Some d;
  ok_fresh : ∀ d, is_Some (dep_heap s !! d) → d < next_dep s;
  ok_prefix : ∀ e E i d,
    effects s !! e = Some E → i < _depsLength E → deps E !! i = Some d →
    ∃ D, dep_heap s !! d = Some D ∧ map_get e (entries D) = Some (_trackId E)
}.

Definition graph_ok (s : State) : Prop := graph_inv None s.

(** What holds in addition between two commands, when no effect is running. *)
Record quiescent (s : State) : Prop := {
  q_graph : graph_ok s;
  q_idle : activeEffect s = None;
  q_full : ∀ e E, effects s !! e = Some E → _depsLength E = length (deps E);
  q_current : ∀ d D e tid,
    dep_heap s !! d = Some D → map_get e (entries D) = Some tid →
    ∃ E, effects s !! e = Some E ∧ tid = _trackId E ∧ active E = true;
  q_stopped : ∀ e E, effects s !! e = Some E → active E = false → deps E = [];
  q_ids : ∀ e, is_Some (effects s !! e) → e < size (effects s)
}.

(** While effect [e] runs with track id [T]: the edges of this run lead to
    Deps of properties read so far, and every property read so far has its
    Dep in the target map with the edge recorded. *)
Record running (e T : nat) (seen : list (target * key)) (s : State) : Prop := {
  r_graph : graph_ok s;
  r_effect : ∃ E, effects s !! e = Some E ∧ _trackId E = T;
  r_fresh_edges : ∀ d D,
    dep_heap s !! d = Some D → map_get e (entries D) = Some T → owner D ∈ seen;
  r_recorded : ∀ tk, tk ∈ seen →
    ∃ d D, tm_lookup s tk = Some d ∧ dep_heap s !! d = Some D
           ∧ map_get e (entries D) = Some T
}.

(** ** What the proofs speak of *)

(** The Dep [d] holds an edge of [e] that an earlier run has recorded. *)
Definition stale_edge (d e : nat) (s : State) (D : Dep) (E : ReactiveEffect) (tid : nat) : Prop :=
  dep_heap s !! d = Some D ∧ effects s !! e = Some E
  ∧ map_get e (entries D) = Some tid ∧ tid ≠ _trackId E.

(** The two objects [link] writes: the effect with [d] at its cursor, and
    the Dep with the effect at its current trackId. *)
Definition linked_effect (d : nat) (E : ReactiveEffect) : ReactiveEffect :=
  set_depsLength (_depsLength E + 1)
    (set_deps (array_set (_depsLength E) d (deps E)) E).

Definition linked_dep (e : nat) (E : ReactiveEffect) (D : Dep) : Dep :=
  {| entries := map_set e (_trackId E) (entries D); owner := owner D;
     dep_computed := dep_computed D |}.

(** The first half of [trackEffect] on a new edge: the Dep that stood at the
    cursor is cleaned, unless it is [d] itself. *)
Definition old_dep_cleaned (e d : nat) (E : ReactiveEffect) (s : State) : State :=
  match deps E !! _depsLength E with
  | Some od => if decide (od = d) then s else cleanupDepEffect od e s
  | None => s
  end.

(** What [running] adds to [graph_ok]. *)
Definition run_facts (e T : nat) (seen : list (target * key)) (s : State) : Prop :=
  (∃ E, effects s !! e = Some E ∧ _trackId E = T)
  ∧ (∀ d D, dep_heap s !! d = Some D → map_get e (entries D) = Some T → owner D ∈ seen)
  ∧ (∀ tk, tk ∈ seen →
       ∃ d D, tm_lookup s tk = Some d ∧ dep_heap s !! d = Some D
              ∧ map_get e (entries D) = Some T).

(** While [e] runs, every other effect is as [quiescent] wants it. *)
Record others_quiet (e : nat) (s : State) : Prop := {
  oq_current : ∀ d D e' tid,
    e' ≠ e → dep_heap s !! d = Some D → map_get e' (entries D) = Some tid →
    ∃ E', effects s !! e' = Some E' ∧ tid = _trackId E' ∧ active E' = true;
  oq_full : ∀ e' E', e' ≠ e → effects s !! e' = Some E' →
    _depsLength E' = length (deps E') ∧ (active E' = false → deps E' = []);
  oq_ids : ∀ e', is_Some (effects s !! e') → e' < size (effects s)
}.

(** The Dep [createDep] allocates for the property [tk]. *)
Definition fresh_dep (tk : target * key) : Dep :=
  {| entries := []; owner := tk; dep_computed := None |}.

(** [s'] is [s] with the effect object [e] replaced by [E']. *)
Definition replaces (e : nat) (E' : ReactiveEffect) (s s' : State) : Prop :=
  effects s' = <[e := E']> (effects s) ∧ dep_heap s' = dep_heap s
  ∧ targetMap s' = targetMap s ∧ next_dep s' = next_dep s.

(** The Dep [x] holds no edge of [e] from before the run with trackId [T]. *)
Definition no_stale (e T : nat) (x : nat) (s : State) : Prop :=
  ∀ X, dep_heap s !! x = Some X →
    map_get e (entries X) = None ∨ map_get e (entries X) = Some T.

(** Updates of an effect object that leave alone what the invariants read. *)
Definition keeps_cursor (f : ReactiveEffect → ReactiveEffect) : Prop :=
  ∀ E, deps (f E) = deps E ∧ _trackId (f E) = _trackId E
       ∧ _depsLength (f E) = _depsLength E.

Definition keeps_graph_fields (f : ReactiveEffect → ReactiveEffect) : Prop :=
  ∀ E, deps (f E) = deps E ∧ _trackId (f E) = _trackId E
       ∧ _depsLength (f E) = _depsLength E ∧ active (f E) = active E.

(** The state of [run] when it calls [fn], and the running effect in it. *)
Definition started (e : nat) (s : State) : State :=
  preCleanupEffect e
    (update_effect e (λ E', set_runnings (_runnings E' + 1) E')
       (set_activeEffect (Some e)
          (set_shouldTrack true (update_effect e (set_dirtyLevel NotDirty) s)))).

Definition started_effect (E : ReactiveEffect) : ReactiveEffect :=
  set_depsLength 0
    (set_trackId (_trackId E + 1)
       (set_runnings (_runnings E + 1) (set_dirtyLevel NotDirty E))).

End Reactivity.

(** * Triggers (packages/reactivity/src/reactiveEffect.ts: [trigger];
      effect.ts: [effect], [stop], the [dirty] getter, [pauseTracking],
      [enableTracking], [resetTracking], [pauseScheduling],
      [resetScheduling], [triggerEffects]) *)

Module Trigger.
Import Reactivity.

(** Modelled from the spec: [TriggerOpTypes] of constants.ts. *)
Inductive TriggerOpTypes := SET | ADD | DELETE | CLEAR.

#[global] Instance TriggerOpTypes_eq_dec : EqDecision TriggerOpTypes.
Proof. solve_decision. Defined.

(** ** The tracking flag and its stack *)

(** [trackStack.push] appends, [trackStack.pop] takes from the end and
    gives [undefined] on the empty array. *)
Definition pauseTracking (g : State) : State :=
  set_shouldTrack false (set_trackStack (trackStack g ++ [shouldTrack g]) g).

Definition enableTracking (g : State) : State :=
  set_shouldTrack true (set_trackStack (trackStack g ++ [shouldTrack g]) g).

Definition resetTracking (g : State) : State :=
  match reverse (trackStack g) with
  | last :: rest => set_shouldTrack last (set_trackStack (reverse rest) g)
  | [] => set_shouldTrack true g
  end.

(** Calls of the three functions, and the calls that close what they have
    opened themselves when [n] earlier pushes are still open. *)
Inductive tracking_call := Pause | Enable | Reset.

Definition tracking_step (g : State) (c : tracking_call) : State :=
  match c with
  | Pause => pauseTracking g
  | Enable => enableTracking g
  | Reset => resetTracking g
  end.

Fixpoint balanced (n : nat) (cs : list tracking_call) : bool :=
  match cs with
  | [] => n =? 0
  | Reset :: cs' => match n with O => false | S n' => balanced n' cs' end
  | _ :: cs' => balanced (S n) cs'
  end.

(** ** Effects made by [effect()] *)

(** The scheduler of an effect made by [effect(fn, options)]: the one the
    constructor is given, [() => { if (_effect.dirty) _effect.run() }], or
    the function [options.scheduler] that [extend] has put in its place.
    An effect can also have none: see [scheduler_option]. *)
Inductive scheduler := DefaultScheduler | CustomScheduler.

#[global] Instance scheduler_eq_dec : EqDecision scheduler.
Proof. solve_decision. Defined.

(** The property [scheduler] of the options: the object has no such
    property; or it has one that holds a function; or it has one that holds
    [undefined] (or another value that counts as false), as in
    [{ scheduler: undefined }].  [extend], which is [Object.assign], copies
    the property in the last two cases, so that in the third the effect is
    left without scheduler. *)
Inductive scheduler_option := NoSchedulerProperty | SchedulerFunction | SchedulerUndefined.

(** The options that [effect] reads, as an object that lists the properties
    it sets: [lazy], [allowRecurse] and [onStop] by truthiness, and
    [scheduler].  Scopes are not modelled. *)
Record ReactiveEffectOptions := {
  lazy : bool;
  opt_scheduler : scheduler_option;
  opt_allowRecurse : bool;
  opt_onStop : bool
}.

(** [effect.scheduler] after [extend(_effect, options)]; [None] is a
    scheduler that is [undefined]. *)
Definition scheduler_after_extend (options : option ReactiveEffectOptions) :
    option scheduler :=
  match options with
  | Some o =>
      match opt_scheduler o with
      | NoSchedulerProperty => Some DefaultScheduler
      | SchedulerFunction => Some CustomScheduler
      | SchedulerUndefined => None
      end
  | None => Some DefaultScheduler
  end.

(** The first argument of [effect]: a function, or the runner of an effect,
    whose [fn] is taken then. *)
Inductive fn_arg :=
  | Fn (f : nat)
  | RunnerOf (e : nat).

Definition set_allowRecurse (b : bool) (E : ReactiveEffect) : ReactiveEffect :=
  {| active := active E; deps := deps E; computed := computed E;
     allowRecurse := b; onStop := onStop E;
     _dirtyLevel := _dirtyLevel E; _trackId := _trackId E; _runnings := _runnings E;
     _shouldSchedule := _shouldSchedule E; _depsLength := _depsLength E |}.

(** The state of the two modules: the graph, [pauseScheduleStack] and
    [queueEffectSchedulers] of effect.ts, and for every effect the two
    properties the graph does not read, its [fn] and its [scheduler]; an
    effect without entry in [scheduler_of] has no scheduler.  A queued
    scheduler is named by its effect.  [fn_calls] and
    [scheduler_calls] are logs added for observation: the effects whose [fn]
    was called, and the effects whose custom scheduler was called, in
    order. *)
Record Engine := {
  graph : State;
  pauseScheduleStack : Z;
  queueEffectSchedulers : list nat;
  fn_of : gmap nat nat;
  scheduler_of : gmap nat scheduler;
  fn_calls : list nat;
  scheduler_calls : list nat
}.

Definition start : Engine :=
  {| graph := initial; pauseScheduleStack := 0; queueEffectSchedulers := [];
     fn_of := ∅; scheduler_of := ∅; fn_calls := []; scheduler_calls := [] |}.

Definition set_graph (g : State) (s : Engine) : Engine :=
  {| graph := g; pauseScheduleStack := pauseScheduleStack s;
     queueEffectSchedulers := queueEffectSchedulers s; fn_of := fn_of s;
     scheduler_of := scheduler_of s; fn_calls := fn_calls s;
     scheduler_calls := scheduler_calls s |}.

Definition set_pauseScheduleStack (n : Z) (s : Engine) : Engine :=
  {| graph := graph s; pauseScheduleStack := n;
     queueEffectSchedulers := queueEffectSchedulers s; fn_of := fn_of s;
     scheduler_of := scheduler_of s; fn_calls := fn_calls s;
     scheduler_calls := scheduler_calls s |}.

Definition set_queueEffectSchedulers (q : list nat) (s : Engine) : Engine :=
  {| graph := graph s; pauseScheduleStack := pauseScheduleStack s;
     queueEffectSchedulers := q; fn_of := fn_of s;
     scheduler_of := scheduler_of s; fn_calls := fn_calls s;
     scheduler_calls := scheduler_calls s |}.

Definition register (e f : nat) (k : option scheduler) (s : Engine) : Engine :=
  {| graph := graph s; pauseScheduleStack := pauseScheduleStack s;
     queueEffectSchedulers := queueEffectSchedulers s; fn_of := <[e := f]> (fn_of s);
     scheduler_of := match k with
                     | Some k' => <[e := k']> (scheduler_of s)
                     | None => delete e (scheduler_of s)
                     end;
     fn_calls := fn_calls s; scheduler_calls := scheduler_calls s |}.

Definition log_fn_call (e : nat) (s : Engine) : Engine :=
  {| graph := graph s; pauseScheduleStack := pauseScheduleStack s;
     queueEffectSchedulers := queueEffectSchedulers s; fn_of := fn_of s;
     scheduler_of := scheduler_of s; fn_calls := fn_calls s ++ [e];
     scheduler_calls := scheduler_calls s |}.

Definition log_scheduler_call (e : nat) (s : Engine) : Engine :=
  {| graph := graph s; pauseScheduleStack := pauseScheduleStack s;
     queueEffectSchedulers := queueEffectSchedulers s; fn_of := fn_of s;
     scheduler_of := scheduler_of s; fn_calls := fn_calls s;
     scheduler_calls := scheduler_calls s ++ [e] |}.

Definition on_graph (f : State → State) (s : Engine) : Engine :=
  set_graph (f (graph s)) s.

(** [effect._dirtyLevel], read through the reference, and the two tests
    that the [dirty] getter makes of it. *)
Definition level_of (e : nat) (g : State) : option DirtyLevels :=
  _dirtyLevel <$> effects g !! e.

Definition is_dirty (e : nat) (g : State) : bool :=
  match level_of e g with
  | Some l => level Dirty <=? level l
  | None => false
  end.

Definition is_querying (e : nat) (g : State) : bool :=
  bool_decide (level_of e g = Some QueryingDirty).

(** The values of a key-map in the order of the Map.  A key is set once,
    when [track] creates its Dep, and Deps are numbered as they are
    created, so the order of insertion is the order of the numbers. *)
Definition older (a b : key * nat) : Prop := a.2 ≤ b.2.

#[global] Instance older_dec : RelDecision older.
Proof. intros a b. unfold older. apply _. Defined.

Definition depsMap_entries (depsMap : gmap key nat) : list (key * nat) :=
  merge_sort older (map_to_list depsMap).

Definition pauseScheduling (s : Engine) : Engine :=
  set_pauseScheduleStack (pauseScheduleStack s + 1) s.

Section WithEnvironment.

(** The values written, of which only the new length of an array is looked
    at. *)
Context {V : Type}.

(** What the code leaves to its surroundings.
    [ITERATE_KEY] and [MAP_KEY_ITERATE_KEY] are the two symbols, keys like
    any other to a key-map.
    [isArray] and [isMap] tell what a target is, and [isIntegerKey] is the
    test of @vue/shared.
    [at_least key v] is [!isSymbol(key) && key >= Number(v)].
    [fn_reads f n] are the properties the function [f] reads, in order, when
    it is called after [n] earlier calls of effect functions; the functions
    of effects read reactive properties and write none.
    [triggerComputed c] is the read of [.value] of the computed [c]. *)
Variable ITERATE_KEY MAP_KEY_ITERATE_KEY : key.
Variable isArray isMap : target → bool.
Variable isIntegerKey : key → bool.
Variable at_least : key → V → bool.
Variable fn_reads : nat → nat → list (target * key).
Variable triggerComputed : nat → Engine → Engine.

(** [effect.run()], with the call of [fn] logged. *)
Definition run_effect (e : nat) (s : Engine) : Engine :=
  match fn_of s !! e with
  | Some f => log_fn_call e (on_graph (run e (fn_reads f (length (fn_calls s)))) s)
  | None => s
  end.

(** The loop of the [dirty] getter over [deps[0 .. _depsLength)], with its
    [break]. *)
Fixpoint dirty_walk (e : nat) (ds : list nat) (s : Engine) : Engine :=
  match ds with
  | [] => s
  | d :: ds' =>
      match dep_heap (graph s) !! d ≫= dep_computed with
      | Some c =>
          let s1 := triggerComputed c s in
          if is_dirty e (graph s1) then s1 else dirty_walk e ds' s1
      | None => dirty_walk e ds' s
      end
  end.

(** [get dirty()]. *)
Definition dirty (e : nat) (s : Engine) : bool * Engine :=
  match effects (graph s) !! e with
  | Some E =>
      let s' :=
        if bool_decide (_dirtyLevel E = MaybeDirty_ComputedSideEffect)
           || bool_decide (_dirtyLevel E = MaybeDirty)
        then
          let s1 := on_graph (update_effect e (set_dirtyLevel QueryingDirty)) s in
          let s2 := on_graph pauseTracking s1 in
          let s3 := dirty_walk e (take (_depsLength E) (deps E)) s2 in
          let s4 :=
            if is_querying e (graph s3)
            then on_graph (update_effect e (set_dirtyLevel NotDirty)) s3
            else s3 in
          on_graph resetTracking s4
        else s in
      (is_dirty e (graph s'), s')
  | None => (false, s)
  end.

(** A call of the scheduler of [e].  A custom scheduler is taken to put the
    effect aside for later, as the schedulers of the runtime do; the call is
    logged. *)
Definition call_scheduler (e : nat) (s : Engine) : Engine :=
  match scheduler_of s !! e with
  | Some DefaultScheduler =>
      let '(d, s1) := dirty e s in
      if d then run_effect e s1 else s1
  | Some CustomScheduler => log_scheduler_call e s
  | None => s
  end.

(** The loop of [resetScheduling]. *)
Fixpoint drain (fuel : nat) (s : Engine) : option Engine :=
  if bool_decide (pauseScheduleStack s = 0%Z) then
    match queueEffectSchedulers s with
    | e :: rest =>
        match fuel with
        | O => None
        | S fuel' => drain fuel' (call_scheduler e (set_queueEffectSchedulers rest s))
        end
    | [] => Some s
    end
  else Some s.

Definition resetScheduling (fuel : nat) (s : Engine) : option Engine :=
  drain fuel (set_pauseScheduleStack (pauseScheduleStack s - 1) s).

(** The body of the loop of [triggerEffects] for the effect [e] of the Dep
    [d].  The [trigger] of an effect made by [effect()] is [NOOP]. *)
Definition trigger_effect (d : nat) (dirtyLevel : DirtyLevels) (e : nat) (s : Engine) :
    Engine :=
  match effects (graph s) !! e, dep_heap (graph s) !! d with
  | Some E, Some D =>
      let tracking := bool_decide (map_get e (entries D) = Some (_trackId E)) in
      let E1 :=
        if (level (_dirtyLevel E) <? level dirtyLevel) && tracking
        then set_dirtyLevel dirtyLevel
               (set_shouldSchedule
                  (_shouldSchedule E || bool_decide (_dirtyLevel E = NotDirty)) E)
        else E in
      if _shouldSchedule E1 && tracking then
        if ((_runnings E1 =? 0) || allowRecurse E1)
           && negb (bool_decide (_dirtyLevel E1 = MaybeDirty_ComputedSideEffect))
        then
          let s1 := on_graph (update_effect e (λ _, set_shouldSchedule false E1)) s in
          if bool_decide (is_Some (scheduler_of s !! e))
          then set_queueEffectSchedulers (queueEffectSchedulers s1 ++ [e]) s1
          else s1
        else on_graph (update_effect e (λ _, E1)) s
      else on_graph (update_effect e (λ _, E1)) s
  | _, _ => s
  end.

(** [triggerEffects(dep, dirtyLevel)].  The body does not write to the Dep,
    so the loop runs over its keys as they are at the start. *)
Definition triggerEffects (fuel : nat) (d : nat) (dirtyLevel : DirtyLevels) (s : Engine) :
    option Engine :=
  let s1 := pauseScheduling s in
  let es := match dep_heap (graph s1) !! d with
            | Some D => (entries D).*1
            | None => []
            end in
  resetScheduling fuel (foldl (λ s' e, trigger_effect d dirtyLevel e s') s1 es).

(** The Deps that [trigger] collects; [None] is an [undefined] that
    [depsMap.get] has answered. *)
Definition trigger_deps (t : target) (type : TriggerOpTypes) (k : option key) (v : V)
    (depsMap : gmap key nat) : list (option nat) :=
  if bool_decide (type = CLEAR) then
    Some <$> (depsMap_entries depsMap).*2
  else if bool_decide (k = Some "length") && isArray t then
    Some <$> (filter (λ p, p.1 = "length" ∨ at_least p.1 v = true)
                (depsMap_entries depsMap)).*2
  else
    match k with Some k' => [depsMap !! k'] | None => [] end
    ++ match type with
       | ADD =>
           if negb (isArray t) then
             depsMap !! ITERATE_KEY
             :: (if isMap t then [depsMap !! MAP_KEY_ITERATE_KEY] else [])
           else if match k with Some k' => isIntegerKey k' | None => false end
           then [depsMap !! "length"]
           else []
       | DELETE =>
           if negb (isArray t) then
             depsMap !! ITERATE_KEY
             :: (if isMap t then [depsMap !! MAP_KEY_ITERATE_KEY] else [])
           else []
       | SET => if isMap t then [depsMap !! ITERATE_KEY] else []
       | CLEAR => []
       end.

(** The Deps collected for a target, none when the target has no key-map. *)
Definition collected (t : target) (type : TriggerOpTypes) (k : option key) (v : V)
    (g : State) : list (option nat) :=
  match targetMap g !! t with
  | Some depsMap => trigger_deps t type k v depsMap
  | None => []
  end.

(** The loop of [trigger] over the collected Deps. *)
Fixpoint trigger_each (fuel : nat) (ds : list (option nat)) (s : Engine) : option Engine :=
  match ds with
  | [] => Some s
  | Some d :: ds' => s' ← triggerEffects fuel d Dirty s; trigger_each fuel ds' s'
  | None :: ds' => trigger_each fuel ds' s
  end.

(** [trigger(target, type, key, newValue)]. *)
Definition trigger (fuel : nat) (t : target) (type : TriggerOpTypes) (k : option key)
    (v : V) (s : Engine) : option Engine :=
  match targetMap (graph s) !! t with
  | None => Some s
  | Some depsMap =>
      s1 ← trigger_each fuel (trigger_deps t type k v depsMap) (pauseScheduling s);
      resetScheduling fuel s1
  end.

(** [effect(fn, options)]; the runner it returns is named by the effect,
    which is numbered as in [exec1]. *)
Definition effect (fn : fn_arg) (options : option ReactiveEffectOptions) (s : Engine) :
    Engine :=
  let f := match fn with
           | Fn f => Some f
           | RunnerOf e0 => fn_of s !! e0
           end in
  match f with
  | Some f =>
      let e := size (effects (graph s)) in
      let E := match options with
               | Some o =>
                   set_allowRecurse (opt_allowRecurse o) (new_effect (opt_onStop o))
               | None => new_effect false
               end in
      let s1 := register e f (scheduler_after_extend options)
                  (on_graph (λ g, set_effects (<[e := E]> (effects g)) g) s) in
      if match options with Some o => lazy o | None => false end
      then s1
      else run_effect e s1
  | None => s
  end.

(** Programs: make an effect, call a runner, stop one, write a property. *)
Inductive command :=
  | Effect (fn : fn_arg) (options : option ReactiveEffectOptions)
  | Runner (e : nat)
  | StopRunner (e : nat)
  | Write (t : target) (type : TriggerOpTypes) (k : option key) (v : V).

Definition exec1 (fuel : nat) (s : Engine) (c : command) : option Engine :=
  match c with
  | Effect fn options => Some (effect fn options s)
  | Runner e => Some (run_effect e s)
  | StopRunner e => Some (on_graph (stop e) s)
  | Write t type k v => trigger fuel t type k v s
  end.

Fixpoint exec_from (fuel : nat) (s : Engine) (cs : list command) : option Engine :=
  match cs with
  | [] => Some s
  | c :: cs' => s' ← exec1 fuel s c; exec_from fuel s' cs'
  end.

Definition exec (fuel : nat) (cs : list command) : option Engine :=
  exec_from fuel start cs.

End WithEnvironment.

(** ** Effect functions that do more than read *)

Section WithPrograms.

Context {V : Type}.
Variable ITERATE_KEY MAP_KEY_ITERATE_KEY : key.
Variable isArray isMap : target → bool.
Variable isIntegerKey : key → bool.
Variable at_least : key → V → bool.
Variable triggerComputed : nat → Engine → Engine.

(** What the function of an effect does, step by step: it reads a reactive
    property, which calls [track]; it writes to one, which calls [trigger];
    it calls [stop] on the runner of an effect; it calls the runner of an
    effect, which is the effect's [run]. *)
Inductive step :=
  | Reads (tk : target * key)
  | Writes (t : target) (type : TriggerOpTypes) (k : option key) (v : V)
  | Stops (e : nat)
  | Calls (e : nat).

(** [fn_steps f n] are the steps of the function [f] when it is called
    after [n] earlier calls of effect functions. *)
Variable fn_steps : nat → nat → list step.

Section Scheduling.

(** [effect.run()] for the effect of the given number, which the functions
    below reach through the default scheduler and through runners. *)
Variable run : nat → Engine → option Engine.

(** A call of the scheduler of [e]. *)
Definition call_scheduler_with (e : nat) (s : Engine) : option Engine :=
  match scheduler_of s !! e with
  | Some DefaultScheduler =>
      let '(d, s1) := dirty triggerComputed e s in
      if d then run e s1 else Some s1
  | Some CustomScheduler => Some (log_scheduler_call e s)
  | None => Some s
  end.

(** The loop of [resetScheduling]; the fuel bounds its turns. *)
Fixpoint drain_with (fuel : nat) (s : Engine) : option Engine :=
  if bool_decide (pauseScheduleStack s = 0%Z) then
    match queueEffectSchedulers s with
    | e :: rest =>
        match fuel with
        | O => None
        | S fuel' =>
            s' ← call_scheduler_with e (set_queueEffectSchedulers rest s);
            drain_with fuel' s'
        end
    | [] => Some s
    end
  else Some s.

Definition resetScheduling_with (fuel : nat) (s : Engine) : option Engine :=
  drain_with fuel (set_pauseScheduleStack (pauseScheduleStack s - 1) s).

Definition triggerEffects_with (fuel : nat) (d : nat) (dirtyLevel : DirtyLevels)
    (s : Engine) : option Engine :=
  let s1 := pauseScheduling s in
  let es := match dep_heap (graph s1) !! d with
            | Some D => (entries D).*1
            | None => []
            end in
  resetScheduling_with fuel (foldl (λ s' e, trigger_effect d dirtyLevel e s') s1 es).

Fixpoint trigger_each_with (fuel : nat) (ds : list (option nat)) (s : Engine) :
    option Engine :=
  match ds with
  | [] => Some s
  | Some d :: ds' => s' ← triggerEffects_with fuel d Dirty s; trigger_each_with fuel ds' s'
  | None :: ds' => trigger_each_with fuel ds' s
  end.

(** [trigger(target, type, key, newValue)]. *)
Definition trigger_with (fuel : nat) (t : target) (type : TriggerOpTypes)
    (k : option key) (v : V) (s : Engine) : option Engine :=
  match targetMap (graph s) !! t with
  | None => Some s
  | Some depsMap =>
      s1 ← trigger_each_with fuel
             (trigger_deps ITERATE_KEY MAP_KEY_ITERATE_KEY isArray isMap isIntegerKey
                at_least t type k v depsMap)
             (pauseScheduling s);
      resetScheduling_with fuel s1
  end.

(** The steps of a function, one after the other. *)
Definition do_step (fuel : nat) (st : step) (s : Engine) : option Engine :=
  match st with
  | Reads tk => Some (on_graph (track tk) s)
  | Writes t type k v => trigger_with fuel t type k v s
  | Stops e => Some (on_graph (stop e) s)
  | Calls e => run e s
  end.

Fixpoint do_steps (fuel : nat) (body : list step) (s : Engine) : option Engine :=
  match body with
  | [] => Some s
  | st :: body' => s' ← do_step fuel st s; do_steps fuel body' s'
  end.

End Scheduling.

(** [effect.run()], with the call of [fn] logged.  The fuel bounds how deep
    the runs nest, and the turns of each loop of [resetScheduling]; [None]
    is a run that has not returned within it. *)
Fixpoint run_program (fuel : nat) (e : nat) (s : Engine) : option Engine :=
  match fuel with
  | O => None
  | S fuel' =>
      match fn_of s !! e with
      | Some f =>
          let body := fn_steps f (length (fn_calls s)) in
          let s0 :=
            log_fn_call e (on_graph (update_effect e (set_dirtyLevel NotDirty)) s) in
          match effects (graph s0) !! e with
          | Some E =>
              if active E then
                let lastShouldTrack := shouldTrack (graph s0) in
                let lastEffect := activeEffect (graph s0) in
                let s3 :=
                  on_graph
                    (λ g, preCleanupEffect e
                            (update_effect e (λ E', set_runnings (_runnings E' + 1) E')
                               (set_activeEffect (Some e) (set_shouldTrack true g))))
                    s0 in
                s4 ← do_steps (run_program fuel') fuel' body s3;
                Some (on_graph
                        (λ g, set_shouldTrack lastShouldTrack
                                (set_activeEffect lastEffect
                                   (update_effect e
                                      (λ E', set_runnings (_runnings E' - 1) E')
                                      (postCleanupEffect e g))))
                        s4)
              else do_steps (run_program fuel') fuel' body s0
          | None => Some s0
          end
      | None => Some s
      end
  end.

(** [effect(fn, options)]. *)
Definition effect_program (fuel : nat) (fn : fn_arg)
    (options : option ReactiveEffectOptions) (s : Engine) : option Engine :=
  let f := match fn with
           | Fn f => Some f
           | RunnerOf e0 => fn_of s !! e0
           end in
  match f with
  | Some f =>
      let e := size (effects (graph s)) in
      let E := match options with
               | Some o =>
                   set_allowRecurse (opt_allowRecurse o) (new_effect (opt_onStop o))
               | None => new_effect false
               end in
      let s1 := register e f (scheduler_after_extend options)
                  (on_graph (λ g, set_effects (<[e := E]> (effects g)) g) s) in
      if match options with Some o => lazy o | None => false end
      then Some s1
      else run_program fuel e s1
  | None => Some s
  end.

(** Programs, as in [exec], over functions that do more than read. *)
Definition perform1 (fuel : nat) (s : Engine) (c : @command V) : option Engine :=
  match c with
  | Effect fn options => effect_program fuel fn options s
  | Runner e => run_program fuel e s
  | StopRunner e => Some (on_graph (stop e) s)
  | Write t type k v => trigger_with (run_program fuel) fuel t type k v s
  end.

Fixpoint perform_from (fuel : nat) (s : Engine) (cs : list (@command V)) : option Engine :=
  match cs with
  | [] => Some s
  | c :: cs' => s' ← perform1 fuel s c; perform_from fuel s' cs'
  end.

Definition perform (fuel : nat) (cs : list (@command V)) : option Engine :=
  perform_from fuel start cs.

End WithPrograms.

(** ** What the proofs speak of *)

(** The fields of an effect that tracking and cleanup do not write. *)
Definition control (E : ReactiveEffect) :
    bool * option nat * bool * bool * DirtyLevels * nat * bool :=
  (active E, computed E, allowRecurse E, onStop E, _dirtyLevel E, _runnings E,
   _shouldSchedule E).

(** From [g] to [g'] no effect object but [e] has been written to, and of
    [e] the fields of [control] are as they were. *)
Definition touches (e : nat) (g g' : State) : Prop :=
  ∀ e', (e' ≠ e → effects g' !! e' = effects g !! e')
        ∧ control <$> effects g' !! e' = control <$> effects g !! e'.

(** The effects held by the Deps of a list, in the order in which
    [trigger] meets them. *)
Definition subscribers (g : State) (ds : list (option nat)) : list nat :=
  concat (map (λ od, match od ≫= (dep_heap g !!.) with
                     | Some D => (entries D).*1
                     | None => []
                     end) ds).

Fixpoint first_occurrences (l : list nat) : list nat :=
  match l with
  | [] => []
  | x :: l' => x :: filter (λ y, y ≠ x) (first_occurrences l')
  end.

(** The subscribers that are [NotDirty], each once. *)
Definition notified (g : State) (ds : list (option nat)) : list nat :=
  first_occurrences (filter (λ e, level_of e g = Some NotDirty) (subscribers g ds)).

(** Between two commands: the graph is quiescent, nothing is paused or
    queued, no effect runs or waits to be scheduled, and an effect with the
    default scheduler that is [Dirty] has no Deps. *)
Record settled (s : Engine) : Prop := {
  rest_graph : quiescent (graph s);
  rest_stack : pauseScheduleStack s = 0%Z;
  rest_queue : queueEffectSchedulers s = [];
  rest_effects : ∀ e E, effects (graph s) !! e = Some E →
    _runnings E = 0 ∧ _shouldSchedule E = false
    ∧ (_dirtyLevel E = NotDirty ∨ _dirtyLevel E = Dirty)
    ∧ is_Some (fn_of s !! e);
  rest_clean : ∀ e E, effects (graph s) !! e = Some E →
    scheduler_of s !! e = Some DefaultScheduler → _dirtyLevel E = Dirty → deps E = []
}.

(** What the body of [triggerEffects] with [Dirty] comes to for an effect
    that is subscribed, not running and not waiting to be scheduled: at
    [NotDirty] it becomes [Dirty] and its scheduler is queued, if it has
    one, and above it is left alone. *)
Definition mark (e : nat) (s : Engine) : Engine :=
  if bool_decide (level_of e (graph s) = Some NotDirty) then
    let s1 := on_graph (update_effect e (set_dirtyLevel Dirty)) s in
    if bool_decide (is_Some (scheduler_of s !! e))
    then set_queueEffectSchedulers (queueEffectSchedulers s1 ++ [e]) s1
    else s1
  else s.

(** The subscribers that are [NotDirty] and have a scheduler, each once. *)
Definition scheduled (s : Engine) (ds : list (option nat)) : list nat :=
  filter (λ e, is_Some (scheduler_of s !! e)) (notified (graph s) ds).

(** While the queued schedulers are called: as [settled], but for the
    queue, which holds [Dirty] effects, each once. *)
Record draining (s : Engine) : Prop := {
  dr_graph : quiescent (graph s);
  dr_stack : pauseScheduleStack s = 0%Z;
  dr_effects : ∀ e E, effects (graph s) !! e = Some E →
    _runnings E = 0 ∧ _shouldSchedule E = false
    ∧ (_dirtyLevel E = NotDirty ∨ _dirtyLevel E = Dirty)
    ∧ is_Some (fn_of s !! e);
  dr_queue : NoDup (queueEffectSchedulers s);
  dr_dirty : ∀ e, e ∈ queueEffectSchedulers s → level_of e (graph s) = Some Dirty;
  dr_clean : ∀ e E, effects (graph s) !! e = Some E →
    scheduler_of s !! e = Some DefaultScheduler → _dirtyLevel E = Dirty →
    e ∉ queueEffectSchedulers s → deps E = []
}.

(** The part of [settled] and [draining] that speaks of single effects. *)
Definition effects_idle (s : Engine) : Prop :=
  ∀ e E, effects (graph s) !! e = Some E →
    _runnings E = 0 ∧ _shouldSchedule E = false
    ∧ (_dirtyLevel E = NotDirty ∨ _dirtyLevel E = Dirty)
    ∧ is_Some (fn_of s !! e).

(** How often an effect stands in a log. *)
Definition count_of (e : nat) (l : list nat) : nat := length (filter (λ x, x = e) l).

(** A sample environment: plain objects and no computed.  The function 0
    reads the property [count] of the object 1, the function 1 reads it and
    iterates over the object, other functions read nothing. *)
Definition no_target (t : target) : bool := false.

Definition no_key (k : key) : bool := false.

Definition never (k : key) (v : unit) : bool := false.

Definition sample_reads (f n : nat) : list (target * key) :=
  match f with
  | 0 => [(1, "count")]
  | 1 => [(1, "count"); (1, "Symbol(iterate)")]
  | _ => []
  end.

Definition no_computed (c : nat) (s : Engine) : Engine := s.

Definition sample_exec : nat → list (@command unit) → option Engine :=
  exec "Symbol(iterate)" "Symbol(Map key iterate)" no_target no_target no_key never
    sample_reads no_computed.

Definition sample_trigger :
    nat → target → TriggerOpTypes → option key → unit → Engine → option Engine :=
  trigger "Symbol(iterate)" "Symbol(Map key iterate)" no_target no_target no_key never
    sample_reads no_computed.

Definition sample_collected :
    target → TriggerOpTypes → option key → unit → State → list (option nat) :=
  collected "Symbol(iterate)" "Symbol(Map key iterate)" no_target no_target no_key never.

Definition with_scheduler : ReactiveEffectOptions :=
  {| lazy := false; opt_scheduler := SchedulerFunction; opt_allowRecurse := false;
     opt_onStop := false |}.

Definition scheduler_undefined : ReactiveEffectOptions :=
  {| lazy := false; opt_scheduler := SchedulerUndefined; opt_allowRecurse := false;
     opt_onStop := false |}.

(** Three effects: one that iterates, one that reads [count], and one that
    iterates and has a scheduler of its own. *)
Definition three_effects_program : list (@command unit) :=
  [Effect (Fn 1) None; Effect (Fn 0) None; Effect (Fn 1) (Some with_scheduler)].

Definition three_effects : Engine := default start (sample_exec 3 three_effects_program).

(** The same after a property has been added to the object. *)
Definition after_add : Engine :=
  default start (sample_trigger 3 1 ADD (Some "count") tt three_effects).

(** [effect(f0, { scheduler: undefined })]: an effect with no scheduler. *)
Definition unscheduled_program : list (@command unit) :=
  [Effect (Fn 0) (Some scheduler_undefined)].

Definition unscheduled : Engine := default start (sample_exec 1 unscheduled_program).

(** One effect with a scheduler of its own, after a write to what it
    read. *)
Definition one_scheduled_program : list (@command unit) :=
  [Effect (Fn 1) (Some with_scheduler); Write 1 SET (Some "count") tt].

Definition one_scheduled : Engine := default start (sample_exec 3 one_scheduled_program).

(** Functions that do more than read.
    The function 0 is [() => { if (s.a === 0) { s.b; s.a = 1 } }]: its first
    call reads [a] and [b] and writes to [a], later calls read [a].
    The function 1 is [() => { s.b; stop(runner) }] for the runner of the
    effect 0.
    The function 2 is [() => { if (first) { stop(runner); s.k } }]: its
    first call stops the effect 0 and reads [k], later calls do nothing.
    The function 3 reads [k] in its first call, reads [a] and writes to it
    in its second, and reads [a] and [k] afterwards.
    The function 4 is [() => { s.b }]. *)
Definition sample_steps (f n : nat) : list (@step unit) :=
  match f, n with
  | 0, 0 => [Reads (1, "a"); Reads (1, "b"); Writes 1 SET (Some "a") tt]
  | 0, _ => [Reads (1, "a")]
  | 1, _ => [Reads (1, "b"); Stops 0]
  | 2, 0 => [Stops 0; Reads (1, "k")]
  | 2, _ => []
  | 3, 0 => [Reads (1, "k")]
  | 3, 1 => [Reads (1, "a"); Writes 1 SET (Some "a") tt]
  | 3, _ => [Reads (1, "a"); Reads (1, "k")]
  | 4, _ => [Reads (1, "b")]
  | _, _ => []
  end.

Definition sample_perform : nat → list (@command unit) → option Engine :=
  perform "Symbol(iterate)" "Symbol(Map key iterate)" no_target no_target no_key never
    no_computed sample_steps.

Definition recursive : ReactiveEffectOptions :=
  {| lazy := false; opt_scheduler := NoSchedulerProperty; opt_allowRecurse := true;
     opt_onStop := false |}.

(** The states these programs come to: an effect that is run again while
    it runs; one that stops itself after a read; one that stops itself
    before a read, and is run again; one whose second run is entered again
    by a run that reads more; one that is run after it has been stopped. *)
Definition reentered : Engine :=
  default start (sample_perform 5 [Effect (Fn 0) (Some recursive)]).

Definition stopped_after_read : Engine :=
  default start (sample_perform 5 [Effect (Fn 1) None]).

Definition stopped_before_read : Engine :=
  default start (sample_perform 5 [Effect (Fn 2) None; Runner 0]).

Definition reentered_by_longer_run : Engine :=
  default start (sample_perform 5 [Effect (Fn 3) (Some recursive); Runner 0]).

Definition run_when_stopped : Engine :=
  default start (sample_perform 5 [Effect (Fn 4) None; StopRunner 0; Runner 0]).

(** The Deps of a property that hold an effect, and the Deps of the
    property that [deps] of the effect references. *)
Definition holding (e : nat) (tk : target * key) (g : State) : list nat :=
  (filter (λ p, owner p.2 = tk ∧ e ∈ (entries p.2).*1) (map_to_list (dep_heap g))).*1.

Definition referenced (e : nat) (tk : target * key) (g : State) : list nat :=
  match effects g !! e with
  | Some E => filter (λ d, owner <$> dep_heap g !! d = Some tk) (deps E)
  | None => []
  end.

End Trigger.

(** * Computed values (packages/reactivity/src/computed.ts, with the
      [dirty] getter and [run] of effect.ts) *)

Module Computed.
Import Reactivity.

(** How a call of user code ends. *)
Inductive completion (A : Type) :=
  | Returns (a : A)
  | Throws.
Arguments Returns {A} a.
Arguments Throws {A}.

Section WithEnvironment.

(** [V] are the values a getter returns; [W] is the state of everything
    outside the one computed that is modelled: its sources, the other
    computeds and effects, and the scheduler. *)
Context {V W : Type}.

(** What a call of the user's getter comes to.  [tracked] are the Deps the
    call reads, in the order [run] leaves them in [effect.deps].
    [retriggered] is the level with which a trigger reaches the computed's
    own effect during the call, when the getter writes to a dependency it has
    read. *)
Record outcome := {
  result : completion V;
  tracked : list nat;
  retriggered : option DirtyLevels;
  world_after : W
}.

(** What a read of [.value] of a computed among the sources comes to.
    [heard] are the levels with which that read triggers this computed's
    effect, in order: [Dirty] when the value of the source has changed,
    [MaybeDirty_ComputedSideEffect] when the source is left at that level or
    above.  [read_throws] tells whether the read ends with an exception, as
    it does when the getter of the source throws. *)
Record upstream := {
  heard : list DirtyLevels;
  read_throws : bool;
  world_then : W
}.

(** The environment of the computed.
    [hasChanged] is the comparison of @vue/shared.
    [getter] is the user's function, called with the previous value.
    [dep_computed d] is [dep.computed] of the Dep [d].
    [triggerComputed c] reads [.value] of the computed [c]. *)
Variable hasChanged : option V → option V → bool.
Variable getter : option V → W → outcome.
Variable dep_computed : nat → option nat.
Variable triggerComputed : nat → W → upstream.

Record ComputedRefImpl := {
  _value : option V;
  _cacheable : bool;
  effect : ReactiveEffect
}.

(** The computed, the tracking flags of effect.ts, the world, and what is
    kept for observation: how often the getter has been called, its last
    result, the levels [triggerRefValue(self, level)] was called with, and
    how often [trackRefValue(self)] was called.  Of [activeEffect] the model
    keeps whether it is the computed's own effect: [running_own]. *)
Record State := {
  self : ComputedRefImpl;
  shouldTrack : bool;
  trackStack : list bool;
  running_own : bool;
  world : W;
  getter_calls : nat;
  last_result : option V;
  triggered : list DirtyLevels;
  tracked_reads : nat
}.

Definition set_self (c : ComputedRefImpl) (st : State) : State :=
  {| self := c; shouldTrack := shouldTrack st; trackStack := trackStack st;
     running_own := running_own st; world := world st;
     getter_calls := getter_calls st; last_result := last_result st;
     triggered := triggered st; tracked_reads := tracked_reads st |}.

Definition set_tracking (b : bool) (stack : list bool) (st : State) : State :=
  {| self := self st; shouldTrack := b; trackStack := stack;
     running_own := running_own st; world := world st;
     getter_calls := getter_calls st; last_result := last_result st;
     triggered := triggered st; tracked_reads := tracked_reads st |}.

Definition set_running_own (b : bool) (st : State) : State :=
  {| self := self st; shouldTrack := shouldTrack st; trackStack := trackStack st;
     running_own := b; world := world st;
     getter_calls := getter_calls st; last_result := last_result st;
     triggered := triggered st; tracked_reads := tracked_reads st |}.

Definition set_world (w : W) (st : State) : State :=
  {| self := self st; shouldTrack := shouldTrack st; trackStack := trackStack st;
     running_own := running_own st; world := w;
     getter_calls := getter_calls st; last_result := last_result st;
     triggered := triggered st; tracked_reads := tracked_reads st |}.

Definition log_getter_call (r : completion V) (st : State) : State :=
  {| self := self st; shouldTrack := shouldTrack st; trackStack := trackStack st;
     running_own := running_own st; world := world st;
     getter_calls := getter_calls st + 1;
     last_result := match r with Returns v => Some v | Throws => last_result st end;
     triggered := triggered st; tracked_reads := tracked_reads st |}.

Definition set_effect (E : ReactiveEffect) (st : State) : State :=
  set_self {| _value := _value (self st); _cacheable := _cacheable (self st);
              effect := E |} st.

Definition set_value (v : option V) (st : State) : State :=
  set_self {| _value := v; _cacheable := _cacheable (self st);
              effect := effect (self st) |} st.

Definition dirtyLevel (st : State) : DirtyLevels := _dirtyLevel (effect (self st)).

(** Modelled from the spec: [triggerRefValue(self, level)] of ref.ts hands
    the level to the subscribers of the computed, and [trackRefValue(self)]
    subscribes the reader; they leave the fields of the computed alone. *)
Definition triggerRefValue (l : DirtyLevels) (st : State) : State :=
  {| self := self st; shouldTrack := shouldTrack st; trackStack := trackStack st;
     running_own := running_own st; world := world st;
     getter_calls := getter_calls st; last_result := last_result st;
     triggered := triggered st ++ [l]; tracked_reads := tracked_reads st |}.

Definition trackRefValue (st : State) : State :=
  {| self := self st; shouldTrack := shouldTrack st; trackStack := trackStack st;
     running_own := running_own st; world := world st;
     getter_calls := getter_calls st; last_result := last_result st;
     triggered := triggered st; tracked_reads := tracked_reads st + 1 |}.

Definition pauseTracking (st : State) : State :=
  set_tracking false (trackStack st ++ [shouldTrack st]) st.

Definition resetTracking (st : State) : State :=
  match reverse (trackStack st) with
  | last :: rest => set_tracking last (reverse rest) st
  | [] => set_tracking true [] st
  end.

(** A trigger from a Dep reaches the computed's effect: the body of the loop
    of [triggerEffects], and the effect's [trigger] callback, which is
    [triggerRefValue(this, level)] with the level the constructor chooses. *)
Definition triggerEffects (l : DirtyLevels) (tracking : bool) (st : State) : State :=
  let '(E', called) := triggerEffects_body l tracking (effect (self st)) in
  let st1 :=
    match called with
    | Some at_level =>
        triggerRefValue
          (if bool_decide (at_level = MaybeDirty_ComputedSideEffect)
           then MaybeDirty_ComputedSideEffect else MaybeDirty) st
    | None => st
    end in
  set_effect E' st1.

(** The loop of the [dirty] getter over [deps[0 .. _depsLength)], with its
    [break].  An exception of [triggerComputed] ends the loop and the
    getter. *)
Fixpoint dirty_walk (ds : list nat) (st : State) : completion unit * State :=
  match ds with
  | [] => (Returns (), st)
  | d :: ds' =>
      match dep_computed d with
      | Some c =>
          let u := triggerComputed c (world st) in
          let st2 :=
            foldl (λ s l, triggerEffects l true s) (set_world (world_then u) st)
              (heard u) in
          if read_throws u then (Throws, st2)
          else if level Dirty <=? level (dirtyLevel st2) then (Returns (), st2)
          else dirty_walk ds' st2
      | None => dirty_walk ds' st
      end
  end.

(** [get dirty()] of the computed's effect.  It has no [finally]: an
    exception of the walk leaves the level and the paused tracking as they
    are. *)
Definition dirty (st : State) : completion bool * State :=
  if bool_decide (dirtyLevel st = MaybeDirty_ComputedSideEffect)
     || bool_decide (dirtyLevel st = MaybeDirty)
  then
    let st1 := set_effect (set_dirtyLevel QueryingDirty (effect (self st))) st in
    let st2 := pauseTracking st1 in
    let E := effect (self st2) in
    match dirty_walk (take (_depsLength E) (deps E)) st2 with
    | (Returns _, st3) =>
        let st4 :=
          if bool_decide (dirtyLevel st3 = QueryingDirty)
          then set_effect (set_dirtyLevel NotDirty (effect (self st3))) st3
          else st3 in
        let st5 := resetTracking st4 in
        (Returns (level Dirty <=? level (dirtyLevel st5)), st5)
    | (Throws, st3) => (Throws, st3)
    end
  else (Returns (level Dirty <=? level (dirtyLevel st)), st).

(** The call [getter(this._value)] that is the effect's [fn]. *)
Definition call_getter (st : State) : outcome * State :=
  let o := getter (_value (self st)) (world st) in
  (o, log_getter_call (result o) (set_world (world_after o) st)).

(** [effect.run()] for the computed's effect, the [finally] block being run
    whether the getter returns or throws.  Which Deps end up in [deps] is
    the result of [trackEffect] and the two cleanups, which the graph model
    follows step by step: the Deps read in this run, [_depsLength] being
    their number. *)
Definition run (st : State) : completion V * State :=
  let st0 := set_effect (set_dirtyLevel NotDirty (effect (self st))) st in
  if negb (active (effect (self st0))) then
    let '(o, st1) := call_getter st0 in (result o, st1)
  else
    let lastShouldTrack := shouldTrack st0 in
    let lastEffect := running_own st0 in
    let st1 := set_running_own true (set_tracking true (trackStack st0) st0) in
    let E1 := effect (self st1) in
    let st2 :=
      set_effect
        (set_depsLength 0
           (set_trackId (_trackId E1 + 1) (set_runnings (_runnings E1 + 1) E1))) st1 in
    let '(o, st3) := call_getter st2 in
    let st4 :=
      set_effect
        (set_depsLength (length (tracked o)) (set_deps (tracked o) (effect (self st3))))
        st3 in
    let st5 :=
      match retriggered o with
      | Some l => triggerEffects l true st4
      | None => st4
      end in
    let E5 := effect (self st5) in
    let st6 := set_effect (set_runnings (_runnings E5 - 1) E5) st5 in
    (result o, set_running_own lastEffect (set_tracking lastShouldTrack (trackStack st6) st6)).

(** What [get value()] does after its first [if]. *)
Definition value_rest (st2 : State) : completion (option V) * State :=
  let st3 := trackRefValue st2 in
  let st4 :=
    if level MaybeDirty_ComputedSideEffect <=? level (dirtyLevel st3)
    then triggerRefValue MaybeDirty_ComputedSideEffect st3
    else st3 in
  (Returns (_value (self st4)), st4).

(** The first operand of the test in [get value()]:
    [!self._cacheable || self.effect.dirty]. *)
Definition needs_run (st : State) : completion bool * State :=
  if negb (_cacheable (self st)) then (Returns true, st) else dirty st.

(** [get value()].  The first argument of [hasChanged] is read before the
    effect runs; an exception of the [dirty] getter or of the getter leaves
    through the read. *)
Definition value (st : State) : completion (option V) * State :=
  match needs_run st with
  | (Returns recompute, st1) =>
      if recompute then
        let old := _value (self st1) in
        match run st1 with
        | (Returns v, st') =>
            let st'' := set_value (Some v) st' in
            value_rest
              (if hasChanged old (Some v) then triggerRefValue Dirty st'' else st'')
        | (Throws, st') => (Throws, st')
        end
      else value_rest st1
  | (Throws, st1) => (Throws, st1)
  end.

(** [new ComputedRefImpl(getter, setter, isReadonly, isSSR)]. *)
Definition construct (isSSR : bool) (w : W) : State :=
  {| self := {| _value := None; _cacheable := negb isSSR;
                effect := set_active (negb isSSR) (new_effect false) |};
     shouldTrack := true; trackStack := []; running_own := false; world := w;
     getter_calls := 0; last_result := None; triggered := []; tracked_reads := 0 |}.

(** What happens to a computed: it is read, or a trigger from one of the
    Deps reaches its effect. *)
Inductive command :=
  | Read
  | Trigger (l : DirtyLevels) (tracking : bool).

Definition exec1 (st : State) (c : command) : State :=
  match c with
  | Read => (value st).2
  | Trigger l tracking => triggerEffects l tracking st
  end.

Definition exec (isSSR : bool) (w : W) (cs : list command) : State :=
  foldl exec1 (construct isSSR w) cs.

(** A getter that leaves its own dependencies alone. *)
Definition side_effect_free : Prop := ∀ old w, retriggered (getter old w) = None.

End WithEnvironment.

(** What a step leaves of the cache and of the counters. *)
Definition same_cache {V W : Type} (st st' : @State V W) : Prop :=
  _value (self st') = _value (self st)
  ∧ _cacheable (self st') = _cacheable (self st)
  ∧ getter_calls st' = getter_calls st
  ∧ last_result st' = last_result st.

(** What a step leaves of the flags of effect.ts and of [_runnings]. *)
Definition same_flags {V W : Type} (st st' : @State V W) : Prop :=
  shouldTrack st' = shouldTrack st ∧ trackStack st' = trackStack st
  ∧ running_own st' = running_own st
  ∧ _runnings (effect (self st')) = _runnings (effect (self st)).

(** A sample environment: the world is a number, the getter doubles it and
    reads one Dep. *)
Definition doubling (old : option nat) (w : nat) : @outcome nat nat :=
  {| result := Returns (2 * w); tracked := [0]; retriggered := None; world_after := w |}.

Definition changed (a b : option nat) : bool := negb (bool_decide (a = b)).

Definition no_owner (d : nat) : option nat := None.

Definition unchanged_upstream (c : nat) (w : nat) : @upstream nat :=
  {| heard := []; read_throws := false; world_then := w |}.

Definition read_sample : @State nat nat → completion (option nat) * @State nat nat :=
  value changed doubling no_owner unchanged_upstream.

(** A getter that writes to a dependency it has read: the trigger of the
    write reaches the computed's own effect while it runs. *)
Definition self_mutating (old : option nat) (w : nat) : @outcome nat nat :=
  {| result := Returns w; tracked := [0]; retriggered := Some Dirty;
     world_after := w + 1 |}.

Definition read_self_mutating :
    @State nat nat → completion (option nat) * @State nat nat :=
  value changed self_mutating no_owner unchanged_upstream.

(** A computed over the world 21 that has been read once. *)
Definition read_once : @State nat nat := (read_sample (construct false 21)).2.

(** How many reads and how many triggers a history holds. *)
Definition is_read (c : command) : bool :=
  match c with Read => true | Trigger _ _ => false end.

Definition reads_in (cs : list command) : nat :=
  length (filter (λ c, is_read c = true) cs).

Definition triggers_in (cs : list command) : nat :=
  length (filter (λ c, is_read c = false) cs).

(** Whether the level asks [dirty] for more than a comparison. *)
Definition unsettled (l : DirtyLevels) : nat :=
  match l with NotDirty | QueryingDirty => 0 | _ => 1 end.

(** The Deps of [deps[0 .. _depsLength)], which the [dirty] getter walks. *)
Definition walked {V W : Type} (st : @State V W) : list nat :=
  take (_depsLength (effect (self st))) (deps (effect (self st))).

(** The state in which the walk of [dirty] starts: the level is the guard
    and tracking is paused. *)
Definition walk_start_of {V W : Type} (st : @State V W) : @State V W :=
  pauseTracking (set_effect (set_dirtyLevel QueryingDirty (effect (self st))) st).

(** Every Dep belongs to the computed 7, whose value has changed, or has
    not. *)
Definition owned_by_computed (d : nat) : option nat := Some 7.

Definition changed_upstream (c : nat) (w : nat) : @upstream nat :=
  {| heard := [Dirty]; read_throws := false; world_then := w |}.

(** The computed 7 is left at [MaybeDirty_ComputedSideEffect] by its own
    getter, or its getter throws. *)
Definition side_effect_upstream (c : nat) (w : nat) : @upstream nat :=
  {| heard := [MaybeDirty_ComputedSideEffect]; read_throws := false; world_then := w |}.

Definition failing_upstream (c : nat) (w : nat) : @upstream nat :=
  {| heard := []; read_throws := true; world_then := w |}.

(** A computed over the world 21 that has been read once and has then
    heard [MaybeDirty] from a Dep. *)
Definition needs_a_look : @State nat nat :=
  triggerEffects MaybeDirty true read_once.

(** A getter that throws. *)
Definition failing (old : option nat) (w : nat) : @outcome nat nat :=
  {| result := Throws; tracked := [0]; retriggered := None; world_after := w |}.

End Computed.

(** * Deep traversal ([traverse] of packages/runtime-core/src/apiWatch.ts) *)

Module Watch.

(** The [depth] argument: a number, [Infinity] by default. *)
Inductive depth := Finite (n : Z) | Infinity.

(** [depth <= 0] and [depth--]. *)
Definition depth_le0 (d : depth) : bool :=
  match d with
  | Finite n => (n <=? 0)%Z
  | Infinity => false
  end.

Definition depth_pred (d : depth) : depth :=
  match d with
  | Finite n => Finite (n - 1)
  | Infinity => Infinity
  end.

(** Values: primitives, and references to objects of a heap.  Object graphs
    may be cyclic, since an object holds references and not objects. *)
Inductive value :=
  | VUndefined
  | VNumber (n : Z)
  | VString (s : string)
  | VBoolean (b : bool)
  | VObject (ref : nat).

(** What [traverse] distinguishes in an object, in the order it tests:
    [isRef], [isArray], [isSet || isMap], [isPlainObject].  A Map is listed
    with its keys, of which [forEach] hands the values to the callback.  A
    plain object lists the string keys that [for ... in] enumerates and its
    own symbol keys, each with its enumerable flag. *)
Inductive shape :=
  | RefObject (inner : value)
  | ArrayObject (elems : list value)
  | SetObject (elems : list value)
  | MapObject (items : list (value * value))
  | PlainObject (props : list (string * value)) (symbols : list (nat * bool * value))
  | OtherObject.

(** [skip] is the truthiness of the property [ReactiveFlags.SKIP]. *)
Record object := { skip : bool; shape_of : shape }.

Definition isObject (v : value) : bool :=
  match v with VObject _ => true | _ => false end.

(** The object behind a reference; a reference the heap does not hold is an
    object of no traversable shape. *)
Definition deref (h : gmap nat object) (r : nat) : object :=
  default {| skip := false; shape_of := OtherObject |} (h !! r).

Definition skip_marked (h : gmap nat object) (v : value) : bool :=
  match v with VObject r => skip (deref h r) | _ => false end.

(** The values [traverse] descends into, in order. *)
Definition children (sh : shape) : list value :=
  match sh with
  | RefObject v => [v]
  | ArrayObject l => l
  | SetObject l => l
  | MapObject items => items.*2
  | PlainObject props symbols =>
      props.*2 ++ (filter (λ p, p.1.2 = true) symbols).*2
  | OtherObject => []
  end.

(** A loop that calls [visit] on each element, threading the seen-set, which
    is a JavaScript [Set]: a list in insertion order. *)
Fixpoint for_each (visit : value → list nat → option (value * list nat))
    (l : list value) (seen : list nat) : option (list nat) :=
  match l with
  | [] => Some seen
  | x :: l' => '(_, seen') ← visit x seen; for_each visit l' seen'
  end.

(** [traverse(value, depth, seen)].  The result is the returned value and the
    seen-set as the call leaves it; [None] stands for a call that has not
    returned within the fuel, which bounds the nesting of calls. *)
Fixpoint traverse (fuel : nat) (h : gmap nat object) (v : value) (d : depth)
    (seen : option (list nat)) : option (value * list nat) :=
  match fuel with
  | O => None
  | S fuel' =>
      let seen := default [] seen in
      if depth_le0 d || negb (isObject v) || skip_marked h v then Some (v, seen)
      else
        match v with
        | VObject r =>
            if bool_decide (r ∈ seen) then Some (v, seen)
            else
              let seen := seen ++ [r] in
              let d := depth_pred d in
              seen' ← for_each (λ x s, traverse fuel' h x d (Some s))
                        (children (shape_of (deref h r))) seen;
              Some (v, seen')
        | _ => Some (v, seen)
        end
  end.

(** The objects of the heap that a seen-set does not hold yet. *)
Definition unseen (h : gmap nat object) (seen : list nat) : nat :=
  size (dom h ∖ list_to_set seen).

(** Sample heaps: two objects that refer to each other, and a ref whose
    value is an array holding the ref itself. *)
Definition cyclic_heap : gmap nat object :=
  <[1 := {| skip := false; shape_of := PlainObject [("next", VObject 2)] [] |}]>
  (<[2 := {| skip := false;
             shape_of := PlainObject [("prev", VObject 1); ("n", VNumber 7)] [] |}]> ∅).

(** What a returned call has done to the seen-set. *)
Definition grows (seen seen' : list nat) : Prop :=
  seen `prefix_of` seen' ∧ (NoDup seen → NoDup seen').

End Watch.

(** * Watchers ([doWatch] of packages/runtime-core/src/apiWatch.ts) *)

Module ApiWatch.
Import Reactivity.

(** The [flush] option.  [doWatch] tests for ['sync'] and ['post']; every
    other value, [undefined] included, takes the branch of ['pre']. *)
Inductive flush_timing := Pre | Post | Sync.

(** What [doWatch] distinguishes in its [source], in the order it tests:
    [isRef] (with [isShallow(source)]), [isReactive], [isArray] (with the
    length of the array and [source.some(s => isReactive(s) || isShallow(s))]),
    [isFunction], and anything else. *)
Inductive watch_source :=
  | RefSource (shallow : bool)
  | ReactiveSource
  | ArraySource (len : nat) (reactive_or_shallow : bool)
  | FunctionSource
  | InvalidSource.

(** The options [doWatch] reads.  [deep] is the truthiness of the option:
    its exact value only selects how far the getter traverses what it
    returns, and [traverse] returns its argument. *)
Record WatchOptions := {
  immediate : bool;
  deep : bool;
  flush : flush_timing;
  once : bool
}.

(** What [doWatch] returns: [unwatch], or [NOOP] during server-side
    rendering. *)
Inductive WatchStopHandle := NoopHandle | Unwatch.

(** The calls a watcher makes to the scheduler: [queueJob(job)] with
    [job.pre = true], [queuePostRenderEffect(job)], and
    [queuePostRenderEffect(effect.run.bind(effect))]. *)
Inductive request := QueueJob | QueuePostJob | QueuePostRun.

Definition isMultiSource (src : watch_source) : bool :=
  match src with
  | ArraySource _ _ => true
  | _ => false
  end.

Definition forceTrigger (src : watch_source) : bool :=
  match src with
  | RefSource shallow => shallow
  | ReactiveSource => true
  | ArraySource _ b => b
  | FunctionSource => false
  | InvalidSource => false
  end.

Section WithEnvironment.

(** The values of the sources.  [undefined] is one of them. *)
Context {V : Type}.
Variable undefined : V.

(** [hasChanged] and [isArray] of @vue/shared. *)
Variable hasChanged : V → V → bool.
Variable isArray : V → bool.

(** What the sources hold: [source_value n] is what a single source yields
    at the getter's call number [n] (counted from 0; for a function source
    [undefined] when the function throws, as [callWithErrorHandling] gives),
    [source_values n k] what the source at index [k] of an array yields.
    Reading a ref or a reactive source is taken to throw no exception. *)
Variable source_value : nat → V.
Variable source_values : nat → nat → V.

(** What the user's function does: [registers n] lists the functions that
    call number [n] of the callback (of the effect function, for a watcher
    without callback) passes to [onCleanup], in order, and [cb_throws n]
    says whether that call throws.  The user's function neither writes to
    the sources nor calls the stop handle. *)
Variable registers : nat → list nat.
Variable cb_throws : nat → bool.

(** The level the effect has after the loop of its [dirty] getter, at the
    query number [n]: [QueryingDirty] when no computed source raised it.
    The computed sources that the loop reads are taken to throw no
    exception. *)
Variable queried_level : nat → DirtyLevels.

(** [__SSR__ && isInSSRComponentSetup], and
    [__COMPAT__ && isCompatEnabled(DeprecationTypes.WATCH_ARRAY, instance)]. *)
Variable in_ssr_setup : bool.
Variable compat_watch_array : bool.

(** What a getter returns: the value of one source, or the array of the
    values of the sources. *)
Inductive observed := One (v : V) | Many (vs : list V).

(** The variable [oldValue]: [INITIAL_WATCHER_VALUE], an array filled with
    it, or what the getter returned. *)
Inductive old_value := Initial | InitialArray (n : nat) | Seen (o : observed).

(** The variables of a call of [doWatch] that change, and what it does to
    the outside.  [effect] is [None] until [new ReactiveEffect] is reached.
    [cleanup] is the function last passed to [onCleanup]; [effect.onStop]
    is assigned with it and to the same closure.  [onCleanup_noop] says
    that [onCleanup] was replaced by [NOOP].  The counters number the calls
    of the getter, of the user's function and of the [dirty] getter.  The
    logs list the arguments of the calls of the callback, the cleanup
    functions called, the calls to the scheduler, and the number of errors
    handed to the error handler. *)
Record Watcher := {
  effect : option ReactiveEffect;
  oldValue : old_value;
  cleanup : option nat;
  onCleanup_noop : bool;
  evaluations : nat;
  user_calls : nat;
  queries : nat;
  cb_calls : list (observed * observed);
  cleanup_calls : list nat;
  requests : list request;
  handled_errors : nat
}.

Definition set_effect (E : option ReactiveEffect) (w : Watcher) : Watcher :=
  {| effect := E; oldValue := oldValue w; cleanup := cleanup w;
     onCleanup_noop := onCleanup_noop w; evaluations := evaluations w;
     user_calls := user_calls w; queries := queries w; cb_calls := cb_calls w;
     cleanup_calls := cleanup_calls w; requests := requests w;
     handled_errors := handled_errors w |}.

Definition set_oldValue (o : old_value) (w : Watcher) : Watcher :=
  {| effect := effect w; oldValue := o; cleanup := cleanup w;
     onCleanup_noop := onCleanup_noop w; evaluations := evaluations w;
     user_calls := user_calls w; queries := queries w; cb_calls := cb_calls w;
     cleanup_calls := cleanup_calls w; requests := requests w;
     handled_errors := handled_errors w |}.

Definition set_cleanup (c : option nat) (w : Watcher) : Watcher :=
  {| effect := effect w; oldValue := oldValue w; cleanup := c;
     onCleanup_noop := onCleanup_noop w; evaluations := evaluations w;
     user_calls := user_calls w; queries := queries w; cb_calls := cb_calls w;
     cleanup_calls := cleanup_calls w; requests := requests w;
     handled_errors := handled_errors w |}.

Definition set_onCleanup_noop (b : bool) (w : Watcher) : Watcher :=
  {| effect := effect w; oldValue := oldValue w; cleanup := cleanup w;
     onCleanup_noop := b; evaluations := evaluations w;
     user_calls := user_calls w; queries := queries w; cb_calls := cb_calls w;
     cleanup_calls := cleanup_calls w; requests := requests w;
     handled_errors := handled_errors w |}.

Definition set_evaluations (n : nat) (w : Watcher) : Watcher :=
  {| effect := effect w; oldValue := oldValue w; cleanup := cleanup w;
     onCleanup_noop := onCleanup_noop w; evaluations := n;
     user_calls := user_calls w; queries := queries w; cb_calls := cb_calls w;
     cleanup_calls := cleanup_calls w; requests := requests w;
     handled_errors := handled_errors w |}.

Definition set_user_calls (n : nat) (w : Watcher) : Watcher :=
  {| effect := effect w; oldValue := oldValue w; cleanup := cleanup w;
     onCleanup_noop := onCleanup_noop w; evaluations := evaluations w;
     user_calls := n; queries := queries w; cb_calls := cb_calls w;
     cleanup_calls := cleanup_calls w; requests := requests w;
     handled_errors := handled_errors w |}.

Definition set_queries (n : nat) (w : Watcher) : Watcher :=
  {| effect := effect w; oldValue := oldValue w; cleanup := cleanup w;
     onCleanup_noop := onCleanup_noop w; evaluations := evaluations w;
     user_calls := user_calls w; queries := n; cb_calls := cb_calls w;
     cleanup_calls := cleanup_calls w; requests := requests w;
     handled_errors := handled_errors w |}.

Definition set_cb_calls (l : list (observed * observed)) (w : Watcher) : Watcher :=
  {| effect := effect w; oldValue := oldValue w; cleanup := cleanup w;
     onCleanup_noop := onCleanup_noop w; evaluations := evaluations w;
     user_calls := user_calls w; queries := queries w; cb_calls := l;
     cleanup_calls := cleanup_calls w; requests := requests w;
     handled_errors := handled_errors w |}.

Definition set_cleanup_calls (l : list nat) (w : Watcher) : Watcher :=
  {| effect := effect w; oldValue := oldValue w; cleanup := cleanup w;
     onCleanup_noop := onCleanup_noop w; evaluations := evaluations w;
     user_calls := user_calls w; queries := queries w; cb_calls := cb_calls w;
     cleanup_calls := l; requests := requests w;
     handled_errors := handled_errors w |}.

Definition set_requests (l : list request) (w : Watcher) : Watcher :=
  {| effect := effect w; oldValue := oldValue w; cleanup := cleanup w;
     onCleanup_noop := onCleanup_noop w; evaluations := evaluations w;
     user_calls := user_calls w; queries := queries w; cb_calls := cb_calls w;
     cleanup_calls := cleanup_calls w; requests := l;
     handled_errors := handled_errors w |}.

Definition set_handled_errors (n : nat) (w : Watcher) : Watcher :=
  {| effect := effect w; oldValue := oldValue w; cleanup := cleanup w;
     onCleanup_noop := onCleanup_noop w; evaluations := evaluations w;
     user_calls := user_calls w; queries := queries w; cb_calls := cb_calls w;
     cleanup_calls := cleanup_calls w; requests := requests w;
     handled_errors := n |}.

(** The variables at the entry of [doWatch]. *)
Definition entry : Watcher :=
  {| effect := None; oldValue := Initial; cleanup := None; onCleanup_noop := false;
     evaluations := 0; user_calls := 0; queries := 0; cb_calls := [];
     cleanup_calls := []; requests := []; handled_errors := 0 |}.

Definition on_effect (f : ReactiveEffect → ReactiveEffect) (w : Watcher) : Watcher :=
  set_effect (f <$> effect w) w.

(** [if (cleanup) { cleanup() }], and the call of [effect.onStop]: the
    closure calls the registered function through [callWithErrorHandling]
    and clears [cleanup] and [effect.onStop]. *)
Definition call_cleanup (w : Watcher) : Watcher :=
  match cleanup w with
  | Some f => set_cleanup None (set_cleanup_calls (cleanup_calls w ++ [f]) w)
  | None => w
  end.

(** [onCleanup(fn)]. *)
Definition onCleanup (w : Watcher) (f : nat) : Watcher :=
  if onCleanup_noop w then w else set_cleanup (Some f) w.

(** A call of the user's function, which is handed [onCleanup]. *)
Definition call_user (w : Watcher) : Watcher :=
  foldl onCleanup (set_user_calls (S (user_calls w)) w) (registers (user_calls w)).

(** [getter()].  With a callback and [deep], and in the compat build, the
    getter is wrapped in a call of [traverse], which returns its argument.
    A function source without callback is the effect function: a pending
    cleanup is called, then the function. *)
Definition getter (src : watch_source) (cb : bool) (w : Watcher) : observed * Watcher :=
  let n := evaluations w in
  let w1 := set_evaluations (S n) w in
  match src with
  | RefSource _ => (One (source_value n), w1)
  | ReactiveSource => (One (source_value n), w1)
  | ArraySource len _ => (Many (map (source_values n) (seq 0 len)), w1)
  | FunctionSource =>
      if cb then (One (source_value n), w1)
      else (One (source_value n), call_user (call_cleanup w1))
  | InvalidSource => (One undefined, w1)
  end.

(** [effect.run()], as far as a watcher sees it: the level is reset and
    [fn], the getter, is called, whether the effect is active or not. *)
Definition effect_run (src : watch_source) (cb : bool) (w : Watcher) : observed * Watcher :=
  getter src cb (on_effect (set_dirtyLevel NotDirty) w).

(** The getter [effect.dirty]. *)
Definition effect_dirty (w : Watcher) : bool * Watcher :=
  match effect w with
  | Some E =>
      if bool_decide (_dirtyLevel E = MaybeDirty_ComputedSideEffect)
         || bool_decide (_dirtyLevel E = MaybeDirty)
      then
        let l := queried_level (queries w) in
        let l' := if bool_decide (l = QueryingDirty) then NotDirty else l in
        (level Dirty <=? level l',
         set_queries (S (queries w)) (set_effect (Some (set_dirtyLevel l' E)) w))
      else (level Dirty <=? level (_dirtyLevel E), w)
  | None => (false, w)
  end.

(** [effect.stop()].  [onStop] is the cleanup closure, when there is one. *)
Definition effect_stop (w : Watcher) : Watcher :=
  match effect w with
  | Some E =>
      if active E then on_effect (set_active false) (call_cleanup w) else w
  | None => w
  end.

(** [unwatch()].  The scope that may hold the effect is left out. *)
Definition unwatch (w : Watcher) : Watcher := effect_stop w.

(** [callWithAsyncErrorHandling(cb, ..., [newValue, oldValue, onCleanup])].
    With [once], [cb] is the wrapper that calls [unwatch] after the user's
    callback returned; [unwatch] cannot be called before its declaration is
    reached, which is an error like one thrown by the callback. *)
Definition call_cb (o : WatchOptions) (newValue oldArg : observed) (w : Watcher) : Watcher :=
  let n := user_calls w in
  let w1 := call_user (set_cb_calls (cb_calls w ++ [(newValue, oldArg)]) w) in
  if cb_throws n then set_handled_errors (S (handled_errors w1)) w1
  else if once o then
    match effect w1 with
    | Some _ => unwatch w1
    | None => set_handled_errors (S (handled_errors w1)) w1
    end
  else w1.

(** The old value handed to the callback. *)
Definition old_argument (src : watch_source) (old : old_value) : observed :=
  match old with
  | Initial => One undefined
  | InitialArray _ => Many []
  | Seen o => o
  end.

(** [hasChanged(v, oldValue[i])] for the element [v] at index [i] of the
    new array.  [INITIAL_WATCHER_VALUE] differs from every value. *)
Definition differs_at (old : old_value) (i : nat) (v : V) : bool :=
  match old with
  | InitialArray n => if decide (i < n) then true else hasChanged v undefined
  | Seen (Many os) => hasChanged v (default undefined (os !! i))
  | Seen (One _) => true
  | Initial => true
  end.

(** [isMultiSource ? newValue.some((v, i) => hasChanged(v, oldValue[i]))
                   : hasChanged(newValue, oldValue)].
    The getter of an array source returns an array and [oldValue] holds
    arrays, the other getters return one value: the remaining cases are not
    reached. *)
Definition value_changed (src : watch_source) (newValue : observed) (old : old_value) : bool :=
  if isMultiSource src then
    match newValue with
    | Many vs => existsb (λ iv, differs_at old iv.1 iv.2) (imap pair vs)
    | One _ => true
    end
  else
    match newValue, old with
    | One v, Seen (One o) => hasChanged v o
    | _, _ => true
    end.

Definition is_array (o : observed) : bool :=
  match o with
  | One v => isArray v
  | Many _ => true
  end.

(** [job()]. *)
Definition job (src : watch_source) (cb : bool) (o : WatchOptions) (w : Watcher) : Watcher :=
  match effect w with
  | Some E =>
      if negb (active E) then w
      else
        let '(d, w1) := effect_dirty w in
        if negb d then w1
        else if cb then
          let '(newValue, w2) := effect_run src cb w1 in
          if deep o || forceTrigger src || value_changed src newValue (oldValue w2)
             || (compat_watch_array && is_array newValue)
          then
            let w3 := call_cleanup w2 in
            let w4 := call_cb o newValue (old_argument src (oldValue w3)) w3 in
            set_oldValue (Seen newValue) w4
          else w2
        else (effect_run src cb w1).2
  | None => w
  end.

(** [scheduler()]. *)
Definition scheduler (src : watch_source) (cb : bool) (o : WatchOptions) (w : Watcher) :
    Watcher :=
  match flush o with
  | Sync => job src cb o w
  | Post => set_requests (requests w ++ [QueuePostJob]) w
  | Pre => set_requests (requests w ++ [QueueJob]) w
  end.

(** [doWatch(source, cb, options)]: the handle it returns, and the state it
    leaves.  [cb] says whether a callback is given. *)
Definition doWatch (src : watch_source) (cb : bool) (o : WatchOptions) :
    WatchStopHandle * Watcher :=
  let '(w1, returns_noop) :=
    if in_ssr_setup then
      let w := set_onCleanup_noop true entry in
      let w :=
        if negb cb then (getter src cb w).2
        else if immediate o then
          let '(v, w') := getter src cb w in
          call_cb o v (if isMultiSource src then Many [] else One undefined) w'
        else w in
      (w, match flush o with Sync => false | _ => true end)
    else (entry, false) in
  if returns_noop then (NoopHandle, w1)
  else
    let w2 :=
      set_oldValue
        match src with
        | ArraySource len _ => InitialArray len
        | _ => Initial
        end w1 in
    let w3 := set_effect (Some (new_effect false)) w2 in
    (Unwatch,
     if cb then
       if immediate o then job src cb o w3
       else let '(v, w) := effect_run src cb w3 in set_oldValue (Seen v) w
     else
       match flush o with
       | Post => set_requests (requests w3 ++ [QueuePostRun]) w3
       | _ => (effect_run src cb w3).2
       end).

(** What happens to a watcher after [doWatch] returned.  [Notify]: a Dep
    that holds the effect is handed to [triggerEffects] with a level, where
    [tracking] is [dep.get(effect) === effect._trackId]; the scheduler that
    [triggerEffects] queues is called by [resetScheduling].  [RunJob]: the
    scheduler of the runtime calls the job.  [RunQueued]: it calls the bound
    [effect.run].  [Stop]: the handle is called. *)
Inductive event :=
  | Notify (l : DirtyLevels) (tracking : bool)
  | RunJob
  | RunQueued
  | Stop.

Definition notify (src : watch_source) (cb : bool) (o : WatchOptions)
    (l : DirtyLevels) (tracking : bool) (w : Watcher) : Watcher :=
  match effect w with
  | Some E =>
      let '(E', triggered) := triggerEffects_body l tracking E in
      let w1 := set_effect (Some E') w in
      if bool_decide (is_Some triggered) && negb (_shouldSchedule E')
      then scheduler src cb o w1
      else w1
  | None => w
  end.

Definition step (src : watch_source) (cb : bool) (o : WatchOptions) (h : WatchStopHandle)
    (w : Watcher) (ev : event) : Watcher :=
  match ev with
  | Notify l tracking => notify src cb o l tracking w
  | RunJob => job src cb o w
  | RunQueued =>
      match effect w with
      | Some _ => (effect_run src cb w).2
      | None => w
      end
  | Stop =>
      match h with
      | Unwatch => unwatch w
      | NoopHandle => w
      end
  end.

(** A call of [doWatch] followed by a history of events. *)
Definition watch_history (src : watch_source) (cb : bool) (o : WatchOptions)
    (events : list event) : Watcher :=
  foldl (step src cb o (doWatch src cb o).1) (doWatch src cb o).2 events.

(** What the getter of a watcher with a callback returns at its call
    number [n]. *)
Definition reading (src : watch_source) (n : nat) : observed :=
  (getter src true (set_evaluations n entry)).1.

(** The content of [oldValue] before the first call of the job. *)
Definition initial_old (src : watch_source) (o : WatchOptions) : old_value :=
  if immediate o then
    match src with
    | ArraySource len _ => InitialArray len
    | _ => Initial
    end
  else Seen (reading src 0).

(** Each call of [calls] has the new value of the call before it as its old
    value, and the first one has [prev]. *)
Fixpoint chained (prev : observed) (calls : list (observed * observed)) : Prop :=
  match calls with
  | [] => True
  | (n, o) :: rest => o = prev ∧ chained n rest
  end.

(** The new value of each call of [calls] differs from the new value of the
    call before it, and the one of the first call from [old]. *)
Fixpoint changes_from (src : watch_source) (old : old_value)
    (calls : list (observed * observed)) : Prop :=
  match calls with
  | [] => True
  | (n, _) :: rest => value_changed src n old = true ∧ changes_from src (Seen n) rest
  end.

(** The content of [oldValue] after the calls [calls]. *)
Definition last_seen (old : old_value) (calls : list (observed * observed)) : old_value :=
  default old ((λ c, Seen c.1) <$> last calls).

(** The cleanup functions that stay registered after each of the first [n]
    calls of the user's function: the last one each call registered. *)
Definition registered (n : nat) : list nat :=
  omap (λ k, last (registers k)) (seq 0 n).

(** The cleanup function that waits to be called, as a list. *)
Definition pending (w : Watcher) : list nat := option_list (cleanup w).

(** [onCleanup] registers, and the cleanup functions called and the one
    that waits are the registered ones, in order. *)
Definition accounted (w : Watcher) : Prop :=
  onCleanup_noop w = false
  ∧ cleanup_calls w ++ pending w = registered (user_calls w).

(** Whether the effect exists and is active. *)
Definition watching (w : Watcher) : bool :=
  match effect w with
  | Some E => active E
  | None => false
  end.

(** The condition under which the job calls the callback with the new
    value [nv]. *)
Definition reports (src : watch_source) (o : WatchOptions) (nv : observed)
    (old : old_value) : bool :=
  deep o || forceTrigger src || value_changed src nv old
  || (compat_watch_array && is_array nv).

(** What holds of the calls of the callback of a watcher: each call got
    the new value of the call before it as old value, [oldValue] holds the
    new value of the last call, each call was made because its condition
    held, and calls of the callback are the only calls of a user's
    function. *)
Record reported (src : watch_source) (o : WatchOptions) (w : Watcher) : Prop := {
  reported_chain : chained (old_argument src (initial_old src o)) (cb_calls w);
  reported_old : oldValue w = last_seen (initial_old src o) (cb_calls w);
  reported_count : length (cb_calls w) = user_calls w
}.

(** With [once]: all calls of the callback but the last one threw, and the
    last one too while the watcher is active. *)
Definition retried (w : Watcher) : Prop :=
  (∀ i, S i < user_calls w → cb_throws i = true)
  ∧ (watching w = true → ∀ i, i < user_calls w → cb_throws i = true).

(** The effect of a watcher is not running between the events: the user's
    function does not write to the sources. *)
Definition at_rest (w : Watcher) : Prop :=
  ∀ E, effect w = Some E → _runnings E = 0.

(** Whether a run of the effect is due: its level is not [NotDirty]. *)
Definition due (w : Watcher) : nat :=
  match effect w with
  | Some E => if bool_decide (_dirtyLevel E = NotDirty) then 0 else 1
  | None => 0
  end.

(** The effect exists, and the getter was not called more often than [n]
    wakes and the first run allow. *)
Definition bounded (n : nat) (w : Watcher) : Prop :=
  is_Some (effect w) ∧ evaluations w + due w ≤ 1 + n.

End WithEnvironment.

(** The number of notifications and of calls of the bound [effect.run] in a
    history. *)
#[global] Instance event_eq_dec : EqDecision event.
Proof. solve_decision. Defined.

Definition is_wake (ev : event) : bool :=
  match ev with
  | Notify _ _ => true
  | RunQueued => true
  | RunJob => false
  | Stop => false
  end.

Definition wakes (events : list event) : nat :=
  length (filter (λ ev, is_wake ev = true) events).

(** The histories in which the bound [effect.run] is not called. *)
Definition run_by_job (events : list event) : Prop :=
  Forall (λ ev, ev ≠ RunQueued) events.

(** A sample environment: the values are numbers, the sources hold the
    number of the evaluation, and every call of the user's function
    registers one cleanup function, numbered after the call. *)
Definition differ (a b : nat) : bool := negb (a =? b).

Definition sample_history (in_ssr_setup : bool) (src : watch_source) (cb : bool)
    (o : WatchOptions) (events : list event) : Watcher :=
  watch_history 0 differ (λ _, false) (λ n, n) (λ n k, n + k) (λ n, [n]) (λ _, false)
    (λ _, Dirty) in_ssr_setup false src cb o events.

Definition plain (f : flush_timing) : WatchOptions :=
  {| immediate := false; deep := false; flush := f; once := false |}.

Definition eager (f : flush_timing) : WatchOptions :=
  {| immediate := true; deep := false; flush := f; once := false |}.

Definition single_shot (f : flush_timing) : WatchOptions :=
  {| immediate := false; deep := false; flush := f; once := true |}.

End ApiWatch.

(** * Part II: the properties *)

(** ** The scheduler *)

Module SchedulerProofs.
Import Scheduler.

Lemma indexOf_ge job q : (-1 ≤ indexOf job q)%Z.
Proof.
  induction q as [|x q IH]; simpl; [lia|].
  destruct (decide (x = job)); [lia|].
  destruct (Z.ltb_spec (indexOf job q) 0); lia.
Qed.

Lemma indexOf_absent job q : indexOf job q = (-1)%Z ↔ job ∉ q.
Proof.
  induction q as [|x q IH]; simpl.
  - split; [intros _; apply not_elem_of_nil | done].
  - destruct (decide (x = job)) as [->|Hne].
    + split; [lia | intros H; exfalso; apply H; left].
    + pose proof (indexOf_ge job q).
      destruct (Z.ltb_spec (indexOf job q) 0).
      * split; [intros _|done]. rewrite not_elem_of_cons. split; [done|].
        apply IH. lia.
      * split; [lia|]. rewrite not_elem_of_cons. intros [_ H1].
        apply IH in H1. lia.
Qed.

Lemma indexOf_first job q n :
  indexOf job q = Z.of_nat n ↔
  q !! n = Some job ∧ ∀ m, m < n → q !! m ≠ Some job.
Proof.
  revert n. induction q as [|x q IH]; intros n; simpl.
  - split; [lia | intros [H _]; done].
  - destruct (decide (x = job)) as [->|Hne].
    + split.
      * intros H. assert (n = 0) as -> by lia. split; [done | lia].
      * intros [H1 H2]. destruct n as [|n]; [done|].
        exfalso. apply (H2 0); [lia | done].
    + pose proof (indexOf_ge job q).
      destruct (Z.ltb_spec (indexOf job q) 0).
      * split; [lia|]. intros [H1 _]. destruct n as [|n]; simpl in H1; [congruence|].
        assert (job ∈ q) as Hin by (eapply list_elem_of_lookup_2; done).
        assert (indexOf job q = (-1)%Z) as Hm by lia.
        apply indexOf_absent in Hm. done.
      * destruct n as [|n].
        { split; [lia | intros [H1 _]; simpl in H1; congruence]. }
        specialize (IH n). split.
        -- intros Hn. assert (indexOf job q = Z.of_nat n) as Hq by lia.
           apply IH in Hq as [H1 H2]. split; [done|].
           intros [|m] Hm; simpl; [congruence | apply H2; lia].
        -- intros [H1 H2]. simpl in H1.
           assert (indexOf job q = Z.of_nat n) as Hq.
           { apply IH. split; [done|]. intros m Hm. apply (H2 (S m)). lia. }
           lia.
Qed.

(** C8, [invalidateJob]: a job whose first index in the queue is greater
    than [flushIndex] is removed at that index, the entries before it staying
    in place and the entries after it moving up by one; a job whose first
    index is [flushIndex] or smaller, and a job that is not queued, leave the
    state as it is. *)
Theorem invalidateJob_only_after_flushIndex (job : SchedulerJob) (s : State) :
  (∀ n, queue s !! n = Some job → (∀ m, m < n → queue s !! m ≠ Some job) →
        flushIndex s < n →
        invalidateJob job s = set_queue (take n (queue s) ++ drop (S n) (queue s)) s
        ∧ length (queue (invalidateJob job s)) + 1 = length (queue s)
        ∧ (∀ k, k < n → queue (invalidateJob job s) !! k = queue s !! k)
        ∧ (∀ k, n ≤ k → queue (invalidateJob job s) !! k = queue s !! S k))
  ∧ (∀ n, queue s !! n = Some job → (∀ m, m < n → queue s !! m ≠ Some job) →
        n ≤ flushIndex s → invalidateJob job s = s)
  ∧ (job ∉ queue s → invalidateJob job s = s).
Proof.
  split; [|split].
  - intros n Hn Hfirst Hlt.
    assert (indexOf job (queue s) = Z.of_nat n) as Hidx by (apply indexOf_first; done).
    assert (invalidateJob job s
            = set_queue (take n (queue s) ++ drop (S n) (queue s)) s) as Heq.
    { unfold invalidateJob, splice_remove. rewrite Hidx, Nat2Z.id.
      destruct (Z.ltb_spec (Z.of_nat (flushIndex s)) (Z.of_nat n)); [done | lia]. }
    pose proof (lookup_lt_Some _ _ _ Hn) as Hlen.
    rewrite Heq. simpl. repeat split.
    + rewrite length_app, length_take, length_drop. lia.
    + intros k Hk. rewrite lookup_app_l by (rewrite length_take; lia).
      apply lookup_take_lt. done.
    + intros k Hk. rewrite lookup_app_r by (rewrite length_take; lia).
      rewrite length_take, lookup_drop. f_equal. lia.
  - intros n Hn Hfirst Hle.
    assert (indexOf job (queue s) = Z.of_nat n) as Hidx by (apply indexOf_first; done).
    unfold invalidateJob. rewrite Hidx.
    destruct (Z.ltb_spec (Z.of_nat (flushIndex s)) (Z.of_nat n)); [lia | done].
  - intros Hnin. apply indexOf_absent in Hnin.
    unfold invalidateJob. rewrite Hnin.
    destruct (Z.ltb_spec (Z.of_nat (flushIndex s)) (-1)); [lia | done].
Qed.

Lemma invalidateJob_only_after_flushIndex_witness :
  invalidateJob (plain_job 2 (Some 2%Z) false)
    (flushing_at 0 [plain_job 1 (Some 1%Z) false; plain_job 2 (Some 2%Z) false;
                    plain_job 3 (Some 3%Z) false])
  = set_queue [plain_job 1 (Some 1%Z) false; plain_job 3 (Some 3%Z) false]
      (flushing_at 0 [plain_job 1 (Some 1%Z) false; plain_job 2 (Some 2%Z) false;
                      plain_job 3 (Some 3%Z) false])
  ∧ invalidateJob (plain_job 1 (Some 1%Z) false)
      (flushing_at 0 [plain_job 1 (Some 1%Z) false; plain_job 2 (Some 2%Z) false;
                      plain_job 3 (Some 3%Z) false])
    = flushing_at 0 [plain_job 1 (Some 1%Z) false; plain_job 2 (Some 2%Z) false;
                     plain_job 3 (Some 3%Z) false].
Proof.
  split.
  - refine (proj1 (proj1 (invalidateJob_only_after_flushIndex
                            (plain_job 2 (Some 2%Z) false)
                            (flushing_at 0 [plain_job 1 (Some 1%Z) false;
                                            plain_job 2 (Some 2%Z) false;
                                            plain_job 3 (Some 3%Z) false])) 1 _ _ _)).
    + reflexivity.
    + intros m Hm. assert (m = 0) as -> by lia. discriminate.
    + simpl. lia.
  - refine (proj1 (proj2 (invalidateJob_only_after_flushIndex
                            (plain_job 1 (Some 1%Z) false)
                            (flushing_at 0 [plain_job 1 (Some 1%Z) false;
                                            plain_job 2 (Some 2%Z) false;
                                            plain_job 3 (Some 3%Z) false]))) 0 _ _ _).
    + reflexivity.
    + intros m Hm. lia.
    + simpl. lia.
Defined.

Lemma ushr1_small x : (Z.of_nat x < 2 ^ 32)%Z → ushr1 x = x / 2.
Proof.
  intros H. unfold ushr1. rewrite Z.mod_small by lia.
  rewrite Z.shiftr_div_pow2 by lia. change (2 ^ 1)%Z with 2%Z.
  apply Nat2Z.inj. rewrite Z2Nat.id by (apply Z.div_pos; lia).
  rewrite Nat2Z.inj_div. done.
Qed.

(** How the comparator orders two jobs, spelled out on ids and flags. *)
Lemma job_le_cases a b :
  job_le a b ↔
  match id a, id b with
  | Some x, Some y => (x < y)%Z ∨ (x = y ∧ (pre b = true → pre a = true))
  | Some _, None => True
  | None, Some _ => False
  | None, None => True
  end.
Proof.
  unfold job_le, comparator, getId, js_gt0.
  destruct (id a) as [x|], (id b) as [y|]; simpl; try done.
  destruct (Z.eqb_spec (x - y) 0) as [H0|H0];
    destruct (pre a), (pre b); simpl;
    try destruct (Z.ltb_spec 0 (x - y)); naive_solver lia.
Qed.

#[global] Instance job_le_trans : Transitive job_le.
Proof.
  intros a b c. rewrite !job_le_cases.
  destruct (id a), (id b), (id c); try done; naive_solver lia.
Qed.

#[global] Instance job_le_dec a b : Decision (job_le a b).
Proof. unfold job_le. apply _. Defined.

#[global] Instance id_le_dec a b : Decision (id_le a b).
Proof. unfold id_le. apply _. Defined.

Lemma before_id_cases x n :
  before_id x n = true ↔
  match id x with
  | Some m => (m < n)%Z ∨ (m = n ∧ pre x = true)
  | None => False
  end.
Proof.
  unfold before_id, getId. destruct (id x) as [m|]; simpl; [|done].
  rewrite orb_true_iff, andb_true_iff, Z.ltb_lt, Z.eqb_eq. done.
Qed.

Lemma before_id_mono a b n : job_le a b → before_id b n = true → before_id a n = true.
Proof.
  rewrite !before_id_cases, job_le_cases.
  destruct (id a), (id b); try done; naive_solver lia.
Qed.

Lemma before_id_le x job n : id job = Some n → before_id x n = true → job_le x job.
Proof.
  intros Hid. rewrite before_id_cases, job_le_cases, Hid.
  destruct (id x); [|done]. naive_solver.
Qed.

Lemma not_before_id_le y job n : id job = Some n → before_id y n = false → job_le job y.
Proof.
  intros Hid Hy. rewrite job_le_cases, Hid.
  destruct (id y) as [m|] eqn:Hm; [|done].
  destruct (decide (n < m)%Z); [by left|]. right.
  assert (¬ before_id y n = true) as Hn by congruence.
  rewrite before_id_cases, Hm in Hn.
  split; [lia|]. intros Hp. exfalso. apply Hn. destruct (decide (m = n)); [by right | left; lia].
Qed.

Lemma no_id_last x job : id job = None → job_le x job.
Proof. intros Hid. rewrite job_le_cases, Hid. by destruct (id x). Qed.

(** The binary search returns an index of the window it is given. *)
Lemma findInsertionIndex_loop_range q n fuel start end_ :
  (Z.of_nat (length q) < 2 ^ 31)%Z →
  start ≤ end_ → end_ ≤ length q → end_ - start ≤ fuel →
  ∃ k, findInsertionIndex_loop fuel q n start end_ = Some k ∧ start ≤ k ≤ end_.
Proof.
  intros Hlen. revert start end_.
  induction fuel as [|fuel IH]; intros start end_ Hse Hel Hf; simpl.
  - destruct (Nat.ltb_spec start end_); [lia|]. exists start. split; [done | lia].
  - destruct (Nat.ltb_spec start end_); [|exists start; split; [done | lia]].
    rewrite ushr1_small by lia.
    assert (start ≤ (start + end_) / 2 < end_) as Hm.
    { split; [apply Nat.div_le_lower_bound; lia | apply Nat.Div0.div_lt_upper_bound; lia]. }
    destruct (lookup_lt_is_Some_2 q ((start + end_) / 2)) as [mj Hmj]; [lia|].
    rewrite Hmj. destruct (before_id mj n).
    + destruct (IH ((start + end_) / 2 + 1) end_) as (k & Hk & ?); [lia..|].
      exists k. split; [done | lia].
    + destruct (IH start ((start + end_) / 2)) as (k & Hk & ?); [lia..|].
      exists k. split; [done | lia].
Qed.

(** On a window whose entries are partitioned by the test, the result is the
    partition point. *)
Lemma findInsertionIndex_loop_partition q n lo hi fuel start end_ :
  (Z.of_nat (length q) < 2 ^ 31)%Z →
  (∀ i j x y, lo ≤ i → i ≤ j → j < hi → q !! i = Some x → q !! j = Some y →
       before_id y n = true → before_id x n = true) →
  lo ≤ start → start ≤ end_ → end_ ≤ hi → hi ≤ length q → end_ - start ≤ fuel →
  (∀ i x, lo ≤ i < start → q !! i = Some x → before_id x n = true) →
  (∀ i x, end_ ≤ i < hi → q !! i = Some x → before_id x n = false) →
  ∃ k, findInsertionIndex_loop fuel q n start end_ = Some k ∧ start ≤ k ≤ end_ ∧
       (∀ i x, lo ≤ i < k → q !! i = Some x → before_id x n = true) ∧
       (∀ i x, k ≤ i < hi → q !! i = Some x → before_id x n = false).
Proof.
  intros Hlen Hmono. revert start end_.
  induction fuel as [|fuel IH]; intros start end_ Hls Hse Heh Hhl Hf Hl Hr; simpl.
  - destruct (Nat.ltb_spec start end_); [lia|]. exists start.
    assert (start = end_) as <- by lia. repeat split; [lia.. | done | done].
  - destruct (Nat.ltb_spec start end_).
    2:{ exists start. assert (start = end_) as <- by lia.
        repeat split; [lia.. | done | done]. }
    rewrite ushr1_small by lia.
    assert (start ≤ (start + end_) / 2 < end_) as Hm.
    { split; [apply Nat.div_le_lower_bound; lia | apply Nat.Div0.div_lt_upper_bound; lia]. }
    set (middle := (start + end_) / 2) in *.
    destruct (lookup_lt_is_Some_2 q middle) as [mj Hmj]; [lia|].
    rewrite Hmj. destruct (before_id mj n) eqn:Hb.
    + destruct (IH (middle + 1) end_) as (k & Hk & ? & ? & ?); [lia.. | | done |].
      { intros i x Hi Hx. destruct (decide (i < start)); [apply (Hl i); [lia|done]|].
        apply (Hmono i middle x mj); [lia.. | done | done | done]. }
      exists k. repeat split; [done | lia.. | done | done].
    + destruct (IH start middle) as (k & Hk & ? & ? & ?); [lia.. | done | |].
      { intros i x Hi Hx. destruct (decide (end_ ≤ i)); [apply (Hr i); [lia|done]|].
        destruct (before_id x n) eqn:Hx'; [|done].
        rewrite <-Hb. symmetry. apply (Hmono middle i mj x); [lia.. | done | done | done]. }
      exists k. repeat split; [done | lia.. | done | done].
Qed.

Lemma StronglySorted_lookup {A} (R : relation A) (l : list A) i j x y :
  StronglySorted R l → i < j → l !! i = Some x → l !! j = Some y → R x y.
Proof.
  intros Hs Hij Hi Hj.
  assert (j < length l) as Hjl by (by eapply lookup_lt_Some).
  rewrite <-(take_drop j l) in Hs.
  eapply StronglySorted_app_1_elem_of; [exact Hs | |].
  - apply list_elem_of_lookup. exists i. rewrite lookup_take_lt by lia. done.
  - apply list_elem_of_lookup. exists 0. rewrite lookup_drop, Nat.add_0_r. done.
Qed.

Lemma StronglySorted_insert_at {A} (R : relation A) (l : list A) k x :
  StronglySorted R l →
  (∀ y, y ∈ take k l → R y x) → (∀ y, y ∈ drop k l → R x y) →
  StronglySorted R (take k l ++ x :: drop k l).
Proof.
  intros Hs Hl Hr. rewrite <-(take_drop k l) in Hs.
  apply StronglySorted_app in Hs as (H1 & H2 & H3).
  apply StronglySorted_app_2; [| done |].
  - intros x1 x2 Hx1 Hx2. apply elem_of_cons in Hx2 as [->|Hx2]; [by apply Hl | by apply H1].
  - apply StronglySorted_cons. split; [|done]. apply Forall_forall. done.
Qed.

Section queueJob_facts.
Context (job : SchedulerJob) (s : State).

Lemma queueJob_duplicate :
  queue s ≠ [] → job ∈ drop (dedupe_start job s) (queue s) → queueJob job s = Some s.
Proof.
  intros Hne Hin. unfold queueJob, includes. fold (dedupe_start job s).
  rewrite bool_decide_eq_true_2 by done.
  destruct (queue s); [done|]. done.
Qed.

Lemma queueJob_enters :
  queue s = [] ∨ job ∉ drop (dedupe_start job s) (queue s) →
  queueJob job s =
    q' ← match id job with
         | None => Some (queue s ++ [job])
         | Some n => idx ← findInsertionIndex s n;
                     Some (splice_insert idx job (queue s))
         end;
    Some (queueFlush (set_queue q' s)).
Proof.
  intros H. unfold queueJob, includes. fold (dedupe_start job s).
  destruct H as [H|H].
  - rewrite H. done.
  - rewrite (bool_decide_eq_false_2 _ H). rewrite orb_true_r. done.
Qed.

Lemma findInsertionIndex_total n :
  (Z.of_nat (length (queue s)) < 2 ^ 31)%Z →
  ∃ k, findInsertionIndex s n = Some k ∧ flushIndex s < k
       ∧ (flushIndex s + 1 ≤ length (queue s) → k ≤ length (queue s)).
Proof.
  intros Hsize. unfold findInsertionIndex.
  destruct (decide (flushIndex s + 1 ≤ length (queue s))) as [Hle|Hgt].
  - destruct (findInsertionIndex_loop_range (queue s) n (length (queue s))
                (flushIndex s + 1) (length (queue s))) as (k & Hk & ?); [done | lia..|].
    exists k. split; [done|]. lia.
  - exists (flushIndex s + 1). split; [|lia].
    destruct (length (queue s)) as [|m] eqn:Hm; simpl.
    + destruct (Nat.ltb_spec (flushIndex s + 1) 0); [lia | done].
    + destruct (Nat.ltb_spec (flushIndex s + 1) (S m)); [lia | done].
Qed.

Lemma findInsertionIndex_sorted n :
  (Z.of_nat (length (queue s)) < 2 ^ 31)%Z →
  Sorted job_le (drop (flushIndex s + 1) (queue s)) →
  ∃ k, findInsertionIndex s n = Some k ∧ flushIndex s < k ∧
    (∀ m x, flushIndex s < m < k → queue s !! m = Some x → before_id x n = true) ∧
    (∀ m x, k ≤ m → queue s !! m = Some x → before_id x n = false).
Proof.
  intros Hsize Hsorted. apply Sorted_StronglySorted in Hsorted; [|apply _].
  unfold findInsertionIndex.
  destruct (decide (flushIndex s + 1 ≤ length (queue s))) as [Hle|Hgt].
  - destruct (findInsertionIndex_loop_partition (queue s) n (flushIndex s + 1)
                (length (queue s)) (length (queue s))
                (flushIndex s + 1) (length (queue s)))
      as (k & Hk & ? & Hl & Hr); [done | | lia.. | | |].
    + intros i j x y Hi Hij Hj Hx Hy. destruct (decide (i = j)) as [->|Hne].
      { by simplify_eq. }
      apply before_id_mono.
      apply (StronglySorted_lookup job_le (drop (flushIndex s + 1) (queue s))
               (i - (flushIndex s + 1)) (j - (flushIndex s + 1)));
        [done | lia | rewrite lookup_drop | rewrite lookup_drop].
      * rewrite <-Hx. f_equal. lia.
      * rewrite <-Hy. f_equal. lia.
    + intros i x Hi. lia.
    + intros i x Hi. lia.
    + exists k. split; [done|]. split; [lia|]. split.
      * intros m x Hm. apply Hl. lia.
      * intros m x Hm Hx. apply (Hr m); [|done].
        split; [done|]. by eapply lookup_lt_Some.
  - exists (flushIndex s + 1). split; [|split; [lia|split]].
    + destruct (length (queue s)) as [|m] eqn:Hm; simpl.
      * destruct (Nat.ltb_spec (flushIndex s + 1) 0); [lia | done].
      * destruct (Nat.ltb_spec (flushIndex s + 1) (S m)); [lia | done].
    + intros m x Hm. lia.
    + intros m x Hm Hx. apply lookup_lt_Some in Hx. lia.
Qed.

End queueJob_facts.

(** C5 (as amended): [queueJob] leaves the state alone when the job is in
    the queue from the start of the dedup window on, and inserts it
    otherwise, or when the queue is empty.  A job with no id goes to the
    tail.  A job with a numeric id is spliced at the index the binary search
    finds among the entries after [flushIndex]: where those are ordered, every
    entry between [flushIndex] and that index has a smaller id, or the same id
    and [pre], and no entry from that index on has.  The entries at
    [flushIndex] and before keep their places, and the entries after
    [flushIndex], where they were ordered by id with [pre] first, still
    are. *)
Theorem queueJob_keeps_pending_part_ordered (job : SchedulerJob) (s : State) :
  (Z.of_nat (length (queue s)) < 2 ^ 31)%Z →
  (queue s ≠ [] → job ∈ drop (dedupe_start job s) (queue s) → queueJob job s = Some s)
  ∧ (queue s = [] ∨ job ∉ drop (dedupe_start job s) (queue s) →
     ∃ q', queueJob job s = Some (queueFlush (set_queue q' s))
       ∧ (id job = None → q' = queue s ++ [job])
       ∧ (∀ n, id job = Some n →
            ∃ k, findInsertionIndex s n = Some k ∧ flushIndex s < k
              ∧ q' = take k (queue s) ++ job :: drop k (queue s)
              ∧ (Sorted job_le (drop (flushIndex s + 1) (queue s)) →
                   (∀ m x, flushIndex s < m < k → queue s !! m = Some x →
                           before_id x n = true)
                   ∧ (∀ m x, k ≤ m → queue s !! m = Some x → before_id x n = false)))
       ∧ (∀ m x, m ≤ flushIndex s → queue s !! m = Some x → q' !! m = Some x)
       ∧ (Sorted job_le (drop (flushIndex s + 1) (queue s)) →
            Sorted job_le (drop (flushIndex s + 1) q'))).
Proof.
  intros Hsize. split; [exact (queueJob_duplicate job s)|].
  intros Hnew. rewrite (queueJob_enters _ _ Hnew).
  destruct (id job) as [n|] eqn:Hid.
  - destruct (findInsertionIndex_total s n Hsize) as (k & Hk & Hfk & Hkl).
    rewrite Hk. simpl. eexists. split; [done|]. split; [done|]. split; [|split].
    + intros n' [= <-]. exists k. split; [done|]. split; [done|]. split; [done|].
      intros Hsorted.
      destruct (findInsertionIndex_sorted s n Hsize Hsorted) as (k' & Hk' & _ & ? & ?).
      assert (k' = k) as -> by congruence. done.
    + intros m x Hm Hx. unfold splice_insert.
      pose proof (lookup_lt_Some _ _ _ Hx).
      rewrite lookup_app_l by (rewrite length_take; lia).
      rewrite lookup_take_lt by lia. done.
    + intros Hsorted.
      destruct (findInsertionIndex_sorted s n Hsize Hsorted) as (k' & Hk' & _ & Hl & Hr).
      assert (k' = k) as -> by congruence.
      unfold splice_insert.
      destruct (decide (flushIndex s + 1 ≤ length (queue s))) as [Hin|Hout].
      2:{ rewrite drop_ge; [constructor|].
          rewrite length_app, length_take. simpl. rewrite length_drop. lia. }
      specialize (Hkl Hin).
      apply StronglySorted_Sorted.
      apply Sorted_StronglySorted in Hsorted; [|apply _].
      replace (drop (flushIndex s + 1) (take k (queue s) ++ job :: drop k (queue s)))
        with (take (k - (flushIndex s + 1)) (drop (flushIndex s + 1) (queue s))
              ++ job :: drop (k - (flushIndex s + 1)) (drop (flushIndex s + 1) (queue s))).
      * apply StronglySorted_insert_at; [done | |].
        -- intros y Hy. apply list_elem_of_lookup in Hy as [m Hm].
           apply lookup_take_Some in Hm as [Hm Hmk]. rewrite lookup_drop in Hm.
           eapply before_id_le; [done|]. eapply Hl; [|done]. lia.
        -- intros y Hy. apply list_elem_of_lookup in Hy as [m Hm].
           rewrite !lookup_drop in Hm.
           eapply not_before_id_le; [done|]. eapply Hr; [|done]. lia.
      * rewrite drop_drop. replace (flushIndex s + 1 + (k - (flushIndex s + 1))) with k by lia.
        rewrite drop_app_le by (rewrite length_take; lia).
        rewrite take_drop_commute. do 3 f_equal. lia.
  - simpl. eexists. split; [done|]. split; [done|]. split; [done|]. split.
    + intros m x Hm Hx. by apply lookup_app_l_Some.
    + intros Hsorted. apply StronglySorted_Sorted.
      apply Sorted_StronglySorted in Hsorted; [|apply _].
      destruct (decide (flushIndex s + 1 ≤ length (queue s))).
      * rewrite drop_app_le by lia. apply StronglySorted_app_2; [|done|].
        -- intros x1 x2 _ Hx2. apply list_elem_of_singleton in Hx2 as ->.
           by apply no_id_last.
        -- repeat constructor.
      * rewrite drop_app_ge by lia.
        destruct (flushIndex s + 1 - length (queue s)) as [|d] eqn:Hd; [lia|].
        simpl. rewrite drop_nil. constructor.
Qed.

Lemma findInsertionIndex_loop_done fuel q n start end_ :
  end_ ≤ start → findInsertionIndex_loop fuel q n start end_ = Some start.
Proof.
  intros H. destruct fuel; simpl; destruct (Nat.ltb_spec start end_); done || lia.
Qed.

Lemma queueFlush_flushing s : isFlushing s = true → queueFlush s = s.
Proof. intros H. unfold queueFlush. by rewrite H. Qed.

(** A job that may recurse and queues itself while it is the last entry is
    appended behind itself. *)
Lemma queueJob_behind_running job s :
  isFlushing s = true → allowRecurse job = true →
  flushIndex s + 1 = length (queue s) →
  queueJob job s = Some (set_queue (queue s ++ [job]) s).
Proof.
  intros Hf Hr Hlast. unfold queueJob, includes. rewrite Hf, Hr. simpl.
  rewrite drop_ge by lia.
  rewrite bool_decide_eq_false_2 by apply not_elem_of_nil.
  rewrite orb_true_r.
  destruct (id job) as [n|]; simpl.
  - unfold findInsertionIndex. rewrite findInsertionIndex_loop_done by lia. simpl.
    unfold splice_insert. rewrite take_ge, drop_ge by lia.
    rewrite queueFlush_flushing by done. done.
  - rewrite queueFlush_flushing by done. done.
Qed.

Section recursion.
Context (job : SchedulerJob) (behaviour : nat → list action).
Hypothesis Hrec : allowRecurse job = true.
Hypothesis Hact : active job ≠ Some false.
Hypothesis Hbody : behaviour (fn job) = [QueueJob job].

Lemma self_queued_requeues k :
  call behaviour job (self_queued job k)
  = Some (set_flushIndex k (self_queued job (S k))).
Proof using Hrec Hbody.
  unfold call. rewrite Hbody. cbn [run_actions run_action].
  rewrite queueJob_behind_running; [| done | done |].
  2:{ cbn [log_invoked self_queued flushIndex queue]. rewrite length_replicate. lia. }
  cbn [mbind option_bind]. f_equal.
  unfold set_queue, set_flushIndex, log_invoked, self_queued.
  cbn [isFlushing isFlushPending queue flushIndex pendingPostFlushCbs activePostFlushCbs
       postFlushIndex currentFlushPromise invoked errors].
  rewrite <-!replicate_S_end. done.
Qed.

Lemma self_queued_advance k :
  set_flushIndex (flushIndex (set_flushIndex k (self_queued job (S k))) + 1)
    (set_flushIndex k (self_queued job (S k)))
  = self_queued job (S k).
Proof.
  unfold set_flushIndex, self_queued.
  cbn [isFlushing isFlushPending queue flushIndex pendingPostFlushCbs activePostFlushCbs
       postFlushIndex currentFlushPromise invoked errors].
  f_equal. lia.
Qed.

Lemma seen_times_lookup k :
  seen_times job k !! job = match k with O => None | S _ => Some k end.
Proof. destruct k; simpl; [done | apply lookup_singleton_eq]. Qed.

Lemma flush_step_dev k :
  k ≤ RECURSION_LIMIT →
  flush_step true behaviour (seen_times job k) (self_queued job k)
  = Some (seen_times job (S k), self_queued job (S k)).
Proof using Hrec Hact Hbody.
  intros Hk. unfold flush_step.
  assert (queue (self_queued job k) !! flushIndex (self_queued job k) = Some job) as ->.
  { simpl. change (job :: replicate k job) with (replicate (S k) job).
    apply lookup_replicate_2. lia. }
  rewrite bool_decide_eq_true_2 by done.
  unfold checkRecursiveUpdates. rewrite seen_times_lookup.
  destruct k as [|k].
  - rewrite self_queued_requeues. cbn [mbind option_bind].
    rewrite self_queued_advance. unfold seen_times. rewrite insert_empty. done.
  - destruct (Nat.ltb_spec RECURSION_LIMIT (S k)); [lia|].
    rewrite self_queued_requeues. cbn [mbind option_bind].
    rewrite self_queued_advance. unfold seen_times. rewrite insert_singleton_eq.
    replace (S k + 1) with (S (S k)) by lia. done.
Qed.

Lemma flush_step_prod seen k :
  flush_step false behaviour seen (self_queued job k)
  = Some (seen, self_queued job (S k)).
Proof using Hrec Hact Hbody.
  unfold flush_step.
  assert (queue (self_queued job k) !! flushIndex (self_queued job k) = Some job) as ->.
  { simpl. change (job :: replicate k job) with (replicate (S k) job).
    apply lookup_replicate_2. lia. }
  rewrite bool_decide_eq_true_2 by done.
  rewrite self_queued_requeues. cbn [mbind option_bind].
  rewrite self_queued_advance. done.
Qed.

Lemma flush_step_over_limit :
  flush_step true behaviour (seen_times job (S RECURSION_LIMIT))
    (self_queued job (S RECURSION_LIMIT))
  = Some (seen_times job (S RECURSION_LIMIT),
          set_flushIndex (S (S RECURSION_LIMIT))
            (handleError (recursion_error job) (self_queued job (S RECURSION_LIMIT)))).
Proof using Hact.
  unfold flush_step.
  assert (queue (self_queued job (S RECURSION_LIMIT))
            !! flushIndex (self_queued job (S RECURSION_LIMIT)) = Some job) as ->.
  { cbn [self_queued queue flushIndex]. apply lookup_replicate_2. lia. }
  rewrite bool_decide_eq_true_2 by done.
  unfold checkRecursiveUpdates. rewrite seen_times_lookup.
  destruct (Nat.ltb_spec RECURSION_LIMIT (S RECURSION_LIMIT)); [|lia].
  do 3 f_equal.
Qed.

Lemma flush_turns_dev m k :
  k + m ≤ S RECURSION_LIMIT →
  flush_turns true behaviour m (seen_times job k) (self_queued job k)
  = Some (seen_times job (k + m), self_queued job (k + m)).
Proof using Hrec Hact Hbody.
  revert k. induction m as [|m IH]; intros k Hk.
  - rewrite Nat.add_0_r. done.
  - cbn [flush_turns]. rewrite flush_step_dev by lia. cbn [mbind option_bind].
    rewrite IH by lia. do 3 f_equal; lia.
Qed.

Lemma flush_turns_prod seen m k :
  flush_turns false behaviour m seen (self_queued job k)
  = Some (seen, self_queued job (k + m)).
Proof using Hrec Hact Hbody.
  revert k. induction m as [|m IH]; intros k.
  - rewrite Nat.add_0_r. done.
  - cbn [flush_turns]. rewrite flush_step_prod. cbn [mbind option_bind].
    rewrite IH. do 3 f_equal; lia.
Qed.

Lemma self_queued_pending k :
  (flushIndex (self_queued job k) <? length (queue (self_queued job k))) = true.
Proof.
  apply Nat.ltb_lt. cbn [self_queued flushIndex queue]. rewrite length_replicate. lia.
Qed.

Lemma flush_queue_dev m k fuel :
  k + m = S RECURSION_LIMIT → m + 1 ≤ fuel →
  flush_queue true behaviour fuel (seen_times job k) (self_queued job k)
  = Some (seen_times job (S RECURSION_LIMIT),
          set_flushIndex (S (S RECURSION_LIMIT))
            (handleError (recursion_error job) (self_queued job (S RECURSION_LIMIT)))).
Proof using Hrec Hact Hbody.
  revert k fuel. induction m as [|m IH]; intros k fuel Hk Hfuel.
  - rewrite Nat.add_0_r in Hk. subst k.
    destruct fuel as [|fuel]; [lia|]. cbn [flush_queue].
    rewrite self_queued_pending, flush_step_over_limit. cbn [mbind option_bind].
    destruct fuel; cbn [flush_queue]; simpl; done.
  - destruct fuel as [|fuel]; [lia|]. cbn [flush_queue].
    rewrite self_queued_pending, flush_step_dev by lia. cbn [mbind option_bind].
    apply IH; lia.
Qed.

Lemma flush_queue_prod_diverges seen fuel k :
  flush_queue false behaviour fuel seen (self_queued job k) = None.
Proof using Hrec Hact Hbody.
  revert k. induction fuel as [|fuel IH]; intros k; cbn [flush_queue];
    rewrite self_queued_pending; [done|].
  rewrite flush_step_prod. cbn [mbind option_bind]. apply IH.
Qed.

Lemma flush_begins :
  set_flushIndex 0
    (set_queue
       (array_sort comparator
          (queue (set_isFlushing true (set_isFlushPending false (flush_requested [job])))))
       (set_isFlushing true (set_isFlushPending false (flush_requested [job]))))
  = self_queued job 0.
Proof. reflexivity. Qed.

Lemma flushJobs_prod_diverges fuel :
  flushJobs false behaviour fuel None (flush_requested [job]) = None.
Proof using Hrec Hact Hbody.
  destruct fuel as [|fuel]; [done|]. cbn [flushJobs].
  rewrite flush_begins, flush_queue_prod_diverges. done.
Qed.

Lemma flushJobs_dev fuel :
  S (S (S (S RECURSION_LIMIT))) ≤ fuel →
  flushJobs true behaviour fuel None (flush_requested [job]) = Some (after_limit job).
Proof using Hrec Hact Hbody.
  intros Hfuel. destruct fuel as [|fuel]; [lia|]. cbn [flushJobs].
  rewrite flush_begins.
  change (default ∅ (Some (default ∅ None))) with (seen_times job 0).
  rewrite (flush_queue_dev (S RECURSION_LIMIT) 0) by lia.
  cbn [mbind option_bind]. destruct fuel as [|fuel]; [lia|]. done.
Qed.

End recursion.

(** ** The count that [checkRecursiveUpdates] keeps *)

Lemma invoked_queueFlush s :
  invoked (queueFlush s) = invoked s ∧ errors (queueFlush s) = errors s.
Proof. unfold queueFlush. by destruct (negb (isFlushing s) && negb (isFlushPending s)). Qed.

Lemma invoked_queueJob job s s' :
  queueJob job s = Some s' → invoked s' = invoked s ∧ errors s' = errors s.
Proof.
  unfold queueJob. case_match; [|by intros [= <-]].
  intros Hq. apply bind_Some in Hq as (q' & _ & [= <-]).
  apply (invoked_queueFlush (set_queue q' s)).
Qed.

Lemma invoked_run_action a s s' :
  run_action a s = Some s' → invoked s' = invoked s ∧ errors s' = errors s.
Proof.
  destruct a as [job|job|cb]; simpl.
  - apply invoked_queueJob.
  - intros [= <-]. unfold invalidateJob. by case_match.
  - intros [= <-]. unfold queuePostFlushCb.
    match goal with |- context [queueFlush ?x] =>
      destruct (invoked_queueFlush x) as [-> ->] end.
    repeat case_match; done.
Qed.

Lemma invoked_run_actions l : ∀ s s',
  run_actions l s = Some s' → invoked s' = invoked s ∧ errors s' = errors s.
Proof.
  induction l as [|a l IH]; intros s s'; simpl; [by intros [= <-]|].
  intros H. apply bind_Some in H as (s1 & Ha & Hl).
  destruct (invoked_run_action _ _ _ Ha) as [<- <-]. by apply IH.
Qed.

(** A call logs the job, and what the job does logs nothing more. *)
Lemma invoked_call behaviour job s s' :
  call behaviour job s = Some s' →
  invoked s' = invoked s ++ [job] ∧ errors s' = errors s.
Proof. unfold call. intros H. by apply invoked_run_actions in H. Qed.

Lemma invocations_call behaviour job s s' j :
  call behaviour job s = Some s' →
  invocations j s' = invocations j s + (if decide (job = j) then 1 else 0).
Proof.
  intros H. apply invoked_call in H as [Hi _]. unfold invocations. rewrite Hi.
  rewrite filter_app, length_app. f_equal.
  rewrite filter_cons, filter_nil. by destruct (decide (job = j)).
Qed.

Lemma counts_since_start s0 : counts_since s0 ∅ s0.
Proof. intros job. rewrite lookup_empty. simpl. split; lia. Qed.

(** A turn of the loop keeps the seen-map equal to the count of the
    invocations, and the count within the limit. *)
Lemma flush_step_counts behaviour s0 seen s seen' s' :
  counts_since s0 seen s →
  flush_step true behaviour seen s = Some (seen', s') →
  counts_since s0 seen' s'.
Proof.
  intros Hc. unfold flush_step.
  destruct (queue s !! flushIndex s) as [job|]; [|by intros [= <- <-]].
  case_bool_decide; [|by intros [= <- <-]].
  unfold checkRecursiveUpdates.
  destruct (seen !! job) as [c|] eqn:Hseen.
  - destruct (Nat.ltb_spec RECURSION_LIMIT c) as [Hover|Hin].
    + intros [= <- <-]. exact Hc.
    + intros Hb. apply bind_Some in Hb as (s2 & Hcall & [= <- <-]).
      intros j. change (invocations j (set_flushIndex (flushIndex s2 + 1) s2))
        with (invocations j s2).
      rewrite (invocations_call _ _ _ _ j Hcall).
      destruct (Hc j) as [Hj Hle]. destruct (decide (job = j)) as [<-|Hne].
      * rewrite lookup_insert_eq. rewrite Hseen in Hj. simpl in *. lia.
      * rewrite lookup_insert_ne by done. lia.
  - intros Hb. apply bind_Some in Hb as (s2 & Hcall & [= <- <-]).
    intros j. change (invocations j (set_flushIndex (flushIndex s2 + 1) s2))
      with (invocations j s2).
    rewrite (invocations_call _ _ _ _ j Hcall).
    destruct (Hc j) as [Hj Hle]. destruct (decide (job = j)) as [<-|Hne].
    + rewrite lookup_insert_eq. rewrite Hseen in Hj. simpl in *.
      unfold RECURSION_LIMIT. lia.
    + rewrite lookup_insert_ne by done. lia.
Qed.

Lemma flush_turns_counts behaviour s0 n : ∀ seen s seen' s',
  counts_since s0 seen s →
  flush_turns true behaviour n seen s = Some (seen', s') →
  counts_since s0 seen' s'.
Proof.
  induction n as [|n IH]; intros seen s seen' s' Hc; simpl.
  - by intros [= <- <-].
  - intros H. apply bind_Some in H as ([seen1 s1] & Hstep & Hrest).
    eapply IH; [|exact Hrest]. by eapply flush_step_counts.
Qed.

(** Beyond the limit, a turn hands the error to the handler and leaves the
    job alone. *)
Lemma flush_step_beyond_limit behaviour seen s job c :
  queue s !! flushIndex s = Some job → active job ≠ Some false →
  seen !! job = Some c → RECURSION_LIMIT < c →
  flush_step true behaviour seen s
  = Some (seen, set_flushIndex (flushIndex s + 1) (handleError (recursion_error job) s)).
Proof.
  intros Hjob Hact Hseen Hc. unfold flush_step. rewrite Hjob.
  rewrite bool_decide_eq_true_2 by done.
  unfold checkRecursiveUpdates. rewrite Hseen.
  destruct (Nat.ltb_spec RECURSION_LIMIT c); [done|lia].
Qed.

(** The same in the loop over the post-flush callbacks, where the check
    comes before the test of [active]. *)
Lemma post_step_beyond_limit behaviour act seen s cb c :
  act !! postFlushIndex s = Some cb →
  seen !! cb = Some c → RECURSION_LIMIT < c →
  post_step true behaviour act seen s
  = Some (seen, set_postFlushIndex (postFlushIndex s + 1)
                  (handleError (recursion_error cb) s)).
Proof.
  intros Hcb Hseen Hc. unfold post_step. rewrite Hcb.
  unfold checkRecursiveUpdates. rewrite Hseen.
  destruct (Nat.ltb_spec RECURSION_LIMIT c); [done|lia].
Qed.

(** ** The count over a whole flush *)

Lemma counts_within_start s0 : counts_within s0 ∅ s0.
Proof. intros job. rewrite lookup_empty. simpl. split; lia. Qed.

Lemma counts_within_invoked s0 seen s s' :
  invoked s' = invoked s → counts_within s0 seen s → counts_within s0 seen s'.
Proof. intros Hi Hc job. unfold invocations. rewrite Hi. apply Hc. Qed.

(** The check leaves the invocations alone, and a count it has raised is
    within the limit. *)
Lemma check_within s0 seen job s :
  counts_within s0 seen s →
  counts_within s0 (checkRecursiveUpdates seen job s).1.2
    (checkRecursiveUpdates seen job s).2.
Proof.
  intros Hc. unfold checkRecursiveUpdates.
  destruct (seen !! job) as [c|] eqn:Hseen.
  - destruct (Nat.ltb_spec RECURSION_LIMIT c) as [Hover|Hin]; simpl.
    + eapply counts_within_invoked; [|exact Hc]. reflexivity.
    + intros j. destruct (Hc j) as [Hj Hle].
      change (invocations j s ≤ invocations j s0 + default 0 (<[job := c + 1]> seen !! j)
              ∧ default 0 (<[job := c + 1]> seen !! j) ≤ S RECURSION_LIMIT).
      destruct (decide (job = j)) as [<-|Hne].
      * rewrite lookup_insert_eq. rewrite Hseen in Hj. simpl in *. lia.
      * by rewrite lookup_insert_ne.
  - simpl. intros j. destruct (Hc j) as [Hj Hle].
    destruct (decide (job = j)) as [<-|Hne].
    + rewrite lookup_insert_eq. rewrite Hseen in Hj. simpl in *.
      unfold RECURSION_LIMIT. lia.
    + by rewrite lookup_insert_ne.
Qed.

(** A call that the check has let pass is counted. *)
Lemma check_then_call behaviour s0 seen job s s1 s2 :
  counts_within s0 seen s →
  (checkRecursiveUpdates seen job s).1.1 = false →
  invoked s1 = invoked s →
  call behaviour job s1 = Some s2 →
  counts_within s0 (checkRecursiveUpdates seen job s).1.2 s2.
Proof.
  intros Hc Hpass Hi Hcall j.
  rewrite (invocations_call _ _ _ _ j Hcall).
  replace (invocations j s1) with (invocations j s)
    by (unfold invocations; by rewrite Hi).
  destruct (Hc j) as [Hj Hle].
  revert Hpass. unfold checkRecursiveUpdates.
  destruct (seen !! job) as [c|] eqn:Hseen.
  - destruct (Nat.ltb_spec RECURSION_LIMIT c) as [Hover|Hin]; simpl; [done|].
    intros _. destruct (decide (job = j)) as [<-|Hne].
    + rewrite lookup_insert_eq. rewrite Hseen in Hj. simpl in *. lia.
    + rewrite lookup_insert_ne by done. lia.
  - simpl. intros _. destruct (decide (job = j)) as [<-|Hne].
    + rewrite lookup_insert_eq. rewrite Hseen in Hj. simpl in *.
      unfold RECURSION_LIMIT. lia.
    + rewrite lookup_insert_ne by done. lia.
Qed.

Lemma check_keeps_invoked seen job s :
  invoked (checkRecursiveUpdates seen job s).2 = invoked s.
Proof. unfold checkRecursiveUpdates. by repeat case_match. Qed.

Lemma flush_step_within behaviour s0 seen s seen' s' :
  counts_within s0 seen s →
  flush_step true behaviour seen s = Some (seen', s') →
  counts_within s0 seen' s'.
Proof.
  intros Hc. unfold flush_step.
  destruct (queue s !! flushIndex s) as [job|];
    [|intros [= <- <-]; by eapply counts_within_invoked; [|exact Hc]].
  case_bool_decide; [|intros [= <- <-]; by eapply counts_within_invoked; [|exact Hc]].
  pose proof (check_within s0 seen job s Hc) as Hchk.
  pose proof (check_then_call behaviour s0 seen job s) as Hcall.
  pose proof (check_keeps_invoked seen job s) as Hinv.
  destruct (checkRecursiveUpdates seen job s) as [[over seen1] s1].
  cbn [fst snd] in *. destruct over.
  - intros [= <- <-]. by eapply counts_within_invoked; [|exact Hchk].
  - intros Hb. apply bind_Some in Hb as (s2 & Hrun & [= <- <-]).
    eapply counts_within_invoked; [|by eapply (Hcall s1 s2)]. reflexivity.
Qed.

Lemma flush_queue_within behaviour s0 fuel : ∀ seen s seen' s',
  counts_within s0 seen s →
  flush_queue true behaviour fuel seen s = Some (seen', s') →
  counts_within s0 seen' s'.
Proof.
  induction fuel as [|fuel IH]; intros seen s seen' s' Hc; simpl.
  - case_match; [done|]. by intros [= <- <-].
  - case_match; [|by intros [= <- <-]].
    intros Hb. apply bind_Some in Hb as ([seen1 s1] & Hstep & Hrest).
    eapply IH; [|exact Hrest]. by eapply flush_step_within.
Qed.

Lemma post_step_within behaviour s0 act seen s seen' s' :
  counts_within s0 seen s →
  post_step true behaviour act seen s = Some (seen', s') →
  counts_within s0 seen' s'.
Proof.
  intros Hc. unfold post_step.
  destruct (act !! postFlushIndex s) as [cb|]; [|done].
  pose proof (check_within s0 seen cb s Hc) as Hchk.
  pose proof (check_then_call behaviour s0 seen cb s) as Hcall.
  pose proof (check_keeps_invoked seen cb s) as Hinv.
  destruct (checkRecursiveUpdates seen cb s) as [[over seen1] s1].
  cbn [fst snd] in *. destruct over.
  - intros [= <- <-]. by eapply counts_within_invoked; [|exact Hchk].
  - case_bool_decide.
    + intros Hb. apply bind_Some in Hb as (s2 & Hrun & [= <- <-]).
      eapply counts_within_invoked; [|by eapply (Hcall s1 s2)]. reflexivity.
    + intros [= <- <-]. by eapply counts_within_invoked; [|exact Hchk].
Qed.

Lemma flush_post_within behaviour s0 fuel : ∀ seen s seen' s',
  counts_within s0 seen s →
  flush_post true behaviour fuel seen s = Some (seen', s') →
  counts_within s0 seen' s'.
Proof.
  induction fuel as [|fuel IH]; intros seen s seen' s' Hc; simpl.
  - destruct (activePostFlushCbs s); [|done]. case_match; [done|]. by intros [= <- <-].
  - destruct (activePostFlushCbs s) as [act|]; [|done].
    case_match; [|by intros [= <- <-]].
    intros Hb. apply bind_Some in Hb as ([seen1 s1] & Hstep & Hrest).
    eapply IH; [|exact Hrest]. by eapply post_step_within.
Qed.

Lemma flushPostFlushCbs_within behaviour s0 fuel seen s seen' s' :
  counts_within s0 (default ∅ seen) s →
  flushPostFlushCbs true behaviour fuel seen s = Some (seen', s') →
  counts_within s0 (default ∅ seen') s'.
Proof.
  intros Hc. unfold flushPostFlushCbs.
  case_match; [by intros [= <- <-]|].
  simpl. destruct (activePostFlushCbs s).
  - intros [= <- <-]. by eapply counts_within_invoked; [|exact Hc].
  - intros Hb. apply bind_Some in Hb as ([seen1 s1] & Hpost & [= <- <-]).
    simpl. apply (counts_within_invoked s0 seen1 s1); [reflexivity|].
    eapply (flush_post_within behaviour s0 fuel _ _ seen1 s1); [|exact Hpost].
    by eapply counts_within_invoked; [|exact Hc].
Qed.

(** Over the whole of [flushJobs], the flushes it goes on with included,
    the map that it hands on bounds the invocations. *)
Lemma flushJobs_within behaviour s0 fuel : ∀ seen s s',
  counts_within s0 (default ∅ seen) s →
  flushJobs true behaviour fuel seen s = Some s' →
  ∃ seen', counts_within s0 seen' s'.
Proof.
  induction fuel as [|fuel IH]; intros seen s s' Hc; simpl; [done|].
  intros Hrun. apply bind_Some in Hrun as ([seen1 s3] & Hqueue & Hrun).
  apply (flush_queue_within behaviour s0) in Hqueue;
    [|by eapply counts_within_invoked; [|exact Hc]].
  apply bind_Some in Hrun as ([seen2 s5] & Hpost & Hrun).
  apply (flushPostFlushCbs_within behaviour s0) in Hpost;
    [|by eapply counts_within_invoked; [|exact Hqueue]].
  case_match.
  - eapply IH; [|exact Hrun]. by eapply counts_within_invoked; [|exact Hpost].
  - injection Hrun as <-. exists (default ∅ seen2).
    by eapply counts_within_invoked; [|exact Hpost].
Qed.

Lemma flushJobs_bound behaviour fuel s0 s job :
  flushJobs true behaviour fuel None s0 = Some s →
  invocations job s ≤ invocations job s0 + S RECURSION_LIMIT.
Proof.
  intros Hrun.
  destruct (flushJobs_within behaviour s0 fuel None s0 s (counts_within_start s0) Hrun)
    as (seen' & Hc).
  destruct (Hc job). lia.
Qed.

(** [flushPreFlushCbs] counts in the map it is given, and in a map of its
    own when it is given none. *)
Lemma pre_step_within behaviour s0 instance seen i s seen' i' s' :
  counts_within s0 seen s →
  pre_step true behaviour instance seen i s = Some (seen', i', s') →
  counts_within s0 seen' s'.
Proof.
  intros Hc. unfold pre_step.
  destruct (queue s !! i) as [cb|]; [|by intros [= <- <- <-]].
  destruct (pre cb); [|by intros [= <- <- <-]].
  case_match; [by intros [= <- <- <-]|].
  pose proof (check_within s0 seen cb s Hc) as Hchk.
  pose proof (check_then_call behaviour s0 seen cb s) as Hcall.
  pose proof (check_keeps_invoked seen cb s) as Hinv.
  destruct (checkRecursiveUpdates seen cb s) as [[over seen1] s1].
  cbn [fst snd] in *. destruct over.
  - by intros [= <- <- <-].
  - intros Hb. apply bind_Some in Hb as (s2 & Hrun & [= <- <- <-]).
    by eapply (Hcall (set_queue (splice_remove i (queue s1)) s1) s2).
Qed.

Lemma flush_pre_within behaviour s0 instance fuel : ∀ seen i s seen' s',
  counts_within s0 seen s →
  flush_pre true behaviour fuel instance seen i s = Some (seen', s') →
  counts_within s0 seen' s'.
Proof.
  induction fuel as [|fuel IH]; intros seen i s seen' s' Hc; simpl.
  - case_match; [done|]. by intros [= <- <-].
  - case_match; [|by intros [= <- <-]].
    intros Hb. apply bind_Some in Hb as ([[seen1 i1] s1] & Hstep & Hrest).
    eapply IH; [|exact Hrest]. by eapply pre_step_within.
Qed.

Lemma flushPreFlushCbs_bound behaviour fuel instance start s seen' s' job :
  flushPreFlushCbs true behaviour fuel instance None start s = Some (seen', s') →
  invocations job s' ≤ invocations job s + S RECURSION_LIMIT.
Proof.
  unfold flushPreFlushCbs. intros Hrun.
  destruct (flush_pre_within behaviour s instance fuel _ _ _ _ _
              (counts_within_start s) Hrun job).
  lia.
Qed.

Lemma comparator_gt_flip x y : js_gt0 (comparator x y) = true → job_le y x.
Proof.
  rewrite job_le_cases. unfold comparator, getId, js_gt0.
  destruct (id x) as [a|], (id y) as [b|]; simpl; try done.
  destruct (Z.eqb_spec (a - b) 0) as [H0|H0];
    destruct (pre x), (pre y); simpl;
    try destruct (Z.ltb_spec 0 (a - b)); naive_solver lia.
Qed.

Lemma sort_insert_perm {A} (cmp : A → A → jsnum) x l : sort_insert cmp x l ≡ₚ x :: l.
Proof.
  induction l as [|y l IH]; simpl; [done|].
  destruct (js_gt0 (cmp x y)); [|done].
  rewrite IH. apply perm_swap.
Qed.

Lemma array_sort_perm {A} (cmp : A → A → jsnum) l : array_sort cmp l ≡ₚ l.
Proof.
  induction l as [|x l IH]; simpl; [done|].
  by rewrite sort_insert_perm, IH.
Qed.

Lemma sort_insert_sorted x l :
  Sorted job_le l → Sorted job_le (sort_insert comparator x l).
Proof.
  induction 1 as [|y l Hs IH Hhd]; simpl.
  - repeat constructor.
  - destruct (js_gt0 (comparator x y)) eqn:Hc.
    + constructor; [done|].
      destruct l as [|z l]; simpl in *.
      * constructor. by apply comparator_gt_flip.
      * destruct (js_gt0 (comparator x z)).
        -- constructor. by inversion Hhd.
        -- constructor. by apply comparator_gt_flip.
    + constructor; [by constructor|]. constructor. done.
Qed.

Lemma array_sort_sorted l : Sorted job_le (array_sort comparator l).
Proof.
  induction l as [|x l IH]; simpl; [constructor | by apply sort_insert_sorted].
Qed.




(** C6, at the failing input: for two jobs with no id the comparator
    answers NaN, so the sort leaves a job with [pre] behind a job without,
    and the flush invokes them in that order; with a numeric id in common the
    job with [pre] is moved to the front. *)
Theorem pre_job_without_id_is_not_run_first (dev : bool) :
  comparator (plain_job 2 None true) (plain_job 1 None false) = NaN
  ∧ array_sort comparator [plain_job 1 None false; plain_job 2 None true]
    = [plain_job 1 None false; plain_job 2 None true]
  ∧ (∃ s', flushJobs dev inert 3 None
             (flush_requested [plain_job 1 None false; plain_job 2 None true]) = Some s'
           ∧ invoked s' = [plain_job 1 None false; plain_job 2 None true])
  ∧ array_sort comparator [plain_job 1 (Some 4%Z) false; plain_job 2 (Some 4%Z) true]
    = [plain_job 2 (Some 4%Z) true; plain_job 1 (Some 4%Z) false].
Proof.
  split; [done|]. split; [done|]. split; [|done].
  destruct dev; eexists; (split; [vm_compute; reflexivity | reflexivity]).
Qed.

(** While the job with id 5 runs, a job with id 3 is queued: it is placed
    behind the running job, although that entry is the first one that does
    not come before it, and the flush runs it after the job with id 5. *)
Lemma queueJob_during_flush_breaks_id_order :
  Sorted id_le [plain_job 1 (Some 1%Z) false; plain_job 2 (Some 5%Z) false;
                plain_job 3 (Some 7%Z) false]
  ∧ queueJob (plain_job 4 (Some 3%Z) false)
      (flushing_at 1 [plain_job 1 (Some 1%Z) false; plain_job 2 (Some 5%Z) false;
                      plain_job 3 (Some 7%Z) false])
    = Some (set_queue [plain_job 1 (Some 1%Z) false; plain_job 2 (Some 5%Z) false;
                       plain_job 4 (Some 3%Z) false; plain_job 3 (Some 7%Z) false]
              (flushing_at 1 [plain_job 1 (Some 1%Z) false; plain_job 2 (Some 5%Z) false;
                              plain_job 3 (Some 7%Z) false]))
  ∧ before_id (plain_job 1 (Some 1%Z) false) 3 = true
  ∧ before_id (plain_job 2 (Some 5%Z) false) 3 = false
  ∧ ¬ Sorted id_le [plain_job 1 (Some 1%Z) false; plain_job 2 (Some 5%Z) false;
                    plain_job 4 (Some 3%Z) false; plain_job 3 (Some 7%Z) false]
  ∧ invoked <$> flushJobs false (queues 2 (plain_job 4 (Some 3%Z) false)) 6 None
                  (flush_requested [plain_job 1 (Some 1%Z) false;
                                    plain_job 2 (Some 5%Z) false;
                                    plain_job 3 (Some 7%Z) false])
    = Some [plain_job 1 (Some 1%Z) false; plain_job 2 (Some 5%Z) false;
            plain_job 4 (Some 3%Z) false; plain_job 3 (Some 7%Z) false].
Proof.
  split; [repeat constructor|]. split; [reflexivity|]. split; [reflexivity|].
  split; [reflexivity|]. split; [|vm_compute; reflexivity].
  intros H. inversion H as [|? ? Hs _]. inversion Hs as [|? ? _ Hd].
  inversion Hd as [|? ? Hle]. discriminate Hle.
Qed.

(** With the scheduler idle, [flushIndex] is 0 and the search starts at
    index 1 all the same: a job queued behind a single job with a greater id
    stays behind it until the flush sorts the queue. *)
Lemma queueJob_when_idle_searches_from_index_1 :
  queueJob (plain_job 2 (Some 3%Z) false) (flush_requested [plain_job 1 (Some 5%Z) false])
    = Some (flush_requested [plain_job 1 (Some 5%Z) false; plain_job 2 (Some 3%Z) false])
  ∧ invoked <$> flushJobs false inert 4 None
                  (flush_requested [plain_job 1 (Some 5%Z) false;
                                    plain_job 2 (Some 3%Z) false])
    = Some [plain_job 2 (Some 3%Z) false; plain_job 1 (Some 5%Z) false].
Proof. split; [reflexivity | vm_compute; reflexivity]. Qed.

Lemma queueJob_keeps_pending_part_ordered_witness :
  ∃ q', queueJob (plain_job 3 (Some 4%Z) false)
          (flush_requested [plain_job 1 (Some 5%Z) false; plain_job 2 (Some 3%Z) false;
                            plain_job 4 (Some 6%Z) false])
        = Some (queueFlush (set_queue q'
            (flush_requested [plain_job 1 (Some 5%Z) false; plain_job 2 (Some 3%Z) false;
                              plain_job 4 (Some 6%Z) false])))
    ∧ Sorted job_le (drop 1 q').
Proof.
  destruct (queueJob_keeps_pending_part_ordered (plain_job 3 (Some 4%Z) false)
    (flush_requested [plain_job 1 (Some 5%Z) false; plain_job 2 (Some 3%Z) false;
                      plain_job 4 (Some 6%Z) false])) as [_ H].
  - vm_compute. reflexivity.
  - destruct H as (q' & Hq & _ & _ & _ & Hs).
    + right. vm_compute. intros Hin. 
      repeat (apply elem_of_cons in Hin as [Hin|Hin]; [discriminate Hin|]).
      by apply elem_of_nil in Hin.
    + exists q'. split; [exact Hq|]. apply Hs.
      repeat constructor.
Defined.

(** ** The sort and the walk of a flush *)

(** X1, the sort of [flushJobs] permutes the queue and orders it: ids ascend,
    a job with no id stands behind every job with an id, and of two jobs with
    the same numeric id one with [pre] does not stand behind one without.
    Between two jobs with no id the order says nothing. *)
Theorem flush_sort_orders_queue (q : list SchedulerJob) :
  array_sort comparator q ≡ₚ q
  ∧ StronglySorted job_le (array_sort comparator q)
  ∧ (∀ a b, job_le a b ↔
       match id a, id b with
       | Some x, Some y => (x < y)%Z ∨ (x = y ∧ (pre b = true → pre a = true))
       | Some _, None => True
       | None, Some _ => False
       | None, None => True
       end).
Proof.
  split; [apply array_sort_perm|]. split; [|apply job_le_cases].
  apply Sorted_StronglySorted; [apply _ | apply array_sort_sorted].
Qed.

(** ** Deactivated jobs *)

Section deactivated.

Variable dev : bool.
Variable behaviour : nat → list action.
Variable job : SchedulerJob.
Hypothesis deactivated : active job = Some false.

Lemma checked_keeps_invoked (seen : CountMap) (cb : SchedulerJob) (s : State) :
  invoked (if dev then checkRecursiveUpdates seen cb s else (false, seen, s)).2 = invoked s.
Proof. destruct dev; [apply check_keeps_invoked | reflexivity]. Qed.

Lemma call_of_another (cb : SchedulerJob) (s s' : State) :
  active cb ≠ Some false → call behaviour cb s = Some s' →
  invocations job s' = invocations job s.
Proof.
  intros Hact Hcall. rewrite (invocations_call _ _ _ _ job Hcall).
  destruct (decide (cb = job)) as [->|_]; [done | lia].
Qed.

Lemma flush_step_deactivated (seen : CountMap) (s : State) seen' s' :
  flush_step dev behaviour seen s = Some (seen', s') →
  invocations job s' = invocations job s ∧ seen' !! job = seen !! job.
Proof.
  unfold flush_step.
  destruct (queue s !! flushIndex s) as [cb|]; [|by intros [= <- <-]].
  case_bool_decide as Hact; [|by intros [= <- <-]].
  pose proof (checked_keeps_invoked seen cb s) as Hinv.
  assert (Hseen : (if dev then checkRecursiveUpdates seen cb s
                   else (false, seen, s)).1.2 !! job = seen !! job).
  { destruct dev; [|done]. unfold checkRecursiveUpdates.
    assert (cb ≠ job) by (intros ->; done).
    repeat case_match; simpl; rewrite ?lookup_insert_ne; done. }
  destruct (if dev then checkRecursiveUpdates seen cb s else (false, seen, s))
    as [[over seen1] s1].
  cbn [fst snd] in *. destruct over.
  - intros [= <- <-]. split; [|done]. unfold invocations. simpl. by rewrite Hinv.
  - intros Hb. apply bind_Some in Hb as (s2 & Hcall & [= <- <-]).
    split; [|done].
    change (invocations job (set_flushIndex (flushIndex s2 + 1) s2))
      with (invocations job s2).
    rewrite (call_of_another cb s1 s2 Hact Hcall). unfold invocations. by rewrite Hinv.
Qed.

Lemma flush_queue_deactivated fuel : ∀ seen s seen' s',
  flush_queue dev behaviour fuel seen s = Some (seen', s') →
  invocations job s' = invocations job s ∧ seen' !! job = seen !! job.
Proof.
  induction fuel as [|fuel IH]; intros seen s seen' s'; simpl.
  - case_match; [done|]. by intros [= <- <-].
  - case_match; [|by intros [= <- <-]].
    intros Hb. apply bind_Some in Hb as ([seen1 s1] & Hstep & Hrest).
    apply flush_step_deactivated in Hstep as [H1 H2].
    apply IH in Hrest as [H3 H4]. split; congruence.
Qed.

Lemma post_step_deactivated act (seen : CountMap) (s : State) seen' s' :
  post_step dev behaviour act seen s = Some (seen', s') →
  invocations job s' = invocations job s.
Proof.
  unfold post_step.
  destruct (act !! postFlushIndex s) as [cb|]; [|done].
  pose proof (checked_keeps_invoked seen cb s) as Hinv.
  destruct (if dev then checkRecursiveUpdates seen cb s else (false, seen, s))
    as [[over seen1] s1].
  cbn [fst snd] in *. destruct over.
  - intros [= <- <-]. unfold invocations. simpl. by rewrite Hinv.
  - case_bool_decide as Hact.
    + intros Hb. apply bind_Some in Hb as (s2 & Hcall & [= <- <-]).
      change (invocations job (set_postFlushIndex (postFlushIndex s2 + 1) s2))
        with (invocations job s2).
      rewrite (call_of_another cb s1 s2 Hact Hcall). unfold invocations. by rewrite Hinv.
    + intros [= <- <-]. unfold invocations. simpl. by rewrite Hinv.
Qed.

Lemma flush_post_deactivated fuel : ∀ seen s seen' s',
  flush_post dev behaviour fuel seen s = Some (seen', s') →
  invocations job s' = invocations job s.
Proof.
  induction fuel as [|fuel IH]; intros seen s seen' s'; simpl.
  - destruct (activePostFlushCbs s); [|done]. case_match; [done|]. by intros [= <- <-].
  - destruct (activePostFlushCbs s) as [act|]; [|done].
    case_match; [|by intros [= <- <-]].
    intros Hb. apply bind_Some in Hb as ([seen1 s1] & Hstep & Hrest).
    apply post_step_deactivated in Hstep. apply IH in Hrest. congruence.
Qed.

Lemma flushPostFlushCbs_deactivated fuel seen s seen' s' :
  flushPostFlushCbs dev behaviour fuel seen s = Some (seen', s') →
  invocations job s' = invocations job s.
Proof.
  unfold flushPostFlushCbs.
  case_match; [by intros [= <- <-]|].
  simpl. destruct (activePostFlushCbs s); [by intros [= <- <-]|].
  intros Hb. apply bind_Some in Hb as ([seen1 s1] & Hpost & [= <- <-]).
  apply flush_post_deactivated in Hpost. exact Hpost.
Qed.

Lemma flushJobs_deactivated fuel : ∀ seen s s',
  flushJobs dev behaviour fuel seen s = Some s' →
  invocations job s' = invocations job s.
Proof.
  induction fuel as [|fuel IH]; intros seen s s'; simpl; [done|].
  intros Hrun. apply bind_Some in Hrun as ([seen1 s3] & Hqueue & Hrun).
  apply flush_queue_deactivated in Hqueue as [Hq _].
  apply bind_Some in Hrun as ([seen2 s5] & Hpost & Hrun).
  apply flushPostFlushCbs_deactivated in Hpost.
  case_match.
  - apply IH in Hrun. unfold invocations in *. simpl in *. congruence.
  - injection Hrun as <-. unfold invocations in *. simpl in *. congruence.
Qed.

End deactivated.

(** X2, a deactivated job is not invoked by a flush.  Let the functions of
    the jobs return and call nothing of the scheduler but [queueJob],
    [invalidateJob] and [queuePostFlushCb].  Then a [flushJobs] that returns
    has not invoked a job whose [active] flag is false, wherever the job
    stood in the queue or among the post-flush callbacks, and however often
    a job has queued it during the flush; and the walk of the queue has not
    counted it in the seen-map either. *)
Theorem deactivated_job_is_never_invoked (dev : bool) (behaviour : nat → list action)
    (job : SchedulerJob) :
  active job = Some false →
  (∀ fuel seen s s',
     flushJobs dev behaviour fuel seen s = Some s' →
     invocations job s' = invocations job s)
  ∧ (∀ fuel seen s seen' s',
       flush_queue dev behaviour fuel seen s = Some (seen', s') →
       invocations job s' = invocations job s ∧ seen' !! job = seen !! job).
Proof.
  intros Hact. split.
  - intros fuel seen s s'. by apply flushJobs_deactivated.
  - intros fuel seen s seen' s'. by apply flush_queue_deactivated.
Qed.

Lemma deactivated_job_is_never_invoked_witness :
  ∃ s', flushJobs true (queues 1 (stopped_job 2 (Some 2%Z))) 6 None
          (flush_requested
             [plain_job 1 (Some 1%Z) false; stopped_job 2 (Some 2%Z);
              plain_job 3 (Some 3%Z) false]) = Some s'
        ∧ invocations (stopped_job 2 (Some 2%Z)) s' = 0
        ∧ invoked s' = [plain_job 1 (Some 1%Z) false; plain_job 3 (Some 3%Z) false].
Proof.
  assert (Hf : flushJobs true (queues 1 (stopped_job 2 (Some 2%Z))) 6 None
                 (flush_requested
                    [plain_job 1 (Some 1%Z) false; stopped_job 2 (Some 2%Z);
                     plain_job 3 (Some 3%Z) false])
               = Some (idle_with [plain_job 1 (Some 1%Z) false;
                                  plain_job 3 (Some 3%Z) false] []))
    by (vm_compute; reflexivity).
  eexists. split; [exact Hf|]. split; [|reflexivity].
  exact (proj1 (deactivated_job_is_never_invoked true (queues 1 (stopped_job 2 (Some 2%Z)))
                  (stopped_job 2 (Some 2%Z)) eq_refl) 6 None _ _ Hf).
Defined.

(** ** Queueing and taking back *)

(** Where [queueJob] puts a job that it inserts. *)
Lemma queueJob_inserted job s :
  (Z.of_nat (length (queue s)) < 2 ^ 31)%Z →
  queue s = [] ∨ job ∉ drop (dedupe_start job s) (queue s) →
  ∃ k, queueJob job s
       = Some (queueFlush (set_queue (take k (queue s) ++ job :: drop k (queue s)) s))
       ∧ (k = length (queue s) ∨ flushIndex s < k)
       ∧ (flushIndex s < length (queue s) → k ≤ length (queue s)).
Proof.
  intros Hsize Hnew. rewrite (queueJob_enters _ _ Hnew).
  destruct (id job) as [n|].
  - destruct (findInsertionIndex_total s n Hsize) as (k & -> & Hfk & Hkl).
    exists k. simpl. split; [done|]. split; [by right | lia].
  - exists (length (queue s)). simpl. rewrite take_ge, drop_ge by lia.
    split; [done|]. split; [by left | lia].
Qed.

(** Inserting into a list, seen from an index before the insertion. *)
Lemma drop_insert_at {A} (l : list A) (x : A) m k :
  m ≤ k → k ≤ length l →
  drop m (take k l ++ x :: drop k l)
  = take (k - m) (drop m l) ++ x :: drop (k - m) (drop m l).
Proof.
  intros Hmk Hkl. rewrite drop_drop. replace (m + (k - m)) with k by lia.
  rewrite drop_app_le by (rewrite length_take; lia).
  rewrite take_drop_commute. do 3 f_equal. lia.
Qed.

Lemma NoDup_insert_at {A} (l : list A) (x : A) j :
  NoDup l → x ∉ l → NoDup (take j l ++ x :: drop j l).
Proof.
  intros Hnd Hx. rewrite <-(take_drop j l) in Hnd, Hx.
  apply NoDup_app in Hnd as (H1 & H2 & H3).
  rewrite not_elem_of_app in Hx. destruct Hx as [Hx1 Hx2].
  apply NoDup_app. split; [done|]. split.
  - intros y Hy Hy'. apply elem_of_cons in Hy' as [->|Hy']; [done | by eapply H2].
  - by apply NoDup_cons.
Qed.

Lemma drop_subseteq_le {A} (l : list A) n m : n ≤ m → drop m l ⊆ drop n l.
Proof.
  intros Hnm. replace m with (n + (m - n)) by lia. rewrite <-drop_drop.
  apply subseteq_drop.
Qed.

Lemma queue_queueFlush s : queue (queueFlush s) = queue s ∧ flushIndex (queueFlush s) = flushIndex s.
Proof. unfold queueFlush. by destruct (negb (isFlushing s) && negb (isFlushPending s)). Qed.

Lemma indexOf_inserted job (q : list SchedulerJob) k :
  job ∉ q → k ≤ length q → indexOf job (take k q ++ job :: drop k q) = Z.of_nat k.
Proof.
  intros Hnin Hk. apply indexOf_first. split.
  - rewrite lookup_app_r by (rewrite length_take; lia).
    rewrite length_take. replace (k - k `min` length q) with 0 by lia. done.
  - intros m Hm Hjob. apply Hnin.
    rewrite lookup_app_l in Hjob by (rewrite length_take; lia).
    apply lookup_take_Some in Hjob as [Hjob _].
    by eapply list_elem_of_lookup_2.
Qed.

(** X4, [queueJob] followed by [invalidateJob] gives the queue back, when the
    job was not queued and entries stand behind [flushIndex]; the first job
    of an empty queue stands at index 0, where [invalidateJob] leaves it. *)
Theorem queueJob_then_invalidateJob (job : SchedulerJob) (s : State) :
  (Z.of_nat (length (queue s)) < 2 ^ 31)%Z →
  job ∉ queue s →
  (flushIndex s < length (queue s) →
     ∃ s1, queueJob job s = Some s1 ∧ job ∈ queue s1
           ∧ length (queue s1) = S (length (queue s))
           ∧ invalidateJob job s1 = set_queue (queue s) s1)
  ∧ (queue s = [] →
     ∃ s1, queueJob job s = Some s1 ∧ queue s1 = [job] ∧ invalidateJob job s1 = s1).
Proof.
  intros Hsize Hnin.
  assert (Hnew : queue s = [] ∨ job ∉ drop (dedupe_start job s) (queue s)).
  { right. intros Hin. apply Hnin. by eapply subseteq_drop. }
  destruct (queueJob_inserted job s Hsize Hnew) as (k & Hq & Hk & Hkl).
  split.
  - intros Hlt. specialize (Hkl Hlt).
    assert (Hfk : flushIndex s < k) by (destruct Hk; lia).
    eexists. split; [exact Hq|].
    destruct (queue_queueFlush
                (set_queue (take k (queue s) ++ job :: drop k (queue s)) s)) as [Hqq Hfi].
    split; [|split].
    + rewrite Hqq. simpl. apply elem_of_app. right. left.
    + rewrite Hqq. simpl. rewrite length_app, length_take. simpl. rewrite length_drop. lia.
    + unfold invalidateJob. rewrite Hqq, Hfi. simpl.
      rewrite indexOf_inserted by (done || lia).
      destruct (Z.ltb_spec (Z.of_nat (flushIndex s)) (Z.of_nat k)); [|lia].
      rewrite Nat2Z.id. f_equal. unfold splice_remove.
      rewrite take_app_le by (rewrite length_take; lia).
      rewrite take_take. replace (k `min` k) with k by lia.
      rewrite drop_app_ge by (rewrite length_take; lia).
      rewrite length_take. replace (S k - k `min` length (queue s)) with 1 by lia.
      simpl. rewrite drop_0. apply take_drop.
  - intros Hnil. eexists. split; [exact Hq|].
    destruct (queue_queueFlush
                (set_queue (take k (queue s) ++ job :: drop k (queue s)) s)) as [Hqq Hfi].
    assert (Hone : take k (queue s) ++ job :: drop k (queue s) = [job]).
    { by rewrite Hnil, take_nil, drop_nil. }
    split; [by rewrite Hqq; simpl|].
    unfold invalidateJob. rewrite Hqq, Hfi. simpl. rewrite Hone. simpl.
    rewrite decide_True by done.
    destruct (Z.ltb_spec (Z.of_nat (flushIndex s)) 0); [lia | done].
Qed.

Lemma queueJob_then_invalidateJob_witness :
  ∃ s1, queueJob (plain_job 4 (Some 6%Z) false)
          (flushing_at 0 [plain_job 1 (Some 1%Z) false; plain_job 2 (Some 5%Z) false;
                          plain_job 3 (Some 7%Z) false]) = Some s1
        ∧ queue (invalidateJob (plain_job 4 (Some 6%Z) false) s1)
          = [plain_job 1 (Some 1%Z) false; plain_job 2 (Some 5%Z) false;
             plain_job 3 (Some 7%Z) false].
Proof.
  destruct (proj1 (queueJob_then_invalidateJob (plain_job 4 (Some 6%Z) false)
              (flushing_at 0 [plain_job 1 (Some 1%Z) false; plain_job 2 (Some 5%Z) false;
                              plain_job 3 (Some 7%Z) false]) eq_refl
              ltac:(intros H; repeat (apply elem_of_cons in H as [H|H]; [discriminate H|]);
                    by apply elem_of_nil in H))
              ltac:(simpl; lia))
    as (s1 & Hq & _ & _ & Hinv).
  exists s1. split; [exact Hq|]. rewrite Hinv. reflexivity.
Defined.

(** X5, [queueJob] keeps the jobs behind [flushIndex] distinct; and from
    [flushIndex] on, unless the job may recurse and a flush is running. *)
Theorem queueJob_keeps_waiting_jobs_distinct (job : SchedulerJob) (s s' : State) :
  (Z.of_nat (length (queue s)) < 2 ^ 31)%Z →
  queueJob job s = Some s' →
  flushIndex s' = flushIndex s
  ∧ (NoDup (drop (flushIndex s + 1) (queue s)) →
     NoDup (drop (flushIndex s + 1) (queue s')))
  ∧ (isFlushing s && allowRecurse job = false →
     NoDup (drop (flushIndex s) (queue s)) → NoDup (drop (flushIndex s) (queue s'))).
Proof.
  intros Hsize Hq.
  destruct (decide (queue s ≠ [] ∧ job ∈ drop (dedupe_start job s) (queue s)))
    as [[Hne Hin]|Hnew].
  { rewrite (queueJob_duplicate job s Hne Hin) in Hq. injection Hq as <-. done. }
  assert (Hnew' : queue s = [] ∨ job ∉ drop (dedupe_start job s) (queue s)).
  { destruct (decide (queue s = [])); [by left|]. right. naive_solver. }
  destruct (queueJob_inserted job s Hsize Hnew') as (k & Hq' & Hk & Hkl).
  rewrite Hq' in Hq. injection Hq as <-.
  destruct (queue_queueFlush
              (set_queue (take k (queue s) ++ job :: drop k (queue s)) s)) as [-> ->].
  simpl. split; [done|].
  destruct (decide (flushIndex s < length (queue s))) as [Hlt|Hge].
  - specialize (Hkl Hlt). assert (Hfk : flushIndex s < k) by (destruct Hk; lia).
    assert (Hout : job ∉ drop (dedupe_start job s) (queue s)).
    { destruct Hnew' as [Hnil|H]; [|done]. rewrite Hnil in Hlt. simpl in Hlt. lia. }
    split.
    + intros Hnd. rewrite drop_insert_at by lia. apply NoDup_insert_at; [done|].
      intros Hin. apply Hout. eapply drop_subseteq_le; [|exact Hin].
      unfold dedupe_start. destruct (isFlushing s && allowRecurse job); lia.
    + intros Hwin Hnd. rewrite drop_insert_at by lia. apply NoDup_insert_at; [done|].
      unfold dedupe_start in Hout. by rewrite Hwin in Hout.
  - assert (Happ : take k (queue s) ++ job :: drop k (queue s) = queue s ++ [job]).
    { rewrite take_ge, drop_ge by (destruct Hk; lia). done. }
    rewrite Happ.
    split; intros; rewrite drop_app_ge by lia;
      (eapply (sublist_NoDup _ [job]); [apply NoDup_singleton | apply sublist_drop]).
Qed.

Lemma queueJob_keeps_waiting_jobs_distinct_witness :
  ∃ s', queueJob (plain_job 4 (Some 6%Z) false)
          (flushing_at 0 [plain_job 1 (Some 1%Z) false; plain_job 2 (Some 5%Z) false;
                          plain_job 3 (Some 7%Z) false]) = Some s'
        ∧ NoDup (drop 0 (queue s')).
Proof.
  exists (set_queue [plain_job 1 (Some 1%Z) false; plain_job 2 (Some 5%Z) false;
                     plain_job 4 (Some 6%Z) false; plain_job 3 (Some 7%Z) false]
            (flushing_at 0 [plain_job 1 (Some 1%Z) false; plain_job 2 (Some 5%Z) false;
                            plain_job 3 (Some 7%Z) false])).
  assert (Hq : queueJob (plain_job 4 (Some 6%Z) false)
          (flushing_at 0 [plain_job 1 (Some 1%Z) false; plain_job 2 (Some 5%Z) false;
                          plain_job 3 (Some 7%Z) false])
        = Some (set_queue [plain_job 1 (Some 1%Z) false; plain_job 2 (Some 5%Z) false;
                     plain_job 4 (Some 6%Z) false; plain_job 3 (Some 7%Z) false]
            (flushing_at 0 [plain_job 1 (Some 1%Z) false; plain_job 2 (Some 5%Z) false;
                            plain_job 3 (Some 7%Z) false]))) by reflexivity.
  split; [exact Hq|].
  refine (proj2 (proj2 (queueJob_keeps_waiting_jobs_distinct
            (plain_job 4 (Some 6%Z) false)
            (flushing_at 0 [plain_job 1 (Some 1%Z) false; plain_job 2 (Some 5%Z) false;
                            plain_job 3 (Some 7%Z) false]) _ _ Hq)) _ _).
  - reflexivity.
  - reflexivity.
  - simpl. repeat (apply NoDup_cons; split;
      [intros H; repeat (apply elem_of_cons in H as [H|H]; [discriminate H|]);
       by apply elem_of_nil in H|]).
    apply NoDup_nil_2.
Defined.

(** ** What a flush leaves behind *)

Ltac solve_frame :=
  simpl; repeat first [split | intros ?]; simpl in *; first [done | congruence].

Lemma api_frame_refl s : api_frame s s.
Proof. solve_frame. Qed.

Lemma api_frame_trans a b c : api_frame a b → api_frame b c → api_frame a c.
Proof.
  intros (H1 & H2 & H3 & H4 & H5) (G1 & G2 & G3 & G4 & G5).
  split; [congruence|]. split; [congruence|]. split; [congruence|].
  split; [congruence|]. intros Hf. destruct (H5 Hf) as [? ?].
  destruct (G5 ltac:(congruence)) as [? ?]. split; congruence.
Qed.

Lemma queueFlush_frame s : api_frame s (queueFlush s).
Proof.
  unfold queueFlush. destruct (isFlushing s) eqn:Hf; simpl; [solve_frame|].
  destruct (isFlushPending s); simpl; repeat split; try done; congruence.
Qed.

Lemma run_action_frame a s s' : run_action a s = Some s' → api_frame s s'.
Proof.
  destruct a as [job|job|cb]; simpl.
  - unfold queueJob. case_match; [|intros [= <-]; apply api_frame_refl].
    intros Hq. apply bind_Some in Hq as (q' & _ & [= <-]).
    eapply api_frame_trans; [|apply queueFlush_frame]. solve_frame.
  - intros [= <-]. unfold invalidateJob. case_match; solve_frame.
  - intros [= <-]. unfold queuePostFlushCb.
    eapply api_frame_trans; [|apply queueFlush_frame].
    repeat case_match; solve_frame.
Qed.

Lemma run_actions_frame l : ∀ s s', run_actions l s = Some s' → api_frame s s'.
Proof.
  induction l as [|a l IH]; intros s s'; simpl; [intros [= <-]; apply api_frame_refl|].
  intros Hb. apply bind_Some in Hb as (s1 & Ha & Hl).
  eapply api_frame_trans; [by eapply run_action_frame | by apply IH].
Qed.

Lemma call_frame behaviour job s s' : call behaviour job s = Some s' → api_frame s s'.
Proof.
  unfold call. intros H. apply run_actions_frame in H.
  eapply api_frame_trans; [|exact H]. solve_frame.
Qed.

Lemma walk_frame_refl s : walk_frame s s.
Proof. solve_frame. Qed.

Lemma walk_frame_trans a b c : walk_frame a b → walk_frame b c → walk_frame a c.
Proof.
  intros (H1 & H3 & H5) (G1 & G3 & G5).
  split; [congruence|]. split; [congruence|].
  intros Hf. destruct (H5 Hf) as [? ?].
  destruct (G5 ltac:(congruence)) as [? ?]. split; congruence.
Qed.

Lemma api_walk_frame s s' : api_frame s s' → walk_frame s s'.
Proof. intros (H1 & H2 & H3 & H4 & H5). split; [done|]. split; [done | exact H5]. Qed.

Lemma checkRecursiveUpdates_frame seen job s :
  walk_frame s (checkRecursiveUpdates seen job s).2
  ∧ flushIndex (checkRecursiveUpdates seen job s).2 = flushIndex s
  ∧ postFlushIndex (checkRecursiveUpdates seen job s).2 = postFlushIndex s
  ∧ queue (checkRecursiveUpdates seen job s).2 = queue s
  ∧ pendingPostFlushCbs (checkRecursiveUpdates seen job s).2 = pendingPostFlushCbs s.
Proof.
  unfold checkRecursiveUpdates, walk_frame.
  destruct (seen !! job) as [c|]; [destruct (RECURSION_LIMIT <? c)|]; simpl; done.
Qed.

Lemma flush_step_frame dev behaviour seen s seen' s' :
  flush_step dev behaviour seen s = Some (seen', s') →
  walk_frame s s' ∧ postFlushIndex s' = postFlushIndex s.
Proof.
  unfold flush_step.
  destruct (queue s !! flushIndex s) as [job|]; [|intros [= <- <-]; solve_frame].
  case_bool_decide; [|intros [= <- <-]; solve_frame].
  pose proof (checkRecursiveUpdates_frame seen job s) as (Hc & _ & Hcp & _).
  destruct (if dev then checkRecursiveUpdates seen job s else (false, seen, s))
    as [[over seen1] s1] eqn:Hchk.
  assert (walk_frame s s1 ∧ postFlushIndex s1 = postFlushIndex s) as [Hw Hp].
  { destruct dev; [|injection Hchk as <- <- <-; solve_frame].
    rewrite Hchk in Hc, Hcp. done. }
  destruct over.
  - intros [= <- <-]. split; [|done].
    eapply walk_frame_trans; [exact Hw|]. solve_frame.
  - intros Hb. apply bind_Some in Hb as (s2 & Hcall & [= <- <-]).
    apply call_frame in Hcall. pose proof Hcall as (_ & _ & _ & Hp2 & _).
    split; [|simpl; congruence].
    eapply walk_frame_trans; [exact Hw|].
    eapply walk_frame_trans; [by apply api_walk_frame|]. solve_frame.
Qed.

Lemma flush_queue_frame dev behaviour fuel : ∀ seen s seen' s',
  flush_queue dev behaviour fuel seen s = Some (seen', s') →
  walk_frame s s' ∧ postFlushIndex s' = postFlushIndex s.
Proof.
  induction fuel as [|fuel IH]; intros seen s seen' s'; simpl.
  - case_match; [done|]. intros [= <- <-]. solve_frame.
  - case_match; [|intros [= <- <-]; solve_frame].
    intros Hb. apply bind_Some in Hb as ([seen1 s1] & Hstep & Hrest).
    apply flush_step_frame in Hstep as [Hw1 Hp1].
    apply IH in Hrest as [Hw2 Hp2].
    split; [by eapply walk_frame_trans | congruence].
Qed.

Lemma post_step_frame dev behaviour act seen s seen' s' :
  post_step dev behaviour act seen s = Some (seen', s') →
  walk_frame s s' ∧ flushIndex s' = flushIndex s.
Proof.
  unfold post_step.
  destruct (act !! postFlushIndex s) as [cb|]; [|done].
  pose proof (checkRecursiveUpdates_frame seen cb s) as (Hc & Hcf & _).
  destruct (if dev then checkRecursiveUpdates seen cb s else (false, seen, s))
    as [[over seen1] s1] eqn:Hchk.
  assert (walk_frame s s1 ∧ flushIndex s1 = flushIndex s) as [Hw Hp].
  { destruct dev; [|injection Hchk as <- <- <-; solve_frame].
    rewrite Hchk in Hc, Hcf. done. }
  destruct over.
  - intros [= <- <-]. split; [|done].
    eapply walk_frame_trans; [exact Hw|]. solve_frame.
  - case_bool_decide.
    + intros Hb. apply bind_Some in Hb as (s2 & Hcall & [= <- <-]).
      apply call_frame in Hcall. pose proof Hcall as (_ & Hf2 & _).
      split; [|simpl; congruence].
      eapply walk_frame_trans; [exact Hw|].
      eapply walk_frame_trans; [by apply api_walk_frame|]. solve_frame.
    + intros [= <- <-]. split; [|done].
      eapply walk_frame_trans; [exact Hw|]. solve_frame.
Qed.

Lemma flush_post_frame dev behaviour fuel : ∀ seen s seen' s',
  flush_post dev behaviour fuel seen s = Some (seen', s') →
  walk_frame s s' ∧ flushIndex s' = flushIndex s.
Proof.
  induction fuel as [|fuel IH]; intros seen s seen' s'; simpl.
  - destruct (activePostFlushCbs s); [|done]. case_match; [done|].
    intros [= <- <-]. solve_frame.
  - destruct (activePostFlushCbs s) as [act|]; [|done].
    case_match; [|intros [= <- <-]; solve_frame].
    intros Hb. apply bind_Some in Hb as ([seen1 s1] & Hstep & Hrest).
    apply post_step_frame in Hstep as [Hw1 Hp1].
    apply IH in Hrest as [Hw2 Hp2].
    split; [by eapply walk_frame_trans | congruence].
Qed.

(** After [flushPostFlushCbs], called with no callbacks active, none are
    active, none are pending unless a callback has queued some, and
    [postFlushIndex] is 0. *)
Lemma flushPostFlushCbs_frame dev behaviour fuel seen s seen' s' :
  activePostFlushCbs s = None → postFlushIndex s = 0 →
  flushPostFlushCbs dev behaviour fuel seen s = Some (seen', s') →
  isFlushing s' = isFlushing s ∧ flushIndex s' = flushIndex s
  ∧ activePostFlushCbs s' = None ∧ postFlushIndex s' = 0
  ∧ (isFlushing s = true →
     isFlushPending s' = isFlushPending s ∧ currentFlushPromise s' = currentFlushPromise s).
Proof.
  intros Hact Hidx. unfold flushPostFlushCbs.
  case_match; [intros [= <- <-]; solve_frame|].
  simpl. rewrite Hact.
  intros Hb. apply bind_Some in Hb as ([seen1 s1] & Hpost & [= <- <-]).
  apply flush_post_frame in Hpost as ((Hf & _ & Hp) & Hfi). simpl in *.
  repeat split; try done; by apply Hp.
Qed.

Lemma invoked_checkRecursiveUpdates seen job s :
  invoked (checkRecursiveUpdates seen job s).2 = invoked s
  ∧ errors s `prefix_of` errors (checkRecursiveUpdates seen job s).2.
Proof.
  unfold checkRecursiveUpdates. repeat case_match; simpl; split; try done.
  by apply prefix_app_r.
Qed.

Lemma logs_grow_refl s : logs_grow s s.
Proof. by split. Qed.

Lemma logs_grow_trans a b c : logs_grow a b → logs_grow b c → logs_grow a c.
Proof. intros [? ?] [? ?]. split; by etrans. Qed.

Lemma flush_step_logs dev behaviour seen s seen' s' :
  flush_step dev behaviour seen s = Some (seen', s') → logs_grow s s'.
Proof.
  unfold flush_step.
  destruct (queue s !! flushIndex s) as [job|]; [|intros [= <- <-]; by split].
  case_bool_decide; [|intros [= <- <-]; by split].
  pose proof (invoked_checkRecursiveUpdates seen job s) as [Hi He].
  destruct (if dev then checkRecursiveUpdates seen job s else (false, seen, s))
    as [[over seen1] s1] eqn:Hchk.
  assert (logs_grow s s1) as Hg.
  { destruct dev; [|injection Hchk as <- <- <-; by split].
    rewrite Hchk in Hi, He. simpl in *. split; [by rewrite Hi | done]. }
  destruct over.
  - intros [= <- <-]. exact Hg.
  - intros Hb. apply bind_Some in Hb as (s2 & Hcall & [= <- <-]).
    apply invoked_call in Hcall as [Hi2 He2].
    eapply logs_grow_trans; [exact Hg|]. split; simpl.
    + rewrite Hi2. by apply prefix_app_r.
    + by rewrite He2.
Qed.

Lemma flush_queue_logs dev behaviour fuel : ∀ seen s seen' s',
  flush_queue dev behaviour fuel seen s = Some (seen', s') → logs_grow s s'.
Proof.
  induction fuel as [|fuel IH]; intros seen s seen' s'; simpl.
  - case_match; [done|]. intros [= <- <-]. apply logs_grow_refl.
  - case_match; [|intros [= <- <-]; apply logs_grow_refl].
    intros Hb. apply bind_Some in Hb as ([seen1 s1] & Hstep & Hrest).
    eapply logs_grow_trans; [by eapply flush_step_logs | by eapply IH].
Qed.

Lemma post_step_logs dev behaviour act seen s seen' s' :
  post_step dev behaviour act seen s = Some (seen', s') → logs_grow s s'.
Proof.
  unfold post_step.
  destruct (act !! postFlushIndex s) as [cb|]; [|done].
  pose proof (invoked_checkRecursiveUpdates seen cb s) as [Hi He].
  destruct (if dev then checkRecursiveUpdates seen cb s else (false, seen, s))
    as [[over seen1] s1] eqn:Hchk.
  assert (logs_grow s s1) as Hg.
  { destruct dev; [|injection Hchk as <- <- <-; by split].
    rewrite Hchk in Hi, He. simpl in *. split; [by rewrite Hi | done]. }
  destruct over.
  - intros [= <- <-]. exact Hg.
  - case_bool_decide; [|intros [= <- <-]; exact Hg].
    intros Hb. apply bind_Some in Hb as (s2 & Hcall & [= <- <-]).
    apply invoked_call in Hcall as [Hi2 He2].
    eapply logs_grow_trans; [exact Hg|]. split; simpl.
    + rewrite Hi2. by apply prefix_app_r.
    + by rewrite He2.
Qed.

Lemma flush_post_logs dev behaviour fuel : ∀ seen s seen' s',
  flush_post dev behaviour fuel seen s = Some (seen', s') → logs_grow s s'.
Proof.
  induction fuel as [|fuel IH]; intros seen s seen' s'; simpl.
  - destruct (activePostFlushCbs s); [|done]. case_match; [done|].
    intros [= <- <-]. apply logs_grow_refl.
  - destruct (activePostFlushCbs s) as [act|]; [|done].
    case_match; [|intros [= <- <-]; apply logs_grow_refl].
    intros Hb. apply bind_Some in Hb as ([seen1 s1] & Hstep & Hrest).
    eapply logs_grow_trans; [by eapply post_step_logs | by eapply IH].
Qed.

Lemma flushPostFlushCbs_logs dev behaviour fuel seen s seen' s' :
  flushPostFlushCbs dev behaviour fuel seen s = Some (seen', s') → logs_grow s s'.
Proof.
  unfold flushPostFlushCbs.
  case_match; [intros [= <- <-]; apply logs_grow_refl|].
  simpl. destruct (activePostFlushCbs s); [intros [= <- <-]; by split|].
  intros Hb. apply bind_Some in Hb as ([seen1 s1] & Hpost & [= <- <-]).
  apply flush_post_logs in Hpost. exact Hpost.
Qed.

Lemma idle_with_eq s :
  isFlushing s = false → isFlushPending s = false → queue s = [] → flushIndex s = 0 →
  pendingPostFlushCbs s = [] → activePostFlushCbs s = None → postFlushIndex s = 0 →
  currentFlushPromise s = false →
  s = idle_with (invoked s) (errors s).
Proof. destruct s. simpl. intros. subst. reflexivity. Qed.

Lemma flushJobs_idle dev behaviour fuel : ∀ seen s s',
  activePostFlushCbs s = None → postFlushIndex s = 0 →
  flushJobs dev behaviour fuel seen s = Some s' →
  s' = idle_with (invoked s') (errors s') ∧ logs_grow s s'.
Proof.
  induction fuel as [|fuel IH]; intros seen s s' Hact Hidx; simpl; [done|].
  intros Hrun. apply bind_Some in Hrun as ([seen1 s3] & Hqueue & Hrun).
  pose proof (flush_queue_frame _ _ _ _ _ _ _ Hqueue) as ((Hf3 & Ha3 & Hp3) & Hi3).
  pose proof (flush_queue_logs _ _ _ _ _ _ _ Hqueue) as Hl3.
  simpl in *.
  apply bind_Some in Hrun as ([seen2 s5] & Hpost & Hrun).
  simpl in *.
  assert (Ha4 : activePostFlushCbs (set_queue [] (set_flushIndex 0 s3)) = None)
    by (simpl; congruence).
  assert (Hi4 : postFlushIndex (set_queue [] (set_flushIndex 0 s3)) = 0)
    by (simpl; congruence).
  pose proof (flushPostFlushCbs_frame _ _ _ _ _ _ _ Ha4 Hi4 Hpost)
    as (Hf5 & Hfi5 & Ha5 & Hi5 & Hp5).
  pose proof (flushPostFlushCbs_logs _ _ _ _ _ _ _ Hpost) as Hl5.
  simpl in *.
  destruct (Hp3 eq_refl) as [Hpend3 Hprom3].
  destruct (Hp5 Hf3) as [Hpend5 Hprom5].
  assert (Hlogs : logs_grow s s5).
  { eapply logs_grow_trans; [|exact Hl5]. exact Hl3. }
  case_match eqn:Hmore.
  - apply IH in Hrun as [Heq Hl]; [|done..].
    split; [done|]. eapply logs_grow_trans; [exact Hlogs | exact Hl].
  - injection Hrun as <-. split; [|exact Hlogs].
    apply orb_false_iff in Hmore as [Hq Hp]. simpl in Hq, Hp.
    apply negb_false_iff, Nat.eqb_eq, length_zero_iff_nil in Hq, Hp.
    apply idle_with_eq; simpl; try done; congruence.
Qed.

(** X6, [flushJobs], when it returns, has brought the scheduler to rest: no job
    and no callback is left, no flush is running or scheduled, and both
    indices are 0.  What was logged before the flush is still logged. *)
Theorem flushJobs_leaves_scheduler_idle (dev : bool) (behaviour : nat → list action)
    (fuel : nat) (seen : option CountMap) (s s' : State) :
  activePostFlushCbs s = None → postFlushIndex s = 0 →
  flushJobs dev behaviour fuel seen s = Some s' →
  s' = idle_with (invoked s') (errors s')
  ∧ invoked s `prefix_of` invoked s' ∧ errors s `prefix_of` errors s'.
Proof. intros Hact Hidx Hf. by destruct (flushJobs_idle _ _ _ _ _ _ Hact Hidx Hf) as [? [? ?]]. Qed.

Lemma flushJobs_leaves_scheduler_idle_witness :
  ∃ s', flushJobs true (queues 2 (plain_job 4 (Some 3%Z) false)) 6 None
          (flush_requested [plain_job 1 (Some 1%Z) false; plain_job 2 (Some 5%Z) false])
        = Some s'
        ∧ s' = idle_with (invoked s') (errors s').
Proof.
  assert (Hf : flushJobs true (queues 2 (plain_job 4 (Some 3%Z) false)) 6 None
             (flush_requested [plain_job 1 (Some 1%Z) false; plain_job 2 (Some 5%Z) false])
           = Some (idle_with [plain_job 1 (Some 1%Z) false; plain_job 2 (Some 5%Z) false;
                              plain_job 4 (Some 3%Z) false] []))
    by (vm_compute; reflexivity).
  eexists. split; [exact Hf|].
  refine (proj1 (flushJobs_leaves_scheduler_idle true
            (queues 2 (plain_job 4 (Some 3%Z) false)) 6 None
            (flush_requested [plain_job 1 (Some 1%Z) false; plain_job 2 (Some 5%Z) false])
            _ _ _ Hf)); reflexivity.
Defined.

(** ** Between two events *)

Lemma queueFlush_at_rest s :
  isFlushing s = false → flushIndex s = 0 → activePostFlushCbs s = None →
  postFlushIndex s = 0 → currentFlushPromise s = isFlushPending s →
  at_rest (queueFlush s) ∧ isFlushPending (queueFlush s) = true.
Proof.
  intros Hf Hi Ha Hp Hprom. unfold queueFlush. rewrite Hf. simpl.
  destruct (isFlushPending s) eqn:Hpend; simpl.
  - split; [|done]. split; try done. by rewrite Hpend.
  - split; [|done]. split; simpl; done.
Qed.

Lemma run_action_at_rest a s s' :
  at_rest s → run_action a s = Some s' → at_rest s'.
Proof.
  intros [Hf Hi Ha Hp Hprom Hsched]. destruct a as [job|job|cb]; simpl.
  - unfold queueJob. case_match; [|intros [= <-]; by split].
    intros Hq. apply bind_Some in Hq as (q' & _ & [= <-]).
    by apply queueFlush_at_rest.
  - intros [= <-]. unfold invalidateJob. case_match eqn:Hlt; [|by split].
    split; simpl; try done. intros Hne. apply Hsched.
    destruct (queue s) as [|x q]; [|by left].
    simpl in Hlt. apply Z.ltb_lt in Hlt. lia.
  - intros [= <-]. unfold queuePostFlushCb. rewrite Ha.
    by apply queueFlush_at_rest.
Qed.

Lemma idle_with_at_rest inv errs : at_rest (idle_with inv errs).
Proof. split; simpl; try done. intros [?|?]; done. Qed.

Lemma run_events_at_rest dev behaviour fuel evs : ∀ s s',
  at_rest s → run_events dev behaviour fuel evs s = Some s' → at_rest s'.
Proof.
  induction evs as [|ev evs IH]; intros s s' Hrest; simpl; [by intros [= <-]|].
  intros Hb. apply bind_Some in Hb as (s1 & Hev & Hrest').
  eapply IH; [|exact Hrest']. destruct ev as [a|]; simpl in Hev.
  - by eapply run_action_at_rest.
  - destruct (isFlushPending s); [|by injection Hev as <-].
    destruct Hrest as [_ _ Ha Hp _ _].
    destruct (flushJobs_idle _ _ _ _ _ _ Ha Hp Hev) as [-> _].
    apply idle_with_at_rest.
Qed.

(** X7, a job that waits has a flush scheduled.  The functions of the jobs
    and of the post-flush callbacks return, none throws, and they call
    nothing of the scheduler but [queueJob], [invalidateJob] and
    [queuePostFlushCb].  Then, however these three are called from outside
    and whenever the microtask runs, starting from the initial state,
    between two events no flush is running, both indices are 0, and a job or
    a callback that waits has a flush scheduled for it. *)
Theorem waiting_jobs_have_a_flush_scheduled (dev : bool) (behaviour : nat → list action)
    (fuel : nat) (evs : list event) (s : State) :
  run_events dev behaviour fuel evs initial = Some s →
  at_rest s
  ∧ (isFlushPending s = false → queue s = [] ∧ pendingPostFlushCbs s = []).
Proof.
  intros Hrun.
  assert (Hinit : at_rest initial) by (split; simpl; try done; intros [?|?]; done).
  pose proof (run_events_at_rest _ _ _ _ _ _ Hinit Hrun) as Hrest.
  split; [exact Hrest|]. intros Hpend.
  destruct (queue s) eqn:Hq, (pendingPostFlushCbs s) eqn:Hp; try done;
    exfalso; destruct Hrest as [_ _ _ _ _ Hs]; rewrite Hs in Hpend; try done;
    rewrite ?Hq, ?Hp; auto.
Qed.

Lemma waiting_jobs_have_a_flush_scheduled_witness :
  ∃ s, run_events false inert 5
         [Api (QueueJob (plain_job 1 (Some 2%Z) false));
          Api (QueuePostFlushCb (plain_job 2 None false)); Microtask;
          Api (QueueJob (plain_job 3 None true))] initial = Some s
       ∧ isFlushPending s = true ∧ at_rest s.
Proof.
  assert (Hrun : run_events false inert 5
         [Api (QueueJob (plain_job 1 (Some 2%Z) false));
          Api (QueuePostFlushCb (plain_job 2 None false)); Microtask;
          Api (QueueJob (plain_job 3 None true))] initial
       = Some {| isFlushing := false; isFlushPending := true;
                 queue := [plain_job 3 None true]; flushIndex := 0;
                 pendingPostFlushCbs := []; activePostFlushCbs := None;
                 postFlushIndex := 0; currentFlushPromise := true;
                 invoked := [plain_job 1 (Some 2%Z) false; plain_job 2 None false];
                 errors := [] |}) by (vm_compute; reflexivity).
  eexists. split; [exact Hrun|]. split; [reflexivity|].
  exact (proj1 (waiting_jobs_have_a_flush_scheduled _ _ _ _ _ Hrun)).
Defined.

(** ** A flush of jobs that queue nothing *)

Lemma occurrences_of_cons job x l :
  occurrences_of job (x :: l)
  = (if decide (x = job) then 1 else 0) + occurrences_of job l.
Proof. unfold occurrences_of. rewrite filter_cons. by destruct (decide (x = job)). Qed.

Lemma drop_lookup_cons {A} (l : list A) k x :
  l !! k = Some x → drop k l = x :: drop (S k) l.
Proof. intros H. by apply drop_S. Qed.

(** The check lets a job through that has been seen no more than 100 times,
    and counts it. *)
Lemma checkRecursiveUpdates_within seen job s :
  default 0 (seen !! job) ≤ RECURSION_LIMIT →
  checkRecursiveUpdates seen job s
  = (false, <[job := S (default 0 (seen !! job))]> seen, s).
Proof.
  intros Hle. unfold checkRecursiveUpdates.
  destruct (seen !! job) as [c|] eqn:Hs; simpl in *.
  - destruct (Nat.ltb_spec RECURSION_LIMIT c); [lia|]. by rewrite Nat.add_1_r.
  - done.
Qed.

Lemma call_inert behaviour job s :
  behaviour (fn job) = [] → call behaviour job s = Some (log_invoked job s).
Proof. intros H. unfold call. by rewrite H. Qed.

Section inert.
Context (dev : bool) (behaviour : nat → list action).

Lemma flush_queue_inert : ∀ n fuel seen s,
  length (queue s) - flushIndex s = n → n ≤ fuel →
  (∀ job, job ∈ queue s → behaviour (fn job) = []) →
  (dev = true → ∀ j, default 0 (seen !! j) + occurrences_of j (drop (flushIndex s) (queue s))
                     ≤ S RECURSION_LIMIT) →
  ∃ seen' s', flush_queue dev behaviour fuel seen s = Some (seen', s')
    ∧ queue s' = queue s ∧ pendingPostFlushCbs s' = pendingPostFlushCbs s
    ∧ invoked s' = invoked s ++ filter (λ j, runnable j = true) (drop (flushIndex s) (queue s))
    ∧ errors s' = errors s
    ∧ (∀ j, default 0 (seen' !! j)
            ≤ default 0 (seen !! j) + occurrences_of j (drop (flushIndex s) (queue s))).
Proof.
  induction n as [|n IH]; intros fuel seen s Hn Hfuel Hinert Hbound.
  - exists seen, s.
    assert (Hdone : (flushIndex s <? length (queue s)) = false) by (apply Nat.ltb_ge; lia).
    split; [destruct fuel; simpl; by rewrite Hdone|].
    rewrite drop_ge by lia. rewrite filter_nil, app_nil_r.
    repeat split; try done. intros j. lia.
  - destruct fuel as [|fuel]; [lia|]. simpl.
    assert (Hlt : flushIndex s < length (queue s)) by lia.
    destruct (Nat.ltb_spec (flushIndex s) (length (queue s))); [|lia].
    destruct (lookup_lt_is_Some_2 _ _ Hlt) as [job Hjob].
    rewrite (drop_lookup_cons _ _ _ Hjob) in Hbound |- *.
    assert (Hin : job ∈ queue s) by (by eapply list_elem_of_lookup_2).
    unfold flush_step. rewrite Hjob.
    rewrite filter_cons.
    destruct (decide (active job ≠ Some false)) as [Hact|Hact].
    + (* the job is invoked *)
      rewrite (decide_True (P := runnable job = true))
        by (unfold runnable; by apply bool_decide_eq_true_2).
      rewrite bool_decide_eq_true_2 by done.
      assert (Hchk : (if dev then checkRecursiveUpdates seen job s else (false, seen, s))
                     = (false, (if dev then <[job := S (default 0 (seen !! job))]> seen
                                else seen), s)).
      { destruct dev; [|done]. apply checkRecursiveUpdates_within.
        specialize (Hbound eq_refl job). rewrite occurrences_of_cons in Hbound.
        rewrite decide_True in Hbound by done. lia. }
      rewrite Hchk. rewrite call_inert by (by apply Hinert). simpl.
      destruct (IH fuel (if dev then <[job := S (default 0 (seen !! job))]> seen else seen)
                  (set_flushIndex (flushIndex s + 1) (log_invoked job s)))
        as (seen' & s' & Hrun & Hq & Hp & Hi & He & Hs).
      * simpl. lia.
      * lia.
      * simpl. exact Hinert.
      * intros -> j. simpl. specialize (Hbound eq_refl j).
        rewrite occurrences_of_cons in Hbound. rewrite Nat.add_1_r.
        destruct (decide (job = j)) as [<-|Hne].
        -- rewrite lookup_insert_eq. simpl. lia.
        -- rewrite lookup_insert_ne by done. lia.
      * exists seen', s'. simpl in *. rewrite Nat.add_1_r in *.
        split; [exact Hrun|]. split; [done|]. split; [done|].
        split; [rewrite Hi, <-app_assoc; reflexivity|]. split; [done|].
        intros j. specialize (Hs j). rewrite occurrences_of_cons.
        destruct dev; [|lia].
        destruct (decide (job = j)) as [<-|Hne].
        -- rewrite lookup_insert_eq in Hs. simpl in Hs. lia.
        -- rewrite lookup_insert_ne in Hs by done. lia.
    + (* the job is skipped *)
      rewrite (decide_False (P := runnable job = true))
        by (unfold runnable; rewrite bool_decide_eq_false_2 by done; done).
      rewrite bool_decide_eq_false_2 by done.
      simpl.
      destruct (IH fuel seen (set_flushIndex (flushIndex s + 1) s))
        as (seen' & s' & Hrun & Hq & Hp & Hi & He & Hs).
      * simpl. lia.
      * lia.
      * simpl. exact Hinert.
      * intros Hd j. simpl. specialize (Hbound Hd j).
        rewrite occurrences_of_cons in Hbound. rewrite Nat.add_1_r. lia.
      * exists seen', s'. simpl in *. rewrite Nat.add_1_r in *.
        split; [exact Hrun|]. repeat split; try done.
        intros j. specialize (Hs j). rewrite occurrences_of_cons. lia.
Qed.

Lemma flush_post_inert : ∀ n fuel seen s act,
  activePostFlushCbs s = Some act →
  length act - postFlushIndex s = n → n ≤ fuel →
  (∀ cb, cb ∈ act → behaviour (fn cb) = []) →
  (dev = true → ∀ j, default 0 (seen !! j) + occurrences_of j (drop (postFlushIndex s) act)
                     ≤ S RECURSION_LIMIT) →
  ∃ seen' s', flush_post dev behaviour fuel seen s = Some (seen', s')
    ∧ queue s' = queue s ∧ pendingPostFlushCbs s' = pendingPostFlushCbs s
    ∧ invoked s' = invoked s ++ filter (λ j, runnable j = true) (drop (postFlushIndex s) act)
    ∧ errors s' = errors s.
Proof.
  induction n as [|n IH]; intros fuel seen s act Hact Hn Hfuel Hinert Hbound.
  - exists seen, s.
    assert (Hdone : (postFlushIndex s <? length act) = false) by (apply Nat.ltb_ge; lia).
    split; [destruct fuel; simpl; by rewrite Hact, Hdone|].
    rewrite drop_ge by lia. rewrite filter_nil, app_nil_r. done.
  - destruct fuel as [|fuel]; [lia|]. simpl. rewrite Hact.
    assert (Hlt : postFlushIndex s < length act) by lia.
    destruct (Nat.ltb_spec (postFlushIndex s) (length act)); [|lia].
    destruct (lookup_lt_is_Some_2 _ _ Hlt) as [cb Hcb].
    rewrite (drop_lookup_cons _ _ _ Hcb) in Hbound |- *.
    assert (Hin : cb ∈ act) by (by eapply list_elem_of_lookup_2).
    unfold post_step. rewrite Hcb.
    assert (Hchk : (if dev then checkRecursiveUpdates seen cb s else (false, seen, s))
                   = (false, (if dev then <[cb := S (default 0 (seen !! cb))]> seen
                              else seen), s)).
    { destruct dev; [|done]. apply checkRecursiveUpdates_within.
      specialize (Hbound eq_refl cb). rewrite occurrences_of_cons in Hbound.
      rewrite decide_True in Hbound by done. lia. }
    rewrite Hchk. rewrite filter_cons.
    assert (Hnext : ∀ s1, activePostFlushCbs s1 = Some act →
              postFlushIndex s1 = S (postFlushIndex s) →
              ∃ seen' s', flush_post dev behaviour fuel
                  (if dev then <[cb := S (default 0 (seen !! cb))]> seen else seen) s1
                = Some (seen', s')
                ∧ queue s' = queue s1 ∧ pendingPostFlushCbs s' = pendingPostFlushCbs s1
                ∧ invoked s' = invoked s1
                    ++ filter (λ j, runnable j = true) (drop (S (postFlushIndex s)) act)
                ∧ errors s' = errors s1).
    { intros s1 Hact1 Hidx1.
      destruct (IH fuel (if dev then <[cb := S (default 0 (seen !! cb))]> seen else seen)
                  s1 act Hact1) as (seen' & s' & Hrun & Hrest); [lia | lia | done | |].
      - intros -> j. rewrite Hidx1. specialize (Hbound eq_refl j).
        rewrite occurrences_of_cons in Hbound.
        destruct (decide (cb = j)) as [<-|Hne].
        + rewrite lookup_insert_eq. simpl. lia.
        + rewrite lookup_insert_ne by done. lia.
      - exists seen', s'. rewrite Hidx1 in Hrest. done. }
    destruct (decide (active cb ≠ Some false)) as [Ha|Ha].
    + rewrite (decide_True (P := runnable cb = true))
        by (unfold runnable; by apply bool_decide_eq_true_2).
      rewrite bool_decide_eq_true_2 by done.
      rewrite call_inert by (by apply Hinert). simpl.
      destruct (Hnext (set_postFlushIndex (postFlushIndex s + 1) (log_invoked cb s)))
        as (seen' & s' & Hrun & Hq & Hp & Hi & He); [done | simpl; lia |].
      exists seen', s'. simpl in *.
      split; [exact Hrun|]. split; [done|]. split; [done|].
      split; [rewrite Hi, <-app_assoc; reflexivity | done].
    + rewrite (decide_False (P := runnable cb = true))
        by (unfold runnable; rewrite bool_decide_eq_false_2 by done; done).
      rewrite bool_decide_eq_false_2 by done. simpl.
      destruct (Hnext (set_postFlushIndex (postFlushIndex s + 1) s))
        as (seen' & s' & Hrun & Hq & Hp & Hi & He); [done | simpl; lia |].
      exists seen', s'. done.
Qed.

End inert.

Lemma occurrences_of_perm job l1 l2 :
  l1 ≡ₚ l2 → occurrences_of job l1 = occurrences_of job l2.
Proof. intros H. unfold occurrences_of. by rewrite H. Qed.

Lemma occurrences_of_NoDup job l : NoDup l → occurrences_of job l ≤ 1.
Proof.
  induction 1 as [|x l Hx Hnd IH]; [unfold occurrences_of; simpl; lia|].
  rewrite occurrences_of_cons. destruct (decide (x = job)) as [->|]; [|lia].
  unfold occurrences_of in *.
  destruct (filter (λ j, j = job) l) as [|y l'] eqn:Hf; [simpl; lia|].
  assert (y ∈ filter (λ j, j = job) l) as Hy by (rewrite Hf; left).
  apply list_elem_of_filter in Hy as [-> Hy]. done.
Qed.

Lemma dedupe_NoDup l : NoDup (dedupe l).
Proof. unfold dedupe. rewrite reverse_Permutation. apply NoDup_remove_dups. Qed.

Lemma dedupe_elem_of x l : x ∈ dedupe l ↔ x ∈ l.
Proof. unfold dedupe. by rewrite elem_of_reverse, elem_of_remove_dups, elem_of_reverse. Qed.

Lemma array_sort_elem_of {A} (cmp : A → A → jsnum) x l : x ∈ array_sort cmp l ↔ x ∈ l.
Proof. by rewrite (array_sort_perm cmp l). Qed.

Lemma dedupe_length l : length (dedupe l) ≤ length l.
Proof.
  unfold dedupe. rewrite length_reverse, <-(length_reverse l).
  induction (reverse l) as [|x l' IH]; simpl; [done|].
  case_decide; simpl; lia.
Qed.

Lemma flushPostFlushCbs_inert dev behaviour fuel seen s :
  activePostFlushCbs s = None →
  length (pendingPostFlushCbs s) ≤ fuel →
  (∀ cb, cb ∈ pendingPostFlushCbs s → behaviour (fn cb) = []) →
  (dev = true → ∀ j, default 0 (default ∅ seen !! j) ≤ RECURSION_LIMIT) →
  ∃ seen' s', flushPostFlushCbs dev behaviour fuel seen s = Some (seen', s')
    ∧ queue s' = queue s ∧ pendingPostFlushCbs s' = []
    ∧ invoked s'
      = invoked s ++ filter (λ j, runnable j = true)
                       (array_sort by_id (dedupe (pendingPostFlushCbs s)))
    ∧ errors s' = errors s.
Proof.
  intros Hact Hfuel Hinert Hbound. unfold flushPostFlushCbs.
  destruct (Nat.eqb_spec (length (pendingPostFlushCbs s)) 0) as [Hz|Hnz].
  - apply nil_length_inv in Hz. rewrite Hz. exists seen, s.
    split; [done|]. split; [done|]. split; [done|].
    split; [|done]. by rewrite app_nil_r.
  - cbn zeta. change (activePostFlushCbs (set_pendingPostFlushCbs [] s))
      with (activePostFlushCbs s). rewrite Hact.
    change (λ a b : SchedulerJob, js_sub (getId a) (getId b)) with by_id.
    set (act := array_sort by_id (dedupe (pendingPostFlushCbs s))).
    set (seenp := default ∅ (if dev then Some (default ∅ seen) else seen)).
    assert (Hseenp : seenp = default ∅ seen) by (subst seenp; by destruct dev).
    destruct (flush_post_inert dev behaviour (length act) fuel seenp
                (set_postFlushIndex 0
                   (set_activePostFlushCbs (Some act) (set_pendingPostFlushCbs [] s))) act)
      as (seen2 & s5 & Hrun5 & Hq5 & Hp5 & Hi5 & He5).
    { done. }
    { simpl. lia. }
    { subst act. rewrite (array_sort_perm by_id).
      pose proof (dedupe_length (pendingPostFlushCbs s)). lia. }
    { intros cb Hcb. apply Hinert. subst act.
      exact (proj1 (dedupe_elem_of _ _) (proj1 (array_sort_elem_of _ _ _) Hcb)). }
    { intros Hd j. rewrite Hseenp. specialize (Hbound Hd j).
      change (postFlushIndex _) with 0. rewrite drop_0.
      assert (occurrences_of j act ≤ 1); [|lia].
      apply occurrences_of_NoDup. subst act.
      rewrite (array_sort_perm by_id). apply dedupe_NoDup. }
    rewrite Hrun5. cbn [mbind option_bind].
    eexists _, _. split; [reflexivity|]. simpl in *. rewrite drop_0 in Hi5.
    done.
Qed.

Lemma flushJobs_inert_returns dev behaviour fuel s :
  activePostFlushCbs s = None → postFlushIndex s = 0 →
  (∀ job, job ∈ queue s ∨ job ∈ pendingPostFlushCbs s → behaviour (fn job) = []) →
  (dev = true → ∀ job, occurrences_of job (queue s) ≤ RECURSION_LIMIT) →
  length (queue s) < fuel → length (pendingPostFlushCbs s) < fuel →
  ∃ s', flushJobs dev behaviour fuel None s = Some s'
    ∧ invoked s'
      = invoked s ++ filter (λ j, runnable j = true) (array_sort comparator (queue s))
        ++ filter (λ j, runnable j = true)
             (array_sort by_id (dedupe (pendingPostFlushCbs s)))
    ∧ errors s' = errors s.
Proof.
  intros Hact Hidx Hinert Hdev Hfq Hfp.
  destruct fuel as [|fuel]; [lia|].
  destruct (flush_queue_inert dev behaviour (length (queue s)) fuel ∅
              (set_flushIndex 0
                 (set_queue (array_sort comparator (queue s))
                    (set_isFlushing true (set_isFlushPending false s)))))
    as (seen1 & s3 & Hrun & Hq3 & Hp3 & Hi3 & He3 & Hs3).
  { simpl. rewrite (array_sort_perm comparator (queue s)). lia. }
  { lia. }
  { simpl. intros job Hjob. apply Hinert. left. by apply array_sort_elem_of in Hjob. }
  { intros Hd j. rewrite lookup_empty.
    rewrite (occurrences_of_perm j _ (queue s)) by (simpl; apply array_sort_perm).
    specialize (Hdev Hd j). simpl. lia. }
  simpl in Hq3, Hp3, Hi3, He3, Hs3. rewrite drop_0 in Hi3, Hs3.
  pose proof (flush_queue_frame _ _ _ _ _ _ _ Hrun) as ((_ & Ha3 & _) & _).
  simpl in Ha3.
  assert (Hstep : ∀ seen, flushJobs dev behaviour (S fuel) seen s
    = '(seen1, s3) ← flush_queue dev behaviour fuel
                       (default ∅ (if dev then Some (default ∅ seen) else seen))
                       (set_flushIndex 0
                          (set_queue (array_sort comparator (queue s))
                             (set_isFlushing true (set_isFlushPending false s))));
      let seen2 := if dev then Some seen1 else
                     (if dev then Some (default ∅ seen) else seen) in
      '(seen3, s5) ← flushPostFlushCbs dev behaviour fuel seen2
                       (set_queue [] (set_flushIndex 0 s3));
      let s6 := set_currentFlushPromise false (set_isFlushing false s5) in
      if negb (length (queue s6) =? 0) || negb (length (pendingPostFlushCbs s6) =? 0)
      then flushJobs dev behaviour fuel seen3 s6 else Some s6) by reflexivity.
  rewrite Hstep.
  replace (default ∅ (if dev then Some (default ∅ None) else None))
    with (∅ : CountMap) by (by destruct dev).
  rewrite Hrun. cbn [mbind option_bind].
  destruct (flushPostFlushCbs_inert dev behaviour fuel
              (if dev then Some seen1 else if dev then Some (default ∅ None) else None)
              (set_queue [] (set_flushIndex 0 s3)))
    as (seen3 & s5 & Hpost & Hq5 & Hp5 & Hi5 & He5).
    { simpl. congruence. }
  { simpl. rewrite Hp3. lia. }
  { simpl. rewrite Hp3. intros cb Hcb. apply Hinert. by right. }
  { intros Hd j. rewrite Hd. simpl. specialize (Hs3 j). specialize (Hdev Hd j).
    rewrite lookup_empty in Hs3. simpl in Hs3.
    rewrite (occurrences_of_perm j _ _ (array_sort_perm comparator (queue s))) in Hs3.
    lia. }
  rewrite Hpost. cbn [mbind option_bind]. simpl in Hq5, Hp5, Hi5, He5.
  simpl. rewrite Hq5, Hp5. simpl.
  eexists. split; [reflexivity|]. simpl.
  rewrite Hi5, Hi3, Hp3, <-app_assoc. split; [done|congruence].
Qed.

Lemma occurrences_of_le_length job l : occurrences_of job l ≤ length l.
Proof. unfold occurrences_of. apply length_filter. Qed.

(** X8, a flush of jobs that queue nothing further.  When no queued job and
    no pending post-flush callback calls back into the scheduler, one
    [flushJobs] runs every queued job that is not deactivated, in the order of
    the sorted queue (ascending id, a [pre] job first among equal ids), then
    every distinct pending post-flush callback that is not deactivated, once
    each in ascending id order, reports no error and leaves the scheduler
    idle.  In a development build the queue must not hold one job more than
    [RECURSION_LIMIT] times. *)
Theorem flush_runs_inert_jobs_in_sorted_order dev behaviour fuel s :
  activePostFlushCbs s = None → postFlushIndex s = 0 →
  (∀ job, job ∈ queue s ∨ job ∈ pendingPostFlushCbs s → behaviour (fn job) = []) →
  (dev = true → ∀ job, occurrences_of job (queue s) ≤ RECURSION_LIMIT) →
  length (queue s) < fuel → length (pendingPostFlushCbs s) < fuel →
  flushJobs dev behaviour fuel None s
  = Some (idle_with
            (invoked s
             ++ filter (λ j, runnable j = true) (array_sort comparator (queue s))
             ++ filter (λ j, runnable j = true)
                  (array_sort by_id (dedupe (pendingPostFlushCbs s))))
            (errors s)).
Proof.
  intros Hact Hidx Hinert Hdev Hfq Hfp.
  destruct (flushJobs_inert_returns dev behaviour fuel s Hact Hidx Hinert Hdev Hfq Hfp)
    as (s' & Hrun & Hinv & Herr).
  rewrite Hrun. f_equal.
  destruct (flushJobs_idle _ _ _ _ _ _ Hact Hidx Hrun) as [Hidle _].
  by rewrite Hidle, Hinv, Herr.
Qed.

Lemma flush_runs_inert_jobs_in_sorted_order_witness :
  flushJobs true (λ _, []) 4 None
    (set_pendingPostFlushCbs
       [plain_job 7 (Some 9%Z) false; plain_job 8 (Some 4%Z) false;
        plain_job 7 (Some 9%Z) false]
       (flush_requested
          [plain_job 1 (Some 5%Z) false; plain_job 2 (Some 1%Z) false;
           plain_job 3 (Some 1%Z) true]))
  = Some (idle_with
            [plain_job 3 (Some 1%Z) true; plain_job 2 (Some 1%Z) false;
             plain_job 1 (Some 5%Z) false;
             plain_job 8 (Some 4%Z) false; plain_job 7 (Some 9%Z) false] []).
Proof.
  refine (flush_runs_inert_jobs_in_sorted_order true (λ _, []) 4
            (set_pendingPostFlushCbs
               [plain_job 7 (Some 9%Z) false; plain_job 8 (Some 4%Z) false;
                plain_job 7 (Some 9%Z) false]
               (flush_requested
                  [plain_job 1 (Some 5%Z) false; plain_job 2 (Some 1%Z) false;
                   plain_job 3 (Some 1%Z) true])) _ _ _ _ _ _).
  - reflexivity.
  - reflexivity.
  - intros job _. reflexivity.
  - intros _ job. etransitivity; [apply occurrences_of_le_length|]. vm_compute. lia.
  - simpl. lia.
  - simpl. lia.
Defined.

(** ** [flushPreFlushCbs] *)

Lemma set_queue_same s : set_queue (queue s) s = s.
Proof. by destruct s. Qed.

Lemma pre_selected_false instance cb :
  pre_selected instance cb = false →
  pre cb = false
  ∨ match instance with
    | Some inst => negb (bool_decide (id cb = Some (uid inst)))
    | None => false
    end = true.
Proof.
  unfold pre_selected. destruct (pre cb); [|by left]. simpl.
  destruct instance; [|done]. intros ->. by right.
Qed.

Lemma pre_selected_true instance cb :
  pre_selected instance cb = true →
  pre cb = true
  ∧ match instance with
    | Some inst => negb (bool_decide (id cb = Some (uid inst)))
    | None => false
    end = false.
Proof.
  unfold pre_selected. destruct (pre cb); [|done]. simpl.
  destruct instance; [|done]. by intros ->.
Qed.

Section pre_inert.
Context (dev : bool) (behaviour : nat → list action).
Context (instance : option ComponentInternalInstance).

Lemma flush_pre_inert : ∀ n fuel seen i s,
  length (queue s) - i = n → n ≤ fuel →
  (∀ cb, cb ∈ drop i (queue s) → pre_selected instance cb = true →
         behaviour (fn cb) = []) →
  (dev = true → ∀ j, default 0 (seen !! j) + occurrences_of j (drop i (queue s))
                     ≤ S RECURSION_LIMIT) →
  ∃ seen', flush_pre dev behaviour fuel instance seen i s
    = Some (seen',
            log_all (filter (λ cb, pre_selected instance cb = true) (drop i (queue s)))
              (set_queue
                 (take i (queue s)
                  ++ filter (λ cb, pre_selected instance cb = false) (drop i (queue s)))
                 s)).
Proof.
  induction n as [|n IH]; intros fuel seen i s Hn Hfuel Hinert Hbound.
  - exists seen.
    assert (Hdone : (i <? length (queue s)) = false) by (apply Nat.ltb_ge; lia).
    rewrite drop_ge, take_ge by lia. rewrite !filter_nil, app_nil_r, set_queue_same.
    destruct fuel; simpl; by rewrite Hdone.
  - destruct fuel as [|fuel]; [lia|]. simpl.
    assert (Hlt : i < length (queue s)) by lia.
    destruct (Nat.ltb_spec i (length (queue s))); [|lia].
    destruct (lookup_lt_is_Some_2 _ _ Hlt) as [cb Hcb].
    rewrite (drop_lookup_cons _ _ _ Hcb) in Hinert, Hbound |- *.
    unfold pre_step. rewrite Hcb.
    destruct (pre_selected instance cb) eqn:Hsel.
    + (* the callback is spliced out and run *)
      destruct (pre_selected_true _ _ Hsel) as [Hpre Hinst]. rewrite Hpre, Hinst.
      assert (Hchk : (if dev then checkRecursiveUpdates seen cb s else (false, seen, s))
                     = (false, (if dev then <[cb := S (default 0 (seen !! cb))]> seen
                                else seen), s)).
      { destruct dev; [|done]. apply checkRecursiveUpdates_within.
        specialize (Hbound eq_refl cb). rewrite occurrences_of_cons in Hbound.
        rewrite decide_True in Hbound by done. lia. }
      rewrite Hchk. cbn [mbind option_bind].
      rewrite call_inert by (apply Hinert; [left|done]). cbn [mbind option_bind].
      set (q := queue s) in *.
      assert (Hti : length (take i q) = i) by (rewrite length_take; lia).
      destruct (IH fuel (if dev then <[cb := S (default 0 (seen !! cb))]> seen else seen) i
                  (log_invoked cb (set_queue (splice_remove i q) s)))
        as [seen' Hrun].
      * simpl. unfold splice_remove. rewrite length_app, length_drop. lia.
      * lia.
      * simpl. unfold splice_remove.
        rewrite drop_app_length' by done.
        intros c Hc. apply Hinert. by right.
      * intros Hd j. simpl. unfold splice_remove. rewrite drop_app_length' by done.
        specialize (Hbound Hd j). rewrite Hd.
        rewrite occurrences_of_cons in Hbound.
        destruct (decide (cb = j)) as [->|Hne].
        -- rewrite lookup_insert_eq. simpl. lia.
        -- rewrite lookup_insert_ne by done. lia.
      * exists seen'. rewrite Hrun. f_equal. f_equal.
        simpl queue. unfold splice_remove.
        rewrite drop_app_length', take_app_length' by done.
        rewrite !filter_cons. rewrite decide_True by done.
        rewrite decide_False by (by rewrite Hsel).
        reflexivity.
    + (* the callback stays *)
      assert (Hrest : ∃ seen', flush_pre dev behaviour fuel instance seen (i + 1) s
                = Some (seen',
                    log_all
                      (filter (λ cb, pre_selected instance cb = true)
                         (cb :: drop (S i) (queue s)))
                      (set_queue
                         (take i (queue s)
                          ++ filter (λ cb, pre_selected instance cb = false)
                               (cb :: drop (S i) (queue s)))
                         s))).
      { destruct (IH fuel seen (i + 1) s) as [seen' Hrun].
        * lia.
        * lia.
        * rewrite Nat.add_1_r. intros c Hc. apply Hinert. by right.
        * rewrite Nat.add_1_r. intros Hd j. specialize (Hbound Hd j).
          rewrite occurrences_of_cons in Hbound. lia.
        * exists seen'. rewrite Hrun. f_equal. f_equal.
          rewrite Nat.add_1_r. rewrite (take_S_r _ _ _ Hcb).
          rewrite !filter_cons. rewrite decide_False by (by rewrite Hsel).
          rewrite decide_True by done.
          by rewrite <-app_assoc. }
      destruct (pre_selected_false _ _ Hsel) as [Hp | Hi].
      * rewrite Hp. exact Hrest.
      * rewrite Hi. destruct (pre cb); exact Hrest.
Qed.

End pre_inert.

Lemma log_all_fields l s :
  invoked (log_all l s) = invoked s ++ l ∧ queue (log_all l s) = queue s
  ∧ errors (log_all l s) = errors s
  ∧ pendingPostFlushCbs (log_all l s) = pendingPostFlushCbs s
  ∧ isFlushPending (log_all l s) = isFlushPending s.
Proof.
  revert s. induction l as [|x l IH]; intros s; simpl.
  - by rewrite app_nil_r.
  - destruct (IH (log_invoked x s)) as (-> & -> & -> & -> & ->). simpl.
    by rewrite <-app_assoc.
Qed.

(** X9, [flushPreFlushCbs] takes out and runs exactly the selected [pre]
    jobs.  The callbacks are taken not to call back into the scheduler, and
    in a development build the recursion check lets every call pass: for
    each job, the count of the seen-map given plus the number of times the
    job stands in the queue from the start index on is at most 101 (a job
    counted beyond the limit is skipped and stays queued).  Then, from the
    start index on (behind the running job during a flush), every job with
    [pre] set, and with the id of [instance] when one is given, is removed
    from the queue and invoked, in queue order and whether or not it has
    been deactivated; every other job stays queued in its place, and the
    part of the queue before the start index is not touched. *)
Theorem flushPreFlushCbs_runs_selected_pre_jobs dev behaviour fuel instance seen start s :
  (∀ cb, cb ∈ drop (pre_start start s) (queue s) → pre_selected instance cb = true →
         behaviour (fn cb) = []) →
  (dev = true →
   ∀ j, default 0 (default ∅ seen !! j)
        + occurrences_of j (drop (pre_start start s) (queue s)) ≤ S RECURSION_LIMIT) →
  length (queue s) - pre_start start s ≤ fuel →
  ∃ seen',
    flushPreFlushCbs dev behaviour fuel instance seen start s
    = Some (seen',
            log_all
              (filter (λ cb, pre_selected instance cb = true)
                 (drop (pre_start start s) (queue s)))
              (set_queue
                 (take (pre_start start s) (queue s)
                  ++ filter (λ cb, pre_selected instance cb = false)
                       (drop (pre_start start s) (queue s)))
                 s)).
Proof.
  intros Hinert Hbound Hfuel. unfold flushPreFlushCbs.
  fold (pre_start start s).
  by apply (flush_pre_inert dev behaviour instance
              (length (queue s) - pre_start start s)).
Qed.

Lemma flushPreFlushCbs_runs_selected_pre_jobs_witness :
  ∃ seen',
    flushPreFlushCbs true (λ _, []) 4 (Some {| uid := 1; name := None |}) None None
      (flushing_at 0
         [plain_job 1 (Some 0%Z) true; plain_job 2 (Some 1%Z) true;
          plain_job 3 (Some 1%Z) false; plain_job 4 (Some 2%Z) true;
          stopped_pre_job 5 (Some 1%Z)])
    = Some (seen',
            {| isFlushing := true; isFlushPending := false;
               queue := [plain_job 1 (Some 0%Z) true; plain_job 3 (Some 1%Z) false;
                         plain_job 4 (Some 2%Z) true];
               flushIndex := 0; pendingPostFlushCbs := []; activePostFlushCbs := None;
               postFlushIndex := 0; currentFlushPromise := true;
               invoked := [plain_job 1 (Some 0%Z) true; plain_job 2 (Some 1%Z) true;
                           stopped_pre_job 5 (Some 1%Z)];
               errors := [] |}).
Proof.
  refine (flushPreFlushCbs_runs_selected_pre_jobs true (λ _, []) 4
            (Some {| uid := 1; name := None |}) None None
            (flushing_at 0
               [plain_job 1 (Some 0%Z) true; plain_job 2 (Some 1%Z) true;
                plain_job 3 (Some 1%Z) false; plain_job 4 (Some 2%Z) true;
                stopped_pre_job 5 (Some 1%Z)]) _ _ _).
  - intros cb _ _. reflexivity.
  - intros _ j. cbn [default]. rewrite lookup_empty. cbn [default].
    rewrite Nat.add_0_l. etransitivity; [apply occurrences_of_le_length|].
    vm_compute. lia.
  - simpl. lia.
Defined.

(** ** A flush over finitely many jobs ends *)

Lemma sum_list_same {A} (f g : A → nat) l :
  (∀ x, x ∈ l → g x = f x) → sum_list (g <$> l) = sum_list (f <$> l).
Proof.
  induction l as [|x l IH]; intros H; [done|]. rewrite !fmap_cons. cbn [sum_list].
  rewrite (H x) by apply list_elem_of_here. rewrite IH; [done|].
  intros y Hy. apply H. by apply list_elem_of_further.
Qed.

Lemma sum_list_bump {A} (f g : A → nat) l j :
  NoDup l → j ∈ l → g j = S (f j) → (∀ x, x ≠ j → g x = f x) →
  sum_list (g <$> l) = S (sum_list (f <$> l)).
Proof.
  induction l as [|x l IH]; intros Hnd Hin Hj Hrest.
  - by apply elem_of_nil in Hin.
  - apply NoDup_cons in Hnd as [Hx Hnd]. rewrite !fmap_cons. cbn [sum_list].
    apply elem_of_cons in Hin as [->|Hin].
    + rewrite Hj. rewrite (sum_list_same f g l); [simpl; lia|].
      intros y Hy. apply Hrest. intros ->. done.
    + rewrite IH by done. rewrite (Hrest x); [simpl; lia|]. intros ->. done.
Qed.

Lemma sum_list_bounded {A} (f : A → nat) l c :
  (∀ x, f x ≤ c) → sum_list (f <$> l) ≤ c * length l.
Proof.
  intros H. induction l as [|x l IH]; [simpl; lia|].
  rewrite fmap_cons. cbn [sum_list length]. specialize (H x).
  rewrite Nat.mul_succ_r. simpl in *. lia.
Qed.

Lemma spent_within_cap seen J :
  (∀ j, default 0 (seen !! j) ≤ S RECURSION_LIMIT) → spent seen J ≤ cap J.
Proof. intros H. unfold spent, cap. by apply sum_list_bounded. Qed.

(** The check either lets the turn pass and spends one unit, or stops it
    and leaves the map alone. *)
Lemma check_spends seen job s J :
  job ∈ J →
  (∀ j, default 0 (seen !! j) ≤ S RECURSION_LIMIT) →
  ∃ over seen1 s1,
    checkRecursiveUpdates seen job s = (over, seen1, s1)
    ∧ queue s1 = queue s ∧ pendingPostFlushCbs s1 = pendingPostFlushCbs s
    ∧ flushIndex s1 = flushIndex s ∧ postFlushIndex s1 = postFlushIndex s
    ∧ activePostFlushCbs s1 = activePostFlushCbs s
    ∧ invoked s1 = invoked s
    ∧ (∀ j, default 0 (seen1 !! j) ≤ S RECURSION_LIMIT)
    ∧ (if over then seen1 = seen else spent seen1 J = S (spent seen J)).
Proof.
  intros Hin Hc. unfold checkRecursiveUpdates.
  assert (Hj : job ∈ remove_dups J) by (by apply elem_of_remove_dups).
  destruct (seen !! job) as [c|] eqn:Hseen.
  - destruct (Nat.ltb_spec RECURSION_LIMIT c) as [Hover|Hle].
    + eexists true, seen, _. repeat split; done.
    + eexists false, _, s. repeat split; try done.
      * intros j. destruct (decide (job = j)) as [<-|Hne].
        -- rewrite lookup_insert_eq. simpl. unfold RECURSION_LIMIT in *. lia.
        -- rewrite lookup_insert_ne by done. apply Hc.
      * unfold spent.
        apply (sum_list_bump _ _ _ job); [apply NoDup_remove_dups | done | |].
        -- rewrite lookup_insert_eq, Hseen. simpl. lia.
        -- intros x Hx. by rewrite lookup_insert_ne.
  - eexists false, _, s. repeat split; try done.
    + intros j. destruct (decide (job = j)) as [<-|Hne].
      * rewrite lookup_insert_eq. simpl. unfold RECURSION_LIMIT. lia.
      * rewrite lookup_insert_ne by done. apply Hc.
    + unfold spent.
      apply (sum_list_bump _ _ _ job); [apply NoDup_remove_dups | done | |].
      * rewrite lookup_insert_eq, Hseen. done.
      * intros x Hx. by rewrite lookup_insert_ne.
Qed.

Lemma queueFlush_lists s :
  queue (queueFlush s) = queue s
  ∧ pendingPostFlushCbs (queueFlush s) = pendingPostFlushCbs s
  ∧ invoked (queueFlush s) = invoked s.
Proof. unfold queueFlush. by destruct (negb (isFlushing s) && negb (isFlushPending s)). Qed.

Lemma splice_remove_subseteq k (q : list SchedulerJob) x :
  x ∈ splice_remove k q → x ∈ q.
Proof.
  unfold splice_remove. intros H. apply elem_of_app in H as [H|H].
  - by apply (subseteq_take _ _ _ H).
  - by apply (subseteq_drop _ _ _ H).
Qed.

Lemma splice_remove_length k (q : list SchedulerJob) :
  length (splice_remove k q) ≤ length q.
Proof.
  unfold splice_remove. rewrite length_app, length_take, length_drop. lia.
Qed.

Lemma splice_insert_elem_of k job (q : list SchedulerJob) x :
  x ∈ splice_insert k job q → x = job ∨ x ∈ q.
Proof.
  unfold splice_insert. intros H. apply elem_of_app in H as [H|H].
  - right. by apply (subseteq_take _ _ _ H).
  - apply elem_of_cons in H as [->|H]; [by left|]. right. by apply (subseteq_drop _ _ _ H).
Qed.

Lemma splice_insert_length k job (q : list SchedulerJob) :
  length (splice_insert k job q) = S (length q).
Proof.
  unfold splice_insert. rewrite length_app. simpl.
  rewrite length_take, length_drop. lia.
Qed.

Section finitely_many_jobs.
Variable behaviour : nat → list action.
Variable J : list SchedulerJob.
Hypothesis Hclosed : closed_under behaviour J.

Lemma width_bounds j : j ∈ J → length (behaviour (fn j)) ≤ width behaviour J.
Proof.
  unfold width. clear Hclosed. induction J as [|x l IH]; intros Hin.
  - by apply elem_of_nil in Hin.
  - simpl. apply elem_of_cons in Hin as [->|Hin]; [lia|]. specialize (IH Hin). lia.
Qed.

(** One call into the scheduler returns while the queue is below the size
    limit, adds at most one entry, and adds a job of [J] only. *)
Lemma run_action_total a s :
  (Z.of_nat (length (queue s)) < 2 ^ 31)%Z →
  match a with
  | QueueJob j' => j' ∈ J
  | InvalidateJob _ => True
  | QueuePostFlushCb cb => cb ∈ J
  end →
  (∀ j, j ∈ queue s → j ∈ J) →
  (∀ j, j ∈ pendingPostFlushCbs s → j ∈ J) →
  ∃ s', run_action a s = Some s'
        ∧ (∀ j, j ∈ queue s' → j ∈ J)
        ∧ (∀ j, j ∈ pendingPostFlushCbs s' → j ∈ J)
        ∧ length (queue s') ≤ S (length (queue s))
        ∧ length (pendingPostFlushCbs s') ≤ S (length (pendingPostFlushCbs s))
        ∧ invoked s' = invoked s.
Proof.
  intros Hsize Ha Hq Hp. destruct a as [job|job|cb]; simpl.
  - unfold queueJob.
    destruct ((length (queue s) =? 0) || _) eqn:Htest.
    + destruct (id job) as [n|] eqn:Hid.
      * destruct (findInsertionIndex_total s n Hsize) as (k & Hk & _).
        rewrite Hk. simpl. eexists. split; [done|].
        destruct (queueFlush_lists (set_queue (splice_insert k job (queue s)) s))
          as (-> & -> & ->). simpl.
        repeat split; try done; try lia.
        -- intros j Hj. apply splice_insert_elem_of in Hj as [->|Hj]; [done | by apply Hq].
        -- rewrite splice_insert_length. lia.
      * simpl. eexists. split; [done|].
        destruct (queueFlush_lists (set_queue (queue s ++ [job]) s)) as (-> & -> & ->).
        simpl. repeat split; try done; try lia.
        -- intros j Hj. apply elem_of_app in Hj as [Hj|Hj]; [by apply Hq|].
           apply list_elem_of_singleton in Hj as ->. done.
        -- rewrite length_app. simpl. lia.
    + exists s. repeat split; try done; lia.
  - eexists. split; [done|]. unfold invalidateJob.
    destruct (Z.of_nat (flushIndex s) <? indexOf job (queue s))%Z; simpl.
    + repeat split; try done; try lia.
      * intros j Hj. apply Hq. by eapply splice_remove_subseteq.
      * pose proof (splice_remove_length (Z.to_nat (indexOf job (queue s))) (queue s)). lia.
    + repeat split; try done; lia.
  - eexists. split; [done|]. unfold queuePostFlushCb.
    match goal with |- context [queueFlush ?x] =>
      destruct (queueFlush_lists x) as (-> & -> & ->) end.
    destruct (activePostFlushCbs s) as [act|].
    + destruct (includes cb act _); simpl.
      * repeat split; try done; lia.
      * repeat split; try done; try lia.
        -- intros j Hj. apply elem_of_app in Hj as [Hj|Hj]; [by apply Hp|].
           apply list_elem_of_singleton in Hj as ->. done.
        -- rewrite length_app. simpl. lia.
    + simpl. repeat split; try done; try lia.
      * intros j Hj. apply elem_of_app in Hj as [Hj|Hj]; [by apply Hp|].
        apply list_elem_of_singleton in Hj as ->. done.
      * rewrite length_app. simpl. lia.
Qed.

Lemma run_actions_total l : ∀ s,
  (Z.of_nat (length (queue s) + length l) < 2 ^ 31)%Z →
  (∀ a, a ∈ l → match a with
                | QueueJob j' => j' ∈ J
                | InvalidateJob _ => True
                | QueuePostFlushCb cb => cb ∈ J
                end) →
  (∀ j, j ∈ queue s → j ∈ J) →
  (∀ j, j ∈ pendingPostFlushCbs s → j ∈ J) →
  ∃ s', run_actions l s = Some s'
        ∧ (∀ j, j ∈ queue s' → j ∈ J)
        ∧ (∀ j, j ∈ pendingPostFlushCbs s' → j ∈ J)
        ∧ length (queue s') ≤ length (queue s) + length l
        ∧ length (pendingPostFlushCbs s') ≤ length (pendingPostFlushCbs s) + length l
        ∧ invoked s' = invoked s.
Proof.
  induction l as [|a l IH]; intros s Hsize Hl Hq Hp; simpl.
  - exists s. repeat split; try done; lia.
  - simpl in Hsize.
    destruct (run_action_total a s) as (s1 & -> & Hq1 & Hp1 & Hlq & Hlp & Hi1);
      [lia | apply Hl, list_elem_of_here | done..|].
    simpl.
    destruct (IH s1) as (s2 & -> & Hq2 & Hp2 & Hlq2 & Hlp2 & Hi2);
      [lia | intros a' Ha'; by apply Hl, list_elem_of_further | done..|].
    exists s2. repeat split; try done; try lia. congruence.
Qed.

(** Calling a job of [J]. *)
Lemma call_total job s :
  job ∈ J →
  (Z.of_nat (length (queue s) + width behaviour J) < 2 ^ 31)%Z →
  (∀ j, j ∈ queue s → j ∈ J) →
  (∀ j, j ∈ pendingPostFlushCbs s → j ∈ J) →
  ∃ s', call behaviour job s = Some s'
        ∧ (∀ j, j ∈ queue s' → j ∈ J)
        ∧ (∀ j, j ∈ pendingPostFlushCbs s' → j ∈ J)
        ∧ length (queue s') ≤ length (queue s) + width behaviour J
        ∧ length (pendingPostFlushCbs s') ≤ length (pendingPostFlushCbs s) + width behaviour J.
Proof.
  intros Hin Hsize Hq Hp. unfold call.
  pose proof (width_bounds job Hin) as Hw.
  destruct (run_actions_total (behaviour (fn job)) (log_invoked job s))
    as (s' & Hs' & Hq' & Hp' & Hlq & Hlp & _); simpl; [lia | | done..|].
  - intros a Ha. by apply (Hclosed job a).
  - exists s'. simpl in *. repeat split; try done; lia.
Qed.

(** A turn that passed the check has lowered the room by the width. *)
Lemma room_spent seen seen1 :
  (∀ j, default 0 (seen1 !! j) ≤ S RECURSION_LIMIT) →
  spent seen1 J = S (spent seen J) →
  room behaviour J seen1 + width behaviour J = room behaviour J seen.
Proof.
  intros Hc He. pose proof (spent_within_cap seen1 J Hc) as Hle.
  unfold room. rewrite He in *.
  replace (cap J - spent seen J) with (S (cap J - S (spent seen J))) by lia. lia.
Qed.

Lemma budget_kept_same seen s s' :
  queue s' = queue s → pendingPostFlushCbs s' = pendingPostFlushCbs s →
  within_budget behaviour J seen s → budget_kept behaviour J seen s seen s'.
Proof.
  intros Hq Hp [H1 H2 H3 H4]. unfold budget_kept. rewrite Hq, Hp.
  split; [|lia]. split; rewrite ?Hq, ?Hp; done.
Qed.

Lemma budget_kept_trans seen s seen1 s1 seen2 s2 :
  budget_kept behaviour J seen s seen1 s1 → budget_kept behaviour J seen1 s1 seen2 s2 →
  budget_kept behaviour J seen s seen2 s2.
Proof. intros (_ & ? & ? & ?) (? & ? & ? & ?). unfold budget_kept. split; [done|]. lia. Qed.

(** A job of [J] that has passed the check is called, and the call returns
    within the budget. *)
Lemma checked_call_total job seen s seen1 s1 :
  job ∈ J →
  within_budget behaviour J seen s →
  queue s1 = queue s → pendingPostFlushCbs s1 = pendingPostFlushCbs s →
  (∀ j, default 0 (seen1 !! j) ≤ S RECURSION_LIMIT) →
  spent seen1 J = S (spent seen J) →
  ∃ s2, call behaviour job s1 = Some s2
        ∧ ∀ s3, queue s3 = queue s2 → pendingPostFlushCbs s3 = pendingPostFlushCbs s2 →
                budget_kept behaviour J seen s seen1 s3.
Proof.
  intros Hin [Hq Hp Hc Hsize] Hq1 Hp1 Hc1 Hs1.
  pose proof (room_spent seen seen1 Hc1 Hs1) as Hroom.
  destruct (call_total job s1) as (s2 & Hcall & Hq2 & Hp2 & Hlq & Hlp);
    [done | rewrite Hq1; lia | rewrite Hq1; done | rewrite Hp1; done |].
  exists s2. split; [done|]. intros s3 Hq3 Hp3. unfold budget_kept.
  rewrite Hq3, Hp3, Hq1 in *. rewrite Hp1 in Hlp.
  split; [|lia]. split; rewrite ?Hq3, ?Hp3; try done. lia.
Qed.

(** A turn of the main walk returns within the budget. *)
Lemma flush_step_total seen s :
  within_budget behaviour J seen s →
  ∃ seen' s', flush_step true behaviour seen s = Some (seen', s')
    ∧ budget_kept behaviour J seen s seen' s'
    ∧ flushIndex s' = S (flushIndex s).
Proof.
  intros Hb. unfold flush_step.
  destruct (queue s !! flushIndex s) as [job|] eqn:Hjob.
  - assert (Hin : job ∈ J).
    { apply (budget_queue _ _ _ _ Hb). by eapply list_elem_of_lookup_2. }
    case_bool_decide.
    + destruct (check_spends seen job s J Hin (budget_counts _ _ _ _ Hb))
        as (over & seen1 & s1 & -> & Hq1 & Hp1 & Hf1 & _ & _ & _ & Hc1 & Hover).
      destruct over.
      * subst seen1. eexists _, _. split; [done|]. split; [|simpl; lia].
        by apply budget_kept_same.
      * destruct (checked_call_total job seen s seen1 s1) as (s2 & Hcall & Hkept); [done..|].
        rewrite Hcall. simpl. eexists _, _. split; [done|].
        split; [by apply Hkept|]. simpl.
        apply call_frame in Hcall as (_ & Hfi & _). lia.
    + eexists _, _. split; [done|]. split; [|simpl; lia]. by apply budget_kept_same.
  - eexists _, _. split; [done|]. split; [|simpl; lia]. by apply budget_kept_same.
Qed.

(** The main walk returns within the budget. *)
Lemma flush_queue_total fuel : ∀ seen s,
  within_budget behaviour J seen s →
  length (queue s) - flushIndex s + room behaviour J seen ≤ fuel →
  ∃ seen' s', flush_queue true behaviour fuel seen s = Some (seen', s')
    ∧ budget_kept behaviour J seen s seen' s'.
Proof.
  induction fuel as [|fuel IH]; intros seen s Hb Hfuel; simpl.
  - destruct (Nat.ltb_spec (flushIndex s) (length (queue s))); [lia|].
    eexists _, _. split; [done|]. by apply budget_kept_same.
  - destruct (Nat.ltb_spec (flushIndex s) (length (queue s))) as [Hlt|Hge].
    + destruct (flush_step_total seen s Hb) as (seen1 & s1 & -> & Hkept & Hfi). simpl.
      pose proof Hkept as (Hb1 & Hr1 & Hq1 & _).
      destruct (IH seen1 s1 Hb1) as (seen2 & s2 & -> & Hkept2); [lia|].
      eexists _, _. split; [done|]. by eapply budget_kept_trans.
    + eexists _, _. split; [done|]. by apply budget_kept_same.
Qed.

(** A turn of the walk over the callbacks. *)
Lemma post_step_total act seen s :
  within_budget behaviour J seen s →
  (∀ j, j ∈ act → j ∈ J) →
  postFlushIndex s < length act →
  ∃ seen' s', post_step true behaviour act seen s = Some (seen', s')
    ∧ budget_kept behaviour J seen s seen' s'
    ∧ postFlushIndex s' = S (postFlushIndex s).
Proof.
  intros Hb Hact Hlt. unfold post_step.
  destruct (lookup_lt_is_Some_2 act (postFlushIndex s) Hlt) as [cb Hcb]. rewrite Hcb.
  assert (Hin : cb ∈ J) by (apply Hact; by eapply list_elem_of_lookup_2).
  destruct (check_spends seen cb s J Hin (budget_counts _ _ _ _ Hb))
    as (over & seen1 & s1 & -> & Hq1 & Hp1 & _ & Hi1 & _ & _ & Hc1 & Hover).
  destruct over.
  - subst seen1. eexists _, _. split; [done|]. split; [|simpl; lia].
    by apply budget_kept_same.
  - destruct (checked_call_total cb seen s seen1 s1) as (s2 & Hcall & Hkept); [done..|].
    case_bool_decide.
    + rewrite Hcall. simpl. eexists _, _. split; [done|].
      split; [by apply Hkept|]. simpl.
      apply call_frame in Hcall as (_ & _ & _ & Hpi & _). lia.
    + eexists _, _. split; [done|]. split; [|simpl; lia].
      destruct Hb as [Hq Hp Hc Hsize].
      pose proof (room_spent seen seen1 Hc1 Hover) as Hroom.
      unfold budget_kept. simpl. rewrite Hq1, Hp1.
      split; [|lia]. split; simpl; rewrite ?Hq1, ?Hp1; try done. lia.
Qed.

Lemma flush_post_total act fuel : ∀ seen s,
  within_budget behaviour J seen s →
  activePostFlushCbs s = Some act →
  (∀ j, j ∈ act → j ∈ J) →
  length act - postFlushIndex s ≤ fuel →
  ∃ seen' s', flush_post true behaviour fuel seen s = Some (seen', s')
    ∧ budget_kept behaviour J seen s seen' s'.
Proof.
  induction fuel as [|fuel IH]; intros seen s Hb Hact Hin Hfuel; simpl; rewrite Hact.
  - destruct (Nat.ltb_spec (postFlushIndex s) (length act)); [lia|].
    eexists _, _. split; [done|]. by apply budget_kept_same.
  - destruct (Nat.ltb_spec (postFlushIndex s) (length act)) as [Hlt|Hge].
    + destruct (post_step_total act seen s Hb Hin Hlt) as (seen1 & s1 & Hstep & Hkept & Hpi).
      rewrite Hstep. simpl.
      pose proof Hkept as (Hb1 & _).
      apply post_step_frame in Hstep as ((_ & Ha1 & _) & _).
      destruct (IH seen1 s1 Hb1) as (seen2 & s2 & -> & Hkept2); [congruence | done | lia |].
      eexists _, _. split; [done|]. by eapply budget_kept_trans.
    + eexists _, _. split; [done|]. by apply budget_kept_same.
Qed.

(** [flushPostFlushCbs] returns within the budget, with no callback active. *)
Lemma flushPostFlushCbs_total fuel seen s :
  within_budget behaviour J seen s →
  activePostFlushCbs s = None →
  length (pendingPostFlushCbs s) ≤ fuel →
  ∃ seen' s', flushPostFlushCbs true behaviour fuel (Some seen) s = Some (Some seen', s')
    ∧ within_budget behaviour J seen' s'
    ∧ room behaviour J seen' ≤ room behaviour J seen
    ∧ length (queue s') + room behaviour J seen' ≤ length (queue s) + room behaviour J seen
    ∧ length (pendingPostFlushCbs s') + room behaviour J seen' ≤ room behaviour J seen
    ∧ activePostFlushCbs s' = None.
Proof.
  intros Hb Hact Hfuel. unfold flushPostFlushCbs.
  destruct (Nat.eqb_spec (length (pendingPostFlushCbs s)) 0) as [Hz|Hnz].
  - exists seen, s. rewrite Hz. split; [done|]. split; [exact Hb|].
    repeat split; try done; lia.
  - simpl. rewrite Hact.
    set (deduped := array_sort _ _).
    set (s1 := set_postFlushIndex 0 _).
    assert (Hb1 : within_budget behaviour J seen s1).
    { destruct Hb as [Hq Hp Hc Hsize]. subst s1.
      split; simpl; [done | | done | done].
      intros j Hj. by apply elem_of_nil in Hj. }
    assert (Hin : ∀ j, j ∈ deduped → j ∈ J).
    { intros j Hj. apply (proj1 (array_sort_elem_of _ _ _)) in Hj.
      apply (proj1 (dedupe_elem_of _ _)) in Hj.
      by apply (budget_pending _ _ _ _ Hb). }
    assert (Hlen : length deduped ≤ length (pendingPostFlushCbs s)).
    { unfold deduped. rewrite (Permutation_length (array_sort_perm _ _)).
      apply dedupe_length. }
    destruct (flush_post_total deduped fuel seen s1 Hb1) as (seen2 & s2 & -> & Hkept);
      [done | done | simpl; lia |].
    simpl. exists seen2, (set_postFlushIndex 0 (set_activePostFlushCbs None s2)).
    destruct Hkept as ([Hq2 Hp2 Hc2 Hsize2] & Hr & Hlq & Hlp). simpl in *.
    repeat split; try done; lia.
Qed.

(** The whole flush returns. *)
Lemma flushJobs_total fuel : ∀ seen s,
  within_budget behaviour J (default ∅ seen) s →
  activePostFlushCbs s = None →
  1 + length (queue s) + length (pendingPostFlushCbs s)
    + 3 * room behaviour J (default ∅ seen) ≤ fuel →
  ∃ s', flushJobs true behaviour fuel seen s = Some s'.
Proof.
  induction fuel as [|fuel IH]; intros seen s Hb Hact Hfuel; [lia|].
  simpl.
  set (s1 := set_flushIndex 0 _).
  assert (Hlen1 : length (queue s1) = length (queue s)).
  { simpl. apply Permutation_length, array_sort_perm. }
  assert (Hb1 : within_budget behaviour J (default ∅ seen) s1).
  { destruct Hb as [Hq Hp Hc Hsize]. split; try done.
    - intros j Hj. simpl in Hj. apply array_sort_elem_of in Hj. by apply Hq.
    - rewrite Hlen1. done. }
  destruct (flush_queue_total fuel (default ∅ seen) s1 Hb1) as (seen2 & s2 & Hwalk & Hkept);
    [simpl in *; lia|].
  rewrite Hwalk. simpl.
  apply flush_queue_frame in Hwalk as ((_ & Ha2 & _) & _).
  destruct Hkept as ([Hq2 Hp2 Hc2 Hsize2] & Hr2 & Hlq2 & Hlp2).
  set (s3 := set_queue [] (set_flushIndex 0 s2)).
  assert (Hb3 : within_budget behaviour J seen2 s3).
  { split; simpl; try done; [|lia]. intros j Hj. by apply elem_of_nil in Hj. }
  destruct (flushPostFlushCbs_total fuel seen2 s3 Hb3)
    as (seen4 & s4 & -> & Hb4 & Hr4 & Hlq4 & Hlp4 & Ha4);
    [simpl in *; congruence | simpl in *; lia |].
  simpl. case_match eqn:Hmore; [|by eexists].
  apply IH.
  - destruct Hb4 as [Hq4 Hp4 Hc4 Hsize4]. split; done.
  - done.
  - simpl in *.
    assert (length (queue s4) + length (pendingPostFlushCbs s4) ≠ 0).
    { apply orb_true_iff in Hmore as [H|H]; apply negb_true_iff, Nat.eqb_neq in H; lia. }
    lia.
Qed.

End finitely_many_jobs.

Lemma spent_empty J : spent ∅ J = 0.
Proof.
  unfold spent. induction (remove_dups J) as [|x l IH]; [done|].
  rewrite fmap_cons. cbn [sum_list]. rewrite IH, lookup_empty. done.
Qed.

(** X27, in a development build a flush over finitely many jobs ends.  Let
    [J] be a list of jobs such that the function of each job of [J] calls
    [queueJob] and [queuePostFlushCb] with jobs of [J] only (and
    [invalidateJob] with any job), and does nothing else.  When [flushJobs]
    starts with jobs of [J] in the queue and among the pending callbacks, no
    callback walk active, and a queue short enough that it stays below 2^31
    entries, it returns: the recursion check ends every cycle.  It leaves
    the scheduler at rest, and has invoked no job more than 101 times. *)
Theorem dev_flush_over_finitely_many_jobs_ends (behaviour : nat → list action)
    (J : list SchedulerJob) (s : State) (fuel : nat) :
  closed_under behaviour J →
  (∀ j, j ∈ queue s → j ∈ J) →
  (∀ j, j ∈ pendingPostFlushCbs s → j ∈ J) →
  activePostFlushCbs s = None → postFlushIndex s = 0 →
  (Z.of_nat (length (queue s) + width behaviour J * cap J) < 2 ^ 31)%Z →
  flush_fuel behaviour J s ≤ fuel →
  ∃ s', flushJobs true behaviour fuel None s = Some s'
        ∧ s' = idle_with (invoked s') (errors s')
        ∧ ∀ job, invocations job s' ≤ invocations job s + S RECURSION_LIMIT.
Proof.
  intros Hclosed Hq Hp Hact Hidx Hsize Hfuel.
  assert (Hroom : room behaviour J ∅ = width behaviour J * cap J).
  { unfold room. rewrite spent_empty. f_equal. lia. }
  destruct (flushJobs_total behaviour J Hclosed fuel None s) as [s' Hs'].
  - split; simpl; try done.
    + intros j. rewrite lookup_empty. simpl. lia.
    + rewrite Hroom. done.
  - done.
  - simpl. rewrite Hroom. unfold flush_fuel in Hfuel. lia.
  - exists s'. split; [done|]. split.
    + by destruct (flushJobs_idle _ _ _ _ _ _ Hact Hidx Hs').
    + intros job. by apply (flushJobs_bound behaviour fuel s s' job).
Qed.

Lemma dev_flush_over_finitely_many_jobs_ends_witness :
  ∃ s', flushJobs true ping_pong 2000 None (flush_requested [ping]) = Some s'
        ∧ s' = idle_with (invoked s') (errors s')
        ∧ ∀ job, invocations job s'
                 ≤ invocations job (flush_requested [ping]) + S RECURSION_LIMIT.
Proof.
  apply (dev_flush_over_finitely_many_jobs_ends ping_pong [ping; pong; report]).
  - intros j a Hj Ha.
    repeat (apply elem_of_cons in Hj as [->|Hj]); [| | |by apply elem_of_nil in Hj];
      simpl in Ha;
      repeat (apply elem_of_cons in Ha as [->|Ha]); try (by apply elem_of_nil in Ha);
      set_solver.
  - intros j Hj. simpl in Hj. set_solver.
  - intros j Hj. simpl in Hj. by apply elem_of_nil in Hj.
  - reflexivity.
  - reflexivity.
  - vm_compute. reflexivity.
  - apply Nat.leb_le. vm_compute. reflexivity.
Defined.

(** ** No limit in a production build *)

Lemma invocations_replicate job m s :
  invoked s = replicate m job → invocations job s = m.
Proof.
  intros H. unfold invocations. rewrite H. clear H. induction m as [|m IH]; [done|].
  simpl. rewrite filter_cons_True by done. simpl. by rewrite IH.
Qed.

Lemma flush_queue_prod_unfinished job behaviour fuel : ∀ seen k,
  allowRecurse job = true → active job ≠ Some false →
  behaviour (fn job) = [QueueJob job] →
  flush_queue false behaviour fuel seen (self_queued job k) = None.
Proof.
  induction fuel as [|fuel IH]; intros seen k Hrec Hact Hbody.
  - cbn [flush_queue]. by rewrite self_queued_pending.
  - cbn [flush_queue]. rewrite self_queued_pending.
    rewrite (flush_step_prod job behaviour Hrec Hact Hbody). cbn [mbind option_bind].
    by apply IH.
Qed.

(** X28, a production build has no recursion limit.  Let a job have
    [allowRecurse], not be deactivated, and its function do nothing but
    [queueJob] of the job itself.  With the job alone in the queue, for
    every m below 2^31 the loop of [flushJobs] makes m turns in which it
    invokes the job m times and reports no error, and the job waits at
    [flushIndex] again; and [flushJobs] has not returned after m steps.
    The bound on m keeps the queue within the size of an array. *)
Theorem production_build_has_no_recursion_limit (job : SchedulerJob)
    (behaviour : nat → list action) (m : nat) :
  allowRecurse job = true → active job ≠ Some false →
  behaviour (fn job) = [QueueJob job] →
  (Z.of_nat m < 2 ^ 31)%Z →
  (∃ s, flush_turns false behaviour m ∅ (flush_begun [job]) = Some (∅, s)
        ∧ invocations job s = m ∧ errors s = []
        ∧ queue s !! flushIndex s = Some job)
  ∧ flushJobs false behaviour m None (flush_requested [job]) = None.
Proof.
  intros Hrec Hact Hbody _. split.
  - exists (self_queued job m). split.
    + change (flush_begun [job]) with (self_queued job 0).
      by rewrite (flush_turns_prod job behaviour Hrec Hact Hbody).
    + split; [by apply invocations_replicate|]. split; [done|].
      cbn [self_queued queue flushIndex]. apply lookup_replicate_2. lia.
  - destruct m as [|fuel]; [done|]. cbn [flushJobs].
    replace (set_flushIndex 0 _) with (self_queued job 0) by reflexivity.
    by rewrite flush_queue_prod_unfinished.
Qed.

Lemma production_build_has_no_recursion_limit_witness :
  (∃ s, flush_turns false (self_queueing (recursive_job 7 (Some 1%Z))) 500 ∅
          (flush_begun [recursive_job 7 (Some 1%Z)]) = Some (∅, s)
        ∧ invocations (recursive_job 7 (Some 1%Z)) s = 500 ∧ errors s = []
        ∧ queue s !! flushIndex s = Some (recursive_job 7 (Some 1%Z)))
  ∧ flushJobs false (self_queueing (recursive_job 7 (Some 1%Z))) 500 None
      (flush_requested [recursive_job 7 (Some 1%Z)]) = None.
Proof.
  apply (production_build_has_no_recursion_limit (recursive_job 7 (Some 1%Z))
           (self_queueing (recursive_job 7 (Some 1%Z))) 500).
  - reflexivity.
  - discriminate.
  - reflexivity.
  - vm_compute. reflexivity.
Defined.

End SchedulerProofs.

(** ** The dependency graph *)

Module ReactivityProofs.
Import Reactivity.

(** ** The Map operations on entries *)

Lemma map_get_set e e' v m :
  map_get e' (map_set e v m) = if decide (e = e') then Some v else map_get e' m.
Proof.
  induction m as [|[a b] m IH]; simpl.
  - destruct (decide (e = e')); done.
  - destruct (decide (a = e)) as [->|Hae]; simpl.
    + destruct (decide (e = e')); done.
    + destruct (decide (a = e')) as [->|Hae'].
      * destruct (decide (e = e')); [congruence | done].
      * done.
Qed.

Lemma map_get_None e m : map_get e m = None ↔ e ∉ m.*1.
Proof.
  induction m as [|[a b] m IH]; simpl.
  - split; [intros _; apply not_elem_of_nil | done].
  - destruct (decide (a = e)) as [->|Hae].
    + split; [done | intros H; exfalso; apply H; left].
    + rewrite IH, not_elem_of_cons. naive_solver.
Qed.

Lemma map_get_Some_elem e v m : map_get e m = Some v → (e, v) ∈ m.
Proof.
  induction m as [|[a b] m IH]; simpl; [done|].
  destruct (decide (a = e)) as [->|Hae].
  - intros [= ->]. left.
  - intros H. right. by apply IH.
Qed.

Lemma map_get_is_Some e m : is_Some (map_get e m) ↔ e ∈ m.*1.
Proof.
  rewrite <-not_eq_None_Some, map_get_None.
  destruct (decide (e ∈ m.*1)); naive_solver.
Qed.

Lemma map_set_keys e v m :
  (map_set e v m).*1 = if decide (e ∈ m.*1) then m.*1 else m.*1 ++ [e].
Proof.
  induction m as [|[a b] m IH].
  - done.
  - cbn [map_set]. destruct (decide (a = e)) as [->|Hae]; csimpl.
    + rewrite decide_True by left. done.
    + rewrite IH. destruct (decide (e ∈ m.*1)) as [Hin|Hin].
      * rewrite decide_True by (by right). done.
      * rewrite decide_False; [done|]. rewrite not_elem_of_cons. done.
Qed.

Lemma map_set_NoDup e v m : NoDup m.*1 → NoDup (map_set e v m).*1.
Proof.
  intros H. rewrite map_set_keys. destruct (decide (e ∈ m.*1)); [done|].
  apply NoDup_app. split; [done|]. split; [|apply NoDup_singleton].
  intros x Hx Hx'. apply list_elem_of_singleton in Hx' as ->. done.
Qed.

Lemma map_set_nonempty e v m : map_set e v m ≠ [].
Proof. destruct m as [|[a b] m]; simpl; [done|]. destruct (decide (a = e)); done. Qed.

Lemma map_delete_keys_subseteq e m : (map_delete e m).*1 ⊆ m.*1.
Proof.
  induction m as [|[a b] m IH]; simpl; [done|].
  destruct (decide (a = e)); simpl.
  - by apply list_subseteq_cons.
  - intros x Hx. apply elem_of_cons in Hx as [->|Hx]; [left | right; by apply IH].
Qed.

Lemma map_delete_NoDup e m : NoDup m.*1 → NoDup (map_delete e m).*1.
Proof.
  induction m as [|[a b] m IH]; simpl; [done|].
  intros H. apply NoDup_cons in H as [Ha Hm].
  destruct (decide (a = e)); simpl; [done|].
  apply NoDup_cons. split; [|by apply IH].
  intros Hin. apply Ha. by apply map_delete_keys_subseteq in Hin.
Qed.

Lemma map_get_delete e e' m :
  NoDup m.*1 →
  map_get e' (map_delete e m) = if decide (e = e') then None else map_get e' m.
Proof.
  induction m as [|[a b] m IH]; simpl; intros Hnd.
  - destruct (decide (e = e')); done.
  - apply NoDup_cons in Hnd as [Ha Hm].
    destruct (decide (a = e)) as [->|Hae]; simpl.
    + destruct (decide (e = e')) as [<-|Hee']; [|done].
      by apply map_get_None.
    + destruct (decide (a = e')) as [->|Hae'].
      * destruct (decide (e = e')); [congruence | done].
      * by apply IH.
Qed.

Lemma map_empty_get m : m = [] ↔ ∀ e, map_get e m = None.
Proof.
  split; [intros -> e; done|].
  destruct m as [|[a b] m]; [done|]. intros H. specialize (H a). simpl in H.
  rewrite decide_True in H by done. done.
Qed.

Lemma filter_key_absent e (m : list (nat * nat)) :
  e ∉ m.*1 → filter (λ p, p.1 = e) m = [].
Proof.
  induction m as [|[a b] m IH]; simpl; [done|].
  rewrite not_elem_of_cons. intros [Hne Hm].
  rewrite filter_cons_False by (simpl; congruence). by apply IH.
Qed.

Lemma map_occurrences e v m :
  NoDup m.*1 → map_get e m = Some v → length (filter (λ p, p.1 = e) m) = 1.
Proof.
  induction m as [|[a b] m IH]; simpl; [done|].
  intros Hnd. apply NoDup_cons in Hnd as [Ha Hm].
  destruct (decide (a = e)) as [->|Hae].
  - intros _. rewrite filter_cons_True by done. simpl.
    by rewrite filter_key_absent.
  - intros Hg. rewrite filter_cons_False by (simpl; congruence). by apply IH.
Qed.

(** ** Reading the state after an update *)

Lemma lookup_update_effect e f s e' :
  effects (update_effect e f s) !! e'
  = if decide (e = e') then f <$> effects s !! e else effects s !! e'.
Proof. unfold update_effect. simpl. apply lookup_alter. Qed.

Lemma lookup_update_entries d f s d' :
  dep_heap (update_entries d f s) !! d'
  = if decide (d = d')
    then (λ D, {| entries := f (entries D); owner := owner D;
                  dep_computed := dep_computed D |}) <$> dep_heap s !! d
    else dep_heap s !! d'.
Proof. unfold update_entries. simpl. apply lookup_alter. Qed.

Lemma tm_lookup_set tk d s tk' :
  tm_lookup (tm_set tk d s) tk' = if decide (tk = tk') then Some d else tm_lookup s tk'.
Proof.
  unfold tm_lookup, tm_set. simpl. destruct tk as [t k], tk' as [t' k']. simpl.
  rewrite lookup_insert. destruct (decide (t = t')) as [->|Ht]; simpl.
  - rewrite lookup_insert. destruct (decide (k = k')) as [->|Hk].
    + rewrite decide_True by done. done.
    + rewrite decide_False by congruence.
      destruct (targetMap s !! t') as [m|]; simpl; [done|]. apply lookup_empty.
  - rewrite decide_False by congruence. done.
Qed.

Lemma tm_lookup_delete tk s tk' :
  tm_lookup (tm_delete tk s) tk' = if decide (tk = tk') then None else tm_lookup s tk'.
Proof.
  unfold tm_lookup, tm_delete. simpl. destruct tk as [t k], tk' as [t' k']. simpl.
  rewrite lookup_alter. destruct (decide (t = t')) as [->|Ht]; simpl.
  - destruct (targetMap s !! t') as [m|]; simpl.
    + rewrite lookup_delete. destruct (decide (k = k')) as [->|Hk].
      * rewrite decide_True by done. done.
      * rewrite decide_False by congruence. done.
    + destruct (decide ((t', k) = (t', k'))); done.
  - rewrite decide_False by congruence. done.
Qed.

(** ** [cleanupDepEffect] *)

Lemma cleanupDepEffect_cases d e s :
  (cleanupDepEffect d e s = s
   ∧ ∀ D E, dep_heap s !! d = Some D → effects s !! e = Some E →
       map_get e (entries D) = None ∨ map_get e (entries D) = Some (_trackId E))
  ∨ (∃ D E tid, stale_edge d e s D E tid
       ∧ cleanupDepEffect d e s
         = if decide (length (map_delete e (entries D)) = 0)
           then dep_cleanup d D (update_entries d (map_delete e) s)
           else update_entries d (map_delete e) s).
Proof.
  unfold cleanupDepEffect.
  destruct (dep_heap s !! d) as [D|] eqn:HD; [|left; split; [done | intros; done]].
  destruct (effects s !! e) as [E|] eqn:HE; [|left; split; [done | intros; done]].
  destruct (map_get e (entries D)) as [tid|] eqn:Hg.
  - destruct (decide (_trackId E ≠ tid)) as [Hne|Heq].
    + right. exists D, E, tid. split; [|done]. unfold stale_edge. naive_solver.
    + left. split; [done|]. intros D' E' [= <-] [= <-]. right.
      apply dec_stable in Heq. congruence.
  - left. split; [done|]. intros D' E' [= <-] [= <-]. by left.
Qed.

Lemma effects_cleanupDepEffect d e s : effects (cleanupDepEffect d e s) = effects s.
Proof.
  destruct (cleanupDepEffect_cases d e s) as [[-> _]|(D & E & tid & _ & ->)]; [done|].
  by destruct (decide _).
Qed.

Lemma next_dep_cleanupDepEffect d e s : next_dep (cleanupDepEffect d e s) = next_dep s.
Proof.
  destruct (cleanupDepEffect_cases d e s) as [[-> _]|(D & E & tid & _ & ->)]; [done|].
  by destruct (decide _).
Qed.

Lemma activeEffect_cleanupDepEffect d e s :
  activeEffect (cleanupDepEffect d e s) = activeEffect s.
Proof.
  destruct (cleanupDepEffect_cases d e s) as [[-> _]|(D & E & tid & _ & ->)]; [done|].
  by destruct (decide _).
Qed.

Lemma shouldTrack_cleanupDepEffect d e s :
  shouldTrack (cleanupDepEffect d e s) = shouldTrack s.
Proof.
  destruct (cleanupDepEffect_cases d e s) as [[-> _]|(D & E & tid & _ & ->)]; [done|].
  by destruct (decide _).
Qed.

Lemma onStops_cleanupDepEffect d e s : onStops (cleanupDepEffect d e s) = onStops s.
Proof.
  destruct (cleanupDepEffect_cases d e s) as [[-> _]|(D & E & tid & _ & ->)]; [done|].
  by destruct (decide _).
Qed.

(** The heap after a stale edge has been removed. *)
Lemma dep_heap_cleanupDepEffect d e s D E tid x :
  stale_edge d e s D E tid →
  dep_heap (cleanupDepEffect d e s) !! x
  = if decide (d = x)
    then Some {| entries := map_delete e (entries D); owner := owner D;
                 dep_computed := dep_computed D |}
    else dep_heap s !! x.
Proof.
  intros (HD & HE & Hg & Hne). unfold cleanupDepEffect. rewrite HD, HE, Hg.
  rewrite decide_True by congruence.
  assert (dep_heap (update_entries d (map_delete e) s) !! x
          = if decide (d = x)
            then Some {| entries := map_delete e (entries D); owner := owner D;
                         dep_computed := dep_computed D |}
            else dep_heap s !! x) as Hx.
  { rewrite lookup_update_entries, HD. done. }
  destruct (decide (length (map_delete e (entries D)) = 0)); [|done].
  exact Hx.
Qed.

Lemma tm_lookup_cleanupDepEffect d e s D E tid tk :
  stale_edge d e s D E tid →
  tm_lookup (cleanupDepEffect d e s) tk
  = if decide (map_delete e (entries D) = [] ∧ owner D = tk) then None
    else tm_lookup s tk.
Proof.
  intros (HD & HE & Hg & Hne). unfold cleanupDepEffect. rewrite HD, HE, Hg.
  rewrite decide_True by congruence.
  destruct (decide (length (map_delete e (entries D)) = 0)) as [Hlen|Hlen].
  - apply length_zero_iff_nil in Hlen.
    change (tm_lookup (dep_cleanup d D (update_entries d (map_delete e) s)) tk)
      with (tm_lookup (tm_delete (owner D) s) tk).
    rewrite tm_lookup_delete.
    destruct (decide (owner D = tk)).
    + rewrite decide_True by done. done.
    + rewrite decide_False by naive_solver. done.
  - rewrite decide_False; [done|]. intros [Hnil _]. rewrite Hnil in Hlen. done.
Qed.

(** Exactly one call of [cleanup] when the Dep becomes empty, none otherwise. *)
Lemma cleanups_cleanupDepEffect d e s D E tid :
  stale_edge d e s D E tid →
  cleanups (cleanupDepEffect d e s)
  = if decide (map_delete e (entries D) = []) then cleanups s ++ [d] else cleanups s.
Proof.
  intros (HD & HE & Hg & Hne). unfold cleanupDepEffect. rewrite HD, HE, Hg.
  rewrite decide_True by congruence.
  destruct (decide (length (map_delete e (entries D)) = 0)) as [Hlen|Hlen].
  - apply length_zero_iff_nil in Hlen. rewrite decide_True by done. done.
  - rewrite decide_False; [done|]. intros Hnil. rewrite Hnil in Hlen. done.
Qed.

Lemma cleanupDepEffect_inv p d e s :
  graph_inv p s → graph_inv p (cleanupDepEffect d e s).
Proof.
  intros Hinv.
  destruct (cleanupDepEffect_cases d e s) as [[-> _]|(D & E & tid & Hst & _)]; [done|].
  pose proof Hst as (HD & HE & Hg & Hne).
  pose proof (ok_nodup _ _ Hinv d D HD) as Hnd.
  assert (entries D ≠ []) as HDne.
  { intros Hnil. rewrite Hnil in Hg. done. }
  pose proof (ok_nonempty _ _ Hinv d D HD HDne) as Hatt.
  split.
  - intros x X. rewrite (dep_heap_cleanupDepEffect _ _ _ _ _ _ _ Hst).
    destruct (decide (d = x)) as [<-|Hdx].
    + intros [= <-]. simpl. by apply map_delete_NoDup.
    + apply (ok_nodup _ _ Hinv).
  - intros x X e' tid'. rewrite (dep_heap_cleanupDepEffect _ _ _ _ _ _ _ Hst).
    rewrite effects_cleanupDepEffect.
    destruct (decide (d = x)) as [<-|Hdx].
    + intros [= <-]. simpl. rewrite map_get_delete by done.
      destruct (decide (e = e')); [done|]. intros H.
      apply (ok_edge _ _ Hinv d D e' tid' HD H).
    + apply (ok_edge _ _ Hinv).
  - intros e' E'. rewrite effects_cleanupDepEffect. apply (ok_cursor _ _ Hinv).
  - intros tk x. rewrite (tm_lookup_cleanupDepEffect _ _ _ _ _ _ _ Hst).
    destruct (decide _) as [[Hnil Htk]|Hno]; [done|].
    intros Hx. destruct (ok_attached _ _ Hinv tk x Hx) as (X & HX & Ho & Hne').
    rewrite (dep_heap_cleanupDepEffect _ _ _ _ _ _ _ Hst).
    destruct (decide (d = x)) as [<-|Hdx].
    + eexists. split; [done|]. simpl. assert (X = D) as -> by congruence.
      split; [done|]. left. intros Hnil. apply Hno. done.
    + exists X. done.
  - intros x X. rewrite (dep_heap_cleanupDepEffect _ _ _ _ _ _ _ Hst).
    rewrite (tm_lookup_cleanupDepEffect _ _ _ _ _ _ _ Hst).
    destruct (decide (d = x)) as [<-|Hdx].
    + intros [= <-]. simpl. intros Hne'.
      rewrite decide_False by naive_solver. done.
    + intros HX HXne. pose proof (ok_nonempty _ _ Hinv x X HX HXne) as HattX.
      rewrite decide_False; [done|]. intros [_ Heq]. rewrite Heq in Hatt. congruence.
  - intros x. rewrite next_dep_cleanupDepEffect.
    rewrite (dep_heap_cleanupDepEffect _ _ _ _ _ _ _ Hst).
    destruct (decide (d = x)) as [<-|Hdx]; [|apply (ok_fresh _ _ Hinv)].
    intros _. apply (ok_fresh _ _ Hinv). by rewrite HD.
  - intros e' E' i x. rewrite effects_cleanupDepEffect. intros HE' Hi Hx.
    destruct (ok_prefix _ _ Hinv e' E' i x HE' Hi Hx) as (X & HX & HgX).
    rewrite (dep_heap_cleanupDepEffect _ _ _ _ _ _ _ Hst).
    destruct (decide (d = x)) as [<-|Hdx]; [|by exists X].
    eexists. split; [done|]. simpl. assert (X = D) as -> by congruence.
    rewrite map_get_delete by done.
    destruct (decide (e = e')) as [<-|]; [|done].
    assert (E' = E) as -> by congruence. congruence.
Qed.

(** What [cleanupDepEffect d e] does to the edges: those of other effects
    stay, and an edge of [e] can only go away, which it does when it is in
    [d] and stale. *)
Lemma cleanupDepEffect_edges d e s x X e' :
  graph_inv None s ∨ (∀ D, dep_heap s !! d = Some D → NoDup (entries D).*1) →
  dep_heap s !! x = Some X →
  ∃ X', dep_heap (cleanupDepEffect d e s) !! x = Some X' ∧ owner X' = owner X
    ∧ (map_get e' (entries X') = map_get e' (entries X)
       ∨ (e' = e ∧ x = d ∧ map_get e' (entries X') = None
          ∧ ∃ E tid, effects s !! e = Some E ∧ map_get e (entries X) = Some tid
                     ∧ tid ≠ _trackId E)).
Proof.
  intros Hnd HX.
  destruct (cleanupDepEffect_cases d e s) as [[-> _]|(D & E & tid & Hst & _)].
  { exists X. split; [done|]. split; [done|]. by left. }
  pose proof Hst as (HD & HE & Hg & Hne).
  assert (NoDup (entries D).*1) as HndD.
  { destruct Hnd as [Hinv|Hnd]; [by apply (ok_nodup _ _ Hinv d) | by apply Hnd]. }
  rewrite (dep_heap_cleanupDepEffect _ _ _ _ _ _ _ Hst).
  destruct (decide (d = x)) as [<-|Hdx]; [|exists X; split; [done|]; split; [done|]; by left].
  assert (X = D) as -> by congruence.
  eexists. split; [done|]. simpl. split; [done|].
  rewrite map_get_delete by done.
  destruct (decide (e = e')) as [<-|]; [|by left].
  right. repeat split; try done. by exists E, tid.
Qed.

(** After the call, [d] holds no stale edge of [e]. *)
Lemma cleanupDepEffect_cleans d e s D' E :
  (∀ D, dep_heap s !! d = Some D → NoDup (entries D).*1) →
  dep_heap (cleanupDepEffect d e s) !! d = Some D' → effects s !! e = Some E →
  map_get e (entries D') = None ∨ map_get e (entries D') = Some (_trackId E).
Proof.
  intros Hnd HD' HE.
  destruct (cleanupDepEffect_cases d e s) as [[Heq Hcur]|(D & E0 & tid & Hst & _)].
  - rewrite Heq in HD'. by apply Hcur.
  - pose proof Hst as (HD & _ & _ & _).
    rewrite (dep_heap_cleanupDepEffect _ _ _ _ _ _ _ Hst), decide_True in HD' by done.
    injection HD' as <-. simpl. left. rewrite map_get_delete by (by apply Hnd).
    by rewrite decide_True.
Qed.

(** ** Writing at the cursor of [deps] *)

Lemma array_set_lookup_eq n d l : n ≤ length l → array_set n d l !! n = Some d.
Proof.
  intros H. unfold array_set. destruct (decide (n < length l)).
  - by apply list_lookup_insert_eq.
  - assert (n = length l) as -> by lia. apply list_lookup_middle. done.
Qed.

Lemma array_set_lookup_ne n d l i :
  n ≤ length l → i ≠ n → array_set n d l !! i = l !! i.
Proof.
  intros H Hi. unfold array_set. destruct (decide (n < length l)).
  - by apply list_lookup_insert_ne.
  - assert (n = length l) as -> by lia.
    destruct (decide (i < length l)).
    + by apply lookup_app_l.
    + rewrite lookup_ge_None_2 by (rewrite length_app; simpl; lia).
      symmetry. apply lookup_ge_None_2. lia.
Qed.

Lemma array_set_length n d l : n ≤ length l → n + 1 ≤ length (array_set n d l).
Proof.
  intros H. unfold array_set. destruct (decide (n < length l)).
  - rewrite length_insert. lia.
  - rewrite length_app. simpl. lia.
Qed.

Lemma array_set_same n d l : l !! n = Some d → array_set n d l = l.
Proof.
  intros H. unfold array_set. rewrite decide_True by (by eapply lookup_lt_Some).
  by apply list_insert_id.
Qed.

(** ** [link] *)

Lemma graph_inv_weaken p s : graph_inv None s → graph_inv p s.
Proof.
  intros [H1 H2 H3 H4 H5 H6 H7]. split; try done.
  intros tk d Hd. destruct (H4 tk d Hd) as (D & ? & ? & [?|?]); [|done].
  exists D. split; [done|]. split; [done|]. by left.
Qed.

Section link.
Context (e d : nat) (s : State) (E : ReactiveEffect) (D : Dep).
Hypothesis HE : effects s !! e = Some E.
Hypothesis HD : dep_heap s !! d = Some D.

Local Abbreviation linked_effect := (linked_effect d E).
Local Abbreviation linked_dep := (linked_dep e E D).

Lemma effects_link e' :
  effects (link e d s) !! e'
  = if decide (e = e') then Some linked_effect else effects s !! e'.
Proof using HE.
  unfold link. rewrite HE, lookup_update_effect. simpl. rewrite HE. done.
Qed.

Lemma dep_heap_link x :
  dep_heap (link e d s) !! x
  = if decide (d = x) then Some linked_dep else dep_heap s !! x.
Proof using HE HD.
  unfold link. rewrite HE. simpl. rewrite lookup_alter, HD. done.
Qed.

Lemma tm_lookup_link tk : tm_lookup (link e d s) tk = tm_lookup s tk.
Proof using HE. unfold link. rewrite HE. done. Qed.

Lemma next_dep_link : next_dep (link e d s) = next_dep s.
Proof using HE. unfold link. rewrite HE. done. Qed.

Lemma link_inv :
  graph_inv (Some d) s →
  tm_lookup s (owner D) = Some d →
  (∀ od OD, deps E !! _depsLength E = Some od → od ≠ d →
     dep_heap s !! od = Some OD →
     map_get e (entries OD) = None ∨ map_get e (entries OD) = Some (_trackId E)) →
  graph_ok (link e d s).
Proof using HE HD.
  intros Hinv Hatt Hold.
  pose proof (ok_cursor _ _ Hinv e E HE) as Hcur.
  split.
  - intros x X. rewrite dep_heap_link. destruct (decide (d = x)) as [<-|Hdx].
    + intros [= <-]. simpl. apply map_set_NoDup. by apply (ok_nodup _ _ Hinv d).
    + apply (ok_nodup _ _ Hinv).
  - intros x X e' tid. rewrite dep_heap_link, effects_link.
    destruct (decide (e = e')) as [<-|Hee'].
    + (* an edge of [e] *)
      destruct (decide (d = x)) as [<-|Hdx].
      * intros [= <-]. simpl. rewrite map_get_set, decide_True by done.
        intros [= <-]. eexists. split; [done|]. left. simpl. split; [done|].
        exists (_depsLength E). split; [lia|]. by apply array_set_lookup_eq.
      * intros HX Hg. destruct (ok_edge _ _ Hinv x X e tid HX Hg) as (E' & HE' & Hcase).
        assert (E' = E) as -> by congruence.
        eexists. split; [done|]. simpl.
        destruct Hcase as [[-> (i & Hi & Hx)]|[Hlt (i & Hi & Hx)]].
        -- left. split; [done|]. exists i. split; [lia|].
           rewrite array_set_lookup_ne by lia. done.
        -- right. split; [done|]. exists i.
           destruct (decide (i = _depsLength E)) as [->|Hne].
           { exfalso. destruct (Hold x X Hx (not_eq_sym Hdx) HX) as [Hn|Hc];
               rewrite Hg in *; [done|]. injection Hc as ->. lia. }
           split; [lia|]. rewrite array_set_lookup_ne by lia. done.
    + (* an edge of another effect *)
      intros HX Hg.
      assert (∃ X0, dep_heap s !! x = Some X0 ∧ map_get e' (entries X0) = Some tid)
        as (X0 & HX0 & Hg0).
      { destruct (decide (d = x)) as [<-|Hdx]; [|by exists X].
        injection HX as <-. simpl in Hg. rewrite map_get_set, decide_False in Hg by done.
        by exists D. }
      apply (ok_edge _ _ Hinv x X0 e' tid HX0 Hg0).
  - intros e' E'. rewrite effects_link. destruct (decide (e = e')) as [<-|Hee'].
    + intros [= <-]. simpl. by apply array_set_length.
    + apply (ok_cursor _ _ Hinv).
  - intros tk x. rewrite tm_lookup_link. intros Hx.
    destruct (ok_attached _ _ Hinv tk x Hx) as (X & HX & Ho & Hne).
    rewrite dep_heap_link. destruct (decide (d = x)) as [<-|Hdx].
    + eexists. split; [done|]. assert (X = D) as -> by congruence.
      split; [done|]. left. simpl. apply map_set_nonempty.
    + exists X. split; [done|]. split; [done|]. destruct Hne as [?|?]; [by left | congruence].
  - intros x X. rewrite dep_heap_link, tm_lookup_link.
    destruct (decide (d = x)) as [<-|Hdx].
    + intros [= <-] _. done.
    + apply (ok_nonempty _ _ Hinv).
  - intros x. rewrite dep_heap_link, next_dep_link.
    destruct (decide (d = x)) as [<-|Hdx]; [|apply (ok_fresh _ _ Hinv)].
    intros _. apply (ok_fresh _ _ Hinv). by rewrite HD.
  - intros e' E' i x. rewrite effects_link. destruct (decide (e = e')) as [<-|Hee'].
    + intros [= <-]. simpl. intros Hi Hx.
      destruct (decide (i = _depsLength E)) as [->|Hne].
      * rewrite array_set_lookup_eq in Hx by done. injection Hx as <-.
        rewrite dep_heap_link, decide_True by done. eexists. split; [done|].
        simpl. by rewrite map_get_set, decide_True.
      * rewrite array_set_lookup_ne in Hx by lia.
        destruct (ok_prefix _ _ Hinv e E i x HE) as (X & HX & Hg); [lia | done |].
        rewrite dep_heap_link. destruct (decide (d = x)) as [<-|Hdx]; [|by exists X].
        eexists. split; [done|]. simpl. by rewrite map_get_set, decide_True.
    + intros HE' Hi Hx.
      destruct (ok_prefix _ _ Hinv e' E' i x HE' Hi Hx) as (X & HX & Hg).
      rewrite dep_heap_link. destruct (decide (d = x)) as [<-|Hdx]; [|by exists X].
      eexists. split; [done|]. simpl. rewrite map_get_set, decide_False by done.
      congruence.
Qed.

End link.

(** ** [trackEffect] as a cleanup of the old Dep followed by [link] *)

Lemma dep_heap_cleanupDepEffect_ne d e s x :
  d ≠ x → dep_heap (cleanupDepEffect d e s) !! x = dep_heap s !! x.
Proof.
  intros Hne.
  destruct (cleanupDepEffect_cases d e s) as [[-> _]|(D & E & tid & Hst & _)]; [done|].
  rewrite (dep_heap_cleanupDepEffect _ _ _ _ _ _ _ Hst), decide_False by done. done.
Qed.

Lemma cleanupDepEffect_update_entries od e d f s :
  od ≠ d →
  cleanupDepEffect od e (update_entries d f s)
  = update_entries d f (cleanupDepEffect od e s).
Proof.
  intros Hne. unfold cleanupDepEffect.
  rewrite lookup_update_entries, decide_False by done.
  change (effects (update_entries d f s)) with (effects s).
  destruct (dep_heap s !! od) as [OD|]; [|done].
  destruct (effects s !! e) as [E|]; [|done].
  destruct (map_get e (entries OD)); [|done].
  destruct (decide (_trackId E ≠ n)); [|done].
  assert (update_entries od (map_delete e) (update_entries d f s)
          = update_entries d f (update_entries od (map_delete e) s)) as Hc.
  { unfold update_entries, set_dep_heap. simpl. f_equal. by apply alter_alter_ne. }
  destruct (decide (length (map_delete e (entries OD)) = 0)); [|done].
  rewrite Hc. done.
Qed.

Lemma set_deps_same E : set_deps (deps E) E = E.
Proof. by destruct E. Qed.

Lemma trackEffect_unfold e d s E D :
  effects s !! e = Some E → dep_heap s !! d = Some D →
  trackEffect e d s
  = if decide (map_get e (entries D) ≠ Some (_trackId E))
    then link e d (old_dep_cleaned e d E s)
    else s.
Proof.
  intros HE HD. unfold trackEffect. rewrite HE, HD.
  destruct (decide (map_get e (entries D) ≠ Some (_trackId E))); [|done].
  unfold old_dep_cleaned.
  destruct (deps E !! _depsLength E) as [od|] eqn:Hod.
  - destruct (decide (od = d)) as [->|Hne].
    + rewrite decide_False by naive_solver.
      unfold link. rewrite HE. unfold update_effect. f_equal.
      apply alter_ext. intros E'. change (effects (update_entries d _ s)) with (effects s).
      rewrite HE. intros [= <-]. rewrite array_set_same by done.
      by rewrite set_deps_same.
    + rewrite decide_True by congruence.
      rewrite cleanupDepEffect_update_entries by done.
      unfold link. rewrite effects_cleanupDepEffect, HE. done.
  - rewrite decide_True by done. unfold link. rewrite HE. done.
Qed.

(** ** One tracked read while an effect runs *)

Lemma graph_inv_strengthen d D s :
  graph_inv (Some d) s → dep_heap s !! d = Some D → entries D ≠ [] → graph_ok s.
Proof.
  intros [H1 H2 H3 H4 H5 H6 H7] HD Hne. split; try done.
  intros tk x Hx. destruct (H4 tk x Hx) as (X & HX & Ho & Hc).
  exists X. split; [done|]. split; [done|]. left.
  destruct Hc as [?|[= <-]]; [done|]. congruence.
Qed.

Section track_step.
Context (e T : nat) (seen : list (target * key)).

Local Abbreviation run_facts := (run_facts e T seen).

Lemma running_run_facts s : running e T seen s ↔ graph_ok s ∧ run_facts s.
Proof.
  split.
  - intros [H1 H2 H3 H4]. split; [done|]. split; [done|]. split; done.
  - intros (H1 & H2 & H3 & H4). by split.
Qed.

Lemma trackEffect_running d D s :
  graph_inv (Some d) s → run_facts s →
  dep_heap s !! d = Some D → tm_lookup s (owner D) = Some d →
  running e T (seen ++ [owner D]) (trackEffect e d s).
Proof.
  intros Hinv ((E & HE & HT) & Hfresh & Hrec) HD Hatt.
  rewrite (trackEffect_unfold e d s E D HE HD).
  destruct (decide (map_get e (entries D) ≠ Some (_trackId E))) as [Hstale|Hcur].
  2:{ (* the edge is already there *)
      apply dec_stable in Hcur. rewrite HT in Hcur.
      assert (entries D ≠ []) as Hne by (intros Hn; rewrite Hn in Hcur; done).
      split.
      - by eapply graph_inv_strengthen.
      - by exists E.
      - intros x X HX Hg. apply elem_of_app. left. by eapply Hfresh.
      - intros tk Htk. apply elem_of_app in Htk as [Htk|Htk]; [by apply Hrec|].
        apply list_elem_of_singleton in Htk as ->. by exists d, D. }
  set (sa := old_dep_cleaned e d E s).
  assert (graph_inv (Some d) sa) as Hinva.
  { unfold sa, old_dep_cleaned. destruct (deps E !! _depsLength E); [|done].
    destruct (decide _); [done|]. by apply cleanupDepEffect_inv. }
  assert (effects sa = effects s) as Heff.
  { unfold sa, old_dep_cleaned. destruct (deps E !! _depsLength E); [|done].
    destruct (decide _); [done|]. apply effects_cleanupDepEffect. }
  assert (dep_heap sa !! d = Some D) as HDa.
  { unfold sa, old_dep_cleaned. destruct (deps E !! _depsLength E); [|done].
    destruct (decide _); [done|]. by rewrite dep_heap_cleanupDepEffect_ne. }
  assert (HEa : effects sa !! e = Some E) by (by rewrite Heff).
  (* edges of [e] in [sa] were edges in [s] *)
  assert (∀ x X, dep_heap sa !! x = Some X →
            ∃ X0, dep_heap s !! x = Some X0 ∧ owner X0 = owner X
                  ∧ (map_get e (entries X) = map_get e (entries X0)
                     ∨ map_get e (entries X) = None)) as Hback.
  { intros x X HX. unfold sa, old_dep_cleaned in HX.
    destruct (deps E !! _depsLength E) as [od|]; [|exists X; naive_solver].
    destruct (decide (od = d)); [exists X; naive_solver|].
    destruct (dep_heap s !! x) as [X0|] eqn:HX0.
    - destruct (cleanupDepEffect_edges od e s x X0 e) as (X' & HX' & Ho & Hc);
        [right; intros OD HOD; by apply (ok_nodup _ _ Hinv od) | done |].
      assert (X' = X) as -> by congruence.
      exists X0. split; [done|]. split; [done|]. naive_solver.
    - exfalso.
      destruct (cleanupDepEffect_cases od e s) as [[Heq _]|(OD & E0 & tid & Hst & _)].
      + rewrite Heq in HX. congruence.
      + rewrite (dep_heap_cleanupDepEffect _ _ _ _ _ _ _ Hst) in HX.
        destruct Hst as (HOD & _). destruct (decide (od = x)); congruence. }
  (* current edges of [e] survive in [sa], with their slot in the target map *)
  assert (∀ tk x X, tm_lookup s tk = Some x → dep_heap s !! x = Some X →
            (map_get e (entries X) = Some T ∨ x = d) →
            tm_lookup sa tk = Some x
            ∧ ∃ X', dep_heap sa !! x = Some X'
                    ∧ map_get e (entries X') = map_get e (entries X)) as Hkeep.
  { intros tk x X Htk HX Hg. unfold sa, old_dep_cleaned.
    destruct (deps E !! _depsLength E) as [od|]; [|split; [done | by exists X]].
    destruct (decide (od = d)) as [->|Hod]; [split; [done | by exists X]|].
    destruct (cleanupDepEffect_cases od e s) as [[-> _]|(OD & E0 & tid & Hst & _)];
      [split; [done | by exists X]|].
    pose proof Hst as (HOD & HE0 & Hgo & Hne).
    assert (E0 = E) as -> by congruence.
    assert (od ≠ x) as Hox.
    { intros ->. destruct Hg as [Hg| ->]; [|done].
      assert (OD = X) as -> by congruence. rewrite Hg in Hgo. congruence. }
    split.
    - rewrite (tm_lookup_cleanupDepEffect _ _ _ _ _ _ _ Hst).
      rewrite decide_False; [done|]. intros [_ Heq].
      assert (entries OD ≠ []) as HODne by (intros Hn; rewrite Hn in Hgo; done).
      pose proof (ok_nonempty _ _ Hinv od OD HOD HODne) as Hodatt.
      rewrite Heq in Hodatt. congruence.
    - exists X. by rewrite dep_heap_cleanupDepEffect_ne. }
  destruct (Hkeep (owner D) d D Hatt HD (or_intror eq_refl)) as (Hatta & _).
  assert (graph_ok (link e d sa)) as Hok.
  { apply (link_inv e d sa E D HEa HDa Hinva Hatta).
    intros od OD Hod Hne HOD. unfold sa, old_dep_cleaned in HOD. rewrite Hod in HOD.
    rewrite decide_False in HOD by done.
    eapply cleanupDepEffect_cleans; [|done|done].
    intros OD0 HOD0. by apply (ok_nodup _ _ Hinv od). }
  split.
  - done.
  - exists (linked_effect d E). split; [|done].
    rewrite (effects_link e d sa E HEa), decide_True by done. done.
  - intros x X. rewrite (dep_heap_link e d sa E D HEa HDa).
    destruct (decide (d = x)) as [<-|Hdx].
    + intros [= <-] _. simpl. apply elem_of_app. right. by apply list_elem_of_singleton.
    + intros HX Hg. destruct (Hback x X HX) as (X0 & HX0 & Ho & [Hc|Hc]).
      * apply elem_of_app. left. rewrite <-Ho. eapply Hfresh; [done|]. congruence.
      * congruence.
  - intros tk Htk. apply elem_of_app in Htk as [Htk|Htk].
    + destruct (Hrec tk Htk) as (x & X & Hx & HX & Hg).
      destruct (Hkeep tk x X Hx HX (or_introl Hg)) as (Hxa & X' & HX' & Hg').
      rewrite (tm_lookup_link e d sa E HEa).
      exists x. rewrite (dep_heap_link e d sa E D HEa HDa).
      destruct (decide (d = x)) as [<-|Hdx].
      * eexists. split; [done|]. split; [done|]. simpl.
        rewrite map_get_set, decide_True by done. by rewrite HT.
      * exists X'. split; [done|]. split; [done|]. congruence.
    + apply list_elem_of_singleton in Htk as ->.
      rewrite (tm_lookup_link e d sa E HEa).
      exists d. rewrite (dep_heap_link e d sa E D HEa HDa), decide_True by done.
      eexists. split; [done|]. split; [done|]. simpl.
      rewrite map_get_set, decide_True by done. by rewrite HT.
Qed.

End track_step.

(** ** Two views of [cleanupDepEffect]: looking back, and what it keeps *)

Lemma cleanupDepEffect_back p d e s x X e' :
  graph_inv p s → dep_heap (cleanupDepEffect d e s) !! x = Some X →
  ∃ X0, dep_heap s !! x = Some X0 ∧ owner X0 = owner X
        ∧ (map_get e' (entries X) = map_get e' (entries X0)
           ∨ (e' = e ∧ map_get e' (entries X) = None)).
Proof.
  intros Hinv HX.
  destruct (dep_heap s !! x) as [X0|] eqn:HX0.
  - destruct (cleanupDepEffect_edges d e s x X0 e') as (X' & HX' & Ho & Hc);
      [right; intros D0 HD0; by apply (ok_nodup _ _ Hinv d) | done |].
    assert (X' = X) as -> by congruence.
    exists X0. split; [done|]. split; [done|]. naive_solver.
  - exfalso.
    destruct (cleanupDepEffect_cases d e s) as [[Heq _]|(OD & E0 & tid & Hst & _)].
    + rewrite Heq in HX. congruence.
    + rewrite (dep_heap_cleanupDepEffect _ _ _ _ _ _ _ Hst) in HX.
      destruct Hst as (HOD & _). destruct (decide (d = x)); congruence.
Qed.

Lemma cleanupDepEffect_keeps p d e s E tk x X :
  graph_inv p s → effects s !! e = Some E →
  tm_lookup s tk = Some x → dep_heap s !! x = Some X →
  map_get e (entries X) = Some (_trackId E) →
  tm_lookup (cleanupDepEffect d e s) tk = Some x
  ∧ ∃ X', dep_heap (cleanupDepEffect d e s) !! x = Some X'
          ∧ map_get e (entries X') = Some (_trackId E).
Proof.
  intros Hinv HE Htk HX Hg.
  destruct (cleanupDepEffect_cases d e s) as [[-> _]|(OD & E0 & tid & Hst & _)];
    [split; [done | by exists X]|].
  pose proof Hst as (HOD & HE0 & Hgo & Hne).
  assert (E0 = E) as -> by congruence.
  assert (d ≠ x) as Hox.
  { intros ->. assert (OD = X) as -> by congruence. rewrite Hg in Hgo. congruence. }
  split.
  - rewrite (tm_lookup_cleanupDepEffect _ _ _ _ _ _ _ Hst).
    rewrite decide_False; [done|]. intros [_ Heq].
    assert (entries OD ≠ []) as HODne by (intros Hn; rewrite Hn in Hgo; done).
    pose proof (ok_nonempty _ _ Hinv d OD HOD HODne) as Hodatt.
    rewrite Heq in Hodatt. congruence.
  - exists X. by rewrite dep_heap_cleanupDepEffect_ne.
Qed.

Lemma cleanupDepEffect_running e T seen d s :
  running e T seen s → running e T seen (cleanupDepEffect d e s).
Proof.
  intros [Hok (E & HE & HT) Hfresh Hrec]. split.
  - by apply cleanupDepEffect_inv.
  - exists E. by rewrite effects_cleanupDepEffect.
  - intros x X HX Hg.
    destruct (cleanupDepEffect_back _ d e s x X e Hok HX) as (X0 & HX0 & Ho & [Hc|[_ Hc]]);
      [|congruence].
    rewrite <-Ho. eapply Hfresh; [done|]. congruence.
  - intros tk Htk. destruct (Hrec tk Htk) as (x & X & Hx & HX & Hg).
    rewrite <-HT in Hg.
    destruct (cleanupDepEffect_keeps _ d e s E tk x X Hok HE Hx HX Hg) as (Hx' & X' & HX' & Hg').
    exists x, X'. by rewrite <-HT.
Qed.

(** ** The effects that are not running *)

Lemma quiescent_others_quiet e s : quiescent s → others_quiet e s.
Proof.
  intros [H1 H2 H3 H4 H5 H6]. split.
  - intros d D e' tid _. apply H4.
  - intros e' E' _ HE'. split; [by apply (H3 e') | by apply (H5 e')].
  - done.
Qed.

Lemma size_effects_alter f e (m : gmap nat ReactiveEffect) : size (alter f e m) = size m.
Proof. by rewrite <-!size_dom, dom_alter_L. Qed.

Lemma cleanupDepEffect_others p e d s :
  graph_inv p s → others_quiet e s → others_quiet e (cleanupDepEffect d e s).
Proof.
  intros Hok [H1 H2 H3]. split.
  - intros x X e' tid Hne HX Hg. rewrite effects_cleanupDepEffect.
    destruct (cleanupDepEffect_back _ d e s x X e' Hok HX) as (X0 & HX0 & _ & [Hc|[Hc _]]);
      [|done].
    apply (H1 x X0 e' tid Hne HX0). congruence.
  - intros e' E'. rewrite effects_cleanupDepEffect. apply H2.
  - intros e'. rewrite effects_cleanupDepEffect. apply H3.
Qed.

Lemma update_effect_others e f s :
  others_quiet e s → others_quiet e (update_effect e f s).
Proof.
  intros [H1 H2 H3]. split.
  - intros d D e' tid Hne. rewrite lookup_update_effect, decide_False by done.
    apply (H1 d D e' tid Hne).
  - intros e' E' Hne. rewrite lookup_update_effect, decide_False by done. by apply H2.
  - intros e'. rewrite lookup_update_effect. unfold update_effect. simpl.
    rewrite size_effects_alter. destruct (decide (e = e')) as [<-|]; [|apply H3].
    intros HS. apply H3. by apply fmap_is_Some in HS.
Qed.

Lemma update_entries_others e d v s :
  others_quiet e s → others_quiet e (update_entries d (map_set e v) s).
Proof.
  intros [H1 H2 H3]. split; [|done|done].
  intros x X e' tid Hne. rewrite lookup_update_entries.
  destruct (decide (d = x)) as [<-|]; [|apply (H1 x X e' tid Hne)].
  destruct (dep_heap s !! d) as [D|] eqn:HD; [|done].
  intros [= <-]. simpl. rewrite map_get_set, decide_False by done.
  apply (H1 d D e' tid Hne HD).
Qed.

Lemma link_others e d s : others_quiet e s → others_quiet e (link e d s).
Proof.
  intros H. unfold link. destruct (effects s !! e); [|done].
  by apply update_effect_others, update_entries_others.
Qed.

Lemma trackEffect_others p e d s :
  graph_inv p s → others_quiet e s → others_quiet e (trackEffect e d s).
Proof.
  intros Hok Hq.
  destruct (effects s !! e) as [E|] eqn:HE; [|by unfold trackEffect; rewrite HE].
  destruct (dep_heap s !! d) as [D|] eqn:HD; [|by unfold trackEffect; rewrite HE, HD].
  rewrite (trackEffect_unfold e d s E D HE HD). destruct (decide _); [|done].
  apply link_others. unfold old_dep_cleaned.
  destruct (deps E !! _depsLength E); [|done]. destruct (decide _); [done|].
  by eapply cleanupDepEffect_others.
Qed.

(** ** [createDep] and [track] *)

Lemma dep_heap_createDep tk s x :
  dep_heap (createDep tk s).2 !! x
  = if decide (next_dep s = x) then Some (fresh_dep tk) else dep_heap s !! x.
Proof. unfold createDep. simpl. apply lookup_insert. Qed.

Lemma tm_lookup_createDep tk s tk' :
  tm_lookup (createDep tk s).2 tk'
  = if decide (tk = tk') then Some (next_dep s) else tm_lookup s tk'.
Proof. unfold createDep. cbn [snd]. rewrite tm_lookup_set. done. Qed.

Lemma createDep_inv tk s :
  graph_ok s → tm_lookup s tk = None →
  graph_inv (Some (next_dep s)) (createDep tk s).2.
Proof.
  intros Hok Hnone.
  assert (∀ x X, dep_heap s !! x = Some X → next_dep s ≠ x) as Hfr.
  { intros x X HX Heq. subst x. pose proof (ok_fresh _ _ Hok (next_dep s)) as H.
    rewrite HX in H. specialize (H (mk_is_Some _ _ eq_refl)). lia. }
  split.
  - intros x X. rewrite dep_heap_createDep. destruct (decide _).
    + intros [= <-]. constructor.
    + apply (ok_nodup _ _ Hok).
  - intros x X e tid. rewrite dep_heap_createDep. destruct (decide _).
    + intros [= <-]. done.
    + apply (ok_edge _ _ Hok).
  - apply (ok_cursor _ _ Hok).
  - intros tk' x. rewrite tm_lookup_createDep. destruct (decide (tk = tk')) as [<-|Hne].
    + intros [= <-]. rewrite dep_heap_createDep, decide_True by done.
      exists (fresh_dep tk). split; [done|]. split; [done|]. by right.
    + intros Hx. destruct (ok_attached _ _ Hok tk' x Hx) as (X & HX & Ho & [Hc|Hc]); [|done].
      exists X. rewrite dep_heap_createDep, decide_False by (by eapply Hfr).
      split; [done|]. split; [done|]. by left.
  - intros x X. rewrite dep_heap_createDep, tm_lookup_createDep. destruct (decide _).
    + intros [= <-]. done.
    + intros HX HXne. pose proof (ok_nonempty _ _ Hok x X HX HXne) as Hatt.
      rewrite decide_False; [done|]. intros Heq. rewrite <-Heq in Hatt. congruence.
  - intros x. rewrite dep_heap_createDep. unfold createDep. simpl.
    destruct (decide _) as [<-|]; [lia|]. intros HS. apply (ok_fresh _ _ Hok) in HS. lia.
  - intros e E i x HE Hi Hx.
    destruct (ok_prefix _ _ Hok e E i x HE Hi Hx) as (X & HX & Hg).
    exists X. rewrite dep_heap_createDep, decide_False by (by eapply Hfr). done.
Qed.

Lemma createDep_run_facts e T seen tk s :
  graph_ok s → tm_lookup s tk = None →
  run_facts e T seen s → run_facts e T seen (createDep tk s).2.
Proof.
  intros Hok Hnone (HE & Hfresh & Hrec). split; [done|]. split.
  - intros x X. rewrite dep_heap_createDep. destruct (decide _).
    + intros [= <-]. done.
    + apply Hfresh.
  - intros tk' Htk'. destruct (Hrec tk' Htk') as (x & X & Hx & HX & Hg).
    exists x, X. rewrite tm_lookup_createDep, dep_heap_createDep.
    rewrite decide_False by congruence.
    rewrite decide_False; [done|]. intros <-.
    pose proof (ok_fresh _ _ Hok (next_dep s)) as H.
    rewrite HX in H. specialize (H (mk_is_Some _ _ eq_refl)). lia.
Qed.

Lemma createDep_others e tk s : others_quiet e s → others_quiet e (createDep tk s).2.
Proof.
  intros [H1 H2 H3]. split; [|done|done].
  intros x X e' tid Hne. rewrite dep_heap_createDep. destruct (decide _).
  - intros [= <-]. done.
  - apply (H1 x X e' tid Hne).
Qed.

Lemma activeEffect_trackEffect e d s : activeEffect (trackEffect e d s) = activeEffect s.
Proof.
  unfold trackEffect. repeat case_match; simpl; rewrite ?activeEffect_cleanupDepEffect; done.
Qed.

Lemma shouldTrack_trackEffect e d s : shouldTrack (trackEffect e d s) = shouldTrack s.
Proof.
  unfold trackEffect. repeat case_match; simpl; rewrite ?shouldTrack_cleanupDepEffect; done.
Qed.

Lemma onStops_trackEffect e d s : onStops (trackEffect e d s) = onStops s.
Proof.
  unfold trackEffect. repeat case_match; simpl; rewrite ?onStops_cleanupDepEffect; done.
Qed.

Lemma track_flags tk s :
  activeEffect (track tk s) = activeEffect s ∧ shouldTrack (track tk s) = shouldTrack s.
Proof.
  unfold track. destruct (activeEffect s) as [e|] eqn:Ha; [|done].
  destruct (shouldTrack s) eqn:Hs; [|done].
  destruct (tm_lookup s tk).
  - by rewrite activeEffect_trackEffect, shouldTrack_trackEffect.
  - destruct (createDep tk s) as [d s1] eqn:Hc.
    rewrite activeEffect_trackEffect, shouldTrack_trackEffect.
    unfold createDep in Hc. injection Hc as _ <-. done.
Qed.

Lemma track_idle tk s : activeEffect s = None → track tk s = s.
Proof. intros H. unfold track. by rewrite H. Qed.

Lemma track_running e T seen tk s :
  running e T seen s → activeEffect s = Some e → shouldTrack s = true →
  running e T (seen ++ [tk]) (track tk s).
Proof.
  intros Hrun Ha Hs. apply running_run_facts in Hrun as [Hok Hfacts].
  unfold track. rewrite Ha, Hs.
  destruct (tm_lookup s tk) as [d|] eqn:Htk.
  - destruct (ok_attached _ _ Hok tk d Htk) as (D & HD & <- & _).
    apply trackEffect_running; [by apply graph_inv_weaken | done | done | done].
  - destruct (createDep tk s) as [d s1] eqn:Hc.
    assert (s1 = (createDep tk s).2) as -> by (by rewrite Hc).
    assert (d = next_dep s) as -> by (unfold createDep in Hc; by injection Hc).
    apply (trackEffect_running e T seen (next_dep s) (fresh_dep tk)).
    + by apply createDep_inv.
    + by apply createDep_run_facts.
    + by rewrite dep_heap_createDep, decide_True.
    + change (owner (fresh_dep tk)) with tk. by rewrite tm_lookup_createDep, decide_True.
Qed.

Lemma track_others e tk s :
  graph_ok s → activeEffect s = Some e → others_quiet e s → others_quiet e (track tk s).
Proof.
  intros Hok Ha Hq. unfold track. rewrite Ha. destruct (shouldTrack s); [|done].
  destruct (tm_lookup s tk) as [d|] eqn:Htk.
  - by eapply trackEffect_others.
  - destruct (createDep tk s) as [d s1] eqn:Hc.
    assert (s1 = (createDep tk s).2) as -> by (by rewrite Hc).
    eapply trackEffect_others; [by apply createDep_inv | by apply createDep_others].
Qed.

Lemma call_fn_running e T reads seen s :
  running e T seen s → others_quiet e s →
  activeEffect s = Some e → shouldTrack s = true →
  running e T (seen ++ reads) (call_fn reads s)
  ∧ others_quiet e (call_fn reads s)
  ∧ activeEffect (call_fn reads s) = Some e
  ∧ shouldTrack (call_fn reads s) = true.
Proof.
  revert seen s. induction reads as [|tk reads IH]; intros seen s Hrun Hq Ha Hs.
  - rewrite app_nil_r. done.
  - unfold call_fn. simpl. fold (call_fn reads (track tk s)).
    destruct (track_flags tk s) as [Ha' Hs'].
    replace (seen ++ tk :: reads) with ((seen ++ [tk]) ++ reads)
      by (by rewrite <-app_assoc).
    apply IH.
    + by apply track_running.
    + apply track_others; [by destruct Hrun | done | done].
    + congruence.
    + congruence.
Qed.

Lemma call_fn_idle reads s : activeEffect s = None → call_fn reads s = s.
Proof.
  intros H. induction reads as [|tk reads IH]; [done|].
  unfold call_fn. simpl. rewrite track_idle by done. exact IH.
Qed.

(** ** The start of a run: [preCleanupEffect] *)

Lemma replaces_tm_lookup e E' s s' tk : replaces e E' s s' → tm_lookup s' tk = tm_lookup s tk.
Proof. intros (_ & _ & Htm & _). unfold tm_lookup. by rewrite Htm. Qed.

Lemma replaces_size e E E' s s' :
  effects s !! e = Some E → replaces e E' s s' → size (effects s') = size (effects s).
Proof. intros HE (-> & _). by rewrite map_size_insert_Some. Qed.

Lemma begin_run e E E' s s' :
  quiescent s → effects s !! e = Some E → replaces e E' s s' →
  deps E' = deps E → _trackId E' = _trackId E + 1 → _depsLength E' = 0 →
  running e (_trackId E + 1) [] s' ∧ others_quiet e s'.
Proof.
  intros [Hok Hidle Hfull Hcur Hstop Hids] HE Hrep Hdeps HT Hlen.
  pose proof Hrep as (Heff & Hheap & Htm & Hnext).
  split; [split; [split|..]|split].
  - rewrite Hheap. apply (ok_nodup _ _ Hok).
  - intros d D e' tid. rewrite Hheap, Heff. intros HD Hg.
    destruct (Hcur d D e' tid HD Hg) as (E0 & HE0 & -> & _).
    destruct (ok_edge _ _ Hok d D e' _ HD Hg) as (E1 & HE1 & Hc).
    assert (E1 = E0) as -> by congruence.
    rewrite lookup_insert. destruct (decide (e = e')) as [<-|Hne].
    + assert (E0 = E) as -> by congruence.
      eexists. split; [done|]. right. rewrite HT, Hlen, Hdeps. split; [lia|].
      destruct Hc as [[_ (i & _ & Hi)]|[_ (i & _ & Hi)]]; exists i; (split; [lia | done]).
    + exists E0. done.
  - intros e' E0. rewrite Heff, lookup_insert. destruct (decide (e = e')) as [<-|Hne].
    + intros [= <-]. lia.
    + apply (ok_cursor _ _ Hok).
  - intros tk d. rewrite (replaces_tm_lookup _ _ _ _ _ Hrep), Hheap.
    apply (ok_attached _ _ Hok).
  - intros d D. rewrite (replaces_tm_lookup _ _ _ _ _ Hrep), Hheap.
    apply (ok_nonempty _ _ Hok).
  - intros d. rewrite Hheap, Hnext. apply (ok_fresh _ _ Hok).
  - intros e' E0 i d. rewrite Heff, Hheap, lookup_insert.
    destruct (decide (e = e')) as [<-|Hne].
    + intros [= <-]. lia.
    + apply (ok_prefix _ _ Hok).
  - exists E'. rewrite Heff, lookup_insert_eq. done.
  - intros d D. rewrite Hheap. intros HD Hg.
    destruct (Hcur d D e _ HD Hg) as (E0 & HE0 & HT0 & _).
    assert (E0 = E) as -> by congruence. lia.
  - intros tk Htk. by apply elem_of_nil in Htk.
  - intros d D e' tid Hne. rewrite Hheap, Heff, lookup_insert_ne by done. apply Hcur.
  - intros e' E0 Hne. rewrite Heff, lookup_insert_ne by done. intros HE0.
    split; [by apply (Hfull e') | by apply (Hstop e')].
  - intros e'. rewrite (replaces_size _ _ _ _ _ HE Hrep), Heff, lookup_insert.
    destruct (decide (e = e')) as [<-|Hne]; [|apply Hids].
    intros _. apply Hids. by rewrite HE.
Qed.

(** ** The end of a run: [postCleanupEffect] *)

Lemma cleanup_fold e T seen l : ∀ s clean,
  running e T seen s → others_quiet e s →
  (∀ x, x ∈ clean → no_stale e T x s) →
  let s' := foldl (λ s' d, cleanupDepEffect d e s') s l in
  running e T seen s' ∧ others_quiet e s' ∧ effects s' = effects s
  ∧ activeEffect s' = activeEffect s ∧ shouldTrack s' = shouldTrack s
  ∧ onStops s' = onStops s
  ∧ ∀ x, x ∈ clean ++ l → no_stale e T x s'.
Proof.
  induction l as [|d l IH]; intros s clean Hrun Hq Hclean; simpl.
  - rewrite app_nil_r. done.
  - pose proof Hrun as [Hok (E & HE & HT) _ _].
    destruct (IH (cleanupDepEffect d e s) (clean ++ [d])) as (H1 & H2 & H3 & H4 & H5 & H6 & H7).
    + by apply cleanupDepEffect_running.
    + by eapply cleanupDepEffect_others.
    + intros x Hx X HX. apply elem_of_app in Hx as [Hx|Hx].
      * destruct (cleanupDepEffect_back _ d e s x X e Hok HX) as (X0 & HX0 & _ & [Hc|[_ Hc]]);
          [|by left].
        rewrite Hc. by apply (Hclean x Hx).
      * apply list_elem_of_singleton in Hx as ->. rewrite <-HT.
        eapply cleanupDepEffect_cleans; [|done|done].
        intros D HD. by apply (ok_nodup _ _ Hok d).
    + simpl in *. split; [done|]. split; [done|].
      rewrite H3, H4, H5, H6, effects_cleanupDepEffect, activeEffect_cleanupDepEffect,
        shouldTrack_cleanupDepEffect, onStops_cleanupDepEffect.
      repeat split; try done. intros x Hx. apply H7.
      rewrite <-app_assoc. done.
Qed.

Lemma postCleanupEffect_running e T seen s :
  running e T seen s → others_quiet e s →
  let s' := postCleanupEffect e s in
  running e T seen s' ∧ others_quiet e s'
  ∧ (∀ d D tid, dep_heap s' !! d = Some D → map_get e (entries D) = Some tid → tid = T)
  ∧ (∃ E E', effects s !! e = Some E ∧ effects s' !! e = Some E'
       ∧ _depsLength E' = length (deps E')
       ∧ deps E' = take (_depsLength E) (deps E) ∧ _trackId E' = _trackId E
       ∧ active E' = active E ∧ onStop E' = onStop E)
  ∧ activeEffect s' = activeEffect s ∧ shouldTrack s' = shouldTrack s
  ∧ onStops s' = onStops s.
Proof.
  intros Hrun Hq. pose proof Hrun as [Hok (E & HE & HT) Hfresh Hrec].
  pose proof (ok_cursor _ _ Hok e E HE) as Hcur.
  unfold postCleanupEffect. rewrite HE.
  destruct (decide (_depsLength E < length (deps E))) as [Hlt|Hge]; simpl.
  2:{ split; [done|]. split; [done|]. split.
      - intros d D tid HD Hg.
        destruct (ok_edge _ _ Hok d D e tid HD Hg) as (E0 & HE0 & Hc).
        assert (E0 = E) as -> by congruence.
        destruct Hc as [[-> _]|[_ (i & Hi & Hd)]]; [done|].
        apply lookup_lt_Some in Hd. lia.
      - split; [|done]. exists E, E. repeat split; try done; [lia|].
        rewrite take_ge; [done | lia]. }
  destruct (cleanup_fold e T seen (drop (_depsLength E) (deps E)) s [] Hrun Hq)
    as (Hrun1 & Hq1 & Heff1 & Ha1 & Hs1 & Ho1 & Hclean).
  { intros x Hx. by apply elem_of_nil in Hx. }
  simpl in Hclean.
  set (s1 := foldl (λ s' d, cleanupDepEffect d e s') s (drop (_depsLength E) (deps E))) in *.
  pose proof Hrun1 as [Hok1 _ Hfresh1 Hrec1].
  assert (HE1 : effects s1 !! e = Some E) by (by rewrite Heff1).
  (* no stale edge of [e] is left *)
  assert (∀ d D tid, dep_heap s1 !! d = Some D → map_get e (entries D) = Some tid → tid = T)
    as Hnostale.
  { intros d D tid HD Hg.
    destruct (ok_edge _ _ Hok1 d D e tid HD Hg) as (E0 & HE0 & Hc).
    assert (E0 = E) as -> by congruence.
    destruct Hc as [[-> _]|[Hlt' (i & Hi & Hd)]]; [done|].
    assert (d ∈ drop (_depsLength E) (deps E)) as Hin.
    { apply list_elem_of_lookup. exists (i - _depsLength E). rewrite lookup_drop.
      rewrite <-Hd. f_equal. lia. }
    destruct (Hclean d Hin D HD) as [Hn|Hc]; congruence. }
  set (E' := set_deps (take (_depsLength E) (deps E)) E).
  assert (∀ e', effects (update_effect e
            (λ E0, set_deps (take (_depsLength E0) (deps E0)) E0) s1) !! e'
          = if decide (e = e') then Some E' else effects s1 !! e') as Hlk.
  { intros e'. rewrite lookup_update_effect, HE1. done. }
  split; [split; [split|..]|].
  - apply (ok_nodup _ _ Hok1).
  - intros d D e' tid HD Hg. rewrite Hlk.
    destruct (ok_edge _ _ Hok1 d D e' tid HD Hg) as (E0 & HE0 & Hc).
    destruct (decide (e = e')) as [<-|Hne]; [|by exists E0].
    assert (E0 = E) as -> by congruence.
    exists E'. split; [done|]. simpl. left.
    destruct Hc as [[-> (i & Hi & Hd)]|[Hlt' _]].
    + split; [done|]. exists i. split; [done|]. by rewrite lookup_take_lt.
    + pose proof (Hnostale d D tid HD Hg). lia.
  - intros e' E0. rewrite Hlk. destruct (decide (e = e')) as [<-|Hne].
    + intros [= <-]. simpl. rewrite length_take. lia.
    + apply (ok_cursor _ _ Hok1).
  - apply (ok_attached _ _ Hok1).
  - apply (ok_nonempty _ _ Hok1).
  - apply (ok_fresh _ _ Hok1).
  - intros e' E0 i d. rewrite Hlk. destruct (decide (e = e')) as [<-|Hne].
    + intros [= <-]. simpl. intros Hi Hd. rewrite lookup_take_lt in Hd by done.
      by apply (ok_prefix _ _ Hok1 e E i d).
    + apply (ok_prefix _ _ Hok1).
  - exists E'. rewrite Hlk, decide_True by done. done.
  - apply Hfresh1.
  - apply Hrec1.
  - split; [by apply update_effect_others|]. split; [apply Hnostale|].
    split; [|done].
    exists E, E'. rewrite Hlk, decide_True by done. simpl.
    repeat split; try done. rewrite length_take. lia.
Qed.

(** ** Changes that the invariants do not see *)

Lemma keeps_graph_fields_cursor f : keeps_graph_fields f → keeps_cursor f.
Proof. intros H E. destruct (H E) as (? & ? & ? & _). done. Qed.

Lemma graph_inv_update_effect_cursor p e f s :
  keeps_cursor f → graph_inv p s → graph_inv p (update_effect e f s).
Proof.
  intros Hf [H1 H2 H3 H4 H5 H6 H7]. split; try done.
  - intros d D e' tid HD Hg. destruct (H2 d D e' tid HD Hg) as (E & HE & Hc).
    rewrite lookup_update_effect. destruct (decide (e = e')) as [<-|]; [|by exists E].
    rewrite HE. exists (f E). split; [done|].
    destruct (Hf E) as (-> & -> & ->). done.
  - intros e' E'. rewrite lookup_update_effect. destruct (decide (e = e')) as [<-|]; [|apply H3].
    destruct (effects s !! e) as [E|] eqn:HE; [|done]. intros [= <-].
    destruct (Hf E) as (-> & _ & ->). by apply (H3 e).
  - intros e' E' i d. rewrite lookup_update_effect.
    destruct (decide (e = e')) as [<-|]; [|apply H7].
    destruct (effects s !! e) as [E|] eqn:HE; [|done]. intros [= <-].
    destruct (Hf E) as (-> & -> & ->). by apply (H7 e).
Qed.

Lemma graph_inv_update_effect p e f s :
  keeps_graph_fields f → graph_inv p s → graph_inv p (update_effect e f s).
Proof. intros Hf. by apply graph_inv_update_effect_cursor, keeps_graph_fields_cursor. Qed.

Lemma quiescent_update_effect e f s :
  keeps_graph_fields f → quiescent s → quiescent (update_effect e f s).
Proof.
  intros Hf [H1 H2 H3 H4 H5 H6]. split.
  - by apply graph_inv_update_effect.
  - done.
  - intros e' E'. rewrite lookup_update_effect. destruct (decide (e = e')) as [<-|]; [|apply H3].
    destruct (effects s !! e) as [E|] eqn:HE; [|done]. intros [= <-].
    destruct (Hf E) as (-> & _ & -> & _). by apply (H3 e).
  - intros d D e' tid HD Hg. destruct (H4 d D e' tid HD Hg) as (E & HE & Hc).
    rewrite lookup_update_effect. destruct (decide (e = e')) as [<-|]; [|by exists E].
    rewrite HE. exists (f E). split; [done|].
    destruct (Hf E) as (_ & -> & _ & ->). done.
  - intros e' E'. rewrite lookup_update_effect. destruct (decide (e = e')) as [<-|]; [|apply H5].
    destruct (effects s !! e) as [E|] eqn:HE; [|done]. intros [= <-].
    destruct (Hf E) as (-> & _ & _ & ->). by apply (H5 e).
  - intros e'. rewrite lookup_update_effect. unfold update_effect. simpl.
    rewrite size_effects_alter. destruct (decide (e = e')) as [<-|]; [|apply H6].
    intros HS. apply H6. by apply fmap_is_Some in HS.
Qed.

Lemma keeps_set_dirtyLevel l : keeps_graph_fields (set_dirtyLevel l).
Proof. intros E. done. Qed.

Lemma keeps_set_runnings g : keeps_graph_fields (λ E, set_runnings (g E) E).
Proof. intros E. done. Qed.

(** ** [run] *)

Lemma onStops_track tk s : onStops (track tk s) = onStops s.
Proof.
  unfold track. destruct (activeEffect s); [|done]. destruct (shouldTrack s); [|done].
  destruct (tm_lookup s tk); [apply onStops_trackEffect|].
  unfold createDep. rewrite onStops_trackEffect. reflexivity.
Qed.

Lemma onStops_call_fn l s : onStops (call_fn l s) = onStops s.
Proof.
  revert s. induction l as [|tk l IH]; intros s; [done|].
  unfold call_fn. simpl. fold (call_fn l (track tk s)). by rewrite IH, onStops_track.
Qed.

(** [active] of an effect is not touched by tracking. *)
Lemma active_trackEffect e0 d s e E :
  effects s !! e = Some E →
  ∃ E', effects (trackEffect e0 d s) !! e = Some E' ∧ active E' = active E.
Proof.
  intros HE. unfold trackEffect.
  repeat case_match; try (by exists E);
    rewrite lookup_update_effect; simpl; rewrite ?effects_cleanupDepEffect; simpl;
    (destruct (decide (e0 = e)) as [->|];
      [rewrite HE; eexists; split; [done|]; done | by exists E]).
Qed.

Lemma active_track tk s e E :
  effects s !! e = Some E →
  ∃ E', effects (track tk s) !! e = Some E' ∧ active E' = active E.
Proof.
  intros HE. unfold track. destruct (activeEffect s); [|by exists E].
  destruct (shouldTrack s); [|by exists E].
  destruct (tm_lookup s tk); [by apply active_trackEffect|].
  unfold createDep. by apply active_trackEffect.
Qed.

Lemma active_call_fn l s e E :
  effects s !! e = Some E →
  ∃ E', effects (call_fn l s) !! e = Some E' ∧ active E' = active E.
Proof.
  revert s E. induction l as [|tk l IH]; intros s E HE; [by exists E|].
  unfold call_fn. simpl. fold (call_fn l (track tk s)).
  destruct (active_track tk s e E HE) as (E1 & HE1 & <-). by apply IH.
Qed.

Section run.
Context (e : nat) (reads : list (target * key)) (s : State) (E : ReactiveEffect).
Hypothesis Hq : quiescent s.
Hypothesis HE : effects s !! e = Some E.

Local Abbreviation started := (started e s).
Local Abbreviation started_effect := (started_effect E).

Lemma run_inactive : active E = false → run e reads s = update_effect e (set_dirtyLevel NotDirty) s.
Proof using Hq HE.
  intros Hact. unfold run. rewrite lookup_update_effect, decide_True, HE by done. simpl.
  rewrite Hact. apply call_fn_idle. simpl. by destruct Hq.
Qed.

Lemma started_replaces : replaces e started_effect s started.
Proof using HE.
  unfold replaces, started. split; [|repeat split; reflexivity].
  unfold preCleanupEffect, update_effect. simpl.
  apply map_eq. intros e'. rewrite lookup_insert.
  destruct (decide (e = e')) as [<-|]; [|by rewrite !lookup_alter_ne].
  rewrite !lookup_alter_eq, HE. reflexivity.
Qed.

Lemma run_active :
  active E = true →
  run e reads s
  = set_shouldTrack (shouldTrack s)
      (set_activeEffect (activeEffect s)
         (update_effect e (λ E', set_runnings (_runnings E' - 1) E')
            (postCleanupEffect e (call_fn reads started)))).
Proof using HE.
  intros Hact. unfold run. rewrite lookup_update_effect, decide_True, HE by done. simpl.
  rewrite Hact. done.
Qed.

Lemma run_spec :
  active E = true →
  quiescent (run e reads s)
  ∧ (∃ E', effects (run e reads s) !! e = Some E'
       ∧ _trackId E' = _trackId E + 1 ∧ active E' = true
       ∧ ∀ d, d ∈ deps E' →
           ∃ D, dep_heap (run e reads s) !! d = Some D ∧ owner D ∈ reads)
  ∧ (∀ d D, dep_heap (run e reads s) !! d = Some D → member e D → owner D ∈ reads)
  ∧ (∀ tk, tk ∈ reads →
       ∃ d D, tm_lookup (run e reads s) tk = Some d
              ∧ dep_heap (run e reads s) !! d = Some D
              ∧ map_get e (entries D) = Some (_trackId E + 1))
  ∧ onStops (run e reads s) = onStops s.
Proof using Hq HE.
  intros Hact. rewrite (run_active Hact).
  destruct (begin_run e E started_effect s started Hq HE started_replaces)
    as [Hrun3 Hq3]; [done..|].
  destruct (call_fn_running e (_trackId E + 1) reads [] started Hrun3 Hq3)
    as (Hrun4 & Hq4 & Ha4 & Hs4); [done..|].
  simpl in Hrun4.
  assert (onStops (call_fn reads started) = onStops s) as Hon4.
  { rewrite onStops_call_fn. reflexivity. }
  destruct (postCleanupEffect_running e (_trackId E + 1) reads _ Hrun4 Hq4)
    as (Hrun5 & Hq5 & Hnostale & (E4 & E5 & HE4 & HE5 & Hfull5 & Hdeps5 & HT5 & Hact5 & _)
        & Ha5 & Hs5 & Hon5).
  set (s5 := postCleanupEffect e (call_fn reads started)) in *.
  pose proof Hrun5 as [Hok5 (E5' & HE5' & HT5') Hfresh5 Hrec5].
  assert (E5' = E5) as -> by congruence.
  assert (active E4 = true) as Hact4.
  { destruct (active_call_fn reads started e started_effect) as (E1 & HE1 & Hact1).
    - destruct started_replaces as (-> & _). by rewrite lookup_insert_eq.
    - assert (E1 = E4) as -> by congruence. rewrite Hact1. exact Hact. }
  set (fin := λ E' : ReactiveEffect, set_runnings (_runnings E' - 1) E').
  set (s6 := update_effect e fin s5).
  assert (graph_ok s6) as Hok6.
  { apply graph_inv_update_effect; [apply keeps_set_runnings | done]. }
  assert (others_quiet e s6) as Hq6 by (by apply update_effect_others).
  assert (HE6 : effects s6 !! e = Some (fin E5)).
  { unfold s6. rewrite lookup_update_effect, decide_True, HE5 by done. done. }
  assert (∀ d D tid, dep_heap s6 !! d = Some D → map_get e (entries D) = Some tid →
            tid = _trackId E + 1) as Hnostale6 by exact Hnostale.
  split; [split|split; [|split; [|split]]].
  - destruct Hok6 as [G1 G2 G3 G4 G5 G6 G7]. by split.
  - simpl. by destruct Hq.
  - intros e' E'. destruct (decide (e' = e)) as [->|Hne].
    + intros HE'. change (effects s6 !! e = Some E') in HE'.
      assert (E' = fin E5) as -> by congruence. exact Hfull5.
    + intros HE'. by apply (oq_full _ _ Hq6 e' E' Hne).
  - intros d D e' tid HD Hg. destruct (decide (e' = e)) as [->|Hne].
    + exists (fin E5). split; [exact HE6|]. simpl.
      rewrite (Hnostale6 d D tid HD Hg). split; [congruence | congruence].
    + by apply (oq_current _ _ Hq6 d D e' tid Hne).
  - intros e' E'. destruct (decide (e' = e)) as [->|Hne].
    + intros HE'. change (effects s6 !! e = Some E') in HE'.
      assert (E' = fin E5) as -> by congruence. simpl. congruence.
    + intros HE'. by apply (oq_full _ _ Hq6 e' E' Hne).
  - apply (oq_ids _ _ Hq6).
  - exists (fin E5). split; [exact HE6|]. simpl. split; [congruence|]. split; [congruence|].
    intros d Hd. apply list_elem_of_lookup in Hd as [i Hi].
    destruct (ok_prefix _ _ Hok5 e E5 i d HE5) as (D & HD & Hg); [|done|].
    { rewrite Hfull5. by eapply lookup_lt_Some. }
    exists D. split; [exact HD|]. apply (Hfresh5 d D HD). congruence.
  - intros d D HD Hm. apply map_get_is_Some in Hm as [tid Hg].
    apply (Hfresh5 d D HD). rewrite Hg. f_equal. by apply (Hnostale d D tid).
  - intros tk Htk. destruct (Hrec5 tk Htk) as (d & D & Hd & HD & Hg). by exists d, D.
  - simpl. change (onStops s5 = onStops s). congruence.
Qed.

End run.

(** ** [stop] *)

Lemma onStops_cleanup_fold e l s :
  onStops (foldl (λ s' d, cleanupDepEffect d e s') s l) = onStops s
  ∧ effects (foldl (λ s' d, cleanupDepEffect d e s') s l) = effects s.
Proof.
  revert s. induction l as [|d l IH]; intros s; simpl; [done|].
  destruct (IH (cleanupDepEffect d e s)) as [-> ->].
  by rewrite onStops_cleanupDepEffect, effects_cleanupDepEffect.
Qed.

Lemma onStops_postCleanupEffect e s : onStops (postCleanupEffect e s) = onStops s.
Proof.
  unfold postCleanupEffect. destruct (effects s !! e); [|done].
  destruct (decide _); [|done]. simpl. apply onStops_cleanup_fold.
Qed.

Lemma lookup_postCleanupEffect e s :
  is_Some (effects (postCleanupEffect e s) !! e) ↔ is_Some (effects s !! e).
Proof.
  unfold postCleanupEffect. destruct (effects s !! e) as [E|] eqn:HE; [|by rewrite HE].
  destruct (decide _); [|by rewrite HE].
  rewrite lookup_update_effect, decide_True by done.
  destruct (onStops_cleanup_fold e (drop (_depsLength E) (deps E)) s) as [_ ->].
  rewrite HE. split; intros _; by eexists.
Qed.

Lemma stop_result e s E :
  effects s !! e = Some E → active E = true →
  stop e s
  = update_effect e (set_active false)
      ((if onStop E then log_onStop e else id)
         (postCleanupEffect e (preCleanupEffect e s))).
Proof. intros HE Hact. unfold stop. rewrite HE, Hact. by destruct (onStop E). Qed.

Lemma stop_noop e s :
  (∀ E, effects s !! e = Some E → active E = false) → stop e s = s.
Proof.
  intros H. unfold stop. destruct (effects s !! e) as [E|]; [|done].
  by rewrite (H E).
Qed.

Lemma stop_stopped e s E' : effects (stop e s) !! e = Some E' → active E' = false.
Proof.
  unfold stop. destruct (effects s !! e) as [E|] eqn:HE.
  - destruct (active E) eqn:Hact.
    + rewrite lookup_update_effect, decide_True by done.
      intros H. apply fmap_Some in H as (E0 & _ & ->). done.
    + rewrite HE. intros [= <-]. done.
  - by rewrite HE.
Qed.

Lemma onStops_stop e s :
  onStops (stop e s)
  = onStops s ++ match effects s !! e with
                 | Some E => if active E && onStop E then [e] else []
                 | None => []
                 end.
Proof.
  unfold stop. destruct (effects s !! e) as [E|]; [|by rewrite app_nil_r].
  destruct (active E); simpl; [|by rewrite app_nil_r].
  destruct (onStop E); simpl.
  - by rewrite onStops_postCleanupEffect.
  - rewrite onStops_postCleanupEffect. simpl. by rewrite app_nil_r.
Qed.

Lemma stop_quiescent e s : quiescent s → quiescent (stop e s).
Proof.
  intros Hq. destruct (effects s !! e) as [E|] eqn:HE.
  2:{ rewrite stop_noop; [done|]. intros E. by rewrite HE. }
  destruct (active E) eqn:Hact.
  2:{ rewrite stop_noop; [done|]. intros E0. rewrite HE. by intros [= <-]. }
  rewrite (stop_result e s E HE Hact).
  set (E1 := set_depsLength 0 (set_trackId (_trackId E + 1) E)).
  assert (replaces e E1 s (preCleanupEffect e s)) as Hrep.
  { unfold replaces. split; [|repeat split; reflexivity].
    unfold preCleanupEffect, update_effect. simpl. apply map_eq. intros e'.
    rewrite lookup_insert. destruct (decide (e = e')) as [<-|]; [|by rewrite lookup_alter_ne].
    rewrite lookup_alter_eq, HE. reflexivity. }
  destruct (begin_run e E E1 s _ Hq HE Hrep) as [Hrun1 Hq1]; [done..|].
  destruct (postCleanupEffect_running e (_trackId E + 1) [] _ Hrun1 Hq1)
    as (Hrun2 & Hq2 & Hnostale & (E1' & E2 & HE1 & HE2 & Hfull2 & Hdeps2 & HT2 & Hact2 & _)
        & Ha2 & _ & _).
  set (s2 := postCleanupEffect e (preCleanupEffect e s)) in *.
  assert (E1' = E1) as ->.
  { destruct Hrep as (Heq & _). rewrite Heq, lookup_insert_eq in HE1. congruence. }
  pose proof Hrun2 as [Hok2 _ Hfresh2 _].
  set (s3 := (if onStop E then log_onStop e else id) s2).
  assert (graph_ok s3 ∧ others_quiet e s3 ∧ effects s3 = effects s2
          ∧ dep_heap s3 = dep_heap s2 ∧ activeEffect s3 = activeEffect s2) as (Hok3 & Hq3 & Heff3 & Hheap3 & Ha3).
  { unfold s3. destruct (onStop E); [|done].
    split; [|split; [|done]].
    - destruct Hok2 as [G1 G2 G3 G4 G5 G6 G7]. by split.
    - destruct Hq2 as [O1 O2 O3]. by split. }
  assert (deps E2 = []) as Hnil by (by rewrite Hdeps2).
  assert (HE4 : effects (update_effect e (set_active false) s3) !! e
                = Some (set_active false E2)).
  { rewrite lookup_update_effect, decide_True, Heff3, HE2 by done. done. }
  assert (others_quiet e (update_effect e (set_active false) s3)) as Hq4
    by (by apply update_effect_others).
  split.
  - apply graph_inv_update_effect_cursor; [by intros E0 | done].
  - change (activeEffect s3 = None). rewrite Ha3, Ha2. simpl. by destruct Hq.
  - intros e' E'. destruct (decide (e' = e)) as [->|Hne].
    + rewrite HE4. intros [= <-]. exact Hfull2.
    + intros HE'. by apply (oq_full _ _ Hq4 e' E' Hne).
  - intros d D e' tid HD Hg. destruct (decide (e' = e)) as [->|Hne].
    + exfalso. change (dep_heap s3 !! d = Some D) in HD. rewrite Hheap3 in HD.
      pose proof (Hnostale d D tid HD Hg) as ->.
      pose proof (Hfresh2 d D HD Hg) as Hin. by apply elem_of_nil in Hin.
    + by apply (oq_current _ _ Hq4 d D e' tid Hne).
  - intros e' E'. destruct (decide (e' = e)) as [->|Hne].
    + rewrite HE4. intros [= <-] _. exact Hnil.
    + intros HE'. by apply (oq_full _ _ Hq4 e' E' Hne).
  - apply (oq_ids _ _ Hq4).
Qed.

(** ** Reachable states *)

Lemma initial_quiescent : quiescent initial.
Proof.
  assert (∀ tk, tm_lookup initial tk = None) as Htm.
  { intros tk. unfold tm_lookup. simpl. by rewrite lookup_empty. }
  split; [split|..]; simpl.
  - intros d D H. by rewrite lookup_empty in H.
  - intros d D e tid H. by rewrite lookup_empty in H.
  - intros e E H. by rewrite lookup_empty in H.
  - intros tk d H. by rewrite Htm in H.
  - intros d D H. by rewrite lookup_empty in H.
  - intros d H. rewrite lookup_empty in H. by destruct H.
  - intros e E i d H. by rewrite lookup_empty in H.
  - done.
  - intros e E H. by rewrite lookup_empty in H.
  - intros d D e tid H. by rewrite lookup_empty in H.
  - intros e E H. by rewrite lookup_empty in H.
  - intros e H. rewrite lookup_empty in H. by destruct H.
Qed.

Lemma new_effect_quiescent b s :
  quiescent s →
  quiescent (set_effects (<[size (effects s) := new_effect b]> (effects s)) s).
Proof.
  intros [Hok Hidle Hfull Hcur Hstop Hids].
  assert (effects s !! size (effects s) = None) as Hnew.
  { destruct (effects s !! size (effects s)) eqn:H; [|done].
    pose proof (Hids (size (effects s)) (mk_is_Some _ _ H)). lia. }
  assert (∀ e E, effects s !! e = Some E → size (effects s) ≠ e) as Hne
    by (intros e E HE Heq; congruence).
  destruct Hok as [G1 G2 G3 G4 G5 G6 G7].
  split; [split|..]; simpl; try done.
  - intros d D e tid HD Hg. destruct (G2 d D e tid HD Hg) as (E & HE & Hc).
    exists E. rewrite lookup_insert_ne by (by eapply Hne). done.
  - intros e E. rewrite lookup_insert. destruct (decide _); [|apply G3].
    intros [= <-]. simpl. lia.
  - intros e E i d. rewrite lookup_insert. destruct (decide _); [|apply G7].
    intros [= <-]. simpl. lia.
  - intros e E. rewrite lookup_insert. destruct (decide _); [|apply Hfull].
    by intros [= <-].
  - intros d D e tid HD Hg. destruct (Hcur d D e tid HD Hg) as (E & HE & Hc).
    exists E. rewrite lookup_insert_ne by (by eapply Hne). done.
  - intros e E. rewrite lookup_insert. destruct (decide _); [|apply Hstop].
    by intros [= <-].
  - intros e. rewrite map_size_insert_None by done. rewrite lookup_insert.
    destruct (decide _) as [<-|]; [lia|]. intros H. apply Hids in H. lia.
Qed.

Lemma run_quiescent e reads s : quiescent s → quiescent (run e reads s).
Proof.
  intros Hq. destruct (effects s !! e) as [E|] eqn:HE.
  - destruct (active E) eqn:Hact.
    + by destruct (run_spec e reads s E Hq HE Hact) as [? _].
    + rewrite (run_inactive e reads s E Hq HE Hact).
      apply quiescent_update_effect; [apply keeps_set_dirtyLevel | done].
  - unfold run. rewrite lookup_update_effect, decide_True, HE by done. simpl.
    apply quiescent_update_effect; [apply keeps_set_dirtyLevel | done].
Qed.

Lemma exec1_quiescent s c : quiescent s → quiescent (exec1 s c).
Proof.
  intros Hq. destruct c as [b|e reads|e]; simpl.
  - by apply new_effect_quiescent.
  - by apply run_quiescent.
  - by apply stop_quiescent.
Qed.

Lemma exec_quiescent cs : quiescent (exec cs).
Proof.
  unfold exec. induction cs as [|c cs IH] using rev_ind; simpl.
  - apply initial_quiescent.
  - rewrite foldl_snoc. by apply exec1_quiescent.
Qed.

(** The early return of [trackEffect]: a Dep that holds the effect under its
    current trackId is left alone, and so are [deps] and the cursor. *)
Lemma trackEffect_recorded (s : State) (e d : nat) (E : ReactiveEffect) (D : Dep) :
  effects s !! e = Some E → dep_heap s !! d = Some D →
  map_get e (entries D) = Some (_trackId E) → trackEffect e d s = s.
Proof.
  intros HE HD Hg. unfold trackEffect. rewrite HE, HD.
  by rewrite decide_False by (intros Hne; by apply Hne).
Qed.

(** A run of an active effect that reads a property records the edge
    once, in every state between two runs. *)
Lemma run_records_edge_once
    (s : State) (e : nat) (reads : list (target * key))
    (tk : target * key) (E : ReactiveEffect) :
  quiescent s → effects s !! e = Some E → active E = true → tk ∈ reads →
  ∃ d D, tm_lookup (run e reads s) tk = Some d
       ∧ dep_heap (run e reads s) !! d = Some D
       ∧ map_get e (entries D) = Some (_trackId E + 1)
       ∧ occurrences e D = 1.
Proof.
  intros Hq0 HE Hact Htk.
  destruct (run_spec e reads s E Hq0 HE Hact) as (Hq & _ & _ & Hrec & _).
  destruct (Hrec tk Htk) as (d & D & Hd & HD & Hg).
  exists d, D. repeat split; try done.
  unfold occurrences. eapply map_occurrences; [|done].
  destruct Hq as [Hok _ _ _ _ _]. by apply (ok_nodup _ _ Hok d).
Qed.

(** A run leaves no edge to a property that it did not read, in every
    state between two runs. *)
Lemma run_leaves_no_stale_edge
    (s : State) (e : nat) (reads : list (target * key))
    (tk : target * key) (E : ReactiveEffect) :
  quiescent s → effects s !! e = Some E → tk ∉ reads →
  ∀ d D E', dep_heap (run e reads s) !! d = Some D → owner D = tk →
            effects (run e reads s) !! e = Some E' →
            ¬ member e D ∧ d ∉ deps E'.
Proof.
  intros Hq HE Htk d D E' HD Ho HE'.
  destruct (active E) eqn:Hact.
  - destruct (run_spec e reads s E Hq HE Hact)
      as (_ & (E1 & HE1 & _ & _ & Hdeps) & Hmem & _).
    assert (E1 = E') as -> by congruence. split.
    + intros Hm. apply Htk. rewrite <-Ho. by apply (Hmem d D).
    + intros Hd. destruct (Hdeps d Hd) as (D0 & HD0 & Hin).
      assert (D0 = D) as -> by congruence. apply Htk. by rewrite <-Ho.
  - rewrite (run_inactive e reads s E Hq HE Hact) in HD, HE'.
    change (dep_heap s !! d = Some D) in HD.
    rewrite lookup_update_effect, decide_True, HE in HE' by done.
    injection HE' as <-. simpl. split.
    + intros Hm. apply map_get_is_Some in Hm as [tid Hg].
      destruct (q_current _ Hq d D e tid HD Hg) as (E0 & HE0 & _ & Hact0). congruence.
    + rewrite (q_stopped _ Hq e E HE Hact). apply not_elem_of_nil.
Qed.

(** C3, empty-Dep cleanup: when [cleanupDepEffect] removes the last effect
    of a Dep, the cleanup closure of the Dep is called once, and the slot of
    the Dep is gone from the target map; a removal that leaves effects
    behind, and a call on a Dep that is empty already, call no cleanup and
    leave the target map as it is.  So in every state the commands reach, a
    Dep is in the target map iff it is not empty, and only under the property
    that owns it. *)
Theorem empty_dep_leaves_target_map :
  (∀ (s : State) (d e : nat) (D : Dep),
     dep_heap s !! d = Some D →
     ∃ D', dep_heap (cleanupDepEffect d e s) !! d = Some D' ∧ owner D' = owner D
       ∧ (entries D ≠ [] → entries D' = [] →
            cleanups (cleanupDepEffect d e s) = cleanups s ++ [d]
            ∧ tm_lookup (cleanupDepEffect d e s) (owner D) = None)
       ∧ (entries D' ≠ [] ∨ entries D = [] →
            cleanups (cleanupDepEffect d e s) = cleanups s
            ∧ targetMap (cleanupDepEffect d e s) = targetMap s))
  ∧ (∀ (cs : list command) (d : nat) (D : Dep),
       dep_heap (exec cs) !! d = Some D →
       (tm_lookup (exec cs) (owner D) = Some d ↔ entries D ≠ [])
       ∧ (∀ tk, tm_lookup (exec cs) tk = Some d → tk = owner D)).
Proof.
  split.
  - intros s d e D HD.
    destruct (cleanupDepEffect_cases d e s) as [[Heq _]|(D0 & E & tid & Hst & Heq)].
    + rewrite Heq. exists D. split; [done|]. split; [done|]. split; [congruence | done].
    + pose proof Hst as (HD0 & HE & Hg & Hne).
      assert (D0 = D) as -> by congruence.
      rewrite (dep_heap_cleanupDepEffect _ _ _ _ _ _ _ Hst), decide_True by done.
      eexists. split; [done|]. simpl. split; [done|]. split.
      * intros _ Hnil.
        rewrite (cleanups_cleanupDepEffect _ _ _ _ _ _ Hst), decide_True by done.
        rewrite (tm_lookup_cleanupDepEffect _ _ _ _ _ _ _ Hst), decide_True by done.
        done.
      * intros [Hnn|Hnil]; [|by rewrite Hnil in Hg].
        rewrite (cleanups_cleanupDepEffect _ _ _ _ _ _ Hst), decide_False by done.
        split; [done|]. rewrite Heq.
        rewrite decide_False; [done|]. intros Hlen. by apply length_zero_iff_nil in Hlen.
  - intros cs d D HD. destruct (exec_quiescent cs) as [Hok _ _ _ _ _]. split; [split|].
    + intros Hd. destruct (ok_attached _ _ Hok _ d Hd) as (D0 & HD0 & _ & [Hne|Hp]); [|done].
      congruence.
    + by apply (ok_nonempty _ _ Hok).
    + intros tk Hd. destruct (ok_attached _ _ Hok tk d Hd) as (D0 & HD0 & Ho & _).
      congruence.
Qed.

Lemma empty_dep_leaves_target_map_witness :
  ∃ D, dep_heap (exec [NewEffect false; Run 0 [(1, "a")]; Run 0 []]) !! 0 = Some D
       ∧ entries D = []
       ∧ tm_lookup (exec [NewEffect false; Run 0 [(1, "a")]; Run 0 []]) (owner D) ≠ Some 0
       ∧ cleanups (exec [NewEffect false; Run 0 [(1, "a")]; Run 0 []]) = [0].
Proof.
  exists {| entries := []; owner := (1, "a"); dep_computed := None |}.
  assert (HD : dep_heap (exec [NewEffect false; Run 0 [(1, "a")]; Run 0 []]) !! 0
               = Some {| entries := []; owner := (1, "a"); dep_computed := None |}).
  { vm_compute. reflexivity. }
  split; [exact HD|]. split; [reflexivity|]. split; [|vm_compute; reflexivity].
  intros Hl.
  apply (proj1 (proj1 (proj2 empty_dep_leaves_target_map _ 0 _ HD))) in Hl.
  by apply Hl.
Defined.



(** ** The two directions of an edge *)

(** Between two runs the edges are kept in both directions: the Deps in
    [deps] of an effect are the Deps that hold the effect, and they hold it
    under its current trackId; only active effects are held. *)
Lemma edges_are_mirrored (s : State) (e : nat) (E : ReactiveEffect) :
  quiescent s → effects s !! e = Some E →
  (∀ d, d ∈ deps E ↔ ∃ D, dep_heap s !! d = Some D ∧ member e D)
  ∧ (∀ d D, dep_heap s !! d = Some D → member e D →
            map_get e (entries D) = Some (_trackId E) ∧ active E = true)
  ∧ _depsLength E = length (deps E).
Proof.
  intros [Hok _ Hfull Hcur _ _] HE.
  assert (Hheld : ∀ d D, dep_heap s !! d = Some D → member e D →
            map_get e (entries D) = Some (_trackId E) ∧ active E = true).
  { intros d D HD Hm. apply (proj2 (map_get_is_Some e (entries D))) in Hm as [tid Hg].
    destruct (Hcur d D e tid HD Hg) as (E0 & HE0 & -> & Hact).
    assert (E0 = E) as -> by congruence. done. }
  split; [|split; [exact Hheld | exact (Hfull e E HE)]].
  intros d. split.
  - intros Hd. apply list_elem_of_lookup in Hd as [i Hi].
    pose proof (lookup_lt_Some _ _ _ Hi) as Hlt.
    rewrite <-(Hfull e E HE) in Hlt.
    destruct (ok_prefix _ _ Hok e E i d HE Hlt Hi) as (D & HD & Hg).
    exists D. split; [done|]. unfold member. apply map_get_is_Some.
    by exists (_trackId E).
  - intros (D & HD & Hm).
    destruct (Hheld d D HD Hm) as [Hg _].
    destruct (ok_edge _ _ Hok d D e _ HD Hg) as (E0 & HE0 & Hcase).
    assert (E0 = E) as -> by congruence.
    destruct Hcase as [(_ & i & _ & Hi)|(Hlt & _)]; [|lia].
    apply list_elem_of_lookup. by exists i.
Qed.

(** ** A stopped effect *)

Lemma run_not_active e reads s :
  quiescent s → (∀ E, effects s !! e = Some E → active E = false) →
  run e reads s = update_effect e (set_dirtyLevel NotDirty) s.
Proof.
  intros Hq Hoff. destruct (effects s !! e) as [E|] eqn:HE.
  - by apply (run_inactive e reads s E Hq HE), Hoff.
  - unfold run. by rewrite lookup_update_effect, decide_True, HE by done.
Qed.

(** [stop] unsubscribes, in every state between two runs. *)
Lemma stop_leaves_no_edge (s : State) (e : nat) :
  quiescent s →
  (∀ d D, dep_heap (stop e s) !! d = Some D → ¬ member e D)
  ∧ (∀ E', effects (stop e s) !! e = Some E' →
           active E' = false ∧ deps E' = [] ∧ _depsLength E' = 0)
  ∧ (∀ reads,
       dep_heap (run e reads (stop e s)) = dep_heap (stop e s)
       ∧ targetMap (run e reads (stop e s)) = targetMap (stop e s)
       ∧ ∀ E', effects (run e reads (stop e s)) !! e = Some E' →
               active E' = false ∧ deps E' = []).
Proof.
  intros Hq0.
  pose proof (stop_quiescent e _ Hq0) as Hq.
  pose proof (stop_stopped e s) as Hoff.
  set (s' := stop e s) in *.
  split; [|split].
  - intros d D HD Hm.
    apply (proj2 (map_get_is_Some e (entries D))) in Hm as [tid Hg].
    destruct (q_current _ Hq d D e tid HD Hg) as (E & HE & _ & Hact).
    specialize (Hoff E HE). congruence.
  - intros E' HE'. pose proof (Hoff E' HE') as Hact.
    pose proof (q_stopped _ Hq e E' HE' Hact) as Hdeps.
    pose proof (q_full _ Hq e E' HE') as Hlen.
    rewrite Hdeps in Hlen. done.
  - intros reads. rewrite (run_not_active e reads s' Hq Hoff).
    split; [done|]. split; [done|].
    intros E'. rewrite lookup_update_effect, decide_True by done.
    intros HE'. apply fmap_Some in HE' as (E0 & HE0 & ->). simpl.
    pose proof (Hoff E0 HE0) as Hact.
    by rewrite (q_stopped _ Hq e E0 HE0 Hact).
Qed.

End ReactivityProofs.

(** ** Triggers *)

Module TriggerProofs.
Import Reactivity Trigger ReactivityProofs.

(** ** Pausing and resuming tracking *)

Lemma resetTracking_push b g flag :
  resetTracking (set_shouldTrack flag (set_trackStack (trackStack g ++ [b]) g))
  = set_shouldTrack b g.
Proof.
  unfold resetTracking. simpl. rewrite reverse_snoc. simpl.
  rewrite reverse_involutive. by destruct g.
Qed.

(** After calls that leave [n] pushes open, the rest of a balanced sequence
    pops exactly those. *)
Lemma balanced_pops : ∀ cs n g base top,
  balanced n cs = true → trackStack g = base ++ top → length top = n →
  foldl tracking_step g cs
  = match top with
    | [] => g
    | b :: _ => set_shouldTrack b (set_trackStack base g)
    end.
Proof.
  induction cs as [|c cs IH]; intros n g base top Hbal Hstack Hlen;
    simpl in Hbal; cbn [foldl].
  - apply Nat.eqb_eq in Hbal. subst n. by destruct top.
  - destruct c; cbn [tracking_step].
    + rewrite (IH (S n) (pauseTracking g) base (top ++ [shouldTrack g])); [|done|..].
      * destruct top as [|b top]; simpl.
        -- rewrite app_nil_r in Hstack. rewrite <-Hstack. by destruct g.
        -- by destruct g.
      * simpl. by rewrite Hstack, <-app_assoc.
      * rewrite length_app. simpl. lia.
    + rewrite (IH (S n) (enableTracking g) base (top ++ [shouldTrack g])); [|done|..].
      * destruct top as [|b top]; simpl.
        -- rewrite app_nil_r in Hstack. rewrite <-Hstack. by destruct g.
        -- by destruct g.
      * simpl. by rewrite Hstack, <-app_assoc.
      * rewrite length_app. simpl. lia.
    + destruct n as [|n]; [done|].
      destruct (decide (top = [])) as [->|Hne]; [done|].
      destruct (exists_last Hne) as (top' & b & ->).
      rewrite length_app in Hlen. simpl in Hlen.
      assert (Hreset : resetTracking g = set_shouldTrack b (set_trackStack (base ++ top') g)).
      { unfold resetTracking. rewrite Hstack, app_assoc, reverse_snoc.
        by rewrite reverse_involutive. }
      rewrite Hreset.
      rewrite (IH n _ base top'); [|done|done|lia].
      destruct top' as [|b' top']; simpl.
      * rewrite app_nil_r. by destruct g.
      * by destruct g.
Qed.

(** X19, [pauseTracking], [enableTracking] and [resetTracking] nest.  A
    sequence of calls in which every [resetTracking] closes an earlier
    [pauseTracking] or [enableTracking] of the sequence, and every one of
    those is closed, leaves the whole state as it found it, whatever
    [shouldTrack] and the stack were.  Between [pauseTracking] and its
    [resetTracking] a read records nothing.  A [resetTracking] on the empty
    stack turns tracking on. *)
Theorem tracking_calls_nest (g : State) :
  (∀ cs, balanced 0 cs = true → foldl tracking_step g cs = g)
  ∧ (∀ cs tk, balanced 0 cs = true →
       track tk (foldl tracking_step (pauseTracking g) cs)
       = foldl tracking_step (pauseTracking g) cs)
  ∧ (trackStack g = [] → shouldTrack (resetTracking g) = true).
Proof.
  split; [|split].
  - intros cs Hbal. by rewrite (balanced_pops cs 0 g (trackStack g) []) by (by rewrite ?app_nil_r).
  - intros cs tk Hbal.
    rewrite (balanced_pops cs 0 (pauseTracking g) (trackStack (pauseTracking g)) [])
      by (by rewrite ?app_nil_r).
    unfold track. simpl. by destruct (activeEffect g).
  - intros Hnil. unfold resetTracking. by rewrite Hnil.
Qed.

Lemma tracking_calls_nest_witness :
  foldl tracking_step (Reactivity.exec [NewEffect false; Run 0 [(1, "a")]])
    [Pause; Enable; Reset; Pause; Reset; Reset]
  = Reactivity.exec [NewEffect false; Run 0 [(1, "a")]].
Proof.
  apply (proj1 (tracking_calls_nest (Reactivity.exec [NewEffect false; Run 0 [(1, "a")]]))).
  reflexivity.
Defined.

(** ** What tracking writes to an effect *)

Lemma touches_refl e g : touches e g g.
Proof. by intros e'. Qed.

Lemma touches_trans e a b c : touches e a b → touches e b c → touches e a c.
Proof.
  intros H1 H2 e'. destruct (H1 e') as [H1a H1b], (H2 e') as [H2a H2b]. split.
  - intros Hne. by rewrite H2a, H1a.
  - by rewrite H2b.
Qed.

Lemma touches_effects_eq e g g' : effects g' = effects g → touches e g g'.
Proof. intros H e'. by rewrite H. Qed.

Lemma touches_update_effect e f g :
  (∀ E, control (f E) = control E) → touches e g (update_effect e f g).
Proof.
  intros Hf e'. rewrite lookup_update_effect. destruct (decide (e = e')) as [<-|Hne].
  - split; [done|]. destruct (effects g !! e) as [E|]; simpl; [|done]. by rewrite Hf.
  - split; done.
Qed.

Lemma touches_cleanupDepEffect e d e0 g : touches e g (cleanupDepEffect d e0 g).
Proof. apply touches_effects_eq, effects_cleanupDepEffect. Qed.

Lemma touches_trackEffect e d g : touches e g (trackEffect e d g).
Proof.
  unfold trackEffect.
  destruct (effects g !! e) as [E|]; [|apply touches_refl].
  destruct (dep_heap g !! d) as [D|]; [|apply touches_refl].
  destruct (decide _); [|apply touches_refl].
  destruct (decide _).
  - eapply touches_trans; [|by apply touches_update_effect].
    destruct (deps E !! _depsLength E).
    + eapply touches_trans; [|apply touches_cleanupDepEffect].
      by apply touches_effects_eq.
    + by apply touches_effects_eq.
  - eapply touches_trans; [|by apply touches_update_effect].
    by apply touches_effects_eq.
Qed.

Lemma touches_track e tk g : activeEffect g = Some e → touches e g (track tk g).
Proof.
  intros Ha. unfold track. rewrite Ha. destruct (shouldTrack g); [|apply touches_refl].
  destruct (tm_lookup g tk).
  - apply touches_trackEffect.
  - unfold createDep. eapply touches_trans; [|apply touches_trackEffect].
    by apply touches_effects_eq.
Qed.

Lemma touches_call_fn e reads g : activeEffect g = Some e → touches e g (call_fn reads g).
Proof.
  revert g. induction reads as [|tk reads IH]; intros g Ha; [apply touches_refl|].
  unfold call_fn. simpl. fold (call_fn reads (track tk g)).
  eapply touches_trans; [by apply touches_track|].
  apply IH. by rewrite (proj1 (track_flags tk g)).
Qed.

Lemma touches_cleanup_fold e l g :
  touches e g (foldl (λ s' d, cleanupDepEffect d e s') g l).
Proof.
  revert g. induction l as [|d l IH]; intros g; simpl; [apply touches_refl|].
  eapply touches_trans; [apply touches_cleanupDepEffect | apply IH].
Qed.

Lemma touches_postCleanupEffect e g : touches e g (postCleanupEffect e g).
Proof.
  unfold postCleanupEffect. destruct (effects g !! e) as [E|]; [|apply touches_refl].
  destruct (decide _); [|apply touches_refl].
  eapply touches_trans; [apply touches_cleanup_fold|].
  by apply touches_update_effect.
Qed.

Lemma touches_preCleanupEffect e g : touches e g (preCleanupEffect e g).
Proof. by apply touches_update_effect. Qed.

Lemma effects_run_active e reads g E :
  effects g !! e = Some E → active E = true →
  effects (run e reads g)
  = effects (update_effect e (λ E', set_runnings (_runnings E' - 1) E')
               (postCleanupEffect e (call_fn reads (started e g)))).
Proof. intros HE Hact. by rewrite (run_active e reads g E HE Hact). Qed.

(** [run] writes to no other effect object, and of its own it resets the
    level and leaves the rest of [control]. *)
Lemma run_others e reads g e' :
  quiescent g → e' ≠ e → effects (run e reads g) !! e' = effects g !! e'.
Proof.
  intros Hq Hne. destruct (effects g !! e) as [E|] eqn:HE.
  - destruct (active E) eqn:Hact.
    + rewrite (effects_run_active e reads g E HE Hact).
      rewrite lookup_update_effect, decide_False by done.
      rewrite (proj1 (touches_postCleanupEffect e _ e')) by done.
      rewrite (proj1 (touches_call_fn e reads (started e g) eq_refl e')) by done.
      destruct (started_replaces e g E HE) as (-> & _).
      by rewrite lookup_insert_ne by done.
    + rewrite (run_inactive e reads g E Hq HE Hact).
      by rewrite lookup_update_effect, decide_False by done.
  - rewrite run_not_active; [|done|by intros E; rewrite HE].
    by rewrite lookup_update_effect, decide_False by done.
Qed.

Lemma run_own e reads g E :
  quiescent g → effects g !! e = Some E →
  ∃ E', effects (run e reads g) !! e = Some E'
    ∧ control E' = control (set_dirtyLevel NotDirty E).
Proof.
  intros Hq HE. destruct (active E) eqn:Hact.
  - rewrite (effects_run_active e reads g E HE Hact).
    rewrite lookup_update_effect, decide_True by done.
    pose proof (proj2 (touches_postCleanupEffect e (call_fn reads (started e g)) e)) as H1.
    pose proof (proj2 (touches_call_fn e reads (started e g) eq_refl e)) as H2.
    rewrite H2 in H1.
    destruct (started_replaces e g E HE) as (Heff & _).
    rewrite Heff, lookup_insert_eq in H1. simpl in H1.
    destruct (effects (postCleanupEffect e (call_fn reads (started e g))) !! e)
      as [E5|]; [|done].
    simpl in *. injection H1 as H1. eexists. split; [done|].
    unfold control. simpl. rewrite H1, H, H0, H3, H4, H5, H6.
    repeat f_equal. lia.
  - rewrite (run_inactive e reads g E Hq HE Hact).
    rewrite lookup_update_effect, decide_True, HE by done. by eexists.
Qed.

(** [stop] writes to no other effect object. *)
Lemma stop_others e g e' : e' ≠ e → effects (stop e g) !! e' = effects g !! e'.
Proof.
  intros Hne. unfold stop. destruct (effects g !! e) as [E|]; [|done].
  destruct (active E); [|done].
  rewrite lookup_update_effect, decide_False by done.
  assert (effects (if onStop E
                   then log_onStop e (postCleanupEffect e (preCleanupEffect e g))
                   else postCleanupEffect e (preCleanupEffect e g)) !! e'
          = effects (postCleanupEffect e (preCleanupEffect e g)) !! e') as ->
    by (by destruct (onStop E)).
  rewrite (proj1 (touches_postCleanupEffect e _ e')) by done.
  by rewrite (proj1 (touches_preCleanupEffect e _ e')) by done.
Qed.

Lemma stop_own e g E :
  effects g !! e = Some E →
  ∃ E', effects (stop e g) !! e = Some E'
    ∧ control E' = control (set_active false E).
Proof.
  intros HE. unfold stop. rewrite HE. destruct (active E) eqn:Hact.
  - rewrite lookup_update_effect, decide_True by done.
    assert (effects (if onStop E
                     then log_onStop e (postCleanupEffect e (preCleanupEffect e g))
                     else postCleanupEffect e (preCleanupEffect e g)) !! e
            = effects (postCleanupEffect e (preCleanupEffect e g)) !! e) as ->
      by (by destruct (onStop E)).
    pose proof (proj2 (touches_postCleanupEffect e (preCleanupEffect e g) e)) as H1.
    pose proof (proj2 (touches_preCleanupEffect e g e)) as H2.
    rewrite H2, HE in H1.
    destruct (effects (postCleanupEffect e (preCleanupEffect e g)) !! e) as [E5|]; [|done].
    simpl in *. injection H1 as H1. eexists. split; [done|].
    unfold control. simpl. congruence.
  - exists E. split; [done|]. unfold control. simpl. by rewrite Hact.
Qed.

(** ** Marking the subscribers *)

Lemma update_effect_const e E0 f g :
  effects g !! e = Some E0 →
  update_effect e (λ _, f E0) g = update_effect e f g.
Proof.
  intros HE. unfold update_effect. f_equal. apply map_eq. intros e'.
  rewrite !lookup_alter. destruct (decide (e = e')) as [<-|]; [|done].
  by rewrite HE.
Qed.

Lemma update_effect_same e E0 g :
  effects g !! e = Some E0 → update_effect e (λ _, E0) g = g.
Proof.
  intros HE. unfold update_effect.
  replace (alter (λ _, E0) e (effects g)) with (effects g); [by destruct g|].
  apply map_eq. intros e'. rewrite lookup_alter.
  destruct (decide (e = e')) as [<-|]; [|done]. by rewrite HE.
Qed.

Lemma on_graph_same (s : Engine) : on_graph (λ g, g) s = s.
Proof. by destruct s. Qed.

Lemma set_shouldSchedule_same E : _shouldSchedule E = false → set_shouldSchedule false E = E.
Proof. destruct E. simpl. by intros ->. Qed.

(** The body of the loop agrees with [triggerEffects_body] on the effect
    object. *)
Lemma trigger_effect_body d l e s E D :
  effects (graph s) !! e = Some E → dep_heap (graph s) !! d = Some D →
  effects (graph (trigger_effect d l e s)) !! e
  = Some (triggerEffects_body l
            (bool_decide (map_get e (entries D) = Some (_trackId E))) E).1.
Proof.
  intros HE HD. unfold trigger_effect, triggerEffects_body. rewrite HE, HD.
  repeat case_match; cbn [graph on_graph set_graph set_queueEffectSchedulers];
    rewrite lookup_update_effect, decide_True by done; rewrite HE; reflexivity.
Qed.

Lemma trigger_effect_mark d e s E D :
  effects (graph s) !! e = Some E → dep_heap (graph s) !! d = Some D →
  map_get e (entries D) = Some (_trackId E) →
  _runnings E = 0 → _shouldSchedule E = false →
  _dirtyLevel E = NotDirty ∨ _dirtyLevel E = Dirty →
  trigger_effect d Dirty e s = mark e s.
Proof.
  intros HE HD Hg Hrun Hsched Hl. unfold trigger_effect, mark, level_of.
  rewrite HE, HD, Hg. rewrite (bool_decide_eq_true_2 (Some (_trackId E) = _) eq_refl).
  simpl. destruct Hl as [Hl|Hl]; rewrite Hl; simpl.
  - rewrite Hrun. simpl. rewrite Hsched. simpl.
    assert (set_shouldSchedule false (set_dirtyLevel Dirty (set_shouldSchedule true E))
            = set_dirtyLevel Dirty E) as ->.
    { destruct E. simpl in *. by subst. }
    unfold on_graph. by rewrite (update_effect_const e E (set_dirtyLevel Dirty)).
  - rewrite Hsched. simpl.
    unfold on_graph. rewrite update_effect_same by done. by destruct s.
Qed.

Lemma mark_frame e s :
  dep_heap (graph (mark e s)) = dep_heap (graph s)
  ∧ targetMap (graph (mark e s)) = targetMap (graph s)
  ∧ pauseScheduleStack (mark e s) = pauseScheduleStack s
  ∧ fn_of (mark e s) = fn_of s ∧ scheduler_of (mark e s) = scheduler_of s
  ∧ fn_calls (mark e s) = fn_calls s ∧ scheduler_calls (mark e s) = scheduler_calls s.
Proof. unfold mark. by repeat case_bool_decide. Qed.

Lemma mark_level e s e' :
  level_of e' (graph (mark e s))
  = if bool_decide (e' = e ∧ level_of e (graph s) = Some NotDirty)
    then Some Dirty else level_of e' (graph s).
Proof.
  unfold mark. case_bool_decide as Hn.
  - assert (level_of e' (graph (on_graph (update_effect e (set_dirtyLevel Dirty)) s))
            = if bool_decide (e' = e ∧ level_of e (graph s) = Some NotDirty)
              then Some Dirty else level_of e' (graph s)) as Hlev.
    { unfold level_of in *. cbn [graph on_graph set_graph].
      rewrite lookup_update_effect.
      destruct (decide (e = e')) as [<-|Hne].
      + rewrite bool_decide_eq_true_2 by done.
        destruct (effects (graph s) !! e); [done|discriminate].
      + rewrite bool_decide_eq_false_2 by naive_solver. done. }
    destruct (bool_decide (is_Some (scheduler_of s !! e))); exact Hlev.
  - rewrite bool_decide_eq_false_2 by naive_solver. done.
Qed.

Lemma mark_effect e s e' E' :
  effects (graph (mark e s)) !! e' = Some E' →
  ∃ E, effects (graph s) !! e' = Some E
    ∧ deps E' = deps E ∧ _depsLength E' = _depsLength E ∧ _trackId E' = _trackId E
    ∧ active E' = active E ∧ _runnings E' = _runnings E
    ∧ _shouldSchedule E' = _shouldSchedule E
    ∧ (_dirtyLevel E' = _dirtyLevel E ∨ _dirtyLevel E' = Dirty).
Proof.
  unfold mark. case_bool_decide as Hn; [|intros H; exists E'; by repeat split; try left].
  assert (effects (graph (if bool_decide (is_Some (scheduler_of s !! e))
                          then set_queueEffectSchedulers
                                 (queueEffectSchedulers
                                    (on_graph (update_effect e (set_dirtyLevel Dirty)) s)
                                  ++ [e])
                                 (on_graph (update_effect e (set_dirtyLevel Dirty)) s)
                          else on_graph (update_effect e (set_dirtyLevel Dirty)) s))
          = effects (update_effect e (set_dirtyLevel Dirty) (graph s))) as ->
    by (by case_bool_decide).
  rewrite lookup_update_effect. destruct (decide (e = e')) as [<-|Hne].
  - intros H. apply fmap_Some in H as (E & HE & ->). exists E. simpl.
    repeat split; try done. by right.
  - intros H. exists E'. repeat split; try done. by left.
Qed.

Lemma mark_quiescent e s : quiescent (graph s) → quiescent (graph (mark e s)).
Proof.
  intros Hq. unfold mark. case_bool_decide; [|done].
  case_bool_decide; cbn [graph on_graph set_graph set_queueEffectSchedulers];
    by apply quiescent_update_effect; [apply keeps_set_dirtyLevel|].
Qed.

Lemma mark_idle e s : effects_idle s → effects_idle (mark e s).
Proof.
  intros Hi e' E' HE'.
  destruct (mark_effect e s e' E' HE') as (E & HE & _ & _ & _ & _ & Hr & Hs & Hl).
  destruct (Hi e' E HE) as (H1 & H2 & H3 & H4).
  destruct (mark_frame e s) as (_ & _ & _ & -> & _).
  split; [congruence|]. split; [congruence|]. split; [|done].
  destruct Hl as [Hl|Hl]; rewrite Hl; [done|by right].
Qed.

Lemma marks_frame l : ∀ s,
  dep_heap (graph (foldl (λ s' e, mark e s') s l)) = dep_heap (graph s)
  ∧ targetMap (graph (foldl (λ s' e, mark e s') s l)) = targetMap (graph s)
  ∧ pauseScheduleStack (foldl (λ s' e, mark e s') s l) = pauseScheduleStack s
  ∧ fn_of (foldl (λ s' e, mark e s') s l) = fn_of s
  ∧ scheduler_of (foldl (λ s' e, mark e s') s l) = scheduler_of s
  ∧ fn_calls (foldl (λ s' e, mark e s') s l) = fn_calls s
  ∧ scheduler_calls (foldl (λ s' e, mark e s') s l) = scheduler_calls s.
Proof.
  induction l as [|e l IH]; intros s; simpl; [done|].
  destruct (IH (mark e s)) as (-> & -> & -> & -> & -> & -> & ->). apply mark_frame.
Qed.

Lemma marks_quiescent l : ∀ s,
  quiescent (graph s) → effects_idle s →
  quiescent (graph (foldl (λ s' e, mark e s') s l))
  ∧ effects_idle (foldl (λ s' e, mark e s') s l).
Proof.
  induction l as [|e l IH]; intros s Hq Hi; simpl; [done|].
  apply IH; [by apply mark_quiescent | by apply mark_idle].
Qed.

Lemma first_occurrences_filter (P : nat → Prop) `{∀ x, Decision (P x)} l :
  first_occurrences (filter P l) = filter P (first_occurrences l).
Proof.
  induction l as [|x l IH]; [done|]. simpl. rewrite filter_cons.
  destruct (decide (P x)) as [HP|HP]; simpl.
  - rewrite filter_cons, decide_True by done. f_equal.
    rewrite IH, !list_filter_filter. apply list_filter_iff. naive_solver.
  - rewrite filter_cons, decide_False by done.
    rewrite IH, list_filter_filter. apply list_filter_iff. intros y. split; [|naive_solver].
    intros Hy. split; [done|]. by intros ->.
Qed.

Lemma first_occurrences_elem_of x l : x ∈ first_occurrences l ↔ x ∈ l.
Proof.
  induction l as [|y l IH]; [done|]. simpl. rewrite !elem_of_cons, list_elem_of_filter, IH.
  destruct (decide (x = y)); naive_solver.
Qed.

Lemma first_occurrences_NoDup l : NoDup (first_occurrences l).
Proof.
  induction l as [|y l IH]; simpl; [constructor|]. constructor.
  - rewrite list_elem_of_filter. naive_solver.
  - by apply NoDup_filter.
Qed.

Lemma marks_queue l : ∀ s,
  queueEffectSchedulers (foldl (λ s' e, mark e s') s l)
  = queueEffectSchedulers s
    ++ filter (λ e, is_Some (scheduler_of s !! e))
         (first_occurrences (filter (λ e, level_of e (graph s) = Some NotDirty) l)).
Proof.
  induction l as [|e l IH]; intros s; simpl; [by rewrite app_nil_r|].
  rewrite IH, (proj1 (proj2 (proj2 (proj2 (proj2 (mark_frame e s)))))).
  rewrite (filter_cons (λ e0, level_of e0 (graph s) = Some NotDirty)).
  assert (Hrest : ∀ P : nat → Prop, level_of e (graph s) = Some NotDirty →
            first_occurrences (filter (λ e0, level_of e0 (graph (mark e s)) = Some NotDirty) l)
            = filter (λ y, y ≠ e)
                (first_occurrences
                   (filter (λ e0, level_of e0 (graph s) = Some NotDirty) l))).
  { intros _ Hn. rewrite <-first_occurrences_filter, list_filter_filter. f_equal.
    apply list_filter_iff. intros x. rewrite mark_level. case_bool_decide; naive_solver. }
  destruct (decide (level_of e (graph s) = Some NotDirty)) as [Hn|Hn].
  - rewrite (Hrest (λ _, True) Hn). simpl. rewrite filter_cons.
    unfold mark at 1. rewrite bool_decide_eq_true_2 by done.
    destruct (decide (is_Some (scheduler_of s !! e))) as [Hk|Hk].
    + rewrite bool_decide_eq_true_2 by done. simpl. by rewrite <-app_assoc.
    + rewrite bool_decide_eq_false_2 by done. done.
  - unfold mark. by rewrite bool_decide_eq_false_2.
Qed.

Lemma marks_level l : ∀ s e',
  level_of e' (graph (foldl (λ s' e, mark e s') s l))
  = if bool_decide (e' ∈ l ∧ level_of e' (graph s) = Some NotDirty)
    then Some Dirty else level_of e' (graph s).
Proof.
  induction l as [|e l IH]; intros s e'; simpl; [done|].
  rewrite IH, mark_level.
  destruct (decide (e' = e)) as [->|Hne].
  - destruct (decide (level_of e (graph s) = Some NotDirty)) as [Hn|Hn].
    + rewrite (bool_decide_eq_true_2 (e = e ∧ _)) by done.
      rewrite (bool_decide_eq_true_2 (e ∈ e :: l ∧ _)) by (split; [left|done]).
      by case_bool_decide.
    + rewrite (bool_decide_eq_false_2 (e = e ∧ _)) by naive_solver.
      rewrite (bool_decide_eq_false_2 (e ∈ e :: l ∧ _)) by naive_solver.
      rewrite bool_decide_eq_false_2 by naive_solver. done.
  - rewrite (bool_decide_eq_false_2 (e' = e ∧ _)) by naive_solver.
    rewrite (bool_decide_ext (e' ∈ e :: l ∧ level_of e' (graph s) = Some NotDirty)
               (e' ∈ l ∧ level_of e' (graph s) = Some NotDirty)); [done|].
    rewrite elem_of_cons. naive_solver.
Qed.

Lemma marks_effect l : ∀ s e' E',
  effects (graph (foldl (λ s' e, mark e s') s l)) !! e' = Some E' →
  ∃ E, effects (graph s) !! e' = Some E ∧ deps E' = deps E.
Proof.
  induction l as [|e l IH]; intros s e' E' HE'; simpl in *; [by exists E'|].
  destruct (IH _ _ _ HE') as (E1 & HE1 & ->).
  destruct (mark_effect e s e' E1 HE1) as (E & HE & -> & _). by exists E.
Qed.

Lemma mark_set_stack n e s :
  mark e (set_pauseScheduleStack n s) = set_pauseScheduleStack n (mark e s).
Proof. unfold mark. simpl. by repeat case_bool_decide. Qed.

Lemma marks_set_stack n l : ∀ s,
  foldl (λ s' e, mark e s') (set_pauseScheduleStack n s) l
  = set_pauseScheduleStack n (foldl (λ s' e, mark e s') s l).
Proof.
  induction l as [|e l IH]; intros s; simpl; [done|]. by rewrite mark_set_stack, IH.
Qed.

Lemma set_stack_same n (s : Engine) :
  pauseScheduleStack s = n → set_pauseScheduleStack n s = s.
Proof. intros <-. by destruct s. Qed.

Lemma trigger_effects_mark d D l : ∀ s,
  quiescent (graph s) → effects_idle s → dep_heap (graph s) !! d = Some D →
  l ⊆ (entries D).*1 →
  foldl (λ s' e, trigger_effect d Dirty e s') s l = foldl (λ s' e, mark e s') s l.
Proof.
  induction l as [|e l IH]; intros s Hq Hi HD Hsub; simpl; [done|].
  assert (He : e ∈ (entries D).*1) by (apply Hsub; left).
  apply (proj2 (map_get_is_Some e (entries D))) in He as [tid Hg].
  destruct (q_current _ Hq d D e tid HD Hg) as (E & HE & -> & _).
  destruct (Hi e E HE) as (Hr & Hs & Hl & _).
  rewrite (trigger_effect_mark d e s E D HE HD Hg Hr Hs Hl).
  apply IH.
  - by apply mark_quiescent.
  - by apply mark_idle.
  - by rewrite (proj1 (mark_frame e s)).
  - intros x Hx. apply Hsub. by right.
Qed.

Lemma same_domain_size (m m' : gmap nat ReactiveEffect) :
  (∀ e, is_Some (m' !! e) ↔ is_Some (m !! e)) → size m' = size m.
Proof.
  intros H. rewrite <-!size_dom. f_equal. apply set_eq. intros e.
  by rewrite !elem_of_dom.
Qed.

Lemma mark_dom e s e' :
  is_Some (effects (graph (mark e s)) !! e') ↔ is_Some (effects (graph s) !! e').
Proof.
  unfold mark. case_bool_decide; [|done].
  case_bool_decide; cbn [graph on_graph set_graph set_queueEffectSchedulers];
    rewrite lookup_update_effect; (destruct (decide (e = e')) as [<-|]; [|done]);
    by rewrite fmap_is_Some.
Qed.

Lemma marks_dom l : ∀ s e',
  is_Some (effects (graph (foldl (λ s' e, mark e s') s l)) !! e')
  ↔ is_Some (effects (graph s) !! e').
Proof.
  induction l as [|e l IH]; intros s e'; simpl; [done|]. by rewrite IH, mark_dom.
Qed.

(** ** A trigger, step by step *)

Section trigger.

Context {V : Type}.
Variable ITERATE_KEY MAP_KEY_ITERATE_KEY : key.
Variable isArray isMap : target → bool.
Variable isIntegerKey : key → bool.
Variable at_least : key → V → bool.
Variable fn_reads : nat → nat → list (target * key).
Variable triggerComputed : nat → Engine → Engine.

Local Abbreviation run_effect := (run_effect fn_reads).
Local Abbreviation dirty := (dirty triggerComputed).
Local Abbreviation call_scheduler := (call_scheduler fn_reads triggerComputed).
Local Abbreviation drain := (drain fn_reads triggerComputed).
Local Abbreviation resetScheduling := (resetScheduling fn_reads triggerComputed).
Local Abbreviation triggerEffects := (triggerEffects fn_reads triggerComputed).
Local Abbreviation trigger_each := (trigger_each fn_reads triggerComputed).
Local Abbreviation trigger_deps :=
  (trigger_deps ITERATE_KEY MAP_KEY_ITERATE_KEY isArray isMap isIntegerKey at_least).
Local Abbreviation collected :=
  (collected ITERATE_KEY MAP_KEY_ITERATE_KEY isArray isMap isIntegerKey at_least).
Local Abbreviation trigger :=
  (trigger ITERATE_KEY MAP_KEY_ITERATE_KEY isArray isMap isIntegerKey at_least
     fn_reads triggerComputed).

Lemma drain_paused fuel s : pauseScheduleStack s ≠ 0%Z → drain fuel s = Some s.
Proof. intros H. destruct fuel; simpl; by rewrite bool_decide_eq_false_2. Qed.

(** Inside [trigger], [triggerEffects] marks and queues, and calls no
    scheduler. *)
Lemma triggerEffects_paused fuel d s :
  quiescent (graph s) → effects_idle s → pauseScheduleStack s ≠ 0%Z →
  triggerEffects fuel d Dirty s
  = Some (foldl (λ s' e, mark e s') s (subscribers (graph s) [Some d])).
Proof.
  intros Hq Hi Hp. unfold Trigger.triggerEffects, Trigger.resetScheduling, subscribers.
  simpl. rewrite app_nil_r.
  destruct (dep_heap (graph s) !! d) as [D|] eqn:HD; simpl.
  - rewrite (trigger_effects_mark d D _ (pauseScheduling s)); [|done..].
    unfold pauseScheduling. rewrite marks_set_stack. simpl.
    rewrite drain_paused by (simpl; lia).
    f_equal. simpl.
    change (set_pauseScheduleStack ?a (set_pauseScheduleStack ?b ?x))
      with (set_pauseScheduleStack a x).
    apply set_stack_same.
    destruct (marks_frame (entries D).*1 s) as (_ & _ & -> & _). lia.
  - rewrite drain_paused by (simpl; lia). f_equal.
    change (set_pauseScheduleStack ?a (pauseScheduling ?x))
      with (set_pauseScheduleStack a x).
    apply set_stack_same. lia.
Qed.

Lemma subscribers_cons g od ds :
  subscribers g (od :: ds) = subscribers g [od] ++ subscribers g ds.
Proof. unfold subscribers. simpl. by rewrite app_nil_r. Qed.

Lemma subscribers_heap g g' ds :
  dep_heap g' = dep_heap g → subscribers g' ds = subscribers g ds.
Proof. intros H. unfold subscribers. by rewrite H. Qed.

Lemma trigger_each_paused fuel ds : ∀ s,
  quiescent (graph s) → effects_idle s → pauseScheduleStack s ≠ 0%Z →
  trigger_each fuel ds s
  = Some (foldl (λ s' e, mark e s') s (subscribers (graph s) ds)).
Proof.
  induction ds as [|od ds IH]; intros s Hq Hi Hp; [done|].
  rewrite subscribers_cons, foldl_app. destruct od as [d|]; simpl.
  - rewrite triggerEffects_paused by done. simpl.
    destruct (marks_quiescent (subscribers (graph s) [Some d]) s Hq Hi) as [Hq1 Hi1].
    destruct (marks_frame (subscribers (graph s) [Some d]) s) as (Hh & _ & Hst & _).
    rewrite IH; [|done|done|by rewrite Hst].
    by rewrite (subscribers_heap _ _ ds Hh).
  - by apply IH.
Qed.

(** ** Calling the queued schedulers *)

Lemma level_of_Some e g l :
  level_of e g = Some l ↔ ∃ E, effects g !! e = Some E ∧ _dirtyLevel E = l.
Proof.
  unfold level_of. split.
  - intros H. apply fmap_Some in H as (E & HE & ->). by exists E.
  - intros (E & -> & <-). done.
Qed.

Lemma effect_dirty_at_Dirty e s : level_of e (graph s) = Some Dirty → dirty e s = (true, s).
Proof.
  intros Hl. apply level_of_Some in Hl as (E & HE & Hl). unfold Trigger.dirty.
  rewrite HE, Hl. simpl. unfold is_dirty, level_of. rewrite HE. simpl. by rewrite Hl.
Qed.

Lemma run_effect_control e s f E :
  quiescent (graph s) → fn_of s !! e = Some f → effects (graph s) !! e = Some E →
  quiescent (graph (run_effect e s))
  ∧ (∀ e', e' ≠ e → effects (graph (run_effect e s)) !! e' = effects (graph s) !! e')
  ∧ (∃ E', effects (graph (run_effect e s)) !! e = Some E'
           ∧ control E' = control (set_dirtyLevel NotDirty E))
  ∧ fn_calls (run_effect e s) = fn_calls s ++ [e]
  ∧ scheduler_calls (run_effect e s) = scheduler_calls s
  ∧ fn_of (run_effect e s) = fn_of s ∧ scheduler_of (run_effect e s) = scheduler_of s
  ∧ pauseScheduleStack (run_effect e s) = pauseScheduleStack s
  ∧ queueEffectSchedulers (run_effect e s) = queueEffectSchedulers s.
Proof.
  intros Hq Hf HE. unfold Trigger.run_effect. rewrite Hf. simpl.
  split; [by apply run_quiescent|]. split; [intros e' Hne; by apply run_others|].
  split; [by apply run_own|]. done.
Qed.

Lemma control_fields E E' :
  control E' = control E →
  active E' = active E ∧ _dirtyLevel E' = _dirtyLevel E ∧ _runnings E' = _runnings E
  ∧ _shouldSchedule E' = _shouldSchedule E ∧ allowRecurse E' = allowRecurse E.
Proof. unfold control. intros [= -> _ -> _ -> -> ->]. done. Qed.

Lemma drain_runs : ∀ q fuel s,
  queueEffectSchedulers s = q → length q ≤ fuel → draining s →
  ∃ s', drain fuel s = Some s' ∧ settled s'
    ∧ fn_calls s'
      = fn_calls s ++ filter (λ e, scheduler_of s !! e = Some DefaultScheduler) q
    ∧ scheduler_calls s'
      = scheduler_calls s ++ filter (λ e, scheduler_of s !! e = Some CustomScheduler) q
    ∧ fn_of s' = fn_of s ∧ scheduler_of s' = scheduler_of s
    ∧ (∀ e, e ∈ q → scheduler_of s !! e = Some DefaultScheduler →
            level_of e (graph s') = Some NotDirty)
    ∧ (∀ e, (e ∈ q → scheduler_of s !! e ≠ Some DefaultScheduler) →
            effects (graph s') !! e = effects (graph s) !! e)
    ∧ (∀ e, is_Some (effects (graph s') !! e) ↔ is_Some (effects (graph s) !! e)).
Proof.
  induction q as [|e q IH]; intros fuel s Hqueue Hfuel Hdr.
  - destruct Hdr as [Hg Hst Heff _ _ Hclean].
    exists s. split; [destruct fuel; simpl; by rewrite bool_decide_eq_true_2, Hqueue|].
    split.
    { split; [done..|]. intros e E HE Hk Hl. apply (Hclean e E HE Hk Hl).
      rewrite Hqueue. apply not_elem_of_nil. }
    rewrite !filter_nil, !app_nil_r. repeat split; try done.
    intros e He. by apply elem_of_nil in He.
  - destruct fuel as [|fuel]; [simpl in Hfuel; lia|].
    pose proof Hdr as [Hg Hst Heff Hnd Hdirty Hclean].
    rewrite Hqueue in Hnd, Hdirty, Hclean.
    apply NoDup_cons in Hnd as [Hnotin Hnd].
    pose proof (Hdirty e ltac:(left)) as Hle.
    pose proof Hle as HleS. apply level_of_Some in HleS as (E & HE & HlE).
    destruct (Heff e E HE) as (Hr & Hs & _ & [f Hf]).
    simpl. rewrite bool_decide_eq_true_2, Hqueue by done.
    set (s1 := set_queueEffectSchedulers q s).
    unfold Trigger.call_scheduler.
    change (scheduler_of s1 !! e) with (scheduler_of s !! e).
    destruct (scheduler_of s !! e) as [k|] eqn:Hk; [destruct k|].
    + (* the default scheduler: the effect is dirty and runs *)
      rewrite (effect_dirty_at_Dirty e s1) by done.
      destruct (run_effect_control e s1 f E Hg Hf HE)
        as (Hg2 & Hoth & (E2 & HE2 & Hc2) & Hfc & Hsc & Hfn & Hsk & Hst2 & Hq2).
      apply control_fields in Hc2 as (Hact2 & Hl2 & Hr2 & Hs2 & _).
      change (_dirtyLevel (set_dirtyLevel NotDirty E)) with NotDirty in Hl2.
      change (_runnings (set_dirtyLevel NotDirty E)) with (_runnings E) in Hr2.
      change (_shouldSchedule (set_dirtyLevel NotDirty E)) with (_shouldSchedule E) in Hs2.
      change (fn_of s1) with (fn_of s) in Hfn.
      change (scheduler_of s1) with (scheduler_of s) in Hsk.
      change (fn_calls s1) with (fn_calls s) in Hfc.
      change (scheduler_calls s1) with (scheduler_calls s) in Hsc.
      change (pauseScheduleStack s1) with (pauseScheduleStack s) in Hst2.
      change (queueEffectSchedulers s1) with q in Hq2.
      change (graph s1) with (graph s) in Hoth.
      destruct (IH fuel (run_effect e s1)) as (s' & Hrun & Hset & Hfc' & Hsc' & Hfn' & Hsk'
                                                & Hlev' & Hsame' & Hdom');
        [done|simpl in Hfuel; lia| |].
      { split.
        - done.
        - by rewrite Hst2.
        - intros e' E'. rewrite Hfn. destruct (decide (e' = e)) as [->|Hne].
          + rewrite HE2. intros [= <-]. rewrite Hr2, Hs2, Hl2.
            split; [done|]. split; [done|]. split; [by left|]. by eexists.
          + rewrite Hoth by done. apply Heff.
        - by rewrite Hq2.
        - rewrite Hq2. intros e' He'. unfold level_of.
          rewrite Hoth by (intros ->; done). apply Hdirty. by right.
        - rewrite Hq2, Hsk. intros e' E'. destruct (decide (e' = e)) as [->|Hne].
          + rewrite HE2. intros [= <-]. rewrite Hl2. done.
          + rewrite Hoth by done. intros HE' Hk' Hl' Hnin.
            apply (Hclean e' E' HE' Hk' Hl'). rewrite not_elem_of_cons. done. }
      exists s'. split; [exact Hrun|]. split; [exact Hset|].
      rewrite Hfc', Hsc', Hfn', Hsk', Hfc, Hsc, Hsk, Hfn.
      rewrite !filter_cons.
      rewrite (decide_True (P := scheduler_of s !! e = Some DefaultScheduler)) by done.
      rewrite (decide_False (P := scheduler_of s !! e = Some CustomScheduler))
        by congruence.
      rewrite <-app_assoc.
      split; [done|]. split; [done|]. split; [done|]. split; [done|]. split.
      * rewrite Hsk in Hlev', Hsame'.
        intros e' He' Hk'. apply elem_of_cons in He' as [->|He']; [|by apply Hlev'].
        unfold level_of. rewrite Hsame' by (intros; done). rewrite HE2. simpl.
        by rewrite Hl2.
      * split.
        -- rewrite Hsk in Hsame'. intros e' He'. rewrite Hsame'.
           ++ apply Hoth. intros ->. apply He'; [left|done].
           ++ intros Hin. apply He'. by right.
        -- intros e'. rewrite Hdom'. destruct (decide (e' = e)) as [->|Hne].
           ++ rewrite HE2. change (graph s1) with (graph s). by rewrite HE.
           ++ by rewrite Hoth.
    + (* a custom scheduler: the call is all there is *)
      destruct (IH fuel (log_scheduler_call e s1)) as (s' & Hrun & Hset & Hfc' & Hsc' & Hfn'
                                                        & Hsk' & Hlev' & Hsame' & Hdom');
        [done|simpl in Hfuel; lia| |].
      { split.
        - done.
        - done.
        - exact Heff.
        - done.
        - intros e' He'. apply Hdirty. by right.
        - intros e' E' HE' Hk' Hl' Hnin.
          apply (Hclean e' E' HE' Hk' Hl'). rewrite not_elem_of_cons. split; [|done].
          intros ->. simpl in Hk'. congruence. }
      exists s'. split; [exact Hrun|]. split; [exact Hset|].
      rewrite Hfc', Hsc', Hfn', Hsk'. simpl.
      rewrite !filter_cons.
      rewrite (decide_False (P := scheduler_of s !! e = Some DefaultScheduler))
        by congruence.
      rewrite (decide_True (P := scheduler_of s !! e = Some CustomScheduler)) by done.
      rewrite <-app_assoc.
      split; [done|]. split; [done|]. split; [done|]. split; [done|]. split.
      * intros e' He' Hk'. apply elem_of_cons in He' as [->|He']; [congruence|].
        by apply Hlev'.
      * split; [|exact Hdom'].
        intros e' He'. rewrite Hsame'; [done|].
        intros Hin. apply He'. by right.
    + (* no scheduler: nothing is called *)
      destruct (IH fuel s1) as (s' & Hrun & Hset & Hfc' & Hsc' & Hfn'
                                  & Hsk' & Hlev' & Hsame' & Hdom');
        [done|simpl in Hfuel; lia| |].
      { split.
        - done.
        - done.
        - exact Heff.
        - done.
        - intros e' He'. apply Hdirty. by right.
        - intros e' E' HE' Hk' Hl' Hnin.
          apply (Hclean e' E' HE' Hk' Hl'). rewrite not_elem_of_cons. split; [|done].
          intros ->. simpl in Hk'. congruence. }
      exists s'. split; [exact Hrun|]. split; [exact Hset|].
      rewrite Hfc', Hsc', Hfn', Hsk'. simpl.
      rewrite !filter_cons.
      rewrite (decide_False (P := scheduler_of s !! e = Some DefaultScheduler))
        by congruence.
      rewrite (decide_False (P := scheduler_of s !! e = Some CustomScheduler))
        by congruence.
      split; [done|]. split; [done|]. split; [done|]. split; [done|]. split.
      * intros e' He' Hk'. apply elem_of_cons in He' as [->|He']; [congruence|].
        by apply Hlev'.
      * split; [|exact Hdom'].
        intros e' He'. rewrite Hsame'; [done|].
        intros Hin. apply He'. by right.
Qed.

(** ** A trigger between two commands *)

Lemma NoDup_bounded_length (l : list nat) n :
  NoDup l → (∀ x, x ∈ l → x < n) → length l ≤ n.
Proof.
  intros Hnd Hlt. transitivity (length (seq 0 n)); [|by rewrite length_seq].
  apply submseteq_length, NoDup_submseteq; [done|].
  intros x Hx. apply elem_of_seq. specialize (Hlt x Hx). lia.
Qed.

Lemma notified_elem_of g ds e :
  e ∈ notified g ds ↔ e ∈ subscribers g ds ∧ level_of e g = Some NotDirty.
Proof. unfold notified. by rewrite first_occurrences_elem_of, list_elem_of_filter, (comm and). Qed.

Lemma marks_none l : ∀ s,
  filter (λ e, level_of e (graph s) = Some NotDirty) l = [] →
  foldl (λ s' e, mark e s') s l = s.
Proof.
  induction l as [|e l IH]; intros s Hnone; simpl; [done|].
  rewrite filter_cons in Hnone.
  destruct (decide (level_of e (graph s) = Some NotDirty)) as [Hn|Hn]; [done|].
  unfold mark at 2. rewrite bool_decide_eq_false_2 by done. by apply IH.
Qed.

Lemma first_occurrences_nil l : first_occurrences l = [] → l = [].
Proof. by destruct l. Qed.

Lemma trigger_marks fuel t type k v s :
  settled s →
  trigger fuel t type k v s
  = drain fuel (foldl (λ s' e, mark e s') s
                  (subscribers (graph s) (collected t type k v (graph s)))).
Proof.
  intros [Hg Hst Hqu Heff Hclean]. unfold Trigger.trigger, Trigger.collected.
  destruct (targetMap (graph s) !! t) as [depsMap|].
  - rewrite trigger_each_paused; [|done|done|simpl; lia]. simpl.
    unfold Trigger.resetScheduling, pauseScheduling.
    rewrite marks_set_stack.
    change (set_pauseScheduleStack ?a (set_pauseScheduleStack ?b ?x))
      with (set_pauseScheduleStack a x).
    f_equal. apply set_stack_same.
    match goal with |- context [foldl _ s ?l] =>
      destruct (marks_frame l s) as (_ & _ & -> & _) end.
    simpl. lia.
  - simpl. destruct fuel; simpl; by rewrite bool_decide_eq_true_2, Hqu.
Qed.

Lemma marks_draining l s :
  settled s → draining (foldl (λ s' e, mark e s') s l).
Proof.
  intros [Hg Hst Hqu Heff Hclean].
  destruct (marks_quiescent l s Hg Heff) as [Hg1 Hi1].
  destruct (marks_frame l s) as (_ & _ & Hst1 & _ & Hsk1 & _).
  pose proof (marks_queue l s) as Hq1. rewrite Hqu in Hq1. simpl in Hq1.
  split.
  - done.
  - by rewrite Hst1.
  - done.
  - rewrite Hq1. apply NoDup_filter, first_occurrences_NoDup.
  - rewrite Hq1. intros e He.
    apply list_elem_of_filter in He as [_ He].
    apply first_occurrences_elem_of, list_elem_of_filter in He as [Hn He].
    rewrite marks_level, bool_decide_eq_true_2; done.
  - rewrite Hq1, Hsk1. intros e E' HE' Hk Hl Hnin.
    destruct (marks_effect l s e E' HE') as (E & HE & ->).
    apply (Hclean e E HE Hk).
    assert (level_of e (graph (foldl (λ s' e0, mark e0 s') s l)) = Some Dirty) as Hlev
      by (apply level_of_Some; by exists E').
    rewrite marks_level in Hlev. case_bool_decide as Hc.
    + exfalso. apply Hnin. apply list_elem_of_filter. split; [by rewrite Hk|].
      apply first_occurrences_elem_of, list_elem_of_filter.
      by destruct Hc.
    + apply level_of_Some in Hlev as (E0 & HE0 & Hl0). congruence.
Qed.

Lemma filter_kind_scheduled (s : Engine) (k : scheduler) (l : list nat) :
  filter (λ e, scheduler_of s !! e = Some k) (filter (λ e, is_Some (scheduler_of s !! e)) l)
  = filter (λ e, scheduler_of s !! e = Some k) l.
Proof.
  rewrite list_filter_filter. apply list_filter_iff. intros e. split; [naive_solver|].
  intros Hk. split; [done|]. by rewrite Hk.
Qed.

(** What a trigger does to a settled state. *)
Lemma trigger_settled fuel t type k v s :
  settled s → size (effects (graph s)) ≤ fuel →
  ∃ s', trigger fuel t type k v s = Some s' ∧ settled s'
    ∧ fn_calls s'
      = fn_calls s
        ++ filter (λ e, scheduler_of s !! e = Some DefaultScheduler)
             (notified (graph s) (collected t type k v (graph s)))
    ∧ scheduler_calls s'
      = scheduler_calls s
        ++ filter (λ e, scheduler_of s !! e = Some CustomScheduler)
             (notified (graph s) (collected t type k v (graph s)))
    ∧ fn_of s' = fn_of s ∧ scheduler_of s' = scheduler_of s
    ∧ size (effects (graph s')) = size (effects (graph s))
    ∧ (∀ e, e ∈ notified (graph s) (collected t type k v (graph s)) →
            scheduler_of s !! e = Some DefaultScheduler →
            level_of e (graph s') = Some NotDirty)
    ∧ (∀ e, e ∈ notified (graph s) (collected t type k v (graph s)) →
            scheduler_of s !! e ≠ Some DefaultScheduler →
            level_of e (graph s') = Some Dirty).
Proof.
  intros Hset Hfuel. rewrite trigger_marks by done.
  set (l := subscribers (graph s) (collected t type k v (graph s))).
  pose proof (marks_draining l s Hset) as Hdr.
  destruct (marks_frame l s) as (_ & _ & _ & Hfn1 & Hsk1 & Hfc1 & Hsc1).
  pose proof (marks_queue l s) as Hq1.
  rewrite (rest_queue _ Hset) in Hq1. simpl in Hq1. fold (notified (graph s)
    (collected t type k v (graph s))) in Hq1.
  destruct (drain_runs _ fuel _ Hq1)
    as (s' & Hrun & Hset' & Hfc & Hsc & Hfn & Hsk & Hlev & Hsame & Hdom).
  { etransitivity; [|exact Hfuel].
    apply NoDup_bounded_length; [apply NoDup_filter, first_occurrences_NoDup|].
    intros e He. apply list_elem_of_filter in He as [_ He].
    apply notified_elem_of in He as [_ He].
    apply level_of_Some in He as (E & HE & _).
    apply (q_ids _ (rest_graph _ Hset)). by eexists. }
  { done. }
  rewrite Hsk1 in Hlev, Hsame.
  exists s'. split; [exact Hrun|]. split; [exact Hset'|].
  rewrite Hfc, Hsc, Hfn, Hsk, Hsk1, Hfn1, Hfc1, Hsc1, !filter_kind_scheduled.
  split; [reflexivity|]. split; [reflexivity|]. split; [done|]. split; [done|].
  split; [|split].
  - apply same_domain_size. intros e. by rewrite Hdom, marks_dom.
  - intros e He Hk'. apply Hlev; [|done]. apply list_elem_of_filter.
    split; [by rewrite Hk'|done].
  - intros e He Hk'. unfold level_of. rewrite Hsame by (intros _; done).
    fold (level_of e (graph (foldl (λ s0 e0, mark e0 s0) s l))).
    apply notified_elem_of in He as [He Hn].
    by rewrite marks_level, bool_decide_eq_true_2.
Qed.

Lemma drain_mono : ∀ fuel fuel' s s',
  drain fuel s = Some s' → fuel ≤ fuel' → drain fuel' s = Some s'.
Proof.
  induction fuel as [|fuel IH]; intros fuel' s s' Hrun Hle.
  - destruct fuel'; simpl in *; case_bool_decide; try done;
      by destruct (queueEffectSchedulers s).
  - destruct fuel' as [|fuel']; [lia|]. simpl in *.
    case_bool_decide; [|done]. destruct (queueEffectSchedulers s); [done|].
    apply IH; [done|lia].
Qed.

(** When [trigger] returns, it has done what [trigger_settled] says. *)
Lemma trigger_returns fuel t type k v s s' :
  settled s → trigger fuel t type k v s = Some s' →
  settled s'
  ∧ fn_calls s'
    = fn_calls s
      ++ filter (λ e, scheduler_of s !! e = Some DefaultScheduler)
           (notified (graph s) (collected t type k v (graph s)))
  ∧ scheduler_calls s'
    = scheduler_calls s
      ++ filter (λ e, scheduler_of s !! e = Some CustomScheduler)
           (notified (graph s) (collected t type k v (graph s)))
  ∧ fn_of s' = fn_of s ∧ scheduler_of s' = scheduler_of s
  ∧ size (effects (graph s')) = size (effects (graph s))
  ∧ (∀ e, e ∈ notified (graph s) (collected t type k v (graph s)) →
          scheduler_of s !! e = Some DefaultScheduler →
          level_of e (graph s') = Some NotDirty)
  ∧ (∀ e, e ∈ notified (graph s) (collected t type k v (graph s)) →
          scheduler_of s !! e ≠ Some DefaultScheduler →
          level_of e (graph s') = Some Dirty).
Proof.
  intros Hset Hrun.
  destruct (trigger_settled (fuel `max` size (effects (graph s))) t type k v s Hset)
    as (s2 & Hrun2 & Hfacts); [lia|].
  rewrite trigger_marks in Hrun, Hrun2 by done.
  rewrite (drain_mono _ (fuel `max` size (effects (graph s))) _ _ Hrun) in Hrun2 by lia.
  injection Hrun2 as <-. exact Hfacts.
Qed.

End trigger.

(** ** The commands keep the engine settled *)

Lemma insert_effect_quiescent E0 g :
  quiescent g → deps E0 = [] → _depsLength E0 = 0 →
  quiescent (set_effects (<[size (effects g) := E0]> (effects g)) g).
Proof.
  intros [Hok Hidle Hfull Hcur Hstop Hids] Hdeps Hlen.
  assert (effects g !! size (effects g) = None) as Hnew.
  { destruct (effects g !! size (effects g)) eqn:H; [|done].
    pose proof (Hids (size (effects g)) (mk_is_Some _ _ H)). lia. }
  assert (∀ e E, effects g !! e = Some E → size (effects g) ≠ e) as Hne
    by (intros e E HE Heq; congruence).
  destruct Hok as [G1 G2 G3 G4 G5 G6 G7].
  split; [split|..]; simpl; try done.
  - intros d D e tid HD Hg. destruct (G2 d D e tid HD Hg) as (E & HE & Hc).
    exists E. rewrite lookup_insert_ne by (by eapply Hne). done.
  - intros e E. rewrite lookup_insert. destruct (decide _); [|apply G3].
    intros [= <-]. rewrite Hdeps, Hlen. simpl. lia.
  - intros e E i d. rewrite lookup_insert. destruct (decide _); [|apply G7].
    intros [= <-]. rewrite Hlen. lia.
  - intros e E. rewrite lookup_insert. destruct (decide _); [|apply Hfull].
    intros [= <-]. by rewrite Hdeps, Hlen.
  - intros d D e tid HD Hg. destruct (Hcur d D e tid HD Hg) as (E & HE & Hc).
    exists E. rewrite lookup_insert_ne by (by eapply Hne). done.
  - intros e E. rewrite lookup_insert. destruct (decide _); [|apply Hstop].
    by intros [= <-].
  - intros e. rewrite map_size_insert_None by done. rewrite lookup_insert.
    destruct (decide _) as [<-|]; [lia|]. intros H. apply Hids in H. lia.
Qed.

Lemma initial_settled : settled start.
Proof.
  split; simpl; try done. apply initial_quiescent.
Qed.

Section commands.

Context {V : Type}.
Variable ITERATE_KEY MAP_KEY_ITERATE_KEY : key.
Variable isArray isMap : target → bool.
Variable isIntegerKey : key → bool.
Variable at_least : key → V → bool.
Variable fn_reads : nat → nat → list (target * key).
Variable triggerComputed : nat → Engine → Engine.

Local Abbreviation run_effect := (run_effect fn_reads).
Local Abbreviation effect := (effect fn_reads).
Local Abbreviation collected :=
  (collected ITERATE_KEY MAP_KEY_ITERATE_KEY isArray isMap isIntegerKey at_least).
Local Abbreviation trigger :=
  (trigger ITERATE_KEY MAP_KEY_ITERATE_KEY isArray isMap isIntegerKey at_least
     fn_reads triggerComputed).
Local Abbreviation exec1 :=
  (exec1 ITERATE_KEY MAP_KEY_ITERATE_KEY isArray isMap isIntegerKey at_least
     fn_reads triggerComputed).
Local Abbreviation exec_from :=
  (exec_from ITERATE_KEY MAP_KEY_ITERATE_KEY isArray isMap isIntegerKey at_least
     fn_reads triggerComputed).
Local Abbreviation exec :=
  (exec ITERATE_KEY MAP_KEY_ITERATE_KEY isArray isMap isIntegerKey at_least
     fn_reads triggerComputed).

Lemma run_missing e reads g :
  quiescent g → effects g !! e = None → effects (run e reads g) = effects g.
Proof.
  intros Hq HE. rewrite run_not_active; [|done|by intros E; rewrite HE].
  unfold update_effect. simpl. apply map_eq. intros e'.
  rewrite lookup_alter. destruct (decide (e = e')) as [<-|]; [|done]. by rewrite HE.
Qed.

Lemma run_effect_settled e s :
  settled s →
  settled (run_effect e s)
  ∧ size (effects (graph (run_effect e s))) = size (effects (graph s))
  ∧ fn_of (run_effect e s) = fn_of s ∧ scheduler_of (run_effect e s) = scheduler_of s.
Proof.
  intros Hset. pose proof Hset as [Hg Hst Hqu Heff Hclean].
  destruct (fn_of s !! e) as [f|] eqn:Hf; [|by unfold Trigger.run_effect; rewrite Hf].
  destruct (effects (graph s) !! e) as [E|] eqn:HE.
  - destruct (run_effect_control fn_reads e s f E Hg Hf HE)
      as (Hg2 & Hoth & (E2 & HE2 & Hc2) & Hfc & Hsc & Hfn & Hsk & Hst2 & Hq2).
    apply control_fields in Hc2 as (Hact2 & Hl2 & Hr2 & Hs2 & _).
    change (_dirtyLevel (set_dirtyLevel NotDirty E)) with NotDirty in Hl2.
    change (_runnings (set_dirtyLevel NotDirty E)) with (_runnings E) in Hr2.
    change (_shouldSchedule (set_dirtyLevel NotDirty E)) with (_shouldSchedule E) in Hs2.
    destruct (Heff e E HE) as (Hr & Hs & _ & Hf').
    split; [split|].
    + done.
    + by rewrite Hst2.
    + by rewrite Hq2.
    + intros e' E'. rewrite Hfn. destruct (decide (e' = e)) as [->|Hne].
      * rewrite HE2. intros [= <-]. rewrite Hr2, Hs2, Hl2.
        split; [done|]. split; [done|]. split; [by left|]. done.
      * rewrite Hoth by done. apply Heff.
    + rewrite Hsk. intros e' E'. destruct (decide (e' = e)) as [->|Hne].
      * rewrite HE2. intros [= <-]. by rewrite Hl2.
      * rewrite Hoth by done. apply Hclean.
    + split; [|done]. apply same_domain_size. intros e'.
      destruct (decide (e' = e)) as [->|Hne]; [by rewrite HE2, HE | by rewrite Hoth].
  - unfold Trigger.run_effect. rewrite Hf.
    pose proof (run_missing e (fn_reads f (length (fn_calls s))) (graph s) Hg HE) as Hsame.
    split; [split|]; simpl.
    + by apply run_quiescent.
    + done.
    + done.
    + rewrite Hsame. exact Heff.
    + rewrite Hsame. exact Hclean.
    + by rewrite Hsame.
Qed.

Lemma stop_settled e s :
  settled s →
  settled (on_graph (stop e) s)
  ∧ size (effects (graph (on_graph (stop e) s))) = size (effects (graph s)).
Proof.
  intros [Hg Hst Hqu Heff Hclean].
  pose proof (stop_quiescent e _ Hg) as Hg2.
  assert (Hview : ∀ e' E', effects (stop e (graph s)) !! e' = Some E' →
            ∃ E, effects (graph s) !! e' = Some E
              ∧ _runnings E' = _runnings E ∧ _shouldSchedule E' = _shouldSchedule E
              ∧ _dirtyLevel E' = _dirtyLevel E ∧ (e' ≠ e → E' = E)).
  { intros e' E' HE'. destruct (decide (e' = e)) as [->|Hne].
    - destruct (effects (graph s) !! e) as [E|] eqn:HE.
      + destruct (stop_own e (graph s) E HE) as (E2 & HE2 & Hc).
        assert (E2 = E') as -> by congruence.
        apply control_fields in Hc as (_ & Hl & Hr & Hs & _).
        exists E. split; [done|]. split; [exact Hr|]. split; [exact Hs|].
        split; [exact Hl|]. done.
      + unfold stop in HE'. rewrite HE in HE'. congruence.
    - rewrite stop_others in HE' by done. exists E'. by repeat split. }
  split; [split|]; simpl; try done.
  - intros e' E' HE'. destruct (Hview e' E' HE') as (E & HE & -> & -> & -> & _).
    apply (Heff e' E HE).
  - intros e' E' HE' Hk Hl. destruct (Hview e' E' HE') as (E & HE & _ & _ & Hl' & Hsame).
    destruct (decide (e' = e)) as [->|Hne].
    + apply (q_stopped _ Hg2 e E' HE'). by eapply stop_stopped.
    + rewrite (Hsame Hne). apply (Hclean e' E HE Hk). by rewrite (Hsame Hne) in Hl.
  - apply same_domain_size. intros e'. destruct (decide (e' = e)) as [->|Hne].
    + destruct (effects (graph s) !! e) as [E|] eqn:HE.
      * destruct (stop_own e (graph s) E HE) as (E2 & -> & _). done.
      * unfold stop. rewrite HE. by rewrite HE.
    + by rewrite stop_others.
Qed.

Lemma effect_settled fn options s :
  settled s →
  settled (effect fn options s)
  ∧ size (effects (graph (effect fn options s))) ≤ S (size (effects (graph s))).
Proof.
  intros Hset. pose proof Hset as [Hg Hst Hqu Heff Hclean]. unfold Trigger.effect.
  destruct (match fn with Fn f => Some f | RunnerOf e0 => fn_of s !! e0 end) as [f|];
    [|split; [done|lia]].
  set (e := size (effects (graph s))).
  set (E0 := match options with
             | Some o => set_allowRecurse (opt_allowRecurse o) (new_effect (opt_onStop o))
             | None => new_effect false
             end).
  set (s1 := register e f (scheduler_after_extend options)
               (on_graph (λ g, set_effects (<[e := E0]> (effects g)) g) s)).
  assert (HE0 : deps E0 = [] ∧ _depsLength E0 = 0 ∧ _runnings E0 = 0
                ∧ _shouldSchedule E0 = false ∧ _dirtyLevel E0 = Dirty)
    by (subst E0; by destruct options).
  destruct HE0 as (Hd0 & Hn0 & Hr0 & Hs0 & Hl0).
  assert (Hnew : effects (graph s) !! e = None).
  { destruct (effects (graph s) !! e) eqn:H; [|done].
    pose proof (q_ids _ Hg e (mk_is_Some _ _ H)). subst e. lia. }
  assert (Hset1 : settled s1).
  { split; simpl; try done.
    - by apply insert_effect_quiescent.
    - intros e' E'. rewrite !lookup_insert. destruct (decide (e = e')) as [<-|].
      + intros [= <-]. rewrite Hr0, Hs0, Hl0.
        split; [done|]. split; [done|]. split; [by right|]. by eexists.
      + apply Heff.
    - intros e' E'. rewrite lookup_insert. destruct (decide (e = e')) as [<-|Hne].
      + by intros [= <-].
      + intros HE' Hk. apply (Hclean e' E' HE'). revert Hk.
        destruct (scheduler_after_extend options).
        * by rewrite lookup_insert_ne.
        * by rewrite lookup_delete_ne. }
  assert (Hsize1 : size (effects (graph s1)) = S (size (effects (graph s)))).
  { simpl. by rewrite map_size_insert_None. }
  destruct (match options with Some o => lazy o | None => false end).
  - split; [done|lia].
  - destruct (run_effect_settled e s1 Hset1) as (Hset2 & Hsize2 & _).
    split; [done|lia].
Qed.

Lemma exec1_settled fuel s c s' :
  settled s → exec1 fuel s c = Some s' →
  settled s' ∧ size (effects (graph s')) ≤ S (size (effects (graph s))).
Proof.
  intros Hset. destruct c as [fn options|e|e|t type k v]; simpl.
  - intros [= <-]. by apply effect_settled.
  - intros [= <-]. destruct (run_effect_settled e s Hset) as (? & -> & _).
    split; [done|lia].
  - intros [= <-]. destruct (stop_settled e s Hset) as (? & ->). split; [done|lia].
  - intros Hrun.
    destruct (trigger_returns ITERATE_KEY MAP_KEY_ITERATE_KEY isArray isMap isIntegerKey
                at_least fn_reads triggerComputed fuel t type k v s s' Hset Hrun)
      as (? & _ & _ & _ & _ & -> & _).
    split; [done|lia].
Qed.

Lemma exec_from_settled fuel cs : ∀ s s',
  settled s → exec_from fuel s cs = Some s' →
  settled s' ∧ size (effects (graph s')) ≤ size (effects (graph s)) + length cs.
Proof.
  induction cs as [|c cs IH]; intros s s' Hset; simpl.
  - intros [= <-]. split; [done|lia].
  - destruct (exec1 fuel s c) as [s1|] eqn:H1; [|done]. simpl. intros Hrest.
    destruct (exec1_settled fuel s c s1 Hset H1) as [Hset1 Hsize1].
    destruct (IH s1 s' Hset1 Hrest) as [Hset' Hsize']. split; [done|lia].
Qed.

Lemma exec1_returns fuel s c :
  settled s → size (effects (graph s)) ≤ fuel → is_Some (exec1 fuel s c).
Proof.
  intros Hset Hfuel. destruct c as [fn options|e|e|t type k v]; simpl; try by eexists.
  destruct (trigger_settled ITERATE_KEY MAP_KEY_ITERATE_KEY isArray isMap isIntegerKey
              at_least fn_reads triggerComputed fuel t type k v s Hset Hfuel)
    as (s' & -> & _).
  by eexists.
Qed.

Lemma exec_from_returns fuel cs : ∀ s,
  settled s → size (effects (graph s)) + length cs ≤ fuel →
  is_Some (exec_from fuel s cs).
Proof.
  induction cs as [|c cs IH]; intros s Hset Hfuel; simpl; [by eexists|].
  simpl in Hfuel.
  destruct (exec1_returns fuel s c Hset) as [s1 H1]; [lia|]. rewrite H1. simpl.
  destruct (exec1_settled fuel s c s1 Hset H1) as [Hset1 Hsize1].
  apply IH; [done|lia].
Qed.

End commands.

(** ** Writes and the effects that read *)

Lemma subscribers_elem_of g ds e :
  e ∈ subscribers g ds ↔ ∃ d D, Some d ∈ ds ∧ dep_heap g !! d = Some D ∧ member e D.
Proof.
  unfold subscribers, member. induction ds as [|od ds IH]; simpl.
  { split; [intros H; by apply elem_of_nil in H|].
    intros (d & D & H & _). by apply elem_of_nil in H. }
  rewrite elem_of_app, IH. split.
  - intros [He|(d & D & Hd & HD & He)].
    + destruct od as [d|]; simpl in He; [|by apply elem_of_nil in He].
      destruct (dep_heap g !! d) as [D|] eqn:HD; [|by apply elem_of_nil in He].
      exists d, D. split; [left|done].
    + exists d, D. split; [by right|done].
  - intros (d & D & Hd & HD & He). apply elem_of_cons in Hd as [<-|Hd].
    + left. simpl. by rewrite HD.
    + right. by exists d, D.
Qed.

(** In a settled state a subscriber with the default scheduler is clean. *)
Lemma subscriber_clean s ds e :
  settled s → e ∈ subscribers (graph s) ds →
  scheduler_of s !! e = Some DefaultScheduler →
  level_of e (graph s) = Some NotDirty.
Proof.
  intros [Hg _ _ Heff Hclean] He Hk.
  apply subscribers_elem_of in He as (d & D & _ & HD & Hm).
  apply (proj2 (map_get_is_Some e (entries D))) in Hm as [tid Hget].
  destruct (q_current _ Hg d D e tid HD Hget) as (E & HE & -> & _).
  destruct (ok_edge _ _ (q_graph _ Hg) d D e _ HD Hget) as (E0 & HE0 & Hcase).
  assert (E0 = E) as -> by congruence.
  apply level_of_Some. exists E. split; [done|].
  destruct (Heff e E HE) as (_ & _ & [Hl|Hl] & _); [done|].
  pose proof (Hclean e E HE Hk Hl) as Hnil.
  destruct Hcase as [(_ & i & _ & Hi)|(Hlt & _)]; [|lia].
  by rewrite Hnil in Hi.
Qed.

Lemma filter_iff_in {A} (P Q : A → Prop) `{∀ x, Decision (P x)} `{∀ x, Decision (Q x)}
    (l : list A) :
  (∀ x, x ∈ l → P x ↔ Q x) → filter P l = filter Q l.
Proof.
  induction l as [|x l IH]; intros Hpq; [done|].
  rewrite !filter_cons. rewrite IH by (intros y Hy; apply Hpq; by right).
  destruct (decide (P x)) as [HP|HP].
  - by rewrite decide_True by (by apply (Hpq x); [left|]).
  - rewrite decide_False; [done|]. intros HQ. apply HP. by apply (Hpq x); [left|].
Qed.

Section writes.

Context {V : Type}.
Variable ITERATE_KEY MAP_KEY_ITERATE_KEY : key.
Variable isArray isMap : target → bool.
Variable isIntegerKey : key → bool.
Variable at_least : key → V → bool.
Variable fn_reads : nat → nat → list (target * key).
Variable triggerComputed : nat → Engine → Engine.

Local Abbreviation collected :=
  (collected ITERATE_KEY MAP_KEY_ITERATE_KEY isArray isMap isIntegerKey at_least).
Local Abbreviation trigger :=
  (trigger ITERATE_KEY MAP_KEY_ITERATE_KEY isArray isMap isIntegerKey at_least
     fn_reads triggerComputed).
Local Abbreviation exec :=
  (exec ITERATE_KEY MAP_KEY_ITERATE_KEY isArray isMap isIntegerKey at_least
     fn_reads triggerComputed).

Lemma exec_settled fuel cs s : exec fuel cs = Some s → settled s.
Proof.
  intros Hrun.
  by destruct (exec_from_settled ITERATE_KEY MAP_KEY_ITERATE_KEY isArray isMap
                 isIntegerKey at_least fn_reads triggerComputed fuel cs start s
                 initial_settled Hrun).
Qed.

(** X15, every program returns and leaves the engine settled.  The
    functions of the effects read reactive properties and write none.  With
    fuel for one scheduler call per command, any sequence of [effect],
    runner, [stop] and [trigger] calls returns.  Whenever it returns: the
    graph invariants hold, [pauseScheduleStack] is 0 and
    [queueEffectSchedulers] is empty, no effect has [_runnings] or
    [_shouldSchedule] set, and an effect with the default scheduler that is
    left [Dirty] has no Deps, so that every subscribed effect with the
    default scheduler has been re-run since the last write that reached it.
    The default scheduler is the one [effect] gives when the options have no
    [scheduler] property; with [scheduler: undefined] in the options the
    effect has no scheduler, and nothing is said of its level. *)
Theorem commands_return_and_settle (fuel : nat) (cs : list command) :
  (length cs ≤ fuel → is_Some (exec fuel cs))
  ∧ (∀ s, exec fuel cs = Some s →
          settled s
          ∧ ∀ d D e, dep_heap (graph s) !! d = Some D → member e D →
                     scheduler_of s !! e = Some DefaultScheduler →
                     level_of e (graph s) = Some NotDirty).
Proof.
  split.
  - intros Hfuel. apply exec_from_returns; [apply initial_settled|]. simpl.
    rewrite map_size_empty. lia.
  - intros s Hrun. pose proof (exec_settled fuel cs s Hrun) as Hset.
    split; [done|]. intros d D e HD Hm Hk.
    apply (subscriber_clean s [Some d] e Hset); [|done].
    apply subscribers_elem_of. exists d, D. split; [left|done].
Qed.

(** X16, a write re-runs every subscriber once.  The functions of the
    effects read reactive properties and write none.  In a state that a
    program has reached, [trigger] returns, given fuel for one scheduler call
    per effect.  The effects with the default scheduler, which [effect] gives
    when the options have no [scheduler] property, that are held by the
    collected Deps are run, each once and in the order in which the Deps and
    their entries list them first, whether an effect is held by one of the
    Deps or by several; all of them are [NotDirty] afterwards.  Of the
    effects with a scheduler of their own, those that were [NotDirty] have
    the scheduler called once, in the same order.  The other subscribers
    that were [NotDirty] are left [Dirty] with nothing called: those with a
    scheduler of their own, and those with no scheduler, as [effect] makes
    them for options with [scheduler: undefined]. *)
Theorem write_reruns_each_subscriber_once
    (fuel : nat) (cs : list command) (s : Engine)
    (t : target) (type : TriggerOpTypes) (k : option key) (v : V) :
  exec fuel cs = Some s → size (effects (graph s)) ≤ fuel →
  ∃ s', trigger fuel t type k v s = Some s'
    ∧ fn_calls s'
      = fn_calls s
        ++ filter (λ e, scheduler_of s !! e = Some DefaultScheduler)
             (first_occurrences (subscribers (graph s) (collected t type k v (graph s))))
    ∧ scheduler_calls s'
      = scheduler_calls s
        ++ filter (λ e, scheduler_of s !! e = Some CustomScheduler)
             (notified (graph s) (collected t type k v (graph s)))
    ∧ (∀ e, e ∈ subscribers (graph s) (collected t type k v (graph s)) →
            scheduler_of s !! e = Some DefaultScheduler →
            level_of e (graph s') = Some NotDirty)
    ∧ (∀ e, e ∈ subscribers (graph s) (collected t type k v (graph s)) →
            level_of e (graph s) = Some NotDirty →
            scheduler_of s !! e ≠ Some DefaultScheduler →
            level_of e (graph s') = Some Dirty).
Proof.
  intros Hrun Hfuel. pose proof (exec_settled fuel cs s Hrun) as Hset.
  destruct (trigger_settled ITERATE_KEY MAP_KEY_ITERATE_KEY isArray isMap isIntegerKey
              at_least fn_reads triggerComputed fuel t type k v s Hset Hfuel)
    as (s' & Htrig & _ & Hfc & Hsc & _ & _ & _ & Hlev & Hdirty).
  exists s'. split; [exact Htrig|]. split; [|split; [exact Hsc|split]].
  - rewrite Hfc. f_equal. unfold notified.
    rewrite first_occurrences_filter, list_filter_filter.
    apply filter_iff_in. intros e He.
    pose proof (proj1 (first_occurrences_elem_of e _) He) as He'.
    split; [naive_solver|]. intros Hk. split; [done|].
    exact (subscriber_clean s _ e Hset He' Hk).
  - intros e He Hk. apply Hlev; [|done]. apply notified_elem_of. split; [done|].
    exact (subscriber_clean s _ e Hset He Hk).
  - intros e He Hn Hk. apply Hdirty; [|done]. by apply notified_elem_of.
Qed.

(** X17, a write that reaches no clean subscriber changes nothing.  In a
    state that a program has reached, when none of the effects held by the
    collected Deps is [NotDirty], [trigger] returns the state as it was: no
    function and no scheduler is called.  This is so when the property has
    no Dep, which is the case when no active effect has read it in its last
    run. *)
Theorem write_without_clean_subscriber_changes_nothing
    (fuel : nat) (cs : list command) (s : Engine)
    (t : target) (type : TriggerOpTypes) (k : option key) (v : V) :
  exec fuel cs = Some s →
  ((∀ e, e ∈ subscribers (graph s) (collected t type k v (graph s)) →
         level_of e (graph s) ≠ Some NotDirty) →
   trigger fuel t type k v s = Some s)
  ∧ ((∀ od, od ∈ collected t type k v (graph s) → od = None) →
     subscribers (graph s) (collected t type k v (graph s)) = []).
Proof.
  intros Hrun. pose proof (exec_settled fuel cs s Hrun) as Hset. split.
  - intros Hnone.
    rewrite (trigger_marks ITERATE_KEY MAP_KEY_ITERATE_KEY isArray isMap isIntegerKey
               at_least fn_reads triggerComputed) by done.
    rewrite marks_none.
    + destruct fuel; simpl;
        by rewrite bool_decide_eq_true_2, (rest_queue _ Hset) by apply (rest_stack _ Hset).
    + destruct (filter _ _) as [|e l] eqn:Hf; [done|].
      assert (He : e ∈ e :: l) by left. rewrite <-Hf in He.
      apply list_elem_of_filter in He as [Hn He]. by destruct (Hnone e He).
  - intros Hall. destruct (subscribers _ _) as [|e l] eqn:Hs; [done|].
    assert (He : e ∈ e :: l) by left. rewrite <-Hs in He.
    apply subscribers_elem_of in He as (d & D & Hd & _). by specialize (Hall _ Hd).
Qed.

Lemma count_of_app e l1 l2 : count_of e (l1 ++ l2) = count_of e l1 + count_of e l2.
Proof. unfold count_of. by rewrite filter_app, length_app. Qed.

Lemma count_of_absent e l : e ∉ l → count_of e l = 0.
Proof.
  intros Hnin. unfold count_of. destruct (filter _ l) as [|x l'] eqn:Hf; [done|].
  assert (Hx : x ∈ x :: l') by left. rewrite <-Hf in Hx.
  apply list_elem_of_filter in Hx as [-> Hx]. done.
Qed.

Lemma count_of_NoDup e l : NoDup l → e ∈ l → count_of e l = 1.
Proof.
  unfold count_of. induction 1 as [|x l Hx Hnd IH]; intros He.
  { by apply elem_of_nil in He. }
  rewrite filter_cons. destruct (decide (x = e)) as [->|Hne].
  - simpl. f_equal. by apply (count_of_absent e l).
  - apply IH. by apply elem_of_cons in He as [->|He].
Qed.

(** X18, a scheduler of an effect's own is called once until the effect
    runs again.  When a write reaches a clean effect that has a scheduler of
    its own, the scheduler is called once and the effect stays [Dirty]; no
    further write calls the scheduler again as long as the effect has not
    been run. *)
Theorem own_scheduler_is_called_once_per_run
    (fuel : nat) (cs : list command) (s s1 : Engine) (e : nat)
    (t : target) (type : TriggerOpTypes) (k : option key) (v : V) :
  exec fuel cs = Some s → trigger fuel t type k v s = Some s1 →
  scheduler_of s !! e = Some CustomScheduler →
  e ∈ subscribers (graph s) (collected t type k v (graph s)) →
  level_of e (graph s) = Some NotDirty →
  count_of e (scheduler_calls s1) = S (count_of e (scheduler_calls s))
  ∧ count_of e (fn_calls s1) = count_of e (fn_calls s)
  ∧ level_of e (graph s1) = Some Dirty
  ∧ ∀ t' type' k' v' s2,
      trigger fuel t' type' k' v' s1 = Some s2 →
      count_of e (scheduler_calls s2) = count_of e (scheduler_calls s1)
      ∧ count_of e (fn_calls s2) = count_of e (fn_calls s1).
Proof.
  intros Hrun Htrig Hk He Hn. pose proof (exec_settled fuel cs s Hrun) as Hset.
  destruct (trigger_returns ITERATE_KEY MAP_KEY_ITERATE_KEY isArray isMap isIntegerKey
              at_least fn_reads triggerComputed fuel t type k v s s1 Hset Htrig)
    as (Hset1 & Hfc & Hsc & _ & Hsk & _ & _ & Hdirty).
  assert (Hin : e ∈ notified (graph s) (collected t type k v (graph s)))
    by (by apply notified_elem_of).
  assert (Hdirty' : level_of e (graph s1) = Some Dirty)
    by (apply (Hdirty e Hin); congruence).
  split; [|split; [|split; [done|]]].
  - rewrite Hsc, count_of_app.
    rewrite (count_of_NoDup e (filter _ (notified _ _))).
    + lia.
    + apply NoDup_filter, first_occurrences_NoDup.
    + by apply list_elem_of_filter.
  - rewrite Hfc, count_of_app.
    rewrite (count_of_absent e (filter _ (notified _ _))); [lia|].
    rewrite list_elem_of_filter. intros [Hd _]. congruence.
  - intros t' type' k' v' s2 Htrig2.
    destruct (trigger_returns ITERATE_KEY MAP_KEY_ITERATE_KEY isArray isMap isIntegerKey
                at_least fn_reads triggerComputed fuel t' type' k' v' s1 s2 Hset1 Htrig2)
      as (_ & Hfc2 & Hsc2 & _).
    assert (Hout : e ∉ notified (graph s1) (collected t' type' k' v' (graph s1))).
    { rewrite notified_elem_of. intros [_ Hl]. congruence. }
    rewrite Hfc2, Hsc2, !count_of_app.
    rewrite !(count_of_absent e (filter _ (notified _ _))); [lia| |].
    + rewrite list_elem_of_filter. naive_solver.
    + rewrite list_elem_of_filter. naive_solver.
Qed.

End writes.

Lemma three_effects_reached : sample_exec 3 three_effects_program = Some three_effects.
Proof. vm_compute. reflexivity. Qed.

Lemma commands_return_and_settle_witness :
  is_Some (sample_exec 4 (three_effects_program ++ [Write 1 SET (Some "count") tt])).
Proof.
  unfold sample_exec.
  apply (proj1 (commands_return_and_settle "Symbol(iterate)" "Symbol(Map key iterate)"
                  no_target no_target no_key never sample_reads no_computed 4
                  (three_effects_program ++ [Write 1 SET (Some "count") tt]))).
  simpl. lia.
Defined.

Lemma unscheduled_reached : sample_exec 1 unscheduled_program = Some unscheduled.
Proof. vm_compute. reflexivity. Qed.

Lemma write_reruns_each_subscriber_once_witness :
  (fn_calls three_effects = [0; 1; 2]
   ∧ ∃ s', sample_trigger 3 1 ADD (Some "count") tt three_effects = Some s'
       ∧ fn_calls s' = [0; 1; 2; 0; 1]
       ∧ scheduler_calls s' = [2])
  ∧ (fn_calls unscheduled = [0]
     ∧ ∃ s', sample_trigger 1 1 SET (Some "count") tt unscheduled = Some s'
         ∧ fn_calls s' = [0]
         ∧ scheduler_calls s' = []
         ∧ level_of 0 (graph s') = Some Dirty).
Proof.
  split.
  - split; [vm_compute; reflexivity|].
    destruct (write_reruns_each_subscriber_once "Symbol(iterate)" "Symbol(Map key iterate)"
                no_target no_target no_key never sample_reads no_computed
                3 three_effects_program three_effects 1 ADD (Some "count") tt
                three_effects_reached)
      as (s' & Htrig & Hfc & Hsc & _).
    + vm_compute. lia.
    + exists s'. split; [exact Htrig|]. split.
      * rewrite Hfc. vm_compute. reflexivity.
      * rewrite Hsc. vm_compute. reflexivity.
  - split; [vm_compute; reflexivity|].
    destruct (write_reruns_each_subscriber_once "Symbol(iterate)" "Symbol(Map key iterate)"
                no_target no_target no_key never sample_reads no_computed
                1 unscheduled_program unscheduled 1 SET (Some "count") tt
                unscheduled_reached)
      as (s' & Htrig & Hfc & Hsc & _ & Hdirty).
    + vm_compute. lia.
    + exists s'. split; [exact Htrig|]. split; [|split].
      * rewrite Hfc. vm_compute. reflexivity.
      * rewrite Hsc. vm_compute. reflexivity.
      * apply Hdirty.
        -- vm_compute. left.
        -- vm_compute. reflexivity.
        -- vm_compute. discriminate.
Defined.

Lemma one_scheduled_reached : sample_exec 3 one_scheduled_program = Some one_scheduled.
Proof. vm_compute. reflexivity. Qed.

Lemma after_add_reached :
  sample_trigger 3 1 ADD (Some "count") tt three_effects = Some after_add.
Proof. vm_compute. reflexivity. Qed.

Lemma write_without_clean_subscriber_changes_nothing_witness :
  sample_trigger 3 1 SET (Some "other") tt three_effects = Some three_effects
  ∧ scheduler_calls one_scheduled = [0]
  ∧ sample_trigger 3 1 SET (Some "count") tt one_scheduled = Some one_scheduled.
Proof.
  split; [|split; [vm_compute; reflexivity|]].
  - unfold sample_trigger.
    apply (proj1 (write_without_clean_subscriber_changes_nothing
                    "Symbol(iterate)" "Symbol(Map key iterate)"
                    no_target no_target no_key never sample_reads no_computed
                    3 three_effects_program three_effects 1 SET (Some "other") tt
                    three_effects_reached)).
    intros e He. vm_compute in He. inversion He.
  - unfold sample_trigger.
    apply (proj1 (write_without_clean_subscriber_changes_nothing
                    "Symbol(iterate)" "Symbol(Map key iterate)"
                    no_target no_target no_key never sample_reads no_computed
                    3 one_scheduled_program one_scheduled 1 SET (Some "count") tt
                    one_scheduled_reached)).
    intros e He. vm_compute in He.
    inversion He as [|? ? ? He']; [|inversion He'].
    vm_compute. discriminate.
Defined.

Lemma own_scheduler_is_called_once_per_run_witness :
  count_of 2 (scheduler_calls three_effects) = 0
  ∧ count_of 2 (scheduler_calls after_add) = 1
  ∧ level_of 2 (graph after_add) = Some Dirty
  ∧ ∀ s2, sample_trigger 3 1 SET (Some "count") tt after_add = Some s2 →
          count_of 2 (scheduler_calls s2) = 1.
Proof.
  destruct (own_scheduler_is_called_once_per_run
              "Symbol(iterate)" "Symbol(Map key iterate)"
              no_target no_target no_key never sample_reads no_computed
              3 three_effects_program three_effects after_add 2 1 ADD (Some "count") tt
              three_effects_reached after_add_reached)
    as (Hcalls & _ & Hlevel & Hnext).
  - vm_compute. reflexivity.
  - vm_compute. do 2 right. left.
  - vm_compute. reflexivity.
  - split; [vm_compute; reflexivity|]. split; [exact Hcalls|]. split; [exact Hlevel|].
    intros s2 Htrig. unfold sample_trigger in Htrig.
    rewrite (proj1 (Hnext 1 SET (Some "count") tt s2 Htrig)). exact Hcalls.
Defined.

(** ** Functions that only read, among the functions that do more *)

Section reads_only.

Context {V : Type}.
Variable ITERATE_KEY MAP_KEY_ITERATE_KEY : key.
Variable isArray isMap : target → bool.
Variable isIntegerKey : key → bool.
Variable at_least : key → V → bool.
Variable fn_reads : nat → nat → list (target * key).
Variable triggerComputed : nat → Engine → Engine.
Variable fn_steps : nat → nat → list (@step V).

Hypothesis only_reads : ∀ f n, fn_steps f n = Reads <$> fn_reads f n.

Local Abbreviation run_program :=
  (run_program ITERATE_KEY MAP_KEY_ITERATE_KEY isArray isMap isIntegerKey at_least
     triggerComputed fn_steps).
Local Abbreviation do_steps :=
  (do_steps ITERATE_KEY MAP_KEY_ITERATE_KEY isArray isMap isIntegerKey at_least
     triggerComputed).
Local Abbreviation trigger_with :=
  (trigger_with ITERATE_KEY MAP_KEY_ITERATE_KEY isArray isMap isIntegerKey at_least
     triggerComputed).
Local Abbreviation perform :=
  (perform ITERATE_KEY MAP_KEY_ITERATE_KEY isArray isMap isIntegerKey at_least
     triggerComputed fn_steps).
Local Abbreviation perform_from :=
  (perform_from ITERATE_KEY MAP_KEY_ITERATE_KEY isArray isMap isIntegerKey at_least
     triggerComputed fn_steps).
Local Abbreviation perform1 :=
  (perform1 ITERATE_KEY MAP_KEY_ITERATE_KEY isArray isMap isIntegerKey at_least
     triggerComputed fn_steps).
Local Abbreviation exec :=
  (exec ITERATE_KEY MAP_KEY_ITERATE_KEY isArray isMap isIntegerKey at_least
     fn_reads triggerComputed).
Local Abbreviation exec_from :=
  (exec_from ITERATE_KEY MAP_KEY_ITERATE_KEY isArray isMap isIntegerKey at_least
     fn_reads triggerComputed).
Local Abbreviation exec1 :=
  (exec1 ITERATE_KEY MAP_KEY_ITERATE_KEY isArray isMap isIntegerKey at_least
     fn_reads triggerComputed).
Local Abbreviation trigger :=
  (trigger ITERATE_KEY MAP_KEY_ITERATE_KEY isArray isMap isIntegerKey at_least
     fn_reads triggerComputed).

Lemma do_steps_reads run fuel reads : ∀ s,
  do_steps run fuel (Reads <$> reads) s = Some (on_graph (call_fn reads) s).
Proof.
  induction reads as [|tk reads IH]; intros s; simpl.
  { by destruct s. }
  rewrite IH. by destruct s.
Qed.

Lemma run_program_reads fuel e s :
  run_program (S fuel) e s = Some (run_effect fn_reads e s).
Proof.
  unfold Trigger.run_effect. cbn [Trigger.run_program].
  destruct (fn_of s !! e) as [f|]; [|done].
  rewrite only_reads. unfold run, on_graph.
  cbn [graph log_fn_call set_graph].
  destruct (effects (update_effect e (set_dirtyLevel NotDirty) (graph s)) !! e) as [E|].
  - destruct (active E); rewrite do_steps_reads; reflexivity.
  - reflexivity.
Qed.

Section with_run.

Variable run : nat → Engine → option Engine.
Hypothesis run_reads : ∀ e s, run e s = Some (run_effect fn_reads e s).

Lemma call_scheduler_with_reads e s :
  call_scheduler_with triggerComputed run e s
  = Some (call_scheduler fn_reads triggerComputed e s).
Proof.
  unfold call_scheduler_with, call_scheduler.
  destruct (scheduler_of s !! e) as [[|]|]; try done.
  destruct (dirty triggerComputed e s) as [[|] s1]; [apply run_reads|done].
Qed.

Lemma drain_with_reads fuel : ∀ s,
  drain_with triggerComputed run fuel s = drain fn_reads triggerComputed fuel s.
Proof.
  induction fuel as [|fuel IH]; intros s; simpl; [done|].
  case_bool_decide; [|done]. destruct (queueEffectSchedulers s) as [|e rest]; [done|].
  rewrite call_scheduler_with_reads. simpl. apply IH.
Qed.

Lemma triggerEffects_with_reads fuel d l s :
  triggerEffects_with triggerComputed run fuel d l s
  = triggerEffects fn_reads triggerComputed fuel d l s.
Proof.
  unfold triggerEffects_with, triggerEffects, resetScheduling_with, resetScheduling.
  apply drain_with_reads.
Qed.

Lemma trigger_each_with_reads fuel ds : ∀ s,
  trigger_each_with triggerComputed run fuel ds s
  = trigger_each fn_reads triggerComputed fuel ds s.
Proof.
  induction ds as [|[d|] ds IH]; intros s; simpl; [done| |apply IH].
  rewrite triggerEffects_with_reads.
  destruct (triggerEffects fn_reads triggerComputed fuel d Dirty s); simpl; [apply IH|done].
Qed.

Lemma trigger_with_reads fuel t type k v s :
  trigger_with run fuel t type k v s = trigger fuel t type k v s.
Proof.
  unfold Trigger.trigger_with, Trigger.trigger.
  destruct (targetMap (graph s) !! t); [|done].
  rewrite trigger_each_with_reads.
  destruct (trigger_each _ _ _ _ _); simpl; [|done].
  unfold resetScheduling_with, resetScheduling. apply drain_with_reads.
Qed.

End with_run.

Lemma perform1_reads fuel s c : perform1 (S fuel) s c = exec1 (S fuel) s c.
Proof.
  destruct c as [fn options|e|e|t type k v]; simpl.
  - unfold effect_program, effect.
    destruct (match fn with Fn f => Some f | RunnerOf e0 => fn_of s !! e0 end); [|done].
    destruct (match options with Some o => lazy o | None => false end); [done|].
    apply run_program_reads.
  - apply run_program_reads.
  - done.
  - apply trigger_with_reads. intros e s'. apply run_program_reads.
Qed.

Lemma perform_from_reads fuel cs : ∀ s,
  perform_from (S fuel) s cs = exec_from (S fuel) s cs.
Proof.
  induction cs as [|c cs IH]; intros s; [done|].
  cbn [Trigger.perform_from Trigger.exec_from]. rewrite perform1_reads.
  destruct (exec1 (S fuel) s c); simpl; [apply IH|done].
Qed.

(** When every function only reads, a program over functions that do more
    is a program over reads. *)
Lemma perform_reads fuel cs : perform (S fuel) cs = exec (S fuel) cs.
Proof. apply perform_from_reads. Qed.

End reads_only.

(** ** Runs that are entered again, and effects that stop themselves *)

Lemma reentered_reached :
  sample_perform 5 [Effect (Fn 0) (Some recursive)] = Some reentered.
Proof. vm_compute. reflexivity. Qed.

Lemma stopped_after_read_reached :
  sample_perform 5 [Effect (Fn 1) None] = Some stopped_after_read.
Proof. vm_compute. reflexivity. Qed.

Lemma stopped_before_read_reached :
  sample_perform 5 [Effect (Fn 2) None; Runner 0] = Some stopped_before_read.
Proof. vm_compute. reflexivity. Qed.

Lemma run_when_stopped_reached :
  sample_perform 5 [Effect (Fn 4) None; StopRunner 0; Runner 0] = Some run_when_stopped.
Proof. vm_compute. reflexivity. Qed.

Lemma reentered_by_longer_run_reached :
  sample_perform 5 [Effect (Fn 3) (Some recursive); Runner 0]
  = Some reentered_by_longer_run.
Proof. vm_compute. reflexivity. Qed.



(** ** The edges of effects whose functions only read *)

Section effects_that_only_read.

Context {V : Type}.
Variable ITERATE_KEY MAP_KEY_ITERATE_KEY : key.
Variable isArray isMap : target → bool.
Variable isIntegerKey : key → bool.
Variable at_least : key → V → bool.
Variable fn_reads : nat → nat → list (target * key).
Variable triggerComputed : nat → Engine → Engine.

Local Abbreviation exec :=
  (exec ITERATE_KEY MAP_KEY_ITERATE_KEY isArray isMap isIntegerKey at_least
     fn_reads triggerComputed).

Local Abbreviation perform :=
  (perform ITERATE_KEY MAP_KEY_ITERATE_KEY isArray isMap isIntegerKey at_least
     triggerComputed).

Lemma exec_graph_quiescent fuel cs s : exec fuel cs = Some s → quiescent (graph s).
Proof.
  intros Hrun.
  exact (rest_graph _ (exec_settled ITERATE_KEY MAP_KEY_ITERATE_KEY isArray isMap
                         isIntegerKey at_least fn_reads triggerComputed fuel cs s Hrun)).
Qed.

(** A program whose functions only read leaves the graph between two of
    its commands in a state between two runs. *)
Lemma perform_graph_quiescent (fn_steps : nat → nat → list (@step V)) fuel cs s :
  (∀ f n, fn_steps f n = Reads <$> fn_reads f n) →
  perform fn_steps (S fuel) cs = Some s → quiescent (graph s).
Proof.
  intros Honly Hrun.
  rewrite (perform_reads ITERATE_KEY MAP_KEY_ITERATE_KEY isArray isMap isIntegerKey
             at_least fn_reads triggerComputed fn_steps Honly) in Hrun.
  by apply exec_graph_quiescent in Hrun.
Qed.



(** X3, the edges are kept in both directions.  The functions of the
    effects only read reactive properties: none writes to one, runs an
    effect or stops one, so that no effect is stopped while it runs.
    Between two commands of a program of such effects, which creates, runs
    and stops them, or calls [effect], runners, [stop] and writes from
    outside the effects: the Deps in [deps] of an effect are the Deps that
    hold the effect, and they hold it under its current trackId; only active
    effects are held; and the cursor [_depsLength] is the length of
    [deps]. *)
Theorem deps_mirror_dep_entries (e : nat) (E : ReactiveEffect) :
  (∀ cs, effects (Reactivity.exec cs) !! e = Some E →
     (∀ d, d ∈ deps E ↔ ∃ D, dep_heap (Reactivity.exec cs) !! d = Some D ∧ member e D)
     ∧ (∀ d D, dep_heap (Reactivity.exec cs) !! d = Some D → member e D →
               map_get e (entries D) = Some (_trackId E) ∧ active E = true)
     ∧ _depsLength E = length (deps E))
  ∧ (∀ fuel cs s, exec fuel cs = Some s → effects (graph s) !! e = Some E →
       (∀ d, d ∈ deps E ↔ ∃ D, dep_heap (graph s) !! d = Some D ∧ member e D)
       ∧ (∀ d D, dep_heap (graph s) !! d = Some D → member e D →
                 map_get e (entries D) = Some (_trackId E) ∧ active E = true)
       ∧ _depsLength E = length (deps E)).
Proof.
  split.
  - intros cs HE. exact (edges_are_mirrored _ e E (exec_quiescent cs) HE).
  - intros fuel cs s Hrun HE.
    exact (edges_are_mirrored _ e E (exec_graph_quiescent _ _ _ Hrun) HE).
Qed.

(** X10, [stop] unsubscribes.  The functions of the effects only read
    reactive properties: none writes to one, runs an effect or stops one, so
    that no effect is stopped or run while another runs.  In every state
    that a program of such effects reaches, by creating, running and
    stopping them, and also by [effect], runners, [stop] and writes from
    outside the effects, after [stop] the effect is held by no Dep, its
    [deps] array is empty and it is inactive.  Running it afterwards calls
    [fn] with nothing tracked: whatever [fn] reads, no Dep is created or
    changed and the target map stays as it is, so the effect remains
    unsubscribed. *)
Theorem stop_unsubscribes (e : nat) :
  (∀ cs,
     (∀ d D, dep_heap (stop e (Reactivity.exec cs)) !! d = Some D → ¬ member e D)
     ∧ (∀ E', effects (stop e (Reactivity.exec cs)) !! e = Some E' →
              active E' = false ∧ deps E' = [] ∧ _depsLength E' = 0)
     ∧ (∀ reads,
          dep_heap (run e reads (stop e (Reactivity.exec cs)))
          = dep_heap (stop e (Reactivity.exec cs))
          ∧ targetMap (run e reads (stop e (Reactivity.exec cs)))
            = targetMap (stop e (Reactivity.exec cs))
          ∧ ∀ E', effects (run e reads (stop e (Reactivity.exec cs))) !! e = Some E' →
                  active E' = false ∧ deps E' = []))
  ∧ (∀ fuel cs s, exec fuel cs = Some s →
       (∀ d D, dep_heap (stop e (graph s)) !! d = Some D → ¬ member e D)
       ∧ (∀ E', effects (stop e (graph s)) !! e = Some E' →
                active E' = false ∧ deps E' = [] ∧ _depsLength E' = 0)
       ∧ (∀ reads,
            dep_heap (run e reads (stop e (graph s))) = dep_heap (stop e (graph s))
            ∧ targetMap (run e reads (stop e (graph s))) = targetMap (stop e (graph s))
            ∧ ∀ E', effects (run e reads (stop e (graph s))) !! e = Some E' →
                    active E' = false ∧ deps E' = [])).
Proof.
  split.
  - intros cs. exact (stop_leaves_no_edge _ e (exec_quiescent cs)).
  - intros fuel cs s Hrun.
    exact (stop_leaves_no_edge _ e (exec_graph_quiescent _ _ _ Hrun)).
Qed.

End effects_that_only_read.



Lemma deps_mirror_dep_entries_witness :
  ∃ E, effects (Reactivity.exec [NewEffect false; Run 0 [(1, "a"); (2, "b"); (1, "a")]]) !! 0
       = Some E
       ∧ deps E = [0; 1] ∧ _depsLength E = 2.
Proof.
  exists (set_depsLength 2 (set_trackId 1 (set_deps [0; 1]
            (set_dirtyLevel NotDirty (new_effect false))))).
  assert (HE : effects (Reactivity.exec
                          [NewEffect false; Run 0 [(1, "a"); (2, "b"); (1, "a")]]) !! 0
               = Some (set_depsLength 2 (set_trackId 1 (set_deps [0; 1]
                         (set_dirtyLevel NotDirty (new_effect false)))))).
  { vm_compute. reflexivity. }
  split; [exact HE|]. split; [reflexivity|].
  exact (proj2 (proj2 (proj1 (deps_mirror_dep_entries "Symbol(iterate)"
                                "Symbol(Map key iterate)" no_target no_target no_key
                                never sample_reads no_computed 0 _) _ HE))).
Defined.

Lemma stop_unsubscribes_witness :
  ∃ D E',
    dep_heap (Reactivity.exec [NewEffect false; Run 0 [(1, "a")]]) !! 0 = Some D
    ∧ member 0 D
    ∧ effects (run 0 [(1, "a")]
                 (stop 0 (Reactivity.exec [NewEffect false; Run 0 [(1, "a")]]))) !! 0
      = Some E'
    ∧ active E' = false ∧ deps E' = []
    ∧ targetMap (run 0 [(1, "a")]
                   (stop 0 (Reactivity.exec [NewEffect false; Run 0 [(1, "a")]])))
      = targetMap (stop 0 (Reactivity.exec [NewEffect false; Run 0 [(1, "a")]])).
Proof.
  eexists _, _. split; [vm_compute; reflexivity|]. split; [vm_compute; left|].
  assert (HE : effects (run 0 [(1, "a")]
                 (stop 0 (Reactivity.exec [NewEffect false; Run 0 [(1, "a")]]))) !! 0
               = Some (set_active false (set_trackId 2 (set_dirtyLevel NotDirty
                         (new_effect false))))).
  { vm_compute. reflexivity. }
  split; [exact HE|].
  destruct (proj1 (stop_unsubscribes "Symbol(iterate)" "Symbol(Map key iterate)"
                     no_target no_target no_key never sample_reads no_computed 0)
              [NewEffect false; Run 0 [(1, "a")]]) as (_ & _ & Hrun).
  destruct (Hrun [(1, "a")]) as (_ & Htm & Heff).
  destruct (Heff _ HE) as [Hact Hdeps].
  split; [exact Hact|]. split; [exact Hdeps|]. exact Htm.
Defined.

End TriggerProofs.

(** ** Computed values *)

Module ComputedProofs.
Import Reactivity Computed.

Section Computed_facts.

Context {V W : Type}.
Variable hasChanged : option V → option V → bool.
Variable getter : option V → W → @outcome V W.
Variable dep_computed : nat → option nat.
Variable triggerComputed : nat → W → @upstream W.

Local Abbreviation State := (@State V W).
Local Abbreviation dirty := (dirty dep_computed triggerComputed).
Local Abbreviation dirty_walk := (dirty_walk dep_computed triggerComputed).
Local Abbreviation needs_run := (needs_run dep_computed triggerComputed).
Local Abbreviation run := (run getter).
Local Abbreviation value := (value hasChanged getter dep_computed triggerComputed).
Local Abbreviation exec1 := (exec1 hasChanged getter dep_computed triggerComputed).
Local Abbreviation exec := (exec hasChanged getter dep_computed triggerComputed).

Lemma same_cache_refl (st : State) : same_cache st st.
Proof. by repeat split. Qed.

Lemma same_cache_trans (a b c : State) :
  same_cache a b → same_cache b c → same_cache a c.
Proof. intros (?&?&?&?) (?&?&?&?). repeat split; congruence. Qed.

Lemma triggerEffects_body_level (l : DirtyLevels) (tracking : bool) (E : ReactiveEffect) :
  _dirtyLevel (triggerEffects_body l tracking E).1
  = if (level (_dirtyLevel E) <? level l) && tracking then l else _dirtyLevel E.
Proof.
  unfold triggerEffects_body.
  destruct ((level (_dirtyLevel E) <? level l) && tracking); simpl;
    repeat case_match; reflexivity.
Qed.

Lemma triggerEffects_cache (l : DirtyLevels) (tracking : bool) (st : State) :
  same_cache st (triggerEffects l tracking st).
Proof.
  unfold triggerEffects.
  destruct (triggerEffects_body l tracking (effect (self st))) as [E' [at_level|]];
    by repeat split.
Qed.

Lemma triggerEffects_level (l : DirtyLevels) (tracking : bool) (st : State) :
  dirtyLevel (triggerEffects l tracking st)
  = if (level (dirtyLevel st) <? level l) && tracking then l else dirtyLevel st.
Proof.
  unfold triggerEffects, dirtyLevel.
  rewrite <- triggerEffects_body_level.
  destruct (triggerEffects_body l tracking (effect (self st))) as [E' [at_level|]];
    reflexivity.
Qed.

(** The triggers that a source sends while it is read. *)
Lemma heard_cache (ls : list DirtyLevels) (st : State) :
  same_cache st (foldl (λ s l, triggerEffects l true s) st ls).
Proof.
  revert st. induction ls as [|l ls IH]; intros st; simpl; [apply same_cache_refl|].
  eapply same_cache_trans; [apply (triggerEffects_cache l true)|apply IH].
Qed.

(** They raise the level to the highest of them, and leave it where none
    of them is above it. *)
Lemma heard_level (ls : list DirtyLevels) (st : State) :
  level (dirtyLevel (foldl (λ s l, triggerEffects l true s) st ls))
  = foldl (λ n l, n `max` level l) (level (dirtyLevel st)) ls.
Proof.
  revert st. induction ls as [|l ls IH]; intros st; simpl; [done|].
  rewrite IH, triggerEffects_level, andb_true_r. f_equal.
  destruct (Nat.ltb_spec (level (dirtyLevel st)) (level l)); lia.
Qed.

Lemma heard_level_nil (st : State) w :
  dirtyLevel (foldl (λ s l, triggerEffects l true s) (set_world w st) [])
  = dirtyLevel st.
Proof. reflexivity. Qed.

Lemma max_levels_ge (ls : list DirtyLevels) (n : nat) :
  n ≤ foldl (λ n l, n `max` level l) n ls.
Proof.
  revert n. induction ls as [|l ls IH]; intros n; simpl; [done|].
  etrans; [|apply IH]. lia.
Qed.

Lemma max_levels_le (ls : list DirtyLevels) (n : nat) :
  n ≤ level Dirty → foldl (λ n l, n `max` level l) n ls ≤ level Dirty.
Proof.
  revert n. induction ls as [|l ls IH]; intros n Hn; simpl; [done|].
  apply IH. destruct l; simpl in *; lia.
Qed.

Lemma max_levels_elem (ls : list DirtyLevels) (n : nat) (l : DirtyLevels) :
  l ∈ ls → level l ≤ foldl (λ n l, n `max` level l) n ls.
Proof.
  revert n. induction ls as [|l' ls IH]; intros n Hin; [by apply elem_of_nil in Hin|].
  simpl. apply elem_of_cons in Hin as [->|Hin]; [|by apply IH].
  etrans; [|apply max_levels_ge]. lia.
Qed.

Lemma max_levels_below (ls : list DirtyLevels) (n m : nat) :
  n ≤ m → (∀ l, l ∈ ls → level l ≤ m) → foldl (λ n l, n `max` level l) n ls ≤ m.
Proof.
  revert n. induction ls as [|l' ls IH]; intros n Hn Hall; simpl; [done|].
  apply IH.
  - pose proof (Hall l' ltac:(left)). lia.
  - intros l Hl. apply Hall. by right.
Qed.

Lemma level_inj (a b : DirtyLevels) : level a = level b → a = b.
Proof. by destruct a, b. Qed.

Lemma dirty_walk_cache (ds : list nat) (st : State) :
  same_cache st (dirty_walk ds st).2.
Proof.
  revert st. induction ds as [|d ds IH]; intros st; simpl.
  { apply same_cache_refl. }
  destruct (dep_computed d) as [c|]; [|apply IH].
  set (u := triggerComputed c (world st)).
  set (st2 := foldl (λ s l, triggerEffects l true s) (set_world (world_then u) st) (heard u)).
  assert (Hst2 : same_cache st st2).
  { subst st2. eapply same_cache_trans; [|apply heard_cache]. by repeat split. }
  destruct (read_throws u); [exact Hst2|].
  match goal with |- context [if ?b then (_, st2) else _] => destruct b end; [exact Hst2|].
  eapply same_cache_trans; [exact Hst2 | apply IH].
Qed.

(** A walk that returns has left the level at the guard or above, and a
    walk never lowers it. *)
Lemma dirty_walk_level (ds : list nat) (st : State) :
  level (dirtyLevel st) ≤ level (dirtyLevel (dirty_walk ds st).2)
  ∧ level (dirtyLevel (dirty_walk ds st).2) ≤ level Dirty.
Proof.
  revert st. induction ds as [|d ds IH]; intros st; simpl.
  { split; [done|]. destruct (dirtyLevel st); simpl; lia. }
  destruct (dep_computed d) as [c|]; [|by apply IH].
  set (u := triggerComputed c (world st)).
  set (st2 := foldl (λ s l, triggerEffects l true s) (set_world (world_then u) st) (heard u)).
  assert (Hst2 : level (dirtyLevel st) ≤ level (dirtyLevel st2)
                 ∧ level (dirtyLevel st2) ≤ level Dirty).
  { subst st2. rewrite heard_level.
    change (dirtyLevel (set_world (world_then u) st)) with (dirtyLevel st).
    split; [apply max_levels_ge|].
    apply max_levels_le. destruct (dirtyLevel st); simpl; lia. }
  destruct (read_throws u); [exact Hst2|].
  match goal with |- context [if ?b then (_, st2) else _] => destruct b end; [exact Hst2|].
  destruct (IH st2) as [H1 H2]. split; [lia | exact H2].
Qed.

Lemma resetTracking_fields (st : State) :
  self (resetTracking st) = self st
  ∧ getter_calls (resetTracking st) = getter_calls st
  ∧ last_result (resetTracking st) = last_result st
  ∧ triggered (resetTracking st) = triggered st.
Proof. unfold resetTracking. by destruct (reverse (trackStack st)). Qed.

Lemma dirtyLevel_resetTracking (st : State) :
  dirtyLevel (resetTracking st) = dirtyLevel st.
Proof. unfold dirtyLevel. by destruct (resetTracking_fields st) as (-> & _). Qed.

Lemma dirty_cache (st : State) : same_cache st (dirty st).2.
Proof.
  unfold Computed.dirty. case_match; [|apply same_cache_refl].
  match goal with |- context [Computed.dirty_walk _ _ ?ds ?s] =>
    pose proof (dirty_walk_cache ds s) as (Hv & Hc & Hn & Hl);
    destruct (dirty_walk ds s) as [[[]|] st3] end; simpl in *.
  - match goal with |- same_cache _ (resetTracking ?s) =>
      destruct (resetTracking_fields s) as (Hs & Hc' & Hl' & _) end.
    unfold same_cache. rewrite Hs, Hc', Hl'.
    case_match; simpl in *; repeat split; congruence.
  - repeat split; congruence.
Qed.

Lemma at_least_Dirty (l : DirtyLevels) : (level Dirty <=? level l) = true ↔ l = Dirty.
Proof. by destruct l. Qed.

(** [dirty] answers whether the level it leaves is [Dirty]. *)
Lemma dirty_answer (st : State) (b : bool) :
  (dirty st).1 = Returns b → b = (level Dirty <=? level (dirtyLevel (dirty st).2)).
Proof.
  unfold Computed.dirty.
  destruct (bool_decide (dirtyLevel st = MaybeDirty_ComputedSideEffect)
            || bool_decide (dirtyLevel st = MaybeDirty)) eqn:Hm.
  - match goal with |- context [Computed.dirty_walk _ _ ?ds ?s] =>
      destruct (dirty_walk ds s) as [[[]|] st3] end; cbn [fst snd]; [|done].
    by intros [= <-].
  - cbn [fst snd]. by intros [= <-].
Qed.

Lemma dirty_true (st : State) :
  (dirty st).1 = Returns true → dirtyLevel (dirty st).2 = Dirty.
Proof. intros H. apply dirty_answer in H. by apply at_least_Dirty. Qed.

Lemma dirty_false (st : State) :
  (dirty st).1 = Returns false → dirtyLevel (dirty st).2 ≠ Dirty.
Proof.
  intros H Hd. apply dirty_answer in H. symmetry in H.
  apply not_true_iff_false in H. apply H. by apply at_least_Dirty.
Qed.

(** A level that is decided and below [Dirty] keeps [dirty] from doing
    anything. *)
Lemma dirty_clean (st : State) :
  dirtyLevel st = NotDirty ∨ dirtyLevel st = QueryingDirty →
  dirty st = (Returns false, st).
Proof.
  intros Hl. unfold Computed.dirty.
  replace (bool_decide (dirtyLevel st = MaybeDirty_ComputedSideEffect)
           || bool_decide (dirtyLevel st = MaybeDirty)) with false
    by (by destruct Hl as [-> | ->]).
  by destruct Hl as [-> | ->].
Qed.

Lemma dirty_at_Dirty (st : State) :
  dirtyLevel st = Dirty → dirty st = (Returns true, st).
Proof.
  intros Hl. unfold Computed.dirty.
  replace (bool_decide (dirtyLevel st = MaybeDirty_ComputedSideEffect)
           || bool_decide (dirtyLevel st = MaybeDirty)) with false
    by (by rewrite Hl).
  by rewrite Hl.
Qed.

(** Only a level between clean and dirty lets [dirty] read the sources. *)
Lemma dirty_walks (st : State) :
  dirtyLevel st = MaybeDirty ∨ dirtyLevel st = MaybeDirty_ComputedSideEffect →
  dirty st
  = match dirty_walk (walked st) (walk_start_of st) with
    | (Returns _, st3) =>
        let st5 :=
          resetTracking
            (if bool_decide (dirtyLevel st3 = QueryingDirty)
             then set_effect (set_dirtyLevel NotDirty (effect (self st3))) st3
             else st3) in
        (Returns (level Dirty <=? level (dirtyLevel st5)), st5)
    | (Throws, st3) => (Throws, st3)
    end.
Proof.
  intros Hl. unfold Computed.dirty.
  replace (bool_decide (dirtyLevel st = MaybeDirty_ComputedSideEffect)
           || bool_decide (dirtyLevel st = MaybeDirty)) with true
    by (by destruct Hl as [-> | ->]).
  reflexivity.
Qed.

Lemma dirty_throws_walked (st : State) :
  (dirty st).1 = Throws →
  dirtyLevel st = MaybeDirty ∨ dirtyLevel st = MaybeDirty_ComputedSideEffect.
Proof.
  unfold Computed.dirty.
  destruct (bool_decide (dirtyLevel st = MaybeDirty_ComputedSideEffect)) eqn:H1;
    [apply bool_decide_eq_true in H1; by right|].
  destruct (bool_decide (dirtyLevel st = MaybeDirty)) eqn:H2;
    [apply bool_decide_eq_true in H2; by left|].
  simpl. discriminate.
Qed.

Lemma needs_run_cache (st : State) : same_cache st (needs_run st).2.
Proof.
  unfold Computed.needs_run. destruct (negb (_cacheable (self st)));
    [apply same_cache_refl | apply dirty_cache].
Qed.

Lemma needs_run_true (st : State) :
  _cacheable (self st) = true → (needs_run st).1 = Returns true →
  dirtyLevel (needs_run st).2 = Dirty.
Proof.
  unfold Computed.needs_run. intros ->. simpl. apply dirty_true.
Qed.

Lemma run_counts (st : State) :
  getter_calls (run st).2 = getter_calls st + 1
  ∧ _value (self (run st).2) = _value (self st)
  ∧ _cacheable (self (run st).2) = _cacheable (self st)
  ∧ last_result (run st).2
    = match (run st).1 with Returns v => Some v | Throws => last_result st end
  ∧ (run st).1 = result (getter (_value (self st)) (world st)).
Proof.
  unfold Computed.run, call_getter. simpl.
  destruct (active (effect (self st))); simpl; [|done].
  destruct (retriggered _) as [l|]; simpl; [|done].
  match goal with |- context [triggerEffects l true ?s] =>
    pose proof (triggerEffects_cache l true s) as (H1 & H2 & H3 & H4) end.
  simpl in *. rewrite H1, H2, H3, H4. done.
Qed.

Lemma run_level (st : State) :
  retriggered (getter (_value (self st)) (world st)) = None →
  dirtyLevel (run st).2 = NotDirty.
Proof.
  unfold Computed.run, call_getter. simpl. intros Hpure.
  destruct (active (effect (self st))); simpl; [|done]. by rewrite Hpure.
Qed.

Lemma value_rest_clean (st : State) :
  dirtyLevel st = NotDirty ∨ dirtyLevel st = QueryingDirty →
  value_rest st = (Returns (_value (self st)), trackRefValue st).
Proof.
  unfold value_rest.
  change (dirtyLevel (trackRefValue st)) with (dirtyLevel st).
  by intros [-> | ->].
Qed.

Lemma value_rest_fields (st : State) :
  self (value_rest st).2 = self st
  ∧ getter_calls (value_rest st).2 = getter_calls st
  ∧ last_result (value_rest st).2 = last_result st
  ∧ (value_rest st).1 = Returns (_value (self st)).
Proof. unfold value_rest. by case_match. Qed.

(** The read in terms of its test: what [get value()] does once
    [needs_run] has answered. *)
Lemma value_after_test (st : State) :
  value st
  = match needs_run st with
    | (Returns true, st1) =>
        match run st1 with
        | (Returns v, st') =>
            value_rest (if hasChanged (_value (self st1)) (Some v)
                        then triggerRefValue Dirty (set_value (Some v) st')
                        else set_value (Some v) st')
        | (Throws, st') => (Throws, st')
        end
    | (Returns false, st1) => value_rest st1
    | (Throws, st1) => (Throws, st1)
    end.
Proof.
  unfold Computed.value. destruct (needs_run st) as [[[]|] st1]; reflexivity.
Qed.

(** A read of a cacheable computed whose level is decided and below
    [Dirty] returns the cached value, and calls nothing but
    [trackRefValue]. *)
Lemma value_cached (st : State) :
  _cacheable (self st) = true →
  dirtyLevel st = NotDirty ∨ dirtyLevel st = QueryingDirty →
  value st = (Returns (_value (self st)), trackRefValue st).
Proof.
  intros Hc Hl. rewrite value_after_test. unfold Computed.needs_run.
  rewrite Hc. cbn [negb]. rewrite (dirty_clean st Hl).
  by apply value_rest_clean.
Qed.

(** How often a read calls the getter. *)
Lemma value_counts (st : State) :
  getter_calls (value st).2
  = getter_calls st
    + match (needs_run st).1 with Returns true => 1 | _ => 0 end.
Proof.
  rewrite value_after_test.
  pose proof (needs_run_cache st) as (_ & _ & Hcalls & _).
  destruct (needs_run st) as [[[]|] st1]; cbn [fst snd] in *.
  - pose proof (run_counts st1) as (Hn & _).
    destruct (run st1) as [[v|] st']; cbn [fst snd] in *; [|lia].
    match goal with |- context [value_rest ?s] =>
      destruct (value_rest_fields s) as (_ & -> & _) end.
    case_match; simpl; lia.
  - destruct (value_rest_fields st1) as (_ & -> & _). lia.
  - lia.
Qed.

(** A read that has run a getter free of side effects leaves the level
    [NotDirty]. *)
Lemma value_ran_clean (st : State) :
  side_effect_free getter → (needs_run st).1 = Returns true →
  dirtyLevel (value st).2 = NotDirty.
Proof.
  intros Hpure Hrun. rewrite value_after_test.
  destruct (needs_run st) as [[[]|] st1]; cbn [fst snd] in Hrun; try discriminate.
  pose proof (run_level st1 (Hpure _ _)) as Hl.
  destruct (run st1) as [[v|] st']; cbn [fst snd] in Hl; [|exact Hl].
  assert (Hl' : dirtyLevel (if hasChanged (_value (self st1)) (Some v)
                            then triggerRefValue Dirty (set_value (Some v) st')
                            else set_value (Some v) st') = NotDirty).
  { by destruct (hasChanged _ _). }
  rewrite value_rest_clean by (by left). exact Hl'.
Qed.

(** A read that has not run the getter leaves the level that the test has
    left. *)
Lemma value_level_without_run (st : State) :
  (needs_run st).1 ≠ Returns true →
  dirtyLevel (value st).2 = dirtyLevel (needs_run st).2.
Proof.
  intros Hno. rewrite value_after_test.
  destruct (needs_run st) as [[[]|] st1]; cbn [fst snd] in *; [done| |done].
  unfold dirtyLevel. by destruct (value_rest_fields st1) as (-> & _).
Qed.

(** The cached value is the last result of the getter, after every
    history. *)
Lemma value_keeps_last_result (st : State) :
  _value (self st) = last_result st →
  _value (self (value st).2) = last_result (value st).2.
Proof.
  intros Hinv. rewrite value_after_test.
  pose proof (needs_run_cache st) as (Hv & _ & _ & Hl).
  destruct (needs_run st) as [[[]|] st1]; cbn [fst snd] in *.
  - pose proof (run_counts st1) as (_ & Hrv & _ & Hrl & _).
    destruct (run st1) as [[v|] st']; cbn [fst snd] in *.
    + match goal with |- context [value_rest ?s] =>
        destruct (value_rest_fields s) as (-> & _ & -> & _) end.
      case_match; simpl; congruence.
    + congruence.
  - destruct (value_rest_fields st1) as (-> & _ & -> & _). congruence.
  - congruence.
Qed.

Lemma exec_keeps_last_result (isSSR : bool) (w : W) (cs : list command) :
  _value (self (exec isSSR w cs)) = last_result (exec isSSR w cs).
Proof.
  unfold Computed.exec.
  induction cs as [|c cs IH] using rev_ind; [done|].
  rewrite foldl_app. simpl. destruct c as [|l tracking]; simpl.
  - by apply value_keeps_last_result.
  - match goal with |- context [triggerEffects l tracking ?s] =>
      pose proof (triggerEffects_cache l tracking s) as (H1 & _ & _ & H4) end.
    congruence.
Qed.

End Computed_facts.

Lemma value_returns_cache {V W : Type} (hasChanged : option V → option V → bool)
    (getter : option V → W → @outcome V W) (dep_computed : nat → option nat)
    (triggerComputed : nat → W → @upstream W) (st : @State V W) (v : option V) :
  (value hasChanged getter dep_computed triggerComputed st).1 = Returns v →
  v = _value (self (value hasChanged getter dep_computed triggerComputed st).2).
Proof.
  rewrite value_after_test.
  destruct (needs_run dep_computed triggerComputed st) as [[[]|] st1].
  - destruct (run getter st1) as [[r|] st']; cbn [fst snd]; [|done].
    match goal with |- context [value_rest ?s] =>
      destruct (value_rest_fields s) as (-> & _ & _ & ->) end.
    congruence.
  - destruct (value_rest_fields st1) as (-> & _ & _ & ->). congruence.
  - done.
Qed.

Lemma value_keeps_cacheable {V W : Type} (hasChanged : option V → option V → bool)
    (getter : option V → W → @outcome V W) (dep_computed : nat → option nat)
    (triggerComputed : nat → W → @upstream W) (st : @State V W) :
  _cacheable (self (value hasChanged getter dep_computed triggerComputed st).2)
  = _cacheable (self st).
Proof.
  rewrite value_after_test.
  pose proof (needs_run_cache dep_computed triggerComputed st) as (_ & Hc & _).
  destruct (needs_run dep_computed triggerComputed st) as [[[]|] st1]; cbn [fst snd] in *.
  - pose proof (run_counts getter st1) as (_ & _ & Hrc & _).
    destruct (run getter st1) as [[v|] st']; cbn [fst snd] in *; [|congruence].
    match goal with |- context [value_rest ?s] =>
      destruct (value_rest_fields s) as (-> & _) end.
    case_match; simpl; congruence.
  - destruct (value_rest_fields st1) as (-> & _). congruence.
  - congruence.
Qed.

(** C4: two consecutive reads of a cacheable computed, with no change to a
    dependency between them (the getter changes none of them either), the
    first of which finds the computed dirty, invoke the getter exactly once
    in total.  The first read invokes it once; the second calls nothing but
    [trackRefValue]: it does not run the effect and returns the cached
    [_value], which is what the first read returned.  The first read finds
    the computed dirty at level [Dirty], the level of a computed that has
    just been constructed and of one that a changed dependency has
    triggered.  And after every history of reads and triggers since the
    construction, a level below [Dirty] comes with a cached [_value] that is
    the last result the getter returned. *)
Theorem computed_reads_are_cached {V W : Type} (hasChanged : option V → option V → bool)
    (getter : option V → W → @outcome V W) (dep_computed : nat → option nat)
    (triggerComputed : nat → W → @upstream W) :
  (∀ st : @State V W,
     _cacheable (self st) = true → side_effect_free getter →
     (dirty dep_computed triggerComputed st).1 = Returns true →
     let read := value hasChanged getter dep_computed triggerComputed in
     getter_calls (read st).2 = getter_calls st + 1
     ∧ getter_calls (read (read st).2).2 = getter_calls st + 1
     ∧ read (read st).2 = (Returns (_value (self (read st).2)), trackRefValue (read st).2)
     ∧ (∀ v, (read st).1 = Returns v → (read (read st).2).1 = Returns v)
     ∧ dirtyLevel (read st).2 = NotDirty)
  ∧ (∀ st : @State V W,
       dirtyLevel st = Dirty → (dirty dep_computed triggerComputed st).1 = Returns true)
  ∧ (∀ (isSSR : bool) (w : W), dirtyLevel (@construct V W isSSR w) = Dirty)
  ∧ (∀ (l : DirtyLevels) (st : @State V W),
       dirtyLevel st = NotDirty → dirtyLevel (triggerEffects l true st) = l)
  ∧ (∀ (isSSR : bool) (w : W) (cs : list command),
       let st := exec hasChanged getter dep_computed triggerComputed isSSR w cs in
       level (dirtyLevel st) < level Dirty → _value (self st) = last_result st).
Proof.
  split; [|split; [|split; [|split]]].
  - intros st Hc Hpure Hdirty read.
    assert (Htest : (needs_run dep_computed triggerComputed st).1 = Returns true).
    { unfold needs_run. rewrite Hc. exact Hdirty. }
    assert (Hc1 : _cacheable (self (read st).2) = true).
    { subst read. by rewrite value_keeps_cacheable. }
    pose proof (value_ran_clean hasChanged getter dep_computed triggerComputed
                  st Hpure Htest) as Hl1.
    pose proof (value_cached hasChanged getter dep_computed triggerComputed
                  (read st).2 Hc1 (or_introl Hl1)) as Hsecond.
    pose proof (value_counts hasChanged getter dep_computed triggerComputed st) as Hn.
    rewrite Htest in Hn.
    fold read in Hsecond.
    split; [exact Hn|]. split; [|split; [exact Hsecond|split; [|exact Hl1]]].
    + rewrite Hsecond. exact Hn.
    + intros v Hv. rewrite Hsecond. simpl. f_equal.
      symmetry. by apply value_returns_cache.
  - intros st Hl. by rewrite dirty_at_Dirty.
  - reflexivity.
  - intros l st Hl. rewrite triggerEffects_level, Hl, andb_true_r.
    by destruct l.
  - intros isSSR w cs st _. apply exec_keeps_last_result.
Qed.

Lemma computed_reads_are_cached_witness :
  getter_calls (read_sample (read_sample (construct false 21)).2).2 = 1
  ∧ (read_sample (construct false 21)).1 = Returns (Some 42)
  ∧ (read_sample (read_sample (construct false 21)).2).1 = Returns (Some 42).
Proof.
  destruct (proj1 (computed_reads_are_cached changed doubling no_owner unchanged_upstream)
              (construct false 21) eq_refl (λ _ _, eq_refl) eq_refl)
    as (_ & Hcalls & _ & Hsame & _).
  split; [exact Hcalls|]. split; [reflexivity|].
  apply Hsame. reflexivity.
Defined.

(** Outside these hypotheses the count is another.  A computed that has
    been read and whose dependencies have not changed since is not dirty:
    its next two reads do not invoke the getter at all.  And a getter that
    writes to a dependency it has read changes that dependency before the
    second read: the computed is left dirty, and the second read invokes the
    getter again. *)
Lemma reads_of_a_clean_or_self_mutating_computed :
  _cacheable (self read_once) = true
  ∧ dirtyLevel read_once = NotDirty
  ∧ getter_calls read_once = 1
  ∧ getter_calls (read_sample read_once).2 = 1
  ∧ getter_calls (read_sample (read_sample read_once).2).2 = 1
  ∧ dirtyLevel (read_self_mutating (construct false 0)).2 = Dirty
  ∧ getter_calls (read_self_mutating (read_self_mutating (construct false 0)).2).2 = 2.
Proof. vm_compute. repeat split; done. Qed.

(** ** Reads, triggers and the getter *)

Section Computed_steps.

Context {V W : Type}.
Variable hasChanged : option V → option V → bool.
Variable getter : option V → W → @outcome V W.
Variable dep_computed : nat → option nat.
Variable triggerComputed : nat → W → @upstream W.

Local Abbreviation State := (@State V W).
Local Abbreviation value := (value hasChanged getter dep_computed triggerComputed).
Local Abbreviation dirty := (dirty dep_computed triggerComputed).
Local Abbreviation dirty_walk := (dirty_walk dep_computed triggerComputed).
Local Abbreviation needs_run := (needs_run dep_computed triggerComputed).
Local Abbreviation run := (run getter).
Local Abbreviation exec := (exec hasChanged getter dep_computed triggerComputed).

Lemma same_flags_refl (st : State) : same_flags st st.
Proof. by repeat split. Qed.

Lemma same_flags_trans (a b c : State) :
  same_flags a b → same_flags b c → same_flags a c.
Proof. intros (?&?&?&?) (?&?&?&?). repeat split; congruence. Qed.

Lemma triggerEffects_body_runnings l tracking E :
  _runnings (triggerEffects_body l tracking E).1 = _runnings E.
Proof. unfold triggerEffects_body. repeat case_match; reflexivity. Qed.

Lemma triggerEffects_flags l tracking (st : State) :
  same_flags st (triggerEffects l tracking st).
Proof.
  unfold triggerEffects.
  pose proof (triggerEffects_body_runnings l tracking (effect (self st))) as Hr.
  destruct (triggerEffects_body l tracking (effect (self st))) as [E' [at_level|]];
    by repeat split.
Qed.

Lemma heard_flags (ls : list DirtyLevels) (st : State) :
  same_flags st (foldl (λ s l, triggerEffects l true s) st ls).
Proof.
  revert st. induction ls as [|l ls IH]; intros st; simpl; [apply same_flags_refl|].
  eapply same_flags_trans; [apply (triggerEffects_flags l true)|apply IH].
Qed.

Lemma dirty_walk_flags ds (st : State) : same_flags st (dirty_walk ds st).2.
Proof.
  revert st. induction ds as [|d ds IH]; intros st; simpl; [apply same_flags_refl|].
  destruct (dep_computed d) as [c|]; [|apply IH].
  set (u := triggerComputed c (world st)).
  set (st2 := foldl (λ s l, triggerEffects l true s) (set_world (world_then u) st) (heard u)).
  assert (Hst2 : same_flags st st2).
  { subst st2. eapply same_flags_trans; [|apply heard_flags]. by repeat split. }
  destruct (read_throws u); [exact Hst2|].
  match goal with |- context [if ?b then (_, st2) else _] => destruct b end; [exact Hst2|].
  eapply same_flags_trans; [exact Hst2 | apply IH].
Qed.

Lemma resetTracking_pauseTracking_flags (st st' : State) :
  shouldTrack st' = false → trackStack st' = trackStack st ++ [shouldTrack st] →
  running_own st' = running_own st →
  _runnings (effect (self st')) = _runnings (effect (self st)) →
  same_flags st (resetTracking st').
Proof.
  intros _ Hstack Hown Hrun. unfold resetTracking.
  rewrite Hstack, reverse_snoc. unfold same_flags. simpl.
  by rewrite reverse_involutive.
Qed.

(** A [dirty] that returns has restored the tracking flags. *)
Lemma dirty_flags (st : State) (b : bool) :
  (dirty st).1 = Returns b → same_flags st (dirty st).2.
Proof.
  unfold Computed.dirty. case_match; [|intros _; apply same_flags_refl].
  set (st2 := pauseTracking (set_effect (set_dirtyLevel QueryingDirty (effect (self st))) st)).
  destruct (dirty_walk_flags
              (take (_depsLength (effect (self st2))) (deps (effect (self st2)))) st2)
    as (H1 & H2 & H3 & H4).
  destruct (dirty_walk (take (_depsLength (effect (self st2))) (deps (effect (self st2))))
              st2) as [[[]|] st3]; cbn [fst snd] in *; [|done].
  intros _. apply resetTracking_pauseTracking_flags.
  - case_match; simpl; rewrite ?H1; reflexivity.
  - case_match; simpl; rewrite ?H2; reflexivity.
  - case_match; simpl; rewrite ?H3; reflexivity.
  - case_match; simpl; rewrite ?H4; reflexivity.
Qed.

(** A [dirty] that an exception of a source has left keeps tracking
    paused and the level at the guard or above. *)
Lemma dirty_thrown (st : State) :
  (dirty st).1 = Throws →
  shouldTrack (dirty st).2 = false
  ∧ trackStack (dirty st).2 = trackStack st ++ [shouldTrack st]
  ∧ running_own (dirty st).2 = running_own st
  ∧ _runnings (effect (self (dirty st).2)) = _runnings (effect (self st))
  ∧ level QueryingDirty ≤ level (dirtyLevel (dirty st).2).
Proof.
  unfold Computed.dirty. case_match; [|done].
  set (st2 := pauseTracking (set_effect (set_dirtyLevel QueryingDirty (effect (self st))) st)).
  destruct (dirty_walk_flags
              (take (_depsLength (effect (self st2))) (deps (effect (self st2)))) st2)
    as (H1 & H2 & H3 & H4).
  destruct (dirty_walk_level dep_computed triggerComputed
              (take (_depsLength (effect (self st2))) (deps (effect (self st2)))) st2)
    as (H5 & _).
  destruct (dirty_walk (take (_depsLength (effect (self st2))) (deps (effect (self st2))))
              st2) as [[[]|] st3]; cbn [fst snd] in *; [done|].
  intros _. rewrite H1, H2, H3, H4. done.
Qed.

Lemma run_flags (st : State) : same_flags st (run st).2.
Proof.
  unfold Computed.run, call_getter. simpl.
  destruct (active (effect (self st))); simpl; [|by repeat split].
  destruct (retriggered (getter (_value (self st)) (world st))) as [l|].
  - match goal with |- context [triggerEffects l true ?s] =>
      destruct (triggerEffects_flags l true s) as (H1 & H2 & H3 & H4) end.
    unfold same_flags. simpl. rewrite H2, H4. simpl.
    split; [done|]. split; [done|]. split; [done|]. lia.
  - unfold same_flags. simpl.
    split; [done|]. split; [done|]. split; [done|]. lia.
Qed.

Lemma value_rest_flags (st : State) : same_flags st (value_rest st).2.
Proof. unfold value_rest. case_match; by repeat split. Qed.

Lemma needs_run_flags (st : State) (b : bool) :
  (needs_run st).1 = Returns b → same_flags st (needs_run st).2.
Proof.
  unfold Computed.needs_run. destruct (negb (_cacheable (self st))).
  - intros _. apply same_flags_refl.
  - apply dirty_flags.
Qed.

Lemma value_flags (st : State) (b : bool) :
  (needs_run st).1 = Returns b → same_flags st (value st).2.
Proof.
  intros Hb. pose proof (needs_run_flags st b Hb) as H1.
  rewrite value_after_test.
  destruct (needs_run st) as [[[]|] st1]; cbn [fst snd] in *; [| |done].
  - pose proof (run_flags st1) as Hr.
    destruct (run st1) as [[v|] st']; cbn [fst snd] in *.
    + eapply same_flags_trans; [|apply value_rest_flags].
      eapply same_flags_trans; [exact H1|].
      eapply same_flags_trans; [exact Hr|].
      case_match; by repeat split.
    + by eapply same_flags_trans.
  - eapply same_flags_trans; [exact H1 | apply value_rest_flags].
Qed.

Lemma value_throws_keeps_value (st : State) :
  (value st).1 = Throws → _value (self (value st).2) = _value (self st).
Proof.
  rewrite value_after_test.
  pose proof (needs_run_cache dep_computed triggerComputed st) as (Hv & _).
  destruct (needs_run st) as [[[]|] st1]; cbn [fst snd] in *.
  - pose proof (run_counts getter st1) as (_ & Hrv & _).
    destruct (run st1) as [[v|] st']; cbn [fst snd] in *.
    + match goal with |- context [value_rest ?s] =>
        destruct (value_rest_fields s) as (_ & _ & _ & ->) end. discriminate.
    + intros _. congruence.
  - destruct (value_rest_fields st1) as (_ & _ & _ & ->). discriminate.
  - done.
Qed.

(** The read throws when its test does, or when the getter does. *)
Lemma value_throws (st : State) :
  (value st).1 = Throws →
  (needs_run st).1 = Throws ∨ (needs_run st).1 = Returns true.
Proof.
  rewrite value_after_test.
  destruct (needs_run st) as [[[]|] st1]; cbn [fst snd]; [by right| |by left].
  destruct (value_rest_fields st1) as (_ & _ & _ & ->). discriminate.
Qed.

Lemma value_cacheable (st : State) :
  _cacheable (self (value st).2) = _cacheable (self st).
Proof.
  rewrite value_after_test.
  pose proof (needs_run_cache dep_computed triggerComputed st) as (_ & Hc & _).
  destruct (needs_run st) as [[[]|] st1]; cbn [fst snd] in *.
  - pose proof (run_counts getter st1) as (_ & _ & Hrc & _).
    destruct (run st1) as [[v|] st']; cbn [fst snd] in *; [|congruence].
    match goal with |- context [value_rest ?s] =>
      destruct (value_rest_fields s) as (-> & _) end.
    case_match; simpl; congruence.
  - destruct (value_rest_fields st1) as (-> & _). congruence.
  - congruence.
Qed.

Lemma needs_run_uncached (st : State) :
  _cacheable (self st) = false → needs_run st = (Returns true, st).
Proof. unfold Computed.needs_run. by intros ->. Qed.

Lemma needs_run_cached (st : State) :
  _cacheable (self st) = true → needs_run st = dirty st.
Proof. unfold Computed.needs_run. by intros ->. Qed.

Lemma value_uncached_counts (st : State) :
  _cacheable (self st) = false → getter_calls (value st).2 = getter_calls st + 1.
Proof. intros Hc. by rewrite value_counts, needs_run_uncached. Qed.

Lemma exec_snoc isSSR w cs c :
  exec isSSR w (cs ++ [c]) = exec1 hasChanged getter dep_computed triggerComputed
                               (exec isSSR w cs) c.
Proof. unfold Computed.exec. by rewrite foldl_app. Qed.

Lemma exec_cacheable isSSR w cs : _cacheable (self (exec isSSR w cs)) = negb isSSR.
Proof.
  induction cs as [|c cs IH] using rev_ind; [done|].
  rewrite exec_snoc. destruct c as [|l tracking]; simpl.
  - by rewrite value_cacheable.
  - by destruct (triggerEffects_cache l tracking (exec isSSR w cs)) as (_ & -> & _).
Qed.

Lemma reads_in_snoc cs c : reads_in (cs ++ [c]) = reads_in cs + (if is_read c then 1 else 0).
Proof.
  unfold reads_in. rewrite filter_app, length_app. f_equal.
  rewrite filter_cons, filter_nil. destruct (is_read c); reflexivity.
Qed.

Lemma triggers_in_snoc cs c :
  triggers_in (cs ++ [c]) = triggers_in cs + (if is_read c then 0 else 1).
Proof.
  unfold triggers_in. rewrite filter_app, length_app. f_equal.
  rewrite filter_cons, filter_nil. destruct (is_read c); reflexivity.
Qed.

Lemma unsettled_le (l : DirtyLevels) : unsettled l ≤ 1.
Proof. destruct l; simpl; lia. Qed.

(** A read of a computed whose getter changes none of its dependencies
    calls the getter only to settle the level. *)
Lemma value_settles (st : State) :
  _cacheable (self st) = true → side_effect_free getter →
  getter_calls (value st).2 + unsettled (dirtyLevel (value st).2)
  ≤ getter_calls st + unsettled (dirtyLevel st).
Proof.
  intros Hc Hpure. rewrite value_counts.
  destruct (decide (dirtyLevel st = NotDirty ∨ dirtyLevel st = QueryingDirty))
    as [Hclean|Hmore].
  - rewrite value_cached by done. rewrite needs_run_cached, dirty_clean by done.
    cbn [fst snd]. change (dirtyLevel (trackRefValue st)) with (dirtyLevel st). lia.
  - assert (Hu : unsettled (dirtyLevel st) = 1).
    { destruct (dirtyLevel st); simpl; try reflexivity; exfalso; apply Hmore; auto. }
    destruct (needs_run st).1 as [[]|] eqn:Htest.
    + rewrite value_ran_clean by done. simpl. lia.
    + pose proof (unsettled_le (dirtyLevel (value st).2)). lia.
    + pose proof (unsettled_le (dirtyLevel (value st).2)). lia.
Qed.

Lemma value_throws_calls (st : State) :
  (value st).1 = Throws → (needs_run st).1 ≠ Throws →
  getter_calls (value st).2 = getter_calls st + 1.
Proof.
  intros Ht Hno. rewrite value_counts.
  destruct (value_throws st Ht) as [H|H]; [done|]. by rewrite H.
Qed.

(** What the read of a source does not do when no source throws. *)
Lemma dirty_walk_returns (ds : list nat) (st : State) :
  (∀ d c w, d ∈ ds → dep_computed d = Some c → read_throws (triggerComputed c w) = false) →
  (dirty_walk ds st).1 = Returns ().
Proof.
  revert st. induction ds as [|d ds IH]; intros st Hsafe; simpl; [done|].
  assert (Hrest : ∀ d' c w, d' ∈ ds → dep_computed d' = Some c →
                            read_throws (triggerComputed c w) = false).
  { intros d' c w Hd'. apply Hsafe. by right. }
  destruct (dep_computed d) as [c|] eqn:Hc; [|by apply IH].
  rewrite (Hsafe d c (world st)) by (done || by left).
  case_match; [done|]. by apply IH.
Qed.

Lemma dirty_returns (st : State) :
  (∀ d c w, d ∈ walked st → dep_computed d = Some c →
            read_throws (triggerComputed c w) = false) →
  (dirty st).1 ≠ Throws.
Proof.
  intros Hsafe. unfold Computed.dirty. case_match; [|done].
  match goal with |- context [Computed.dirty_walk _ _ ?ds ?s] =>
    pose proof (dirty_walk_returns ds s Hsafe) as Hw;
    destruct (dirty_walk ds s) as [[[]|] st3] end; done.
Qed.


(** X12, how often the getter is called.  After any history of reads and
    triggers the getter has been called at most once per read.  A computed
    made for server-side rendering calls it on every read.  A cacheable
    computed whose getter changes none of its dependencies has called it at
    most once for the first read and once more for every trigger, however
    many reads there were. *)
Theorem getter_calls_are_bounded (isSSR : bool) (w : W) (cs : list command) :
  getter_calls (exec isSSR w cs) ≤ reads_in cs
  ∧ (isSSR = true → getter_calls (exec isSSR w cs) = reads_in cs)
  ∧ (isSSR = false → side_effect_free getter →
     getter_calls (exec isSSR w cs) ≤ 1 + triggers_in cs).
Proof.
  split; [|split].
  - induction cs as [|c cs IH] using rev_ind; [done|].
    rewrite exec_snoc, reads_in_snoc. destruct c as [|l tracking]; simpl.
    + rewrite value_counts. destruct (needs_run (exec isSSR w cs)).1 as [[]|]; lia.
    + destruct (triggerEffects_cache l tracking (exec isSSR w cs)) as (_ & _ & -> & _). lia.
  - intros ->. induction cs as [|c cs IH] using rev_ind; [done|].
    rewrite exec_snoc, reads_in_snoc. destruct c as [|l tracking]; simpl.
    + rewrite value_uncached_counts by apply (exec_cacheable true). lia.
    + destruct (triggerEffects_cache l tracking (exec true w cs)) as (_ & _ & -> & _). lia.
  - intros -> Hpure.
    assert (Hinv : getter_calls (exec false w cs) + unsettled (dirtyLevel (exec false w cs))
                   ≤ 1 + triggers_in cs); [|lia].
    induction cs as [|c cs IH] using rev_ind; [simpl; lia|].
    rewrite exec_snoc, triggers_in_snoc. destruct c as [|l tracking]; simpl.
    + pose proof (exec_cacheable false w cs) as Hc. simpl in Hc.
      pose proof (value_settles (exec false w cs) Hc Hpure). lia.
    + destruct (triggerEffects_cache l tracking (exec false w cs)) as (_ & _ & -> & _).
      pose proof (unsettled_le (dirtyLevel (triggerEffects l tracking (exec false w cs)))).
      lia.
Qed.

(** ** Levels between clean and dirty *)

(** Sources that trigger with nothing above the guard level leave it in
    place. *)
Lemma dirty_walk_quiet (ds : list nat) (st : State) :
  dirtyLevel st = QueryingDirty →
  (∀ d c w l, d ∈ ds → dep_computed d = Some c → l ∈ heard (triggerComputed c w) →
              level l ≤ level QueryingDirty) →
  dirtyLevel (dirty_walk ds st).2 = QueryingDirty.
Proof.
  revert st. induction ds as [|d ds IH]; intros st Hq Hquiet; simpl; [done|].
  assert (Hrest : ∀ d' c w l, d' ∈ ds → dep_computed d' = Some c →
                    l ∈ heard (triggerComputed c w) → level l ≤ level QueryingDirty).
  { intros d' c w l Hd'. apply Hquiet. by right. }
  destruct (dep_computed d) as [c|] eqn:Hc; [|by apply IH].
  set (u := triggerComputed c (world st)).
  set (st2 := foldl (λ s l, triggerEffects l true s) (set_world (world_then u) st) (heard u)).
  assert (Hst2 : dirtyLevel st2 = QueryingDirty).
  { apply level_inj. subst st2. rewrite heard_level.
    change (dirtyLevel (set_world (world_then u) st)) with (dirtyLevel st). rewrite Hq.
    apply Nat.le_antisymm; [|apply max_levels_ge].
    apply max_levels_below; [done|]. intros l Hl.
    apply (Hquiet d c (world st) l); [by left|done|exact Hl]. }
  destruct (read_throws u); [exact Hst2|].
  rewrite Hst2. simpl. by apply IH.
Qed.

(** Sources that do not trigger with [Dirty] leave the level below it. *)
Lemma dirty_walk_below (ds : list nat) (st : State) :
  level (dirtyLevel st) < level Dirty →
  (∀ d c w, d ∈ ds → dep_computed d = Some c → Dirty ∉ heard (triggerComputed c w)) →
  level (dirtyLevel (dirty_walk ds st).2) < level Dirty.
Proof.
  revert st. induction ds as [|d ds IH]; intros st Hlt Hno; simpl; [done|].
  assert (Hrest : ∀ d' c w, d' ∈ ds → dep_computed d' = Some c →
                    Dirty ∉ heard (triggerComputed c w)).
  { intros d' c w Hd'. apply Hno. by right. }
  destruct (dep_computed d) as [c|] eqn:Hc; [|by apply IH].
  set (u := triggerComputed c (world st)).
  set (st2 := foldl (λ s l, triggerEffects l true s) (set_world (world_then u) st) (heard u)).
  assert (Hst2 : level (dirtyLevel st2) < level Dirty).
  { subst st2. rewrite heard_level.
    change (dirtyLevel (set_world (world_then u) st)) with (dirtyLevel st).
    apply Nat.lt_succ_r. apply max_levels_below; [simpl in *; lia|].
    intros l Hl. destruct (decide (l = Dirty)) as [->|Hne].
    - exfalso. by apply (Hno d c (world st) ltac:(left) Hc).
    - destruct l; simpl; try lia. done. }
  destruct (read_throws u); [exact Hst2|].
  case_match; [exact Hst2|]. by apply IH.
Qed.

(** A level that a source triggers with is reached, when no source
    throws. *)
Lemma dirty_walk_hears (ds : list nat) (st : State) (l : DirtyLevels) :
  (∀ d c w, d ∈ ds → dep_computed d = Some c → read_throws (triggerComputed c w) = false) →
  (∃ d c, d ∈ ds ∧ dep_computed d = Some c ∧ ∀ w, l ∈ heard (triggerComputed c w)) →
  level l ≤ level (dirtyLevel (dirty_walk ds st).2)
  ∨ dirtyLevel (dirty_walk ds st).2 = Dirty.
Proof.
  revert st. induction ds as [|d ds IH]; intros st Hsafe (d0 & c0 & Hin & Hc0 & Hhit); simpl.
  { by apply elem_of_nil in Hin. }
  assert (Hrest : ∀ d' c w, d' ∈ ds → dep_computed d' = Some c →
                            read_throws (triggerComputed c w) = false).
  { intros d' c w Hd'. apply Hsafe. by right. }
  destruct (dep_computed d) as [c|] eqn:Hc.
  - set (u := triggerComputed c (world st)).
    set (st2 := foldl (λ s l, triggerEffects l true s) (set_world (world_then u) st)
                  (heard u)).
    assert (Hsafe' : read_throws u = false) by (apply (Hsafe d c); [by left|done]).
    rewrite Hsafe'.
    match goal with |- context [if ?b then (_, st2) else _] => destruct b eqn:Hd end.
    + right. apply (proj1 (at_least_Dirty (dirtyLevel st2))). exact Hd.
    + apply elem_of_cons in Hin as [->|Hin].
      * rewrite Hc in Hc0. injection Hc0 as ->.
        destruct (dirty_walk_level dep_computed triggerComputed ds st2) as [Hge _].
        left. etrans; [|exact Hge]. subst st2. rewrite heard_level.
        apply max_levels_elem. apply Hhit.
      * apply IH; [done|]. by exists d0, c0.
  - apply IH; [done|]. exists d0, c0. split; [|done].
    apply elem_of_cons in Hin as [->|Hin]; [congruence | done].
Qed.

Lemma dirty_of_maybe (st : State) :
  dirtyLevel st = MaybeDirty ∨ dirtyLevel st = MaybeDirty_ComputedSideEffect →
  (∀ d c w, d ∈ walked st → dep_computed d = Some c →
            read_throws (triggerComputed c w) = false) →
  ∃ st3, dirty_walk (walked st) (walk_start_of st) = (Returns (), st3)
    ∧ dirtyLevel (dirty st).2
      = (if bool_decide (dirtyLevel st3 = QueryingDirty) then NotDirty else dirtyLevel st3)
    ∧ (dirty st).1 = Returns (level Dirty <=? level (dirtyLevel (dirty st).2)).
Proof.
  intros Hl Hsafe. rewrite (dirty_walks dep_computed triggerComputed st Hl).
  pose proof (dirty_walk_returns (walked st) (walk_start_of st) Hsafe) as Hret.
  destruct (dirty_walk (walked st) (walk_start_of st)) as [[[]|] st3]; [|done].
  exists st3. split; [done|]. cbn [fst snd]. split; [|done].
  rewrite dirtyLevel_resetTracking. by case_bool_decide.
Qed.

Lemma value_without_run (st : State) :
  (needs_run st).1 = Returns false →
  (value st).1 = Returns (_value (self st))
  ∧ getter_calls (value st).2 = getter_calls st
  ∧ dirtyLevel (value st).2 = dirtyLevel (needs_run st).2
  ∧ (level MaybeDirty_ComputedSideEffect ≤ level (dirtyLevel (needs_run st).2) →
     last (triggered (value st).2) = Some MaybeDirty_ComputedSideEffect).
Proof.
  intros Htest.
  pose proof (value_counts hasChanged getter dep_computed triggerComputed st) as Hn.
  pose proof (value_level_without_run hasChanged getter dep_computed triggerComputed st)
    as Hl.
  rewrite Htest in Hn, Hl. specialize (Hl ltac:(done)).
  pose proof (needs_run_cache dep_computed triggerComputed st) as (Hv & _).
  split; [|split; [lia|split; [exact Hl|]]].
  - rewrite value_after_test.
    destruct (needs_run st) as [[[]|] st1]; cbn [fst snd] in *; try done.
    destruct (value_rest_fields st1) as (_ & _ & _ & ->). by rewrite Hv.
  - intros Hge. rewrite value_after_test.
    destruct (needs_run st) as [[[]|] st1]; cbn [fst snd] in *; try done.
    unfold value_rest.
    change (dirtyLevel (trackRefValue st1)) with (dirtyLevel st1).
    apply Nat.leb_le in Hge. rewrite Hge. cbn [snd triggerRefValue triggered].
    by rewrite last_snoc.
Qed.

(** X13, a computed that may be dirty asks its sources before it
    recomputes.  At level [MaybeDirty] or [MaybeDirty_ComputedSideEffect] a
    read of a cacheable computed reads the computeds among its dependencies;
    let none of these reads throw.  When none of them triggers this computed
    (with a level above [QueryingDirty]), the getter is not called, the read
    returns the cached value and the level is [NotDirty] afterwards.  When
    none of them triggers it with [Dirty], the same holds of the getter and
    of the value, and the level stays below [Dirty]; when one of them has
    then triggered it with [MaybeDirty_ComputedSideEffect], as a source does
    that its own getter has left at that level, the level afterwards is that
    or [MaybeDirty], not [NotDirty], and the read ends by telling the
    subscribers [MaybeDirty_ComputedSideEffect].  When one of them triggers
    it with [Dirty], as a source does whose value has changed, the getter is
    called once. *)
Theorem maybe_dirty_is_settled_by_the_sources (st : State) :
  _cacheable (self st) = true →
  dirtyLevel st = MaybeDirty ∨ dirtyLevel st = MaybeDirty_ComputedSideEffect →
  (∀ d c w, d ∈ walked st → dep_computed d = Some c →
            read_throws (triggerComputed c w) = false) →
  ((∀ d c w l, d ∈ walked st → dep_computed d = Some c →
               l ∈ heard (triggerComputed c w) → level l ≤ level QueryingDirty) →
   (value st).1 = Returns (_value (self st))
   ∧ getter_calls (value st).2 = getter_calls st
   ∧ dirtyLevel (value st).2 = NotDirty)
  ∧ ((∀ d c w, d ∈ walked st → dep_computed d = Some c →
               Dirty ∉ heard (triggerComputed c w)) →
     (value st).1 = Returns (_value (self st))
     ∧ getter_calls (value st).2 = getter_calls st
     ∧ level (dirtyLevel (value st).2) < level Dirty
     ∧ ((∃ d c, d ∈ walked st ∧ dep_computed d = Some c
                ∧ ∀ w, MaybeDirty_ComputedSideEffect ∈ heard (triggerComputed c w)) →
        level MaybeDirty_ComputedSideEffect ≤ level (dirtyLevel (value st).2)
        ∧ last (triggered (value st).2) = Some MaybeDirty_ComputedSideEffect))
  ∧ ((∃ d c, d ∈ walked st ∧ dep_computed d = Some c
             ∧ ∀ w, Dirty ∈ heard (triggerComputed c w)) →
     getter_calls (value st).2 = getter_calls st + 1).
Proof.
  intros Hc Hl Hsafe.
  destruct (dirty_of_maybe st Hl Hsafe) as (st3 & Hwalk & Hlevel & Hanswer).
  assert (Hstart : dirtyLevel (walk_start_of st) = QueryingDirty) by reflexivity.
  split; [|split].
  - intros Hquiet.
    pose proof (dirty_walk_quiet (walked st) (walk_start_of st) Hstart Hquiet) as Hw.
    rewrite Hwalk in Hw. cbn [snd] in Hw.
    rewrite Hw, bool_decide_eq_true_2 in Hlevel by done.
    rewrite Hlevel in Hanswer.
    destruct (value_without_run st) as (H1 & H2 & H3 & _).
    { by rewrite needs_run_cached. }
    rewrite needs_run_cached in H3 by done. by rewrite H3, Hlevel.
  - intros Hno.
    pose proof (dirty_walk_below (walked st) (walk_start_of st)) as Hw.
    rewrite Hwalk in Hw. cbn [snd] in Hw.
    specialize (Hw ltac:(simpl; lia) Hno).
    assert (Hbelow : level (dirtyLevel (dirty st).2) < level Dirty).
    { rewrite Hlevel. case_bool_decide; [simpl; lia | exact Hw]. }
    assert (Hfalse : (dirty st).1 = Returns false).
    { rewrite Hanswer. f_equal. apply Nat.leb_gt. exact Hbelow. }
    destruct (value_without_run st) as (H1 & H2 & H3 & H4).
    { by rewrite needs_run_cached. }
    rewrite needs_run_cached in H3, H4 by done.
    split; [exact H1|]. split; [exact H2|]. split; [by rewrite H3|].
    intros Hcse.
    pose proof (dirty_walk_hears (walked st) (walk_start_of st)
                  MaybeDirty_ComputedSideEffect Hsafe Hcse) as Hh.
    rewrite Hwalk in Hh. cbn [snd] in Hh.
    assert (Hge : level MaybeDirty_ComputedSideEffect ≤ level (dirtyLevel (dirty st).2)).
    { rewrite Hlevel. destruct Hh as [Hh|Hh]; [|rewrite Hh in Hw; simpl in Hw; lia].
      case_bool_decide as Hq; [rewrite Hq in Hh; simpl in Hh; lia|exact Hh]. }
    split; [by rewrite H3|by apply H4].
  - intros Hhit.
    pose proof (dirty_walk_hears (walked st) (walk_start_of st) Dirty Hsafe Hhit) as Hh.
    rewrite Hwalk in Hh. cbn [snd] in Hh.
    assert (Hd : dirtyLevel st3 = Dirty).
    { destruct Hh as [Hh|Hh]; [|exact Hh]. destruct (dirtyLevel st3); simpl in Hh; try lia.
      reflexivity. }
    rewrite Hd, bool_decide_eq_false_2 in Hlevel by done.
    rewrite Hlevel in Hanswer.
    rewrite value_counts, needs_run_cached, Hanswer by done. reflexivity.
Qed.

(** ** Who is told about a new value *)

Lemma run_quiet (st : State) :
  retriggered (getter (_value (self st)) (world st)) = None →
  triggered (run st).2 = triggered st.
Proof.
  unfold Computed.run, call_getter. simpl. intros Hpure.
  destruct (active (effect (self st))); simpl; [|done]. by rewrite Hpure.
Qed.

(** X14, the subscribers of a computed hear of a recomputation only when the
    value has changed.  A read of a cacheable computed at level [Dirty],
    whose getter changes none of its dependencies, calls [triggerRefValue]
    with [Dirty] once when [hasChanged] tells the old value from the new one,
    and not at all when the value is the same or the getter throws; the
    cache then holds the new value, or the old one when the getter threw. *)
Theorem subscribers_hear_of_changed_values_only (st : State) :
  _cacheable (self st) = true → dirtyLevel st = Dirty →
  retriggered (getter (_value (self st)) (world st)) = None →
  match result (getter (_value (self st)) (world st)) with
  | Returns v =>
      (value st).1 = Returns (Some v)
      ∧ _value (self (value st).2) = Some v
      ∧ triggered (value st).2
        = triggered st ++ (if hasChanged (_value (self st)) (Some v) then [Dirty] else [])
  | Throws =>
      (value st).1 = Throws
      ∧ _value (self (value st).2) = _value (self st)
      ∧ triggered (value st).2 = triggered st
  end.
Proof.
  intros Hc Hl Hpure.
  rewrite value_after_test, needs_run_cached, dirty_at_Dirty by done.
  pose proof (run_counts getter st) as (_ & Hv & _ & _ & Hres).
  pose proof (run_level getter st Hpure) as Hlevel.
  pose proof (run_quiet st Hpure) as Hquiet.
  destruct (run st) as [r st'] eqn:Hrun. simpl in Hv, Hres, Hlevel, Hquiet.
  rewrite <-Hres. destruct r as [v|]; [|done].
  destruct (hasChanged (_value (self st)) (Some v)).
  - rewrite value_rest_clean by (by left). simpl. by rewrite Hquiet.
  - rewrite value_rest_clean by (by left). simpl. by rewrite Hquiet, app_nil_r.
Qed.

End Computed_steps.


Lemma getter_calls_are_bounded_witness :
  getter_calls
    (exec changed doubling no_owner unchanged_upstream false 21
       [Read; Read; Trigger Dirty true; Read; Read; Read]) ≤ 2.
Proof.
  apply (proj2 (proj2 (getter_calls_are_bounded changed doubling no_owner
                         unchanged_upstream false 21
                         [Read; Read; Trigger Dirty true; Read; Read; Read]))).
  - reflexivity.
  - intros old w. reflexivity.
Defined.

Lemma maybe_dirty_is_settled_by_the_sources_witness :
  getter_calls (value changed doubling owned_by_computed unchanged_upstream
                  needs_a_look).2 = 1
  ∧ dirtyLevel (value changed doubling owned_by_computed unchanged_upstream
                  needs_a_look).2 = NotDirty
  ∧ getter_calls (value changed doubling owned_by_computed changed_upstream
                    needs_a_look).2 = 2
  ∧ getter_calls (value changed doubling owned_by_computed side_effect_upstream
                    needs_a_look).2 = 1
  ∧ 2 ≤ level (dirtyLevel (value changed doubling owned_by_computed side_effect_upstream
                             needs_a_look).2).
Proof.
  split; [|split; [|split]].
  - destruct (proj1 (maybe_dirty_is_settled_by_the_sources changed doubling
                       owned_by_computed unchanged_upstream needs_a_look
                       eq_refl (or_introl eq_refl) (λ d c w _ _, eq_refl)))
      as (_ & Hcalls & _).
    + intros d c w l _ _ Hl. by apply elem_of_nil in Hl.
    + exact Hcalls.
  - destruct (proj1 (maybe_dirty_is_settled_by_the_sources changed doubling
                       owned_by_computed unchanged_upstream needs_a_look
                       eq_refl (or_introl eq_refl) (λ d c w _ _, eq_refl)))
      as (_ & _ & Hlevel).
    + intros d c w l _ _ Hl. by apply elem_of_nil in Hl.
    + exact Hlevel.
  - refine (proj2 (proj2 (maybe_dirty_is_settled_by_the_sources changed doubling
                     owned_by_computed changed_upstream needs_a_look
                     eq_refl (or_introl eq_refl) (λ d c w _ _, eq_refl))) _).
    exists 0, 7. split; [vm_compute; left|]. split; [reflexivity|].
    intros w. left.
  - destruct (proj1 (proj2 (maybe_dirty_is_settled_by_the_sources changed doubling
                       owned_by_computed side_effect_upstream needs_a_look
                       eq_refl (or_introl eq_refl) (λ d c w _ _, eq_refl))))
      as (_ & Hcalls & _ & Hcse).
    + intros d c w _ _ Hl. apply list_elem_of_singleton in Hl. discriminate.
    + split; [exact Hcalls|]. apply Hcse.
      exists 0, 7. split; [vm_compute; left|]. split; [reflexivity|].
      intros w. left.
Defined.

Lemma subscribers_hear_of_changed_values_only_witness :
  (read_sample (construct false 21)).1 = Returns (Some 42)
  ∧ triggered (read_sample (construct false 21)).2 = [Dirty].
Proof.
  destruct (subscribers_hear_of_changed_values_only changed doubling no_owner
              unchanged_upstream (construct false 21) eq_refl eq_refl eq_refl)
    as (Hres & _ & Htrig).
  split; [exact Hres | exact Htrig].
Defined.

End ComputedProofs.

(** ** Deep traversal *)

Module WatchProofs.
Import Watch.

Lemma unseen_mono h seen seen' : seen ⊆ seen' → unseen h seen' ≤ unseen h seen.
Proof.
  intros H. unfold unseen. apply subseteq_size.
  intros x. rewrite !elem_of_difference, !elem_of_list_to_set. naive_solver.
Qed.

Lemma unseen_add h seen r :
  r ∉ seen → is_Some (h !! r) → unseen h (seen ++ [r]) < unseen h seen.
Proof.
  intros Hr Hh. unfold unseen. apply subset_size.
  apply elem_of_dom in Hh. split.
  - intros x. rewrite !elem_of_difference, !elem_of_list_to_set, elem_of_app. naive_solver.
  - intros Hsub. specialize (Hsub r).
    rewrite !elem_of_difference, !elem_of_list_to_set, elem_of_app in Hsub.
    destruct Hsub as [_ Hn]; [done|]. apply Hn. right. by apply list_elem_of_singleton.
Qed.

Lemma children_missing h r : h !! r = None → children (shape_of (deref h r)) = [].
Proof. intros H. unfold deref. by rewrite H. Qed.

Lemma grows_refl seen : grows seen seen.
Proof. split; done. Qed.

Lemma grows_trans a b c : grows a b → grows b c → grows a c.
Proof. intros [H1 H2] [H3 H4]. split; [by etrans | auto]. Qed.

Lemma grows_subseteq a b : grows a b → a ⊆ b.
Proof. intros [[k ->] _]. intros x Hx. apply elem_of_app. by left. Qed.

Lemma for_each_returns h fuel d :
  (∀ v seen, unseen h seen < fuel →
     ∃ seen', traverse fuel h v d (Some seen) = Some (v, seen') ∧ grows seen seen') →
  ∀ l seen, unseen h seen < fuel →
    ∃ seen', for_each (λ x s, traverse fuel h x d (Some s)) l seen = Some seen'
             ∧ grows seen seen'.
Proof.
  intros IH. induction l as [|x l IHl]; intros seen Hfuel; simpl.
  - exists seen. split; [done | apply grows_refl].
  - destruct (IH x seen Hfuel) as (seen1 & -> & Hg1). simpl.
    destruct (IHl seen1) as (seen2 & -> & Hg2).
    + pose proof (unseen_mono h seen seen1 (grows_subseteq _ _ Hg1)). lia.
    + exists seen2. split; [done | by eapply grows_trans].
Qed.

Lemma traverse_returns h fuel : ∀ d v seen,
  unseen h seen < fuel →
  ∃ seen', traverse fuel h v d (Some seen) = Some (v, seen') ∧ grows seen seen'.
Proof.
  induction fuel as [|fuel IH]; intros d v seen Hfuel; [lia|].
  cbn [traverse default from_option id].
  destruct (depth_le0 d || negb (isObject v) || skip_marked h v) eqn:Hstop.
  { exists seen. split; [done | apply grows_refl]. }
  destruct v as [| | | |r]; try (exists seen; split; [done | apply grows_refl]).
  destruct (bool_decide (r ∈ seen)) eqn:Hseen.
  { exists seen. split; [done | apply grows_refl]. }
  apply bool_decide_eq_false in Hseen.
  assert (grows seen (seen ++ [r])) as Hadd.
  { split; [by apply prefix_app_r|]. intros Hnd. apply NoDup_app. split; [done|].
    split; [|apply NoDup_singleton].
    intros x Hx Hx'. apply list_elem_of_singleton in Hx' as ->. done. }
  destruct (h !! r) as [o|] eqn:Hr.
  - destruct (for_each_returns h fuel (depth_pred d) (IH (depth_pred d))
                (children (shape_of (deref h r))) (seen ++ [r]))
      as (seen' & -> & Hg).
    + pose proof (unseen_add h seen r Hseen (mk_is_Some _ _ Hr)). lia.
    + exists seen'. split; [done | by eapply grows_trans].
  - rewrite (children_missing h r Hr). simpl. by exists (seen ++ [r]).
Qed.

(** C9, [traverse] on graphs with cycles: with more fuel than the heap has
    objects outside the seen-set, the call returns, and what it returns is
    its argument; the seen-set it leaves extends the one it was given and
    holds no object twice.  The call returns at once, leaving the seen-set as
    it is, when the depth is 0 or less, on what is no object, on an object
    with the skip marker, and on an object of the seen-set. *)
Theorem traverse_terminates_and_returns_its_argument
    (h : gmap nat object) (v : value) (d : depth) (seen : option (list nat)) (fuel : nat) :
  (unseen h (default [] seen) < fuel →
   ∃ seen', traverse fuel h v d seen = Some (v, seen')
            ∧ default [] seen `prefix_of` seen'
            ∧ (NoDup (default [] seen) → NoDup seen'))
  ∧ (0 < fuel → depth_le0 d = true → traverse fuel h v d seen = Some (v, default [] seen))
  ∧ (0 < fuel → isObject v = false → traverse fuel h v d seen = Some (v, default [] seen))
  ∧ (0 < fuel → skip_marked h v = true → traverse fuel h v d seen = Some (v, default [] seen))
  ∧ (∀ r, 0 < fuel → v = VObject r → r ∈ default [] seen →
          traverse fuel h v d seen = Some (v, default [] seen)).
Proof.
  split; [|split; [|split; [|split]]].
  - intros Hfuel.
    assert (traverse fuel h v d seen = traverse fuel h v d (Some (default [] seen))) as ->.
    { destruct fuel; [done|]. by destruct seen. }
    destruct (traverse_returns h fuel d v (default [] seen) Hfuel) as (seen' & Ht & Hp & Hn).
    by exists seen'.
  - intros Hfuel Hd. destruct fuel; [lia|]. cbn [traverse]. by rewrite Hd.
  - intros Hfuel Hv. destruct fuel; [lia|]. cbn [traverse]. rewrite Hv.
    by rewrite orb_true_r.
  - intros Hfuel Hs. destruct fuel; [lia|]. cbn [traverse]. rewrite Hs.
    by rewrite orb_true_r.
  - intros r Hfuel -> Hr. destruct fuel; [lia|]. cbn [traverse].
    destruct (depth_le0 d || negb (isObject (VObject r)) || skip_marked h (VObject r)); [done|].
    by rewrite bool_decide_eq_true_2.
Qed.

Lemma traverse_cyclic_heap_example :
  traverse 3 cyclic_heap (VObject 1) Infinity None = Some (VObject 1, [1; 2]).
Proof. vm_compute. reflexivity. Qed.

Lemma traverse_terminates_and_returns_its_argument_witness :
  ∃ seen', traverse 3 cyclic_heap (VObject 1) Infinity None = Some (VObject 1, seen')
           ∧ NoDup seen'.
Proof.
  destruct (proj1 (traverse_terminates_and_returns_its_argument
                     cyclic_heap (VObject 1) Infinity None 3))
    as (seen' & Ht & _ & Hnd).
  - vm_compute. lia.
  - exists seen'. split; [exact Ht|]. apply Hnd. apply NoDup_nil_2.
Defined.

End WatchProofs.

(** ** Watchers *)

Module ApiWatchProofs.
Import Reactivity ApiWatch.

(** * Watchers: what each step of [doWatch] and of its closures changes *)

Ltac wsimpl :=
  cbn [effect oldValue cleanup onCleanup_noop evaluations user_calls queries cb_calls
       cleanup_calls requests handled_errors set_effect set_oldValue set_cleanup
       set_onCleanup_noop set_evaluations set_user_calls set_queries set_cb_calls
       set_cleanup_calls set_requests set_handled_errors on_effect entry fst snd
       fmap option_fmap option_map] in *.

Section watcher.
Context {V : Type}.
Variables (undefined : V) (hasChanged : V → V → bool) (isArray : V → bool).
Variables (source_value : nat → V) (source_values : nat → nat → V).
Variables (registers : nat → list nat) (cb_throws : nat → bool).
Variable queried_level : nat → DirtyLevels.
Variable compat_watch_array : bool.

Local Abbreviation Watcher := (@Watcher V).
Local Abbreviation call_user := (@call_user V registers).
Local Abbreviation getter := (getter undefined source_value source_values registers).
Local Abbreviation effect_run := (effect_run undefined source_value source_values registers).
Local Abbreviation effect_dirty := (@effect_dirty V queried_level).
Local Abbreviation call_cb := (@call_cb V registers cb_throws).
Local Abbreviation job :=
  (job undefined hasChanged isArray source_value source_values registers cb_throws
     queried_level compat_watch_array).
Local Abbreviation scheduler :=
  (scheduler undefined hasChanged isArray source_value source_values registers cb_throws
     queried_level compat_watch_array).
Local Abbreviation notify :=
  (notify undefined hasChanged isArray source_value source_values registers cb_throws
     queried_level compat_watch_array).
Local Abbreviation step :=
  (step undefined hasChanged isArray source_value source_values registers cb_throws
     queried_level compat_watch_array).
Local Abbreviation reading := (reading undefined source_value source_values registers).
Local Abbreviation accounted := (@accounted V registers).
Local Abbreviation registered := (registered registers).
Local Abbreviation bounded := (@bounded V).
Local Abbreviation reports := (reports undefined hasChanged isArray compat_watch_array).
Local Abbreviation reported := (reported undefined source_value source_values registers).
Local Abbreviation initial_old := (initial_old undefined source_value source_values registers).
Local Abbreviation retried := (@retried V cb_throws).
Local Abbreviation value_changed := (value_changed undefined hasChanged).
Local Abbreviation changes_from := (changes_from undefined hasChanged).
Local Abbreviation at_rest := (@at_rest V).
Local Abbreviation history :=
  (watch_history undefined hasChanged isArray source_value source_values registers
     cb_throws queried_level false compat_watch_array).

(** ** The user's function *)

Lemma foldl_onCleanup (w : Watcher) fns :
  foldl onCleanup w fns
  = if onCleanup_noop w then w
    else match last fns with
         | Some f => set_cleanup (Some f) w
         | None => w
         end.
Proof.
  revert w. induction fns as [|f fns IH]; intros w; simpl.
  { by destruct (onCleanup_noop w). }
  rewrite IH. unfold onCleanup.
  destruct (onCleanup_noop w) eqn:Hn; [by rewrite Hn|].
  wsimpl. rewrite Hn.
  destruct fns as [|g fns]; [done|].
  change (last (f :: g :: fns)) with (last (g :: fns)).
  destruct (last (g :: fns)) eqn:Hl; [reflexivity|]. by apply last_None in Hl.
Qed.

Lemma call_user_eq (w : Watcher) :
  call_user w
  = let w1 := set_user_calls (S (user_calls w)) w in
    if onCleanup_noop w then w1
    else match last (registers (user_calls w)) with
         | Some f => set_cleanup (Some f) w1
         | None => w1
         end.
Proof. unfold ApiWatch.call_user. by rewrite foldl_onCleanup. Qed.

(** ** The getter *)

Lemma getter_value src cb (w : Watcher) :
  (getter src cb w).1 = reading src (evaluations w).
Proof. unfold ApiWatch.reading, ApiWatch.getter. by destruct src, cb. Qed.

Lemma getter_cb src (w : Watcher) :
  getter src true w = (reading src (evaluations w), set_evaluations (S (evaluations w)) w).
Proof. unfold ApiWatch.reading, ApiWatch.getter. by destruct src. Qed.

Lemma effect_run_cb src (w : Watcher) :
  effect_run src true w
  = (reading src (evaluations w),
     set_evaluations (S (evaluations w)) (on_effect (set_dirtyLevel NotDirty) w)).
Proof. unfold ApiWatch.effect_run. by rewrite getter_cb. Qed.

(** ** The [dirty] getter *)

Lemma effect_dirty_spec (w : Watcher) E :
  effect w = Some E →
  ∃ l q,
    (effect_dirty w).2 = set_queries q (set_effect (Some (set_dirtyLevel l E)) w)
    ∧ ((effect_dirty w).1 = true ↔ l = Dirty)
    ∧ (_dirtyLevel E = NotDirty → l = NotDirty).
Proof.
  intros HE. unfold ApiWatch.effect_dirty. rewrite HE.
  destruct (bool_decide (_dirtyLevel E = MaybeDirty_ComputedSideEffect)
            || bool_decide (_dirtyLevel E = MaybeDirty)) eqn:Hq.
  - eexists _, _. split; [reflexivity|]. simpl. split.
    + destruct (queried_level (queries w)); simpl; split; by intros.
    + intros Hl. rewrite Hl in Hq. done.
  - exists (_dirtyLevel E), (queries w). split; [|split].
    + simpl. destruct w, E. simpl in *. by inversion HE.
    + simpl. destruct (_dirtyLevel E); simpl; split; by intros.
    + done.
Qed.

(** ** Cleanup functions are accounted for *)

Lemma registered_S n :
  registered (S n) = registered n ++ option_list (last (registers n)).
Proof.
  unfold ApiWatch.registered. rewrite seq_S, omap_app. simpl.
  by destruct (last (registers n)).
Qed.

Lemma accounted_ext (w w' : Watcher) :
  onCleanup_noop w' = onCleanup_noop w → cleanup w' = cleanup w →
  cleanup_calls w' = cleanup_calls w → user_calls w' = user_calls w →
  accounted w → accounted w'.
Proof.
  unfold ApiWatch.accounted, pending. intros -> -> -> ->. done.
Qed.

Lemma accounted_call_cleanup (w : Watcher) :
  accounted w → accounted (call_cleanup w) ∧ cleanup (call_cleanup w) = None.
Proof.
  unfold ApiWatch.accounted, pending, call_cleanup. intros [Hn Hacc].
  destruct (cleanup w) as [f|] eqn:Hc; wsimpl; [|by rewrite Hc].
  simpl in *. by rewrite app_nil_r.
Qed.

Lemma accounted_call_user (w : Watcher) :
  accounted w → cleanup w = None → accounted (call_user w).
Proof.
  unfold ApiWatch.accounted, pending. intros [Hn Hacc] Hc.
  rewrite call_user_eq. cbv zeta. rewrite Hn, Hc in *. simpl in Hacc.
  rewrite app_nil_r in Hacc.
  destruct (last (registers (user_calls w))) as [f|] eqn:Hl; wsimpl;
    rewrite registered_S, Hl, Hacc; simpl; by rewrite ?Hc, ?app_nil_r.
Qed.

Lemma accounted_getter src cb (w : Watcher) :
  accounted w → accounted (getter src cb w).2.
Proof.
  intros Hacc.
  assert (accounted (set_evaluations (S (evaluations w)) w)) as H1
    by by apply (accounted_ext w).
  unfold ApiWatch.getter. destruct src; try destruct cb; simpl; try done.
  destruct (accounted_call_cleanup _ H1). by apply accounted_call_user.
Qed.

Lemma accounted_effect_run src cb (w : Watcher) :
  accounted w → accounted (effect_run src cb w).2.
Proof.
  intros Hacc. apply accounted_getter. by apply (accounted_ext w).
Qed.

Lemma accounted_effect_dirty (w : Watcher) :
  accounted w → accounted (effect_dirty w).2.
Proof.
  intros Hacc. destruct (effect w) as [E|] eqn:HE.
  - destruct (effect_dirty_spec w E HE) as (l & q & -> & _). by apply (accounted_ext w).
  - unfold ApiWatch.effect_dirty. by rewrite HE.
Qed.

Lemma effect_dirty_cleanup (w : Watcher) :
  cleanup (effect_dirty w).2 = cleanup w.
Proof.
  destruct (effect w) as [E|] eqn:HE.
  - by destruct (effect_dirty_spec w E HE) as (l & q & -> & _).
  - unfold ApiWatch.effect_dirty. by rewrite HE.
Qed.

Lemma accounted_effect_stop (w : Watcher) :
  accounted w → accounted (effect_stop w).
Proof.
  intros Hacc. unfold effect_stop. destruct (effect w) as [E|]; [|done].
  destruct (active E); [|done].
  destruct (accounted_call_cleanup w Hacc) as [H _]. by apply (accounted_ext (call_cleanup w)).
Qed.

Lemma accounted_call_cb o nv old (w : Watcher) :
  accounted w → cleanup w = None → accounted (call_cb o nv old w).
Proof.
  intros Hacc Hc. unfold ApiWatch.call_cb.
  assert (accounted (call_user (set_cb_calls (cb_calls w ++ [(nv, old)]) w))) as H1.
  { apply accounted_call_user; [|done]. by apply (accounted_ext w). }
  assert (∀ w' : Watcher, accounted w' →
            accounted (set_handled_errors (S (handled_errors w')) w')) as Herr.
  { intros w' H. by apply (accounted_ext w'). }
  wsimpl. destruct (cb_throws (user_calls w)); [by apply Herr|].
  destruct (once o); [|done].
  destruct (effect _); [|by apply Herr].
  by apply accounted_effect_stop.
Qed.

Lemma accounted_job src cb o (w : Watcher) :
  accounted w → accounted (job src cb o w).
Proof.
  intros Hacc. unfold ApiWatch.job.
  destruct (effect w) as [E|] eqn:HE; [|done].
  destruct (active E); simpl; [|done].
  pose proof (accounted_effect_dirty w Hacc) as Hd.
  destruct (effect_dirty w) as [d w1]. simpl in Hd.
  destruct d; simpl; [|done].
  destruct cb; [|by apply accounted_effect_run].
  pose proof (accounted_effect_run src true w1 Hd) as Hr.
  destruct (effect_run src true w1) as [nv w2]. simpl in Hr.
  destruct (_ || _); [|done].
  destruct (accounted_call_cleanup w2 Hr) as [H3 Hc].
  apply (accounted_ext (call_cb o nv (old_argument undefined src (oldValue (call_cleanup w2)))
                          (call_cleanup w2))); try done.
  by apply accounted_call_cb.
Qed.

Lemma accounted_scheduler src cb o (w : Watcher) :
  accounted w → accounted (scheduler src cb o w).
Proof.
  intros Hacc. unfold ApiWatch.scheduler.
  destruct (flush o); try by apply (accounted_ext w).
  by apply accounted_job.
Qed.

Lemma accounted_notify src cb o l tracking (w : Watcher) :
  accounted w → accounted (notify src cb o l tracking w).
Proof.
  intros Hacc. unfold ApiWatch.notify.
  destruct (effect w) as [E|]; [|done].
  destruct (triggerEffects_body l tracking E) as [E' r].
  assert (accounted (set_effect (Some E') w)) by by apply (accounted_ext w).
  destruct (_ && _); [|done]. by apply accounted_scheduler.
Qed.

Lemma accounted_step src cb o h (w : Watcher) ev :
  accounted w → accounted (step src cb o h w ev).
Proof.
  intros Hacc. destruct ev as [l tracking| | |]; simpl.
  - by apply accounted_notify.
  - by apply accounted_job.
  - destruct (effect w); [|done]. by apply accounted_effect_run.
  - destruct h; [done|]. by apply accounted_effect_stop.
Qed.

Lemma accounted_doWatch src cb o :
  accounted
    (doWatch undefined hasChanged isArray source_value source_values registers cb_throws
       queried_level false compat_watch_array src cb o).2.
Proof.
  unfold doWatch. cbv iota zeta. cbn [snd].
  set (w3 := set_effect _ (set_oldValue _ _)).
  assert (accounted w3) as H3 by done.
  destruct cb.
  - destruct (immediate o); [by apply accounted_job|].
    pose proof (accounted_effect_run src true w3 H3) as Hr.
    destruct (effect_run src true w3) as [v w]. by apply (accounted_ext w).
  - destruct (flush o); try by apply accounted_effect_run.
    by apply (accounted_ext w3).
Qed.

(** ** The getter is not called more often than needed *)

Lemma call_cleanup_effect (w : Watcher) :
  effect (call_cleanup w) = effect w ∧ evaluations (call_cleanup w) = evaluations w.
Proof. unfold call_cleanup. by destruct (cleanup w). Qed.

Lemma call_user_effect (w : Watcher) :
  effect (call_user w) = effect w ∧ evaluations (call_user w) = evaluations w.
Proof.
  rewrite call_user_eq. cbv zeta.
  destruct (onCleanup_noop w); [done|]. by destruct (last _).
Qed.

Lemma getter_effect src cb (w : Watcher) :
  effect (getter src cb w).2 = effect w
  ∧ evaluations (getter src cb w).2 = S (evaluations w).
Proof.
  unfold ApiWatch.getter. destruct src; try destruct cb; simpl; try done.
  destruct (call_user_effect (call_cleanup (set_evaluations (S (evaluations w)) w)))
    as [-> ->].
  by destruct (call_cleanup_effect (set_evaluations (S (evaluations w)) w)) as [-> ->].
Qed.

Lemma effect_run_effect src cb (w : Watcher) :
  effect (effect_run src cb w).2 = set_dirtyLevel NotDirty <$> effect w
  ∧ evaluations (effect_run src cb w).2 = S (evaluations w).
Proof.
  unfold ApiWatch.effect_run.
  by destruct (getter_effect src cb (on_effect (set_dirtyLevel NotDirty) w)) as [-> ->].
Qed.

Lemma due_le_1 (w : Watcher) : due w ≤ 1.
Proof. unfold due. destruct (effect w); [|lia]. case_bool_decide; lia. Qed.

Lemma bounded_effect_run src cb n (w : Watcher) :
  is_Some (effect w) → evaluations w < 1 + n → bounded n (effect_run src cb w).2.
Proof.
  intros [E HE] Hn. unfold ApiWatch.bounded, due.
  destruct (effect_run_effect src cb w) as [-> ->]. rewrite HE. simpl.
  split; [done|lia].
Qed.

Lemma effect_stop_effect (w : Watcher) E :
  effect w = Some E →
  ∃ E', effect (effect_stop w) = Some E' ∧ _dirtyLevel E' = _dirtyLevel E
        ∧ active E' = false ∧ evaluations (effect_stop w) = evaluations w.
Proof.
  intros HE. unfold effect_stop. rewrite HE.
  destruct (active E) eqn:Ha; [|by exists E].
  destruct (call_cleanup_effect w) as [H1 H2]. wsimpl. rewrite H1, H2, HE.
  by eexists.
Qed.

Lemma bounded_effect_stop n (w : Watcher) :
  bounded n w → bounded n (effect_stop w).
Proof.
  unfold ApiWatch.bounded, due. intros [[E HE] Hn]. rewrite HE in Hn.
  destruct (effect_stop_effect w E HE) as (E' & -> & -> & _ & ->). done.
Qed.

Lemma call_cb_effect o nv old (w : Watcher) :
  evaluations (call_cb o nv old w) = evaluations w
  ∧ ∀ E, effect w = Some E →
      ∃ E', effect (call_cb o nv old w) = Some E' ∧ _dirtyLevel E' = _dirtyLevel E.
Proof.
  unfold ApiWatch.call_cb.
  set (w1 := call_user (set_cb_calls (cb_calls w ++ [(nv, old)]) w)).
  assert (effect w1 = effect w ∧ evaluations w1 = evaluations w) as [H1 H2]
    by apply (call_user_effect (set_cb_calls (cb_calls w ++ [(nv, old)]) w)).
  destruct (cb_throws _); wsimpl.
  { rewrite H1, H2. split; [done|]. intros E ->. by exists E. }
  destruct (once o).
  2:{ rewrite H1, H2. split; [done|]. intros E ->. by exists E. }
  destruct (effect w1) as [E|] eqn:HE; wsimpl.
  - destruct (effect_stop_effect w1 E HE) as (E' & Hs & Hl & _ & Hev).
    unfold unwatch. rewrite Hs, Hev, H2. split; [done|].
    intros E0 HE0. exists E'. split; [done|]. congruence.
  - rewrite H2. split; [done|]. intros E0 HE0. congruence.
Qed.

Lemma bounded_job src cb o n (w : Watcher) :
  bounded n w → bounded n (job src cb o w).
Proof.
  intros Hb. pose proof Hb as [[E HE] Hn]. unfold ApiWatch.job. rewrite HE.
  destruct (active E); simpl; [|done].
  destruct (effect_dirty_spec w E HE) as (l & q & Hw1 & Hd & Hl).
  destruct (effect_dirty w) as [d w1]. simpl in Hw1, Hd. subst w1.
  set (w1 := set_queries q (set_effect (Some (set_dirtyLevel l E)) w)).
  assert (evaluations w1 + due w1 ≤ 1 + n) as Hn1.
  { unfold due in *. rewrite HE in Hn. subst w1. wsimpl. simpl.
    repeat case_bool_decide; try lia. by destruct Hl. }
  destruct d; simpl; [|by split].
  assert (evaluations w1 < 1 + n) as Hlt.
  { unfold due in Hn1. subst w1. wsimpl. simpl in Hn1.
    rewrite (proj1 Hd eq_refl) in Hn1. simpl in Hn1. lia. }
  assert (is_Some (effect w1)) as Hsome by done.
  pose proof (bounded_effect_run src cb n w1 Hsome Hlt) as Hr.
  destruct cb; [|done].
  destruct (effect_run src true w1) as [nv w2]. simpl in Hr.
  destruct (_ || _); [|done].
  destruct Hr as [[E2 HE2] Hn2].
  destruct (call_cleanup_effect w2) as [Hc1 Hc2].
  destruct (call_cb_effect o nv (old_argument undefined src (oldValue (call_cleanup w2)))
              (call_cleanup w2)) as [Hev Heff].
  destruct (Heff E2) as (E' & HE' & Hl'); [by rewrite Hc1|].
  unfold ApiWatch.bounded, due in *. wsimpl. rewrite HE', Hev, Hc2, Hl'.
  rewrite HE2 in Hn2. done.
Qed.

Lemma bounded_mono n m (w : Watcher) : n ≤ m → bounded n w → bounded m w.
Proof. unfold ApiWatch.bounded. intros ? [? ?]. split; [done|lia]. Qed.

Lemma bounded_notify src cb o l tracking n (w : Watcher) :
  bounded n w → bounded (S n) (notify src cb o l tracking w).
Proof.
  intros [[E HE] Hn]. unfold ApiWatch.notify. rewrite HE.
  destruct (triggerEffects_body l tracking E) as [E' r].
  assert (bounded (S n) (set_effect (Some E') w)) as H1.
  { split; [done|]. unfold due in *. wsimpl. rewrite HE in Hn.
    repeat case_bool_decide; lia. }
  destruct (_ && _); [|done].
  unfold ApiWatch.scheduler. destruct (flush o); try done.
  by apply bounded_job.
Qed.

Lemma bounded_step src cb o h n (w : Watcher) ev :
  bounded n w → bounded (n + (if is_wake ev then 1 else 0)) (step src cb o h w ev).
Proof.
  intros Hb. destruct ev as [l tracking| | |]; simpl.
  - replace (n + 1) with (S n) by lia. by apply bounded_notify.
  - rewrite Nat.add_0_r. by apply bounded_job.
  - destruct Hb as [[E HE] Hn]. rewrite HE.
    apply bounded_effect_run; [done|]. pose proof (due_le_1 w). lia.
  - rewrite Nat.add_0_r. destruct h; [done|]. by apply bounded_effect_stop.
Qed.

Lemma bounded_history src cb o h events n (w : Watcher) :
  bounded n w → bounded (n + wakes events) (foldl (step src cb o h) w events).
Proof.
  revert n w. induction events as [|ev events IH]; intros n w Hb; simpl.
  { unfold wakes. simpl. by rewrite Nat.add_0_r. }
  apply (bounded_step src cb o h) with (ev := ev) in Hb. apply IH in Hb.
  unfold wakes in *. destruct (is_wake ev) eqn:Hw.
  - rewrite filter_cons_True by done. simpl.
    by replace (n + S (length (filter (λ ev, is_wake ev = true) events)))
      with (n + 1 + length (filter (λ ev, is_wake ev = true) events)) by lia.
  - rewrite filter_cons_False by (by rewrite Hw). by rewrite Nat.add_0_r in Hb.
Qed.

Lemma bounded_doWatch src cb o :
  bounded 0
    (doWatch undefined hasChanged isArray source_value source_values registers cb_throws
       queried_level false compat_watch_array src cb o).2.
Proof.
  unfold doWatch. cbv iota zeta. cbn [snd].
  set (w3 := set_effect _ (set_oldValue _ _)).
  assert (bounded 0 w3) as H3 by (split; [done|by vm_compute]).
  assert (is_Some (effect w3)) as Hs by done.
  assert (evaluations w3 < 1 + 0) as He by (simpl; lia).
  destruct cb.
  - destruct (immediate o); [by apply bounded_job|].
    pose proof (bounded_effect_run src true 0 w3 Hs He) as Hr.
    by destruct (effect_run src true w3) as [v w].
  - destruct (flush o); try by apply bounded_effect_run.
    done.
Qed.

(** ** The calls of the callback *)

Lemma triggerEffects_body_active l tracking E :
  active (triggerEffects_body l tracking E).1 = active E.
Proof.
  unfold triggerEffects_body. repeat case_match; done.
Qed.

Lemma call_cleanup_report (w : Watcher) :
  cb_calls (call_cleanup w) = cb_calls w ∧ oldValue (call_cleanup w) = oldValue w
  ∧ user_calls (call_cleanup w) = user_calls w.
Proof. unfold call_cleanup. by destruct (cleanup w). Qed.

Lemma call_user_report (w : Watcher) :
  cb_calls (call_user w) = cb_calls w ∧ oldValue (call_user w) = oldValue w
  ∧ user_calls (call_user w) = S (user_calls w).
Proof.
  rewrite call_user_eq. cbv zeta.
  destruct (onCleanup_noop w); [done|]. by destruct (last _).
Qed.

Lemma effect_stop_report (w : Watcher) :
  cb_calls (effect_stop w) = cb_calls w ∧ oldValue (effect_stop w) = oldValue w
  ∧ user_calls (effect_stop w) = user_calls w.
Proof.
  unfold effect_stop. destruct (effect w) as [E|]; [|done].
  destruct (active E); [|done]. wsimpl. apply call_cleanup_report.
Qed.

Lemma effect_stop_watching (w : Watcher) : watching (effect_stop w) = false.
Proof.
  unfold watching. destruct (effect w) as [E|] eqn:HE.
  - by destruct (effect_stop_effect w E HE) as (E' & -> & _ & -> & _).
  - unfold effect_stop. by rewrite HE, HE.
Qed.

Lemma call_cb_report o nv old (w : Watcher) :
  cb_calls (call_cb o nv old w) = cb_calls w ++ [(nv, old)]
  ∧ oldValue (call_cb o nv old w) = oldValue w
  ∧ user_calls (call_cb o nv old w) = S (user_calls w)
  ∧ (watching (call_cb o nv old w) = true → watching w = true)
  ∧ (is_Some (effect w) → once o = true → cb_throws (user_calls w) = false →
     watching (call_cb o nv old w) = false).
Proof.
  unfold ApiWatch.call_cb.
  set (w0 := set_cb_calls (cb_calls w ++ [(nv, old)]) w).
  destruct (call_user_report w0) as (H1 & H2 & H3).
  destruct (call_user_effect w0) as [H4 _].
  set (w1 := call_user w0) in *.
  assert (watching w1 = watching w) as Hw by (unfold watching; by rewrite H4).
  assert (∀ w' : Watcher, watching (set_handled_errors (S (handled_errors w')) w')
                          = watching w') as Herr by done.
  change (user_calls w0) with (user_calls w) in *.
  change (cb_calls w0) with (cb_calls w ++ [(nv, old)]) in *.
  change (oldValue w0) with (oldValue w) in *.
  change (effect w0) with (effect w) in *.
  destruct (cb_throws (user_calls w)).
  { wsimpl. rewrite Herr, Hw. repeat split; try done. }
  destruct (once o).
  2:{ rewrite Hw. repeat split; try done. }
  rewrite H4. destruct (effect w) as [E|] eqn:HE.
  - unfold unwatch. destruct (effect_stop_report w1) as (-> & -> & ->).
    rewrite effect_stop_watching. repeat split; try done.
  - wsimpl. rewrite Herr, Hw. repeat split; try done.
Qed.

(** What a call of the job of a watcher with a callback does: nothing to
    the calls of the callback, or one call more. *)
Lemma job_cb_report src o (w : Watcher) :
  let w' := job src true o w in
  (cb_calls w' = cb_calls w ∧ oldValue w' = oldValue w ∧ user_calls w' = user_calls w
   ∧ watching w' = watching w)
  ∨ (watching w = true
     ∧ reports src o (reading src (evaluations w)) (oldValue w) = true
     ∧ cb_calls w'
       = cb_calls w ++ [(reading src (evaluations w), old_argument undefined src (oldValue w))]
     ∧ oldValue w' = Seen (reading src (evaluations w))
     ∧ user_calls w' = S (user_calls w)
     ∧ (once o = true → cb_throws (user_calls w) = false → watching w' = false)).
Proof.
  cbv zeta. unfold ApiWatch.job.
  destruct (effect w) as [E|] eqn:HE; [|by left].
  destruct (active E) eqn:Ha; simpl; [|by left].
  assert (watching w = true) as Hw by (unfold watching; by rewrite HE).
  destruct (effect_dirty_spec w E HE) as (l & q & Hw1 & Hd & Hl).
  destruct (effect_dirty w) as [d w1]. simpl in Hw1, Hd. subst w1.
  set (w1 := set_queries q (set_effect (Some (set_dirtyLevel l E)) w)).
  destruct d; simpl.
  2:{ left. subst w1. unfold watching. wsimpl. by rewrite HE. }
  rewrite effect_run_cb. change (evaluations w1) with (evaluations w).
  set (nv := reading src (evaluations w)).
  set (w2 := set_evaluations _ _).
  change (oldValue w2) with (oldValue w).
  change (deep o || forceTrigger src || ApiWatch.value_changed undefined hasChanged src nv
            (oldValue w) || compat_watch_array && is_array isArray nv)
    with (reports src o nv (oldValue w)).
  destruct (reports src o nv (oldValue w)) eqn:Hrep.
  2:{ left. subst w2 w1. unfold watching. wsimpl. by rewrite HE. }
  right. destruct (call_cleanup_report w2) as (Hc1 & Hc2 & Hc3).
  destruct (call_cleanup_effect w2) as [Hc4 _].
  destruct (call_cb_report o nv (old_argument undefined src (oldValue (call_cleanup w2)))
              (call_cleanup w2)) as (H1 & H2 & H3 & H4 & H5).
  assert (is_Some (effect (call_cleanup w2))) as Hsome.
  { rewrite Hc4. subst w2 w1. wsimpl. done. }
  assert (user_calls w2 = user_calls w) as Hu by done.
  assert (cb_calls w2 = cb_calls w) as Hcc by done.
  assert (oldValue w2 = oldValue w) as Hov by done.
  set (w4 := call_cb _ _ _ _) in *.
  assert (watching (set_oldValue (Seen nv) w4) = watching w4) as Hw4 by done.
  rewrite Hw4.
  change (cb_calls (set_oldValue (Seen nv) w4)) with (cb_calls w4).
  change (user_calls (set_oldValue (Seen nv) w4)) with (user_calls w4).
  change (oldValue (set_oldValue (Seen nv) w4)) with (Seen nv).
  rewrite H1, H3, Hc1, Hc2, Hc3, Hu, Hcc, Hov.
  repeat split; try done.
  intros Ho Ht. apply H5; try done. by rewrite Hc3, Hu.
Qed.

Lemma chained_snoc (p : @observed V) calls n o :
  chained p (calls ++ [(n, o)])
  ↔ chained p calls ∧ o = default p (fst <$> last calls).
Proof.
  revert p. induction calls as [|[n' o'] calls IH]; intros p; simpl.
  { naive_solver. }
  rewrite IH. destruct calls as [|c calls]; simpl; [naive_solver|].
  change (last ((n', o') :: c :: calls)) with (last (c :: calls)).
  destruct (last (c :: calls)) eqn:Hl; simpl; [naive_solver|].
  by apply last_None in Hl.
Qed.

Lemma changes_from_snoc src old (calls : list (@observed V * @observed V)) n o :
  changes_from src old (calls ++ [(n, o)])
  ↔ changes_from src old calls
    ∧ value_changed src n (last_seen old calls) = true.
Proof.
  revert old. induction calls as [|[n' o'] calls IH]; intros old; simpl.
  { unfold last_seen. simpl. naive_solver. }
  rewrite IH. unfold last_seen. destruct calls as [|c calls]; simpl; [naive_solver|].
  change (last ((n', o') :: c :: calls)) with (last (c :: calls)).
  destruct (last (c :: calls)) eqn:Hl; simpl; [naive_solver|].
  by apply last_None in Hl.
Qed.

Lemma old_argument_last_seen src old (calls : list (@observed V * @observed V)) :
  old_argument undefined src (last_seen old calls)
  = default (old_argument undefined src old) (fst <$> last calls).
Proof. unfold last_seen. by destruct (last calls). Qed.

Lemma last_seen_snoc old (calls : list (@observed V * @observed V)) n o :
  last_seen old (calls ++ [(n, o)]) = Seen n.
Proof. unfold last_seen. by rewrite last_snoc. Qed.

Lemma reported_ext src o (w w' : Watcher) :
  cb_calls w' = cb_calls w → oldValue w' = oldValue w → user_calls w' = user_calls w →
  reported src o w → reported src o w'.
Proof. intros H1 H2 H3 [? ? ?]. split; by rewrite ?H1, ?H2, ?H3. Qed.

Lemma reported_job src o (w : Watcher) :
  reported src o w → reported src o (job src true o w).
Proof.
  intros Hrep. destruct (job_cb_report src o w) as [(H1 & H2 & H3 & _)|H].
  { by apply (reported_ext src o w). }
  destruct H as (_ & _ & H1 & H2 & H3 & _). destruct Hrep as [Hch Hold Hcnt].
  split.
  - rewrite H1. apply chained_snoc. split; [done|].
    by rewrite Hold, old_argument_last_seen.
  - by rewrite H1, H2, last_seen_snoc.
  - rewrite H1, H3, length_app. simpl. lia.
Qed.

Lemma reported_step src o h (w : Watcher) ev :
  reported src o w → reported src o (step src true o h w ev).
Proof.
  intros Hrep. destruct ev as [l tracking| | |]; simpl.
  - unfold ApiWatch.notify. destruct (effect w) as [E|]; [|done].
    destruct (triggerEffects_body l tracking E) as [E' r].
    assert (reported src o (set_effect (Some E') w)) by by apply (reported_ext src o w).
    destruct (_ && _); [|done].
    unfold ApiWatch.scheduler. destruct (flush o); try by apply (reported_ext src o w).
    by apply reported_job.
  - by apply reported_job.
  - destruct (effect w); [|done]. rewrite effect_run_cb. by apply (reported_ext src o w).
  - destruct h; [done|]. destruct (effect_stop_report w) as (? & ? & ?).
    by apply (reported_ext src o w).
Qed.

Lemma reported_doWatch src o :
  reported src o
    (doWatch undefined hasChanged isArray source_value source_values registers cb_throws
       queried_level false compat_watch_array src true o).2.
Proof.
  unfold doWatch. cbv iota zeta. cbn [snd].
  set (w3 := set_effect _ (set_oldValue _ _)).
  destruct (immediate o) eqn:Hi.
  - apply reported_job. split; try done.
    unfold ApiWatch.initial_old. rewrite Hi. by destruct src.
  - rewrite effect_run_cb. split; try done.
    unfold ApiWatch.initial_old. by rewrite Hi.
Qed.

Lemma reported_history src o h events (w : Watcher) :
  reported src o w → reported src o (foldl (step src true o h) w events).
Proof.
  revert w. induction events as [|ev events IH]; intros w Hrep; [done|].
  simpl. by apply IH, reported_step.
Qed.

(** ** Calls made because the value changed *)

Lemma changes_job src o (w : Watcher) :
  deep o = false → forceTrigger src = false → compat_watch_array = false →
  reported src o w →
  changes_from src (initial_old src o) (cb_calls w) →
  changes_from src (initial_old src o) (cb_calls (job src true o w)).
Proof.
  intros Hdeep Hforce Hcompat Hrep Hch.
  destruct (job_cb_report src o w) as [(H1 & _)|H]; [by rewrite H1|].
  destruct H as (_ & Hr & H1 & _). rewrite H1. apply changes_from_snoc. split; [done|].
  unfold ApiWatch.reports in Hr. rewrite Hdeep, Hforce, Hcompat in Hr. simpl in Hr.
  rewrite orb_false_r in Hr. by rewrite <- (reported_old _ _ _ _ _ _ _ Hrep).
Qed.

Lemma changes_step src o h (w : Watcher) ev :
  deep o = false → forceTrigger src = false → compat_watch_array = false →
  reported src o w →
  changes_from src (initial_old src o) (cb_calls w) →
  changes_from src (initial_old src o) (cb_calls (step src true o h w ev)).
Proof.
  intros Hdeep Hforce Hcompat Hrep Hch. destruct ev as [l tracking| | |]; simpl.
  - unfold ApiWatch.notify. destruct (effect w) as [E|]; [|done].
    destruct (triggerEffects_body l tracking E) as [E' r].
    destruct (_ && _); [|done].
    unfold ApiWatch.scheduler. destruct (flush o); try done.
    apply changes_job; try done. by apply (reported_ext src o w).
  - by apply changes_job.
  - destruct (effect w); [|done]. by rewrite effect_run_cb.
  - destruct h; [done|]. unfold unwatch. by destruct (effect_stop_report w) as (-> & _).
Qed.

Lemma changes_history src o h events (w : Watcher) :
  deep o = false → forceTrigger src = false → compat_watch_array = false →
  reported src o w →
  changes_from src (initial_old src o) (cb_calls w) →
  changes_from src (initial_old src o) (cb_calls (foldl (step src true o h) w events)).
Proof.
  intros Hdeep Hforce Hcompat. revert w.
  induction events as [|ev events IH]; intros w Hrep Hch; [done|].
  simpl. apply IH; [by apply reported_step|by apply changes_step].
Qed.

(** ** Watchers that stop after one call *)

Lemma retried_ext (w w' : Watcher) :
  user_calls w' = user_calls w → (watching w' = true → watching w = true) →
  retried w → retried w'.
Proof. unfold ApiWatch.retried. intros -> Hw [H1 H2]. split; [done|]. auto. Qed.

Lemma retried_job src o (w : Watcher) :
  once o = true → retried w → retried (job src true o w).
Proof.
  intros Honce Hret. destruct (job_cb_report src o w) as [(_ & _ & H3 & H4)|H].
  { apply (retried_ext w); [done| |done]. by rewrite H4. }
  destruct H as (Hw & _ & _ & _ & H3 & H5). destruct Hret as [_ H2].
  specialize (H2 Hw). unfold ApiWatch.retried. rewrite H3. split.
  - intros i Hi. apply H2. lia.
  - intros Hw' i Hi. destruct (decide (i = user_calls w)) as [->|]; [|apply H2; lia].
    destruct (cb_throws (user_calls w)) eqn:Ht; [done|].
    rewrite (H5 Honce eq_refl) in Hw'. done.
Qed.

Lemma retried_step src o h (w : Watcher) ev :
  once o = true → retried w → retried (step src true o h w ev).
Proof.
  intros Honce Hret. destruct ev as [l tracking| | |]; simpl.
  - unfold ApiWatch.notify. destruct (effect w) as [E|] eqn:HE; [|done].
    pose proof (triggerEffects_body_active l tracking E) as Ha.
    destruct (triggerEffects_body l tracking E) as [E' r]. simpl in Ha.
    assert (retried (set_effect (Some E') w)) as H1.
    { apply (retried_ext w); [done| |done]. unfold watching. wsimpl. by rewrite HE, Ha. }
    destruct (_ && _); [|done].
    unfold ApiWatch.scheduler. destruct (flush o); try by apply (retried_ext (set_effect (Some E') w)).
    by apply retried_job.
  - by apply retried_job.
  - destruct (effect w) as [E|] eqn:HE; [|done]. rewrite effect_run_cb.
    apply (retried_ext w); [done| |done]. unfold watching. wsimpl. by rewrite HE.
  - destruct h; [done|]. unfold unwatch. apply (retried_ext w); [|by rewrite effect_stop_watching|done].
    by destruct (effect_stop_report w) as (_ & _ & ->).
Qed.

Lemma retried_history src o h events (w : Watcher) :
  once o = true → retried w → retried (foldl (step src true o h) w events).
Proof.
  intros Honce. revert w. induction events as [|ev events IH]; intros w Hret; [done|].
  simpl. by apply IH, retried_step.
Qed.

Lemma retried_doWatch src o :
  once o = true →
  retried
    (doWatch undefined hasChanged isArray source_value source_values registers cb_throws
       queried_level false compat_watch_array src true o).2.
Proof.
  intros Honce. unfold doWatch. cbv iota zeta. cbn [snd].
  set (w3 := set_effect _ (set_oldValue _ _)).
  assert (retried w3) as H3 by (split; simpl; intros; lia).
  destruct (immediate o); [by apply retried_job|].
  rewrite effect_run_cb. by apply (retried_ext w3).
Qed.

(** ** Stopped watchers *)

Lemma job_stopped src cb o (w : Watcher) :
  watching w = false → job src cb o w = w.
Proof.
  unfold watching, ApiWatch.job. destruct (effect w) as [E|]; [|done]. by intros ->.
Qed.

Lemma effect_stop_stopped (w : Watcher) :
  watching w = false → effect_stop w = w.
Proof.
  unfold watching, effect_stop. destruct (effect w) as [E|]; [|done]. by intros ->.
Qed.

Lemma step_stopped src cb o h (w : Watcher) ev :
  watching w = false → ev ≠ RunQueued →
  let w' := step src cb o h w ev in
  watching w' = false ∧ cb_calls w' = cb_calls w ∧ cleanup_calls w' = cleanup_calls w
  ∧ evaluations w' = evaluations w ∧ user_calls w' = user_calls w
  ∧ cleanup w' = cleanup w ∧ oldValue w' = oldValue w.
Proof.
  intros Hw Hev. destruct ev as [l tracking| | |]; simpl; try done.
  - unfold ApiWatch.notify. destruct (effect w) as [E|] eqn:HE; [|done].
    pose proof (triggerEffects_body_active l tracking E) as Ha.
    destruct (triggerEffects_body l tracking E) as [E' r]. simpl in Ha.
    assert (watching (set_effect (Some E') w) = false) as H1.
    { unfold watching in *. wsimpl. by rewrite HE in Hw; rewrite Ha. }
    destruct (_ && _); [|done].
    unfold ApiWatch.scheduler. destruct (flush o); try done.
    by rewrite job_stopped.
  - by rewrite job_stopped.
  - destruct h; [done|]. unfold unwatch. by rewrite effect_stop_stopped.
Qed.

Lemma history_stopped src cb o h events (w : Watcher) :
  watching w = false → run_by_job events →
  let w' := foldl (step src cb o h) w events in
  watching w' = false ∧ cb_calls w' = cb_calls w ∧ cleanup_calls w' = cleanup_calls w
  ∧ evaluations w' = evaluations w ∧ user_calls w' = user_calls w
  ∧ cleanup w' = cleanup w ∧ oldValue w' = oldValue w.
Proof.
  revert w. induction events as [|ev events IH]; intros w Hw Hev; [done|].
  apply Forall_cons in Hev as [Hev Hevs]. simpl.
  destruct (step_stopped src cb o h w ev Hw Hev) as (H1 & H2 & H3 & H4 & H5 & H6 & H7).
  destruct (IH _ H1 Hevs) as (? & ? & ? & ? & ? & ? & ?).
  cbv zeta. repeat split; congruence.
Qed.

Lemma call_cb_no_effect o nv old (w : Watcher) :
  effect w = None → effect (call_cb o nv old w) = None.
Proof.
  intros HE. unfold ApiWatch.call_cb.
  destruct (call_user_effect (set_cb_calls (cb_calls w ++ [(nv, old)]) w)) as [H1 _].
  wsimpl. rewrite HE in H1.
  destruct (cb_throws _); [done|]. destruct (once o); [|done]. by rewrite H1.
Qed.

Lemma doWatch_handle ssr src cb o :
  let r := doWatch undefined hasChanged isArray source_value source_values registers
             cb_throws queried_level ssr compat_watch_array src cb o in
  r.1 = NoopHandle → effect r.2 = None.
Proof.
  cbv zeta. unfold doWatch. destruct ssr; [|done].
  assert (effect
            (if negb cb then (getter src cb (set_onCleanup_noop true entry)).2
             else if immediate o then
               let '(v, w') := getter src cb (set_onCleanup_noop true entry) in
               call_cb o v (if isMultiSource src then Many [] else One undefined) w'
             else set_onCleanup_noop true entry) = None) as HE.
  { destruct cb; simpl.
    - destruct (immediate o); [|done]. rewrite getter_cb. by apply call_cb_no_effect.
    - by destruct (getter_effect src false (set_onCleanup_noop true entry)) as [-> _]. }
  destruct (flush o); cbv iota; cbn [fst snd]; try done.
Qed.

Lemma step_no_effect src cb o h (w : Watcher) ev :
  effect w = None → step src cb o h w ev = w.
Proof.
  intros HE. destruct ev as [l tracking| | |]; simpl.
  - unfold ApiWatch.notify. by rewrite HE.
  - unfold ApiWatch.job. by rewrite HE.
  - by rewrite HE.
  - destruct h; [done|]. unfold unwatch, effect_stop. by rewrite HE.
Qed.

Lemma history_no_effect src cb o h events (w : Watcher) :
  effect w = None → foldl (step src cb o h) w events = w.
Proof.
  intros HE. induction events as [|ev events IH]; [done|].
  simpl. by rewrite step_no_effect.
Qed.

(** ** A change is reported *)

Lemma triggerEffects_body_keeps_runnings l tracking E :
  _runnings (triggerEffects_body l tracking E).1 = _runnings E.
Proof.
  unfold triggerEffects_body. repeat case_match; done.
Qed.

Lemma at_rest_ext (w w' : Watcher) :
  (∀ E', effect w' = Some E' → ∃ E, effect w = Some E ∧ _runnings E' = _runnings E) →
  at_rest w → at_rest w'.
Proof.
  unfold ApiWatch.at_rest. intros H Hr E' HE'.
  destruct (H E' HE') as (E & HE & ->). by apply Hr.
Qed.

Lemma at_rest_effect_run src cb (w : Watcher) :
  at_rest w → at_rest (effect_run src cb w).2.
Proof.
  apply at_rest_ext. intros E'. destruct (effect_run_effect src cb w) as [-> _].
  destruct (effect w) as [E|]; [|done]. intros [= <-]. by exists E.
Qed.

Lemma at_rest_effect_stop (w : Watcher) :
  at_rest w → at_rest (effect_stop w).
Proof.
  apply at_rest_ext. intros E'. unfold effect_stop.
  destruct (effect w) as [E|] eqn:HE; [|by rewrite HE].
  destruct (active E); [|rewrite HE; intros [= <-]; by exists E].
  wsimpl. destruct (call_cleanup_effect w) as [-> _]. rewrite HE.
  intros [= <-]. by exists E.
Qed.

Lemma at_rest_call_cb o nv old (w : Watcher) :
  at_rest w → at_rest (call_cb o nv old w).
Proof.
  intros Hr. unfold ApiWatch.call_cb.
  set (w0 := set_cb_calls (cb_calls w ++ [(nv, old)]) w).
  destruct (call_user_effect w0) as [H1 _].
  assert (at_rest (call_user w0)) as Hr1.
  { revert Hr. apply at_rest_ext. intros E'. rewrite H1. intros HE'. by exists E'. }
  assert (∀ w' : Watcher, at_rest w' →
            at_rest (set_handled_errors (S (handled_errors w')) w')) as Herr by done.
  destruct (cb_throws _); [by apply Herr|].
  destruct (once o); [|done].
  destruct (effect _); [|by apply Herr].
  by apply at_rest_effect_stop.
Qed.

Lemma at_rest_job src cb o (w : Watcher) :
  at_rest w → at_rest (job src cb o w).
Proof.
  intros Hr. unfold ApiWatch.job.
  destruct (effect w) as [E|] eqn:HE; [|done].
  destruct (active E); simpl; [|done].
  destruct (effect_dirty_spec w E HE) as (l & q & Hw1 & _).
  destruct (effect_dirty w) as [d w1]. simpl in Hw1. subst w1.
  set (w1 := set_queries q (set_effect (Some (set_dirtyLevel l E)) w)).
  assert (at_rest w1) as Hr1.
  { revert Hr. apply at_rest_ext. intros E'. subst w1. wsimpl. intros [= <-].
    by exists E. }
  destruct d; simpl; [|done].
  pose proof (at_rest_effect_run src cb w1 Hr1) as Hr2.
  destruct cb; [|done].
  destruct (effect_run src true w1) as [nv w2]. simpl in Hr2.
  destruct (_ || _); [|done].
  assert (at_rest (call_cleanup w2)) as Hr3.
  { revert Hr2. apply at_rest_ext. intros E'.
    destruct (call_cleanup_effect w2) as [-> _]. intros HE'. by exists E'. }
  by apply (at_rest_call_cb o nv (old_argument undefined src (oldValue (call_cleanup w2))))
    in Hr3.
Qed.

Lemma at_rest_step src cb o h (w : Watcher) ev :
  at_rest w → at_rest (step src cb o h w ev).
Proof.
  intros Hr. destruct ev as [l tracking| | |]; simpl.
  - unfold ApiWatch.notify. destruct (effect w) as [E|] eqn:HE; [|done].
    pose proof (triggerEffects_body_keeps_runnings l tracking E) as Hrun.
    destruct (triggerEffects_body l tracking E) as [E' r]. simpl in Hrun.
    assert (at_rest (set_effect (Some E') w)) as H1.
    { revert Hr. apply at_rest_ext. intros E0. wsimpl. intros [= <-]. by exists E. }
    destruct (_ && _); [|done].
    unfold ApiWatch.scheduler. destruct (flush o); try done.
    by apply at_rest_job.
  - by apply at_rest_job.
  - destruct (effect w); [|done]. by apply at_rest_effect_run.
  - destruct h; [done|]. by apply at_rest_effect_stop.
Qed.

Lemma at_rest_history src cb o h events (w : Watcher) :
  at_rest w → at_rest (foldl (step src cb o h) w events).
Proof.
  revert w. induction events as [|ev events IH]; intros w Hr; [done|].
  simpl. by apply IH, at_rest_step.
Qed.

Lemma at_rest_doWatch src cb o :
  at_rest
    (doWatch undefined hasChanged isArray source_value source_values registers cb_throws
       queried_level false compat_watch_array src cb o).2.
Proof.
  unfold doWatch. cbv iota zeta. cbn [snd].
  set (w3 := set_effect _ (set_oldValue _ _)).
  assert (at_rest w3) as H3 by (by intros E [= <-]).
  destruct cb.
  - destruct (immediate o); [by apply at_rest_job|].
    pose proof (at_rest_effect_run src true w3 H3) as Hr.
    by destruct (effect_run src true w3) as [v w].
  - destruct (flush o); try by apply at_rest_effect_run.
    done.
Qed.

(** The job of a watcher whose effect is [Dirty] and whose value is one to
    report calls the callback, and leaves the effect [NotDirty]. *)
Lemma job_reports src o (w : Watcher) E :
  effect w = Some E → active E = true → _dirtyLevel E = Dirty →
  reports src o (reading src (evaluations w)) (oldValue w) = true →
  cb_calls (job src true o w)
  = cb_calls w ++ [(reading src (evaluations w), old_argument undefined src (oldValue w))]
  ∧ due (job src true o w) = 0.
Proof.
  intros HE Ha Hl Hrep. unfold ApiWatch.job. rewrite HE, Ha. simpl.
  unfold ApiWatch.effect_dirty. rewrite HE, Hl. simpl.
  rewrite effect_run_cb.
  set (nv := reading src (evaluations w)) in *.
  set (w2 := set_evaluations _ _).
  change (oldValue w2) with (oldValue w).
  change (deep o || forceTrigger src || ApiWatch.value_changed undefined hasChanged src nv
            (oldValue w) || compat_watch_array && is_array isArray nv)
    with (reports src o nv (oldValue w)).
  rewrite Hrep.
  destruct (call_cleanup_report w2) as (Hc1 & Hc2 & _).
  destruct (call_cleanup_effect w2) as [Hc4 _].
  destruct (call_cb_report o nv (old_argument undefined src (oldValue (call_cleanup w2)))
              (call_cleanup w2)) as (H1 & _).
  destruct (call_cb_effect o nv (old_argument undefined src (oldValue (call_cleanup w2)))
              (call_cleanup w2)) as [_ H2].
  destruct (H2 (set_dirtyLevel NotDirty E)) as (E' & HE' & Hl').
  { rewrite Hc4. subst w2. wsimpl. by rewrite HE. }
  split.
  - wsimpl. rewrite H1, Hc1, Hc2. done.
  - unfold due. wsimpl. by rewrite HE', Hl'.
Qed.

Lemma job_clean src cb o (w : Watcher) :
  due w = 0 → job src cb o w = w.
Proof.
  unfold due, ApiWatch.job. destruct (effect w) as [E|] eqn:HE; [|done].
  case_bool_decide as Hl; [|done]. intros _.
  destruct (active E); simpl; [|done].
  unfold ApiWatch.effect_dirty. by rewrite HE, Hl.
Qed.

(** ** The properties of watchers

    What the user hands to a watcher is taken as follows: the callback, the
    effect function and the cleanup functions neither write to the sources
    nor call the stop handle, and reading the sources neither throws an
    exception nor writes to a source (a function source may throw:
    [callWithErrorHandling] makes that [undefined]). *)

(** X20, the callback of a watcher gets the value of its last call as old
    value.  The user's functions neither write to the sources nor call the
    stop handle, and reading the sources neither throws an exception nor
    writes to a source.  Outside server-side rendering, for a source of any
    kind, any options and any history of notifications, job runs and stops:
    the first call of the callback has [undefined] as old value ([[]] for an
    array of sources) with [immediate], and the value of the first run of the
    getter without; each later call has the new value of the call before it,
    and [oldValue] holds the new value of the last call. *)
Theorem callback_gets_previous_value src o events :
  chained (old_argument undefined src (initial_old src o))
    (cb_calls (history src true o events))
  ∧ oldValue (history src true o events)
    = last_seen (initial_old src o) (cb_calls (history src true o events)).
Proof.
  unfold watch_history.
  pose proof (reported_history src o
                (doWatch undefined hasChanged isArray source_value source_values registers
                   cb_throws queried_level false compat_watch_array src true o).1
                events _ (reported_doWatch src o)) as [H1 H2 _].
  by split.
Qed.

(** X21, a watcher with [once] stops after the first call of the callback that
    returns.  The user's functions neither write to the sources nor call the
    stop handle, and reading the sources neither throws an exception nor
    writes to a source.  Outside server-side rendering and in any history:
    every call of the callback but the last one threw, and so did the last one
    as long as the watcher is active.  So a callback that threw, and did not
    reach the call of [unwatch] in its wrapper, is called again at the next
    change. *)
Theorem once_stops_after_a_call_returns src o events :
  once o = true →
  (∀ i, S i < length (cb_calls (history src true o events)) → cb_throws i = true)
  ∧ (watching (history src true o events) = true →
     ∀ i, i < length (cb_calls (history src true o events)) → cb_throws i = true).
Proof.
  intros Honce. unfold watch_history.
  pose proof (reported_history src o
                (doWatch undefined hasChanged isArray source_value source_values registers
                   cb_throws queried_level false compat_watch_array src true o).1
                events _ (reported_doWatch src o)) as [_ _ Hcount].
  pose proof (retried_history src o
                (doWatch undefined hasChanged isArray source_value source_values registers
                   cb_throws queried_level false compat_watch_array src true o).1
                events _ Honce (retried_doWatch src o Honce)) as [H1 H2].
  rewrite Hcount. by split.
Qed.

(** X22, a stopped watcher is silent.  The user's functions neither write to
    the sources nor call the stop handle, and reading the sources neither
    throws an exception nor writes to a source.  After the stop handle was
    called, in server-side rendering or not, notifications, job runs and
    further stops call neither the getter nor the callback, the effect
    function or a cleanup function.  (A bound [effect.run] that a watcher
    without callback queued for after the render still calls the effect
    function when its turn comes: the histories after the stop are those
    without such a call.) *)
Theorem stopped_watcher_is_silent ssr src cb o before after :
  run_by_job after →
  let w :=
    watch_history undefined hasChanged isArray source_value source_values registers
      cb_throws queried_level ssr compat_watch_array src cb o (before ++ [Stop]) in
  let w' :=
    watch_history undefined hasChanged isArray source_value source_values registers
      cb_throws queried_level ssr compat_watch_array src cb o (before ++ Stop :: after) in
  watching w' = false ∧ cb_calls w' = cb_calls w ∧ cleanup_calls w' = cleanup_calls w
  ∧ evaluations w' = evaluations w ∧ user_calls w' = user_calls w.
Proof.
  intros Hafter. cbv zeta. unfold watch_history.
  pose proof (doWatch_handle ssr src cb o) as Hh. cbv zeta in Hh.
  set (r := doWatch undefined hasChanged isArray source_value source_values registers
              cb_throws queried_level ssr compat_watch_array src cb o) in *.
  replace (before ++ Stop :: after) with ((before ++ [Stop]) ++ after)
    by by rewrite <- app_assoc.
  rewrite (foldl_app _ (before ++ [Stop]) after).
  set (w := foldl _ r.2 (before ++ [Stop])).
  assert (watching w = false) as Hw.
  { subst w. destruct r.1 eqn:Hr.
    - rewrite history_no_effect by auto. unfold watching. by rewrite Hh.
    - rewrite foldl_app. simpl. apply effect_stop_watching. }
  destruct (history_stopped src cb o r.1 after w Hw Hafter) as (? & ? & ? & ? & ? & _).
  done.
Qed.

(** X23, every registered cleanup function is called once, and in order.  The
    user's functions neither write to the sources nor call the stop handle,
    and reading the sources neither throws an exception nor writes to a
    source.  Outside server-side rendering, for a watcher with or without
    callback and in any history: the cleanup functions called so far, followed
    by the one that waits if there is one, are the functions that the calls of
    the user's function registered, the last one of each call that registered
    any, in the order of the calls.  So the cleanup of a call is called before
    the next call or when the watcher is stopped, and a function that the same
    call replaced by another is never called. *)
Theorem cleanups_are_called_once_in_order src cb o events :
  cleanup_calls (history src cb o events) ++ pending (history src cb o events)
  = registered (user_calls (history src cb o events)).
Proof.
  unfold watch_history.
  assert (∀ h evs (w : Watcher), accounted w →
            accounted (foldl (step src cb o h) w evs)) as Hall.
  { intros h evs. induction evs as [|ev evs IH]; intros w Hacc; [done|].
    simpl. by apply IH, accounted_step. }
  by destruct (Hall (doWatch undefined hasChanged isArray source_value source_values
                       registers cb_throws queried_level false compat_watch_array
                       src cb o).1 events _ (accounted_doWatch src cb o)).
Qed.

(** X24, the getter runs at most once per wake.  The user's functions neither
    write to the sources nor call the stop handle, and reading the sources
    neither throws an exception nor writes to a source.  Outside server-side
    rendering, for a watcher with or without callback and in any history, the
    number of calls of the getter is at most one more than the number of
    notifications and calls of the bound [effect.run]: the job calls the
    getter only when the effect is dirty, however often it is run. *)
Theorem getter_runs_once_per_wake src cb o events :
  evaluations (history src cb o events) ≤ 1 + wakes events.
Proof.
  unfold watch_history.
  destruct (bounded_history src cb o
              (doWatch undefined hasChanged isArray source_value source_values registers
                 cb_throws queried_level false compat_watch_array src cb o).1
              events 0 _ (bounded_doWatch src cb o)) as [_ H].
  eapply Nat.le_trans; [|exact H]. lia.
Qed.

(** X25, without [deep] and for sources that are not reactive or shallow, the
    callback is called for changed values only.  The user's functions neither
    write to the sources nor call the stop handle, and reading the sources
    neither throws an exception nor writes to a source.  Outside server-side
    rendering and the compat build, in any history: the new value of each call
    of the callback differs, by [hasChanged], from the new value of the call
    before it; the one of the first call differs from the value of the first
    run of the getter, when the watcher is not [immediate]. *)
Theorem callback_is_called_for_changes_only src o events :
  deep o = false → forceTrigger src = false → compat_watch_array = false →
  changes_from src (initial_old src o) (cb_calls (history src true o events)).
Proof.
  intros Hdeep Hforce Hcompat. unfold watch_history.
  apply changes_history; try done; [apply reported_doWatch|].
  unfold doWatch. cbv iota zeta. cbn [snd].
  set (w3 := set_effect _ (set_oldValue _ _)).
  destruct (immediate o) eqn:Hi; [|by rewrite effect_run_cb].
  apply changes_job; try done.
  split; try done. unfold ApiWatch.initial_old. rewrite Hi. by destruct src.
Qed.

(** X26, a change is reported by one call of the callback.  The user's
    functions neither write to the sources nor call the stop handle, and
    reading the sources neither throws an exception nor writes to a source.
    Outside server-side rendering, when a watcher with a callback is active
    and its effect is [NotDirty], and the value that the getter yields next is
    one to report (it differs from [oldValue], or the watcher is deep or the
    source reactive or shallow), then a notification at level [Dirty] followed
    by a run of the job calls the callback once, with that value and the old
    one: the notification itself does with [flush: 'sync'], the job does
    otherwise. *)
Theorem change_is_reported_once src o events :
  watching (history src true o events) = true →
  due (history src true o events) = 0 →
  reports src o (reading src (evaluations (history src true o events)))
    (oldValue (history src true o events)) = true →
  cb_calls (history src true o (events ++ [Notify Dirty true; RunJob]))
  = cb_calls (history src true o events)
    ++ [(reading src (evaluations (history src true o events)),
         old_argument undefined src (oldValue (history src true o events)))].
Proof.
  unfold watch_history. rewrite foldl_app.
  set (h := (doWatch undefined hasChanged isArray source_value source_values registers
               cb_throws queried_level false compat_watch_array src true o).1).
  pose proof (at_rest_history src true o h events _ (at_rest_doWatch src true o)) as Hrest.
  set (w := foldl _ _ events) in *.
  intros Hw Hdue Hrep. unfold watching, due in Hw, Hdue.
  destruct (effect w) as [E|] eqn:HE; [|done].
  case_bool_decide as Hl; [|done].
  pose proof (Hrest E HE) as Hrun.
  cbn [foldl ApiWatch.step]. unfold ApiWatch.notify. rewrite HE.
  unfold triggerEffects_body. rewrite Hl. simpl.
  rewrite Hrun, !orb_true_r. simpl.
  set (E1 := set_shouldSchedule false _).
  set (w1 := set_effect (Some E1) w).
  assert (reports src o (reading src (evaluations w1)) (oldValue w1) = true) as Hrep1
    by done.
  destruct (job_reports src o w1 E1 eq_refl Hw eq_refl Hrep1) as [Hcalls Hclean].
  unfold ApiWatch.scheduler. destruct (flush o).
  - by destruct (job_reports src o (set_requests (requests w1 ++ [QueueJob]) w1) E1
                   eq_refl Hw eq_refl Hrep1) as [-> _].
  - by destruct (job_reports src o (set_requests (requests w1 ++ [QueuePostJob]) w1) E1
                   eq_refl Hw eq_refl Hrep1) as [-> _].
  - by rewrite (job_clean src true o _ Hclean), Hcalls.
Qed.

End watcher.

Lemma once_stops_after_a_call_returns_witness :
  once (single_shot Sync) = true
  ∧ length (cb_calls (sample_history false (RefSource false) true (single_shot Sync)
                        [Notify Dirty true; Notify Dirty true])) = 1
  ∧ watching (sample_history false (RefSource false) true (single_shot Sync)
                [Notify Dirty true; Notify Dirty true]) = false.
Proof.
  split; [reflexivity|]. split; [vm_compute; reflexivity|].
  unfold sample_history.
  destruct (once_stops_after_a_call_returns 0 differ (λ _, false) (λ n, n) (λ n k, n + k)
              (λ n, [n]) (λ _, false) (λ _, Dirty) false (RefSource false)
              (single_shot Sync) [Notify Dirty true; Notify Dirty true] eq_refl) as [_ H].
  destruct (watching _) eqn:Hw; [|reflexivity].
  specialize (H eq_refl 0). simpl in H. symmetry. apply H. vm_compute. lia.
Defined.

Lemma stopped_watcher_is_silent_witness :
  run_by_job [Notify Dirty true; RunJob]
  ∧ cb_calls (sample_history false (RefSource false) true (plain Pre)
                ([Notify Dirty true; RunJob] ++ Stop :: [Notify Dirty true; RunJob]))
    = cb_calls (sample_history false (RefSource false) true (plain Pre)
                  ([Notify Dirty true; RunJob] ++ [Stop])).
Proof.
  assert (run_by_job [Notify Dirty true; RunJob]) as Hrun
    by (repeat constructor; discriminate).
  split; [exact Hrun|].
  unfold sample_history.
  destruct (stopped_watcher_is_silent 0 differ (λ _, false) (λ n, n) (λ n k, n + k)
              (λ n, [n]) (λ _, false) (λ _, Dirty) false false (RefSource false) true
              (plain Pre) [Notify Dirty true; RunJob] [Notify Dirty true; RunJob] Hrun)
    as (_ & H & _).
  exact H.
Defined.

Lemma callback_is_called_for_changes_only_witness :
  deep (plain Pre) = false ∧ forceTrigger (RefSource false) = false
  ∧ changes_from 0 differ (RefSource false)
      (initial_old 0 (λ n, n) (λ n k, n + k) (λ n, [n]) (RefSource false) (plain Pre))
      (cb_calls (sample_history false (RefSource false) true (plain Pre)
                   [Notify Dirty true; RunJob; RunJob; Notify Dirty true; RunJob])).
Proof.
  split; [reflexivity|]. split; [reflexivity|].
  unfold sample_history.
  apply (callback_is_called_for_changes_only 0 differ (λ _, false) (λ n, n) (λ n k, n + k)
           (λ n, [n]) (λ _, false) (λ _, Dirty) false (RefSource false) (plain Pre)
           [Notify Dirty true; RunJob; RunJob; Notify Dirty true; RunJob]);
    reflexivity.
Defined.

Lemma change_is_reported_once_witness :
  watching (sample_history false (RefSource false) true (plain Post) []) = true
  ∧ cb_calls (sample_history false (RefSource false) true (plain Post)
                ([] ++ [Notify Dirty true; RunJob])) = [(One 1, One 0)].
Proof.
  split; [vm_compute; reflexivity|].
  unfold sample_history.
  rewrite (change_is_reported_once 0 differ (λ _, false) (λ n, n) (λ n k, n + k)
             (λ n, [n]) (λ _, false) (λ _, Dirty) false (RefSource false) (plain Post) []).
  - vm_compute. reflexivity.
  - vm_compute. reflexivity.
  - vm_compute. reflexivity.
  - vm_compute. reflexivity.
Defined.

End ApiWatchProofs.

